(** * molsolvent: a shallow embedding of the trajectory readers and kernels

    The Go packages [util], [disttwoatoms], [radiusgyration], [nopbc], [gr]
    and [volume] are embedded function by function.  A [float64] is a
    primitive binary64 float, an [int] is a [Z], a Go map is a [gmap], a
    slice is a [list], a [[3]float64] is a list of three floats read with
    [at3], and a [*bufio.Reader] is the list of the chunks that successive
    [ReadSlice('\n')] calls return. *)

From Stdlib Require Import ZArith Ascii String Floats.
From stdpp Require Import gmap strings list fin_maps.

Set Warnings "-inexact-float".

Local Open Scope string_scope.
Local Open Scope list_scope.
Local Open Scope Z_scope.

(** ** Outcomes of a Go call *)

(** The errors the packages build with [fmt.Errorf] and [errors.New], kept
    as a tree: [Wrap] and [WrapStep] are the [%w] wrappers. *)
Inductive error : Type :=
| ErrSyntax (fn : string) (num : string)
| ErrRange (fn : string) (num : string)
| ErrBoxSize
| ErrNotEnoughCols (got : nat)
| ErrColsNotFound
| ErrColsMismatch (got expected : nat)
| ErrColsMismatchId (id : nat) (got expected : nat)
| ErrNoMass (typ : string)
| ErrConfig (msg : string)
| Wrap (ctx : string) (e : error)
| WrapStep (ctx : string) (step : Z) (e : error).

(** A call returns normally ([Ok]), returns a non-nil [error] ([Err]) or
    panics ([Panic]): slice bounds and index out of range, integer division
    by zero. *)
Inductive result (A : Type) : Type :=
| Ok (a : A)
| Err (e : error)
| Panic (msg : string).
Arguments Ok {A} a.
Arguments Err {A} e.
Arguments Panic {A} msg.

Definition is_Err {A} (r : result A) : Prop :=
  match r with Err _ => True | _ => False end.

Definition is_Ok {A} (r : result A) : Prop :=
  match r with Ok _ => True | _ => False end.

(** Code that threads a state [S] (a reader, or a reader and a writer). *)
Definition M (S A : Type) : Type := S -> result (A * S).

Definition ret {S A} (a : A) : M S A := fun s => Ok (a, s).

Definition bind {S A B} (m : M S A) (k : A -> M S B) : M S B :=
  fun s => match m s with
           | Ok (a, s') => k a s'
           | Err e => Err e
           | Panic msg => Panic msg
           end.

Definition fail {S A} (e : error) : M S A := fun _ => Err e.

Definition panic {S A} (msg : string) : M S A := fun _ => Panic msg.

(** [fmt.Errorf(ctx + ": %w", err)] around a call. *)
Definition wrap {S A} (ctx : string) (m : M S A) : M S A :=
  fun s => match m s with
           | Err e => Err (Wrap ctx e)
           | r => r
           end.

Notation "x <~ m ;; k" := (bind m (fun x => k))
  (at level 20, m at level 99, k at level 200, only parsing).
Notation "' p <~ m ;; k" := (bind m (fun x => let p := x in k))
  (at level 20, p pattern, m at level 99, k at level 200, only parsing).
Notation "m ;;; k" := (bind m (fun _ => k))
  (at level 100, k at level 200, only parsing, right associativity).

(** [for i := 0; i < n; i++ { body }] where the body does not use [i]. *)
Fixpoint repeatM {S} (n : nat) (body : M S unit) : M S unit :=
  match n with
  | O => ret tt
  | Datatypes.S n' => body ;;; repeatM n' body
  end.

(** A Go loop bound [i < n] with [n : int]: no iteration when [n <= 0]. *)
Definition times (n : Z) : nat := Z.to_nat n.

(** ** Package [strings] *)

(** [unicode.IsSpace] on ASCII. *)
Definition is_space (c : ascii) : bool :=
  let n := nat_of_ascii c in
  ((9 <=? n)%nat && (n <=? 13)%nat) || (n =? 32)%nat.

Fixpoint Fields_go (cur : string) (s : string) : list string :=
  match s with
  | EmptyString =>
      match cur with EmptyString => [] | _ => [String.rev cur] end
  | String c s' =>
      if is_space c then
        match cur with
        | EmptyString => Fields_go "" s'
        | _ => String.rev cur :: Fields_go "" s'
        end
      else Fields_go (String c cur) s'
  end.

(** [strings.Fields]: the maximal runs of non-space bytes. *)
Definition Fields (s : string) : list string := Fields_go "" s.

Fixpoint trim_left (s : string) : string :=
  match s with
  | String c s' => if is_space c then trim_left s' else s
  | EmptyString => EmptyString
  end.

(** [strings.TrimSpace]. *)
Definition TrimSpace (s : string) : string :=
  String.rev (trim_left (String.rev (trim_left s))).

(** ** Package [strconv] *)

Definition digit_of (c : ascii) : option Z :=
  let n := nat_of_ascii c in
  if ((48 <=? n)%nat && (n <=? 57)%nat) then Some (Z.of_nat n - 48) else None.

Fixpoint digits_go (acc : Z) (s : string) : option Z :=
  match s with
  | EmptyString => Some acc
  | String c s' =>
      match digit_of c with
      | Some d => digits_go (acc * 10 + d) s'
      | None => None
      end
  end.

(** A non-empty run of decimal digits. *)
Definition digits (s : string) : option Z :=
  match s with
  | EmptyString => None
  | _ => digits_go 0 s
  end.

Definition min_int : Z := - 2 ^ 63.
Definition max_int : Z := 2 ^ 63 - 1.

(** [int] arithmetic: 64-bit two's complement. *)
Definition wrap64 (z : Z) : Z := (z + 2 ^ 63) mod 2 ^ 64 - 2 ^ 63.
Definition add64 (a b : Z) : Z := wrap64 (a + b).
Definition sub64 (a b : Z) : Z := wrap64 (a - b).
Definition mul64 (a b : Z) : Z := wrap64 (a * b).

(** [strconv.Atoi] on a 64-bit platform: an optional sign, then decimal
    digits only.  The value comes with the error: [0] for a syntax error,
    the nearest [int] for a value out of range. *)
Definition Atoi (s : string) : Z * option error :=
  let '(neg, body) :=
    match s with
    | String "-" s' => (true, s')
    | String "+" s' => (false, s')
    | _ => (false, s)
    end in
  match digits body with
  | None => (0, Some (ErrSyntax "Atoi" s))
  | Some n =>
      let v := if neg then - n else n in
      if v <? min_int then (min_int, Some (ErrRange "Atoi" s))
      else if max_int <? v then (max_int, Some (ErrRange "Atoi" s))
      else (v, None)
  end.

(** ** [float64] *)

Definition float_of_Z (z : Z) : float :=
  SF2Prim (binary_normalize prec emax z 0 false).

(** The conversion [int(f)]: truncation toward zero.  Go leaves the result
    for NaN, infinities and values outside [int] to the platform; amd64
    gives the smallest [int]. *)
Definition int_of_float (f : float) : Z :=
  match Prim2SF f with
  | S754_zero _ => 0
  | S754_finite s m e =>
      let a := if 0 <=? e then Z.pos m * 2 ^ e else Z.pos m / 2 ^ (- e) in
      let v := if s then - a else a in
      if (min_int <=? v) && (v <=? max_int) then v else min_int
  | _ => min_int
  end.

(** [math.Trunc]. *)
Definition Trunc (x : float) : float :=
  match Prim2SF x with
  | S754_finite s m e =>
      if 0 <=? e then x
      else
        let q := Z.pos m / 2 ^ (- e) in
        if q =? 0 then (if s then (- 0)%float else 0%float)
        else float_of_Z (if s then - q else q)
  | _ => x
  end.

(** [math.Round]: to the nearest integer, halves away from zero. *)
Definition Round (x : float) : float :=
  let t := Trunc x in
  if (0.5 <=? abs (x - t))%float
  then (t + (if (x <? 0)%float then (- 1) else 1))%float
  else t.

Definition MaxFloat64 : float := 0x1.fffffffffffffp+1023%float.

(** A decimal literal [m * 10 ^ e] rounded once to the nearest binary64
    (ties to even): the quotient keeps more than 64 bits and a sticky bit. *)
Definition float_of_decimal (neg : bool) (m e : Z) : float :=
  if m =? 0 then (if neg then (- 0)%float else 0%float)
  else
    let sf :=
      if 0 <=? e then binary_normalize prec emax (m * 10 ^ e) 0 false
      else
        let d := 10 ^ (- e) in
        let s := 64 + Z.log2 d in
        let n := m * 2 ^ s in
        let q := n / d in
        let sticky := if n mod d =? 0 then 0 else 1 in
        binary_normalize prec emax (2 * q + sticky) (- s - 1) false in
    let f := SF2Prim sf in
    if neg then (- f)%float else f.

Fixpoint split_at (p : ascii -> bool) (s : string) : string * option string :=
  match s with
  | EmptyString => (EmptyString, None)
  | String c s' =>
      if p c then (EmptyString, Some s')
      else let '(a, b) := split_at p s' in (String c a, b)
  end.

Definition signed (s : string) : bool * string :=
  match s with
  | String "-" s' => (true, s')
  | String "+" s' => (false, s')
  | _ => (false, s)
  end.

Definition digits_or_empty (s : string) : option Z := digits_go 0 s.

(** [strconv.ParseFloat(s, 64)] with its error dropped, as every caller in
    these packages does: the value of a decimal literal
    [[+-]digits[.digits][(e|E)[+-]digits]], and [0] for a syntax error.
    The hexadecimal, [inf] and [nan] spellings that Go also reads are
    outside this model (they read as [0] here); no general statement below
    depends on how a token is read. *)
Definition ParseFloat (s : string) : float :=
  let '(neg, body) := signed s in
  let '(mant, ex) := split_at (fun c => Ascii.eqb c "e" || Ascii.eqb c "E") body in
  let '(ip, fp) := split_at (fun c => Ascii.eqb c ".") mant in
  let fp := default EmptyString fp in
  let e10 :=
    match ex with
    | None => Some 0
    | Some es =>
        let '(eneg, eb) := signed es in
        (fun v => if eneg then - v else v) <$> digits eb
    end in
  match digits_or_empty ip, digits_or_empty fp, e10 with
  | Some i, Some f, Some e =>
      if (String.length ip + String.length fp =? 0)%nat then 0%float
      else
        let k := Z.of_nat (String.length fp) in
        float_of_decimal neg (i * 10 ^ k + f) (e - k)
  | _, _, _ => 0%float
  end.

(** [util.Pow]: [res := x; for i := 0; i < (n - 1); i++ { res *= x }], with
    the [int] subtraction [n - 1], which wraps at the smallest [int]. *)
Fixpoint Pow_go (x res : float) (n : nat) : float :=
  match n with
  | O => res
  | Datatypes.S n' => Pow_go x (res * x)%float n'
  end.

Definition Pow (x : float) (n : Z) : float := Pow_go x x (times (sub64 n 1)).

(** A [[3]float64] read at an index [k < 3]. *)
Definition at3 (v : list float) (k : nat) : float := nth k v 0%float.

(** ** [bufio.Reader] *)

(** The chunks still to come, each with its ['\n'] when it has one. *)
Definition Reader : Type := list string.

(** [b, _ := r.ReadSlice('\n')]: the next chunk, or nothing at the end of
    the input (the error is dropped by every caller). *)
Definition ReadSlice : M Reader string :=
  fun r => match r with
           | [] => Ok ("", [])
           | l :: r' => Ok (l, r')
           end.

(** [string(b)[:len(b)-1]]. *)
Definition drop_last (b : string) : result string :=
  match b with
  | EmptyString => Panic "slice bounds out of range [:-1]"
  | _ => Ok (String.rev (match String.rev b with
                         | String _ s => s
                         | EmptyString => EmptyString
                         end))
  end.

(** [fields[i]]: a run-time panic when [i] is out of range. *)
Definition index {S} (fields : list string) (i : nat) : M S string :=
  match fields !! i with
  | Some v => ret v
  | None => panic "index out of range"
  end.

(** [xyz[k], _ = strconv.ParseFloat(fields[cols[k]], 64)] for [k < 3]. *)
Definition coords3 {S} (cols : list nat) (fields : list string) : M S (list float) :=
  x <~ index fields (nth 0 cols 0%nat) ;;
  y <~ index fields (nth 1 cols 0%nat) ;;
  z <~ index fields (nth 2 cols 0%nat) ;;
  ret [ParseFloat x; ParseFloat y; ParseFloat z].

Fixpoint index_of (v : string) (names : list string) : option nat :=
  match names with
  | [] => None
  | n :: names' =>
      if String.eqb v n then Some 0%nat
      else Datatypes.S <$> index_of v names'
  end.

(** The column search of every [readCfgFirst]:
    [for k, v := range fields { switch v { case names[j]: cols[j] = k;
    default: continue }; found++ }], from zeroed [cols] and [found]. *)
Definition scan_cols (names fields : list string) : list nat * nat :=
  fold_left
    (fun (st : list nat * nat) (kv : nat * string) =>
       match index_of kv.2 names with
       | Some j => (<[j := kv.1]> st.1, Datatypes.S st.2)
       | None => st
       end)
    (imap pair fields) (replicate (length names) 0%nat, 0%nat).

(** ** Package [util] *)

Module util.
Section header.
Context {S : Type}.
(** The [readSlice] callback: [nopbc] copies each line to its output, the
    other packages only read. *)
Variable readSlice : M S string.

(** One pass of the loop of [HeaderBox]. *)
Definition box_line : M S float :=
  b <~ readSlice ;;
  match Fields b with
  | [lo; hi] => ret (ParseFloat hi - ParseFloat lo)%float
  | _ => fail ErrBoxSize
  end.

Definition HeaderBox : M S (list float) :=
  bx <~ box_line ;; by_ <~ box_line ;; bz <~ box_line ;;
  ret [bx; by_; bz].

(** [atoms, _ = strconv.Atoi(atomsStr)]: the error is dropped. *)
Definition Header : M S (Z * list float) :=
  repeatM 3 (readSlice ;;; ret tt) ;;;
  b <~ readSlice ;;
  let atoms := (Atoi (TrimSpace b)).1 in
  readSlice ;;;
  box <~ HeaderBox ;;
  ret (atoms, box).

Definition HeaderWOutAtoms : M S (list float) :=
  repeatM 5 (readSlice ;;; ret tt) ;;;
  HeaderBox.
End header.

Definition skip_line : M Reader unit := ReadSlice ;;; ret tt.

(** [atoms, err := strconv.Atoi(string(b)[:len(b)-1])] after [b, _ :=
    r.ReadSlice('\n')], as [ReadCfgNonCvg] and two [readCfgFirst] do. *)
Definition atoi_line : M Reader Z :=
  b <~ ReadSlice ;;
  match drop_last b with
  | Ok s =>
      match Atoi s with
      | (n, None) => ret n
      | (_, Some e) => fail e
      end
  | Err e => fail e
  | Panic msg => panic msg
  end.

Definition ReadCfgNonCvg (x : Z) : M Reader unit :=
  if x =? 0 then ret tt
  else
    repeatM 3 skip_line ;;;
    atoms <~ atoi_line ;;
    repeatM (times (add64 5 atoms)) skip_line ;;;
    repeatM (times (mul64 (sub64 x 1) (add64 (add64 3 6) atoms))) skip_line.
End util.

(** ** Package [radiusgyration] *)

Module radiusgyration.

Record RadiusGyration : Type := {
  CfgStart : Z;
  CfgEnd : Z;
  AtomStart : Z;
  AtomEnd : Z;
  Masses : gmap string float;
  Dt : float;
  atoms : Z;
  cols : list nat;
  colsLen : nat
}.

Definition set_atoms (r : RadiusGyration) (n : Z) : RadiusGyration :=
  {| CfgStart := CfgStart r; CfgEnd := CfgEnd r; AtomStart := AtomStart r;
     AtomEnd := AtomEnd r; Masses := Masses r; Dt := Dt r;
     atoms := n; cols := cols r; colsLen := colsLen r |}.

Definition set_cols (r : RadiusGyration) (c : list nat) (n : nat) : RadiusGyration :=
  {| CfgStart := CfgStart r; CfgEnd := CfgEnd r; AtomStart := AtomStart r;
     AtomEnd := AtomEnd r; Masses := Masses r; Dt := Dt r;
     atoms := atoms r; cols := c; colsLen := n |}.

(** The same configuration with another table of masses. *)
Definition with_masses (r : RadiusGyration) (m : gmap string float) : RadiusGyration :=
  {| CfgStart := CfgStart r; CfgEnd := CfgEnd r; AtomStart := AtomStart r;
     AtomEnd := AtomEnd r; Masses := m; Dt := Dt r; atoms := atoms r;
     cols := cols r; colsLen := colsLen r |}.

(** One pass of the middle loop of [fetchXYZ]: a selected row. *)
Definition row (r : RadiusGyration) : M Reader (list float * string) :=
  b <~ ReadSlice ;;
  let fields := Fields b in
  if negb (length fields =? colsLen r)%nat
  then fail (ErrColsMismatch (length fields) (colsLen r))
  else
    xyzTmp <~ coords3 (cols r) fields ;;
    typ <~ index fields (nth 3 (cols r) 0%nat) ;;
    ret (xyzTmp, typ).

Fixpoint rows (r : RadiusGyration) (n : nat) : M Reader (list (list float) * list string) :=
  match n with
  | O => ret ([], [])
  | Datatypes.S n' =>
      '(v, t) <~ row r ;;
      '(xyz, types) <~ rows r n' ;;
      ret (v :: xyz, t :: types)
  end.

Definition fetchXYZ (r : RadiusGyration) : M Reader (list (list float) * list string) :=
  repeatM (times (AtomStart r)) util.skip_line ;;;
  res <~ rows r (times (sub64 (AtomEnd r) (AtomStart r))) ;;
  repeatM (times (sub64 (atoms r) (AtomEnd r))) util.skip_line ;;;
  ret res.

Definition readCfgFirst (r : RadiusGyration)
  : M Reader (RadiusGyration * (list (list float) * list string)) :=
  repeatM 3 util.skip_line ;;;
  n <~ util.atoi_line ;;
  let r := set_atoms r n in
  repeatM 4 util.skip_line ;;;
  b <~ ReadSlice ;;
  let fields := Fields b in
  if (length fields <=? 2)%nat then fail (ErrNotEnoughCols (length fields))
  else
    let fields := drop 2 fields in
    let '(c, found) := scan_cols ["xu"; "yu"; "zu"; "type"] fields in
    let r := set_cols r c (length fields) in
    if (found <? 4)%nat then fail ErrColsNotFound
    else
      res <~ wrap "fetchXYZ" (fetchXYZ r) ;;
      ret (r, res).

Definition readCfg (r : RadiusGyration) : M Reader (list (list float) * list string) :=
  repeatM 9 util.skip_line ;;;
  wrap "fetchXYZ" (fetchXYZ r).

(** The first loop of [calc]: the total mass and the mass-weighted sums,
    or the error for a type without a mass. *)
Fixpoint weigh (masses : gmap string float) (xyz : list (list float))
    (types : list string) (massTot : float) (com : list float)
  : result (float * list float) :=
  match xyz with
  | [] => Ok (massTot, com)
  | v :: xyz' =>
      match types with
      | [] => Panic "index out of range"
      | t :: types' =>
          match masses !! t with
          | None => Err (ErrNoMass t)
          | Some mass =>
              weigh masses xyz' types' (massTot + mass)%float
                [ (at3 com 0 + at3 v 0 * mass)%float;
                  (at3 com 1 + at3 v 1 * mass)%float;
                  (at3 com 2 + at3 v 2 * mass)%float ]
          end
      end
  end.

(** The second loop of [calc]: [radius += mult * mult] per atom and axis. *)
Definition spread (com : list float) (xyz : list (list float)) (radius : float) : float :=
  fold_left
    (fun rad v =>
       fold_left (fun rad k => (rad + (at3 v k - at3 com k) * (at3 v k - at3 com k))%float)
         [0; 1; 2]%nat rad)
    xyz radius.

(** A line of the result file: [cfg t radius]. *)
Definition Row : Type := Z * float * float.

Definition calc (r : RadiusGyration) (cfg : Z) (xyz : list (list float))
    (types : list string) : M (list Row) unit :=
  fun w =>
    match weigh (Masses r) xyz types 0 [0; 0; 0]%float with
    | Err e => Err e
    | Panic msg => Panic msg
    | Ok (massTot, com) =>
        let com := map (fun c => (c / massTot)%float) com in
        let radius := spread com xyz 0 in
        let radius := (radius / float_of_Z (mul64 (Z.of_nat (length xyz)) 3))%float in
        let radius := PrimFloat.sqrt radius in
        let step := add64 cfg (CfgStart r) in
        Ok (tt, w ++ [(step, (float_of_Z step * Dt r)%float, radius)])
    end.

(** [r.calc(out, i, xyz, types)] as [Start] calls it: the returned error is
    dropped, and [calc] returns it before it writes. *)
Definition calc_dropped (r : RadiusGyration) (cfg : Z) (xyz : list (list float))
    (types : list string) (w : list Row) : list Row :=
  match calc r cfg xyz types w with
  | Ok (_, w') => w'
  | _ => w
  end.

Fixpoint frames_loop (r : RadiusGyration) (n : nat) (i : Z) (rd : Reader)
    (w : list Row) : result unit * list Row :=
  match n with
  | O => (Ok tt, w)
  | Datatypes.S n' =>
      match readCfg r rd with
      | Ok ((xyz, types), rd') =>
          frames_loop r n' (i + 1) rd' (calc_dropped r i xyz types w)
      | Err e => (Err (WrapStep "readCfg" i e), w)
      | Panic msg => (Panic msg, w)
      end
  end.

(** [Start] once both files are open: the outcome and the rows written. *)
Definition Start (r : RadiusGyration) (rd : Reader) : result unit * list Row :=
  match wrap "ReadCfgNonCvg" (util.ReadCfgNonCvg (CfgStart r)) rd with
  | Err e => (Err e, [])
  | Panic msg => (Panic msg, [])
  | Ok (_, rd) =>
      match wrap "readCfgFirst" (readCfgFirst r) rd with
      | Err e => (Err e, [])
      | Panic msg => (Panic msg, [])
      | Ok ((r, (xyz, types)), rd) =>
          frames_loop r (times (sub64 (CfgEnd r) (CfgStart r) - 1)) 1 rd
            (calc_dropped r 0 xyz types [])
      end
  end.

(** [New] once the TOML file is decoded. *)
Definition New (start stop atomStart atomEnd : Z) (masses : gmap string float)
    (dt : float) : result RadiusGyration :=
  if stop <=? start then Err (ErrConfig "CfgStart is greater or equal than CfgEnd")
  else if atomEnd <=? atomStart
  then Err (ErrConfig "AtomStart is greater or equal than AtomEnd")
  else
    Ok {| CfgStart := start; CfgEnd := stop; AtomStart := atomStart;
          AtomEnd := atomEnd; Masses := masses; Dt := dt; atoms := 0;
          cols := [0; 0; 0; 0]%nat; colsLen := 0 |}.

End radiusgyration.

(** ** Package [disttwoatoms] *)

Module disttwoatoms.

Record DistTwoAtoms : Type := {
  CfgStart : Z;
  CfgEnd : Z;
  Atom1 : Z;
  Atom2 : Z;
  Dt : float;
  atoms : Z;
  cols : list nat;
  colsLen : nat
}.

Definition set_atoms (d : DistTwoAtoms) (n : Z) : DistTwoAtoms :=
  {| CfgStart := CfgStart d; CfgEnd := CfgEnd d; Atom1 := Atom1 d;
     Atom2 := Atom2 d; Dt := Dt d; atoms := n; cols := cols d;
     colsLen := colsLen d |}.

Definition set_cols (d : DistTwoAtoms) (c : list nat) (n : nat) : DistTwoAtoms :=
  {| CfgStart := CfgStart d; CfgEnd := CfgEnd d; Atom1 := Atom1 d;
     Atom2 := Atom2 d; Dt := Dt d; atoms := atoms d; cols := c;
     colsLen := n |}.

Definition readXYZ (d : DistTwoAtoms) : M Reader (list float) :=
  b <~ ReadSlice ;;
  let fields := Fields b in
  if negb (length fields =? colsLen d)%nat
  then fail (ErrColsMismatch (length fields) (colsLen d))
  else coords3 (cols d) fields.

Definition fetchXYZ (d : DistTwoAtoms) : M Reader (list float * list float) :=
  repeatM (times (Atom1 d)) util.skip_line ;;;
  xyz1 <~ wrap "readXYZ" (readXYZ d) ;;
  repeatM (times (sub64 (sub64 (Atom2 d) (Atom1 d)) 1)) util.skip_line ;;;
  xyz2 <~ wrap "readXYZ" (readXYZ d) ;;
  repeatM (times (sub64 (sub64 (atoms d) (Atom2 d)) 1)) util.skip_line ;;;
  ret (xyz1, xyz2).

Definition readCfgFirst (d : DistTwoAtoms)
  : M Reader (DistTwoAtoms * (list float * list float)) :=
  repeatM 3 util.skip_line ;;;
  n <~ util.atoi_line ;;
  let d := set_atoms d n in
  repeatM 4 util.skip_line ;;;
  b <~ ReadSlice ;;
  let fields := Fields b in
  if (length fields <=? 2)%nat then fail (ErrNotEnoughCols (length fields))
  else
    let fields := drop 2 fields in
    let '(c, found) := scan_cols ["xu"; "yu"; "zu"] fields in
    let d := set_cols d c (length fields) in
    if (found <? 3)%nat then fail ErrColsNotFound
    else
      res <~ wrap "fetchXYZ" (fetchXYZ d) ;;
      ret (d, res).

Definition readCfg (d : DistTwoAtoms) : M Reader (list float * list float) :=
  repeatM 9 util.skip_line ;;;
  wrap "fetchXYZ" (fetchXYZ d).

(** [New] once the TOML file is decoded. *)
Definition New (start stop atom1 atom2 : Z) (dt : float) : result DistTwoAtoms :=
  if stop <=? start then Err (ErrConfig "CfgStart is greater or equal than CfgEnd")
  else if atom2 <=? atom1 then Err (ErrConfig "Atom1 is greater or equal than Atom2")
  else
    Ok {| CfgStart := start; CfgEnd := stop; Atom1 := atom1; Atom2 := atom2;
          Dt := dt; atoms := 0; cols := [0; 0; 0]%nat; colsLen := 0 |}.

(** A line of the result file: [cfg t x y z dist]. *)
Definition Row : Type := Z * float * list float * float.

(** What [Start] returns and the rows it has written. *)
Definition outcome : Type := result unit * list Row.

(** [result]: the vector between the two atoms and its length, written
    under the absolute index of the frame. *)
Definition result (d : DistTwoAtoms) (cfg : Z) (xyz1 xyz2 : list float)
    (w : list Row) : list Row :=
  let vec := map (fun k => (at3 xyz1 k - at3 xyz2 k)%float) [0; 1; 2]%nat in
  let dist := fold_left (fun dist v => (dist + Pow v 2)%float) vec 0%float in
  let step := add64 cfg (CfgStart d) in
  w ++ [(step, (float_of_Z step * Dt d)%float, vec, PrimFloat.sqrt dist)].

(** [for i := 1; i <= CfgEnd - CfgStart - 1; i++] of [Start], with [n]
    passes left. *)
Fixpoint frames_loop (d : DistTwoAtoms) (n : nat) (i : Z) (rd : Reader)
    (w : list Row) : outcome :=
  match n with
  | O => (Ok tt, w)
  | Datatypes.S n' =>
      match readCfg d rd with
      | Ok ((xyz1, xyz2), rd') => frames_loop d n' (i + 1) rd' (result d i xyz1 xyz2 w)
      | Err e => (Err (WrapStep "readCfg" i e), w)
      | Panic msg => (Panic msg, w)
      end
  end.

(** [Start] once both files are open: the outcome and the rows written. *)
Definition Start (d : DistTwoAtoms) (rd : Reader) : outcome :=
  match wrap "ReadCfgNonCvg" (util.ReadCfgNonCvg (CfgStart d)) rd with
  | Err e => (Err e, [])
  | Panic msg => (Panic msg, [])
  | Ok (_, rd) =>
      match wrap "readCfgFirst" (readCfgFirst d) rd with
      | Err e => (Err e, [])
      | Panic msg => (Panic msg, [])
      | Ok ((d, (xyz1, xyz2)), rd) =>
          frames_loop d (times (sub64 (sub64 (CfgEnd d) (CfgStart d)) 1)) 1 rd
            (result d 0 xyz1 xyz2 [])
      end
  end.

(** The index column of the rows. *)
Definition steps_of (w : list Row) : list Z := map (fun r : Row => r.1.1.1) w.

End disttwoatoms.

(** ** Package [nopbc] *)

Module nopbc.

Record NoPBC : Type := {
  Size : gmap string (list float);
  atoms : Z;
  cols : list nat;
  colsBuf : string;
  colsLen : nat
}.

(** The same unwrapper with another table of thresholds. *)
Definition with_size (n : NoPBC) (sz : gmap string (list float)) : NoPBC :=
  {| Size := sz; atoms := atoms n; cols := cols n; colsBuf := colsBuf n;
     colsLen := colsLen n |}.

(** What reaches the output file: a chunk copied or built as text, or an
    atom row whose coordinate columns hold the numbers that
    [strconv.AppendFloat] prints. *)
Inductive token : Type :=
| Txt (s : string)
| Num (f : float).

Inductive chunk : Type :=
| Raw (b : string)
| Atom (toks : list token).

(** The reader and what has been written so far. *)
Definition IO : Type := Reader * list chunk.

Definition readOnly : M IO string :=
  fun s => match ReadSlice s.1 with
           | Ok (b, r) => Ok (b, (r, s.2))
           | Err e => Err e
           | Panic msg => Panic msg
           end.

Definition put (c : chunk) : M IO unit :=
  fun s => Ok (tt, (s.1, s.2 ++ [c])).

(** [readSlice]: the line is copied to the output. *)
Definition readSlice : M IO string :=
  b <~ readOnly ;; put (Raw b) ;;; ret b.

(** The row that [write] builds: the fields, with the coordinate columns
    replaced ([switch k] takes the first case that matches). *)
Definition tokens (n : NoPBC) (fields : list string) (xyz : list float) : list token :=
  imap (fun k v =>
          if (k =? nth 0 (cols n) 0)%nat then Num (at3 xyz 0)
          else if (k =? nth 1 (cols n) 0)%nat then Num (at3 xyz 1)
          else if (k =? nth 2 (cols n) 0)%nat then Num (at3 xyz 2)
          else Txt v) fields.

Definition write (n : NoPBC) (fields : list string) (xyz : list float) : M IO unit :=
  put (Atom (tokens n fields xyz)).

(** The header rewritten by [readCfgFirst]: the columns found and the text
    put in [buf] after the two leading words. *)
Definition scan_header (fields : list string) : list nat * nat * string :=
  fold_left
    (fun (st : list nat * nat * string) (kv : nat * string) =>
       let '(c, found, buf) := st in
       let '(k, v) := kv in
       if String.eqb v "x" then (<[0%nat := k]> c, Datatypes.S found, (buf ++ "xu" ++ " ")%string)
       else if String.eqb v "y" then (<[1%nat := k]> c, Datatypes.S found, (buf ++ "yu" ++ " ")%string)
       else if String.eqb v "z" then (<[2%nat := k]> c, Datatypes.S found, (buf ++ "zu" ++ " ")%string)
       else if String.eqb v "mol" then (<[3%nat := k]> c, Datatypes.S found, (buf ++ v ++ " ")%string)
       else (c, found, (buf ++ v ++ " ")%string))
    (imap pair fields) ([0; 0; 0; 0]%nat, 0%nat, EmptyString).

(** The wrap test of the first frame, against the previous atom of the
    same molecule. *)
Definition axis_first (box size last raw : float) : float :=
  let dist := (last - raw)%float in
  if (size <? dist)%float then (raw + box)%float
  else if (dist <? - size)%float then (raw - box)%float
  else raw.

(** The wrap test of a later frame, against the same atom one frame
    earlier: the new coordinate and the new correction. *)
Definition axis_next (box box2 last corr raw : float) : float * float :=
  let xyz := (raw + corr)%float in
  let dist := (last - xyz)%float in
  if (box2 <? dist)%float then ((xyz + box)%float, (corr + box)%float)
  else if (dist <? - box2)%float then ((xyz - box)%float, (corr - box)%float)
  else (xyz, corr).

Definition half (box : list float) : list float :=
  [ (at3 box 0 / 2)%float; (at3 box 1 / 2)%float; (at3 box 2 / 2)%float ].

(** The state of the atom loop of [readCfgFirst]. *)
Record first_state : Type := {
  mol : string;
  lastXYZ : list float;
  size : list float
}.

(** One pass of the atom loop of [readCfgFirst]. *)
Definition row_first (n : NoPBC) (box : list float) (i : nat) (st : first_state)
  : M IO first_state :=
  b <~ readOnly ;;
  let fields := Fields b in
  if negb (length fields =? colsLen n)%nat
  then fail (ErrColsMismatchId i (length fields) (colsLen n))
  else
    m <~ index fields (nth 3 (cols n) 0%nat) ;;
    raw <~ coords3 (cols n) fields ;;
    let st' :=
      if negb (String.eqb m (mol st)) then
        {| mol := m; lastXYZ := raw;
           size := match Size n !! m with
                   | Some sizeMap => [at3 sizeMap 0; at3 sizeMap 1; at3 sizeMap 2]
                   | None => half box
                   end |}
      else
        {| mol := mol st;
           lastXYZ := map (fun k => axis_first (at3 box k) (at3 (size st) k)
                                      (at3 (lastXYZ st) k) (at3 raw k))
                          [0; 1; 2]%nat;
           size := size st |} in
    write n fields (lastXYZ st') ;;;
    ret st'.

Fixpoint rows_first (n : NoPBC) (box : list float) (count i : nat)
    (st : first_state) : M IO (list (list float)) :=
  match count with
  | O => ret []
  | Datatypes.S count' =>
      st' <~ row_first n box i st ;;
      xyz <~ rows_first n box count' (Datatypes.S i) st' ;;
      ret (lastXYZ st' :: xyz)
  end.

Definition set_header (n : NoPBC) (a : Z) (c : list nat) (buf : string) (len : nat) : NoPBC :=
  {| Size := Size n; atoms := a; cols := c; colsBuf := buf; colsLen := len |}.

(** The [lastByte] that [bufio.Reader] keeps: the last byte of the last
    slice that was not empty among those [ReadSlice] has returned. *)
Definition last_byte (read : list string) : option ascii :=
  fold_left
    (fun c b => match String.rev b with
                | String a _ => Some a
                | EmptyString => c
                end)
    read None.

(** [_, err = r.ReadByte()] followed by [r.UnreadByte()], where [read] are
    the chunks the reader held when the caller was entered.  A byte that
    [ReadByte] takes is put back.  At the end of the input [ReadByte] fails
    and leaves [lastByte] as it was, so that [UnreadByte] puts back the
    last byte of the last slice read: the reader then holds one chunk of
    one byte (and nothing when no slice had a byte, the error of
    [UnreadByte] being dropped).  Errors other than [io.EOF] are errors of
    the file system, which the model does not have. *)
Definition peek (read : list string) : M IO unit :=
  fun s => match s.1 with
           | [] => match last_byte read with
                   | Some c => Ok (tt, ([String c EmptyString], s.2))
                   | None => Ok (tt, s)
                   end
           | _ => Ok (tt, s)
           end.

Definition readCfgFirst (n : NoPBC) : M IO (NoPBC * list (list float)) :=
  fun s0 =>
  ('(a, box) <~ wrap "Header" (util.Header readSlice) ;;
   b <~ readOnly ;;
   let fields := Fields b in
   if (length fields <=? 2)%nat then fail (ErrNotEnoughCols (length fields))
   else
     let lead := (nth 0 fields "" ++ " " ++ nth 1 fields "" ++ " ")%string in
     let fields := drop 2 fields in
     let '(c, found, buf) := scan_header fields in
     let buf := (lead ++ buf ++ String (ascii_of_nat 10) EmptyString)%string in
     put (Raw buf) ;;;
     let n := set_header n a c buf (length fields) in
     if (found <? 4)%nat then fail ErrColsNotFound
     else
       xyz <~ rows_first n box (times a) 0
                {| mol := ""; lastXYZ := [0; 0; 0]%float; size := [0; 0; 0]%float |} ;;
       peek s0.1 ;;;
       ret (n, xyz)) s0.

(** One pass of the atom loop of [readCfg]: row [i] of a later frame. *)
Definition row_next (n : NoPBC) (box : list float) (i : nat)
    (st : list (list float) * list (list float))
  : M IO (list (list float) * list (list float)) :=
  let '(last, corr) := st in
  l <~ readOnly ;;
  let fields := Fields l in
  if negb (length fields =? colsLen n)%nat
  then fail (ErrColsMismatchId i (length fields) (colsLen n))
  else
    raw <~ coords3 (cols n) fields ;;
    match last !! i, corr !! i with
    | Some p, Some c =>
        let upd := map (fun k => axis_next (at3 box k) (at3 (half box) k)
                                   (at3 p k) (at3 c k) (at3 raw k))
                       [0; 1; 2]%nat in
        let p' := map fst upd in
        write n fields p' ;;;
        ret (<[i := p']> last, <[i := map snd upd]> corr)
    | _, _ => panic "index out of range"
    end.

Fixpoint rows_next (n : NoPBC) (box : list float) (count i : nat)
    (st : list (list float) * list (list float))
  : M IO (list (list float) * list (list float)) :=
  match count with
  | O => ret st
  | Datatypes.S count' =>
      st' <~ row_next n box i st ;;
      rows_next n box count' (Datatypes.S i) st'
  end.

(** One pass of the frame loop of [readCfg]. *)
Definition frame_next (n : NoPBC) (st : list (list float) * list (list float))
  : M IO (list (list float) * list (list float)) :=
  box <~ wrap "HeaderWOutAtoms" (util.HeaderWOutAtoms readSlice) ;;
  readOnly ;;;
  put (Raw (colsBuf n)) ;;;
  rows_next n box (times (atoms n)) 0 st.

(** The frame loop of [readCfg], which ends at the end of the input
    ([r.ReadByte] fails).  A pass on an empty reader fails in [HeaderBox]
    and any other pass consumes a chunk, so [fuel] above the number of
    chunks is never used up. *)
Fixpoint frames (n : NoPBC) (fuel : nat)
    (st : list (list float) * list (list float)) : M IO unit :=
  match fuel with
  | O => panic "unreachable"
  | Datatypes.S fuel' =>
      st' <~ frame_next n st ;;
      fun s => match s.1 with
               | [] => Ok (tt, s)
               | _ => frames n fuel' st' s
               end
  end.

Definition readCfg (n : NoPBC) (last : list (list float)) : M IO unit :=
  if atoms n <? 0 then panic "makeslice: len out of range"
  else
    fun s => frames n (Datatypes.S (length s.1))
               (last, replicate (times (atoms n)) [0; 0; 0]%float) s.

(** [Start] once both files are open: the outcome and the output. *)
Definition Start (n : NoPBC) (rd : Reader) : result unit :=
  match wrap "readCfgFirst" (readCfgFirst n) (rd, []) with
  | Ok ((n, last), s) =>
      match wrap "readCfg" (readCfg n last) s with
      | Ok _ => Ok tt
      | Err e => Err e
      | Panic msg => Panic msg
      end
  | Err e => Err e
  | Panic msg => Panic msg
  end.

End nopbc.

(** The squared minimum-image distance of [calc] in [gr] and [volume]:
    [dist += util.Pow(distatt - box[k]*math.Round(distatt/box[k]), 2)]
    for [k < 3]. *)
Definition image_dist2 (box a b : list float) : float :=
  fold_left
    (fun dist k =>
       let distatt := (at3 a k - at3 b k)%float in
       (dist + Pow (distatt - at3 box k * Round (distatt / at3 box k)) 2)%float)
    [0; 1; 2]%nat 0%float.

(** [map[string][][3]float64]. *)
Abbreviation XYZ := (gmap string (list (list float))).

(** The rows of a type: a missing key reads as the nil slice. *)
Definition rows_of (xyz : XYZ) (typ : string) : list (list float) :=
  default [] (xyz !! typ).

(** ** Package [gr] *)

Module gr.

Record GR : Type := {
  CfgStart : Z;
  CfgEnd : Z;
  Atoms : gmap string (list string);
  RMax : float;
  Dr : float;
  bins : Z;
  rmax2 : float;
  atomsTyp : list string;
  atoms : Z;
  vol : float;
  hstg : gmap (string * string) (list (list float));
  order : list string;
  cols : list nat;
  colsLen : nat;
  xyzLen : gmap string float;
  cfg : Z;
  err : option error
}.

(** The zero value of the struct, which [New] decodes the TOML file into. *)
Definition zero : GR :=
  {| CfgStart := 0; CfgEnd := 0; Atoms := ∅; RMax := 0%float; Dr := 0%float;
     bins := 0; rmax2 := 0%float; atomsTyp := []; atoms := 0; vol := 0%float;
     hstg := ∅; order := []; cols := [0; 0; 0; 0]%nat; colsLen := 0;
     xyzLen := ∅; cfg := 0; err := None |}.

(** The loop of [New] over [Atoms] that fills [atomsTyp]. *)
Definition types_of (Atoms : gmap string (list string)) : list string :=
  fold_left
    (fun typ (e : string * list string) =>
       fold_left (fun typ at2 => if bool_decide (at2 ∈ typ) then typ else typ ++ [at2])
         e.2 (typ ++ [e.1]))
    (map_to_list Atoms) [].

(** [New] once the TOML file is decoded. *)
Definition New (start stop : Z) (pairs : gmap string (list string))
    (rmax dr : float) : result GR :=
  if stop <=? start then Err (ErrConfig "CfgStart is greater or equal than CfgEnd")
  else
    let b := int_of_float (rmax / dr) in
    if b <=? 1 then Err (ErrConfig "the number of bins must be greater than 1")
    else
      Ok {| CfgStart := start; CfgEnd := stop; Atoms := pairs; RMax := rmax;
            Dr := dr; bins := b; rmax2 := Pow rmax 2;
            atomsTyp := types_of pairs; atoms := 0; vol := 0%float;
            hstg := ∅; order := []; cols := [0; 0; 0; 0]%nat; colsLen := 0;
            xyzLen := ∅; cfg := 0; err := None |}.

Definition set_header (g : GR) (a : Z) (c : list nat) (len : nat) : GR :=
  {| CfgStart := CfgStart g; CfgEnd := CfgEnd g; Atoms := Atoms g;
     RMax := RMax g; Dr := Dr g; bins := bins g; rmax2 := rmax2 g;
     atomsTyp := atomsTyp g; atoms := a; vol := vol g; hstg := hstg g;
     order := order g; cols := c; colsLen := len; xyzLen := xyzLen g;
     cfg := cfg g; err := err g |}.

Definition set_order (g : GR) (o : list string) : GR :=
  {| CfgStart := CfgStart g; CfgEnd := CfgEnd g; Atoms := Atoms g;
     RMax := RMax g; Dr := Dr g; bins := bins g; rmax2 := rmax2 g;
     atomsTyp := atomsTyp g; atoms := atoms g; vol := vol g; hstg := hstg g;
     order := o; cols := cols g; colsLen := colsLen g; xyzLen := xyzLen g;
     cfg := cfg g; err := err g |}.

Definition set_tables (g : GR) (h : gmap (string * string) (list (list float)))
    (len : gmap string float) : GR :=
  {| CfgStart := CfgStart g; CfgEnd := CfgEnd g; Atoms := Atoms g;
     RMax := RMax g; Dr := Dr g; bins := bins g; rmax2 := rmax2 g;
     atomsTyp := atomsTyp g; atoms := atoms g; vol := vol g; hstg := h;
     order := order g; cols := cols g; colsLen := colsLen g; xyzLen := len;
     cfg := cfg g; err := err g |}.

Definition set_hstg (g : GR) (h : gmap (string * string) (list (list float))) : GR :=
  set_tables g h (xyzLen g).

Definition set_vol (g : GR) (v : float) : GR :=
  {| CfgStart := CfgStart g; CfgEnd := CfgEnd g; Atoms := Atoms g;
     RMax := RMax g; Dr := Dr g; bins := bins g; rmax2 := rmax2 g;
     atomsTyp := atomsTyp g; atoms := atoms g; vol := v; hstg := hstg g;
     order := order g; cols := cols g; colsLen := colsLen g; xyzLen := xyzLen g;
     cfg := cfg g; err := err g |}.

Definition set_cfg (g : GR) (c : Z) (e : option error) : GR :=
  {| CfgStart := CfgStart g; CfgEnd := CfgEnd g; Atoms := Atoms g;
     RMax := RMax g; Dr := Dr g; bins := bins g; rmax2 := rmax2 g;
     atomsTyp := atomsTyp g; atoms := atoms g; vol := vol g; hstg := hstg g;
     order := order g; cols := cols g; colsLen := colsLen g; xyzLen := xyzLen g;
     cfg := c; err := e |}.

(** [readXYZ]: the type of the row, and the map with the row added when
    its type is a key. *)
Definition readXYZ (g : GR) (xyz : XYZ) : M Reader (string * XYZ) :=
  b <~ ReadSlice ;;
  let fields := Fields b in
  if negb (length fields =? colsLen g)%nat
  then fail (ErrColsMismatch (length fields) (colsLen g))
  else
    typ <~ index fields (nth 3 (cols g) 0%nat) ;;
    match xyz !! typ with
    | None => ret (typ, xyz)
    | Some xyzTyp =>
        xyzTmp <~ coords3 (cols g) fields ;;
        ret (typ, <[typ := xyzTyp ++ [xyzTmp]]> xyz)
    end.

(** The map both [fetchXYZ] start from: an empty slice per type of
    interest, of capacity [atoms / len(atomsTyp)]. *)
Definition fresh (g : GR) : M Reader XYZ :=
  match atomsTyp g with
  | [] => panic "integer divide by zero"
  | _ =>
      if Z.quot (atoms g) (Z.of_nat (length (atomsTyp g))) <? 0
      then panic "makeslice: cap out of range"
      else ret (fold_left (fun (m : XYZ) v => <[v := []]> m) (atomsTyp g) ∅)
  end.

Fixpoint rows (g : GR) (n : nat) (xyz : XYZ) : M Reader XYZ :=
  match n with
  | O => ret xyz
  | Datatypes.S n' =>
      '(_, xyz') <~ readXYZ g xyz ;;
      rows g n' xyz'
  end.

Definition fetchXYZ (g : GR) : M Reader XYZ :=
  xyz <~ fresh g ;;
  rows g (times (atoms g)) xyz.

Fixpoint rowsFirst (g : GR) (n : nat) (order : list string) (xyz : XYZ)
  : M Reader (list string * XYZ) :=
  match n with
  | O => ret (order, xyz)
  | Datatypes.S n' =>
      '(typ, xyz') <~ readXYZ g xyz ;;
      rowsFirst g n'
        (match Atoms g !! typ with Some _ => order ++ [typ] | None => order end)
        xyz'
  end.

Definition fetchXYZFirst (g : GR) : M Reader (list string * XYZ) :=
  xyz <~ fresh g ;;
  rowsFirst g (times (atoms g)) [] xyz.

Definition readCfgFirst (g : GR) : M Reader (GR * (list float * XYZ)) :=
  '(a, box) <~ wrap "Header" (util.Header ReadSlice) ;;
  b <~ ReadSlice ;;
  let fields := Fields b in
  if (length fields <=? 2)%nat then fail (ErrNotEnoughCols (length fields))
  else
    let fields := drop 2 fields in
    let '(c, found) := scan_cols ["x"; "y"; "z"; "type"] fields in
    let g := set_header g a c (length fields) in
    if (found <? 4)%nat then fail ErrColsNotFound
    else
      '(o, xyz) <~ wrap "fetchXYZ" (fetchXYZFirst g) ;;
      ret (set_order g o, (box, xyz)).

Definition readCfg (g : GR) : M Reader (list float * XYZ) :=
  box <~ wrap "HeaderWOutAtoms" (util.HeaderWOutAtoms ReadSlice) ;;
  ReadSlice ;;;
  xyz <~ wrap "fetchXYZ" (fetchXYZ g) ;;
  ret (box, xyz).

(** A histogram cell: the pair of types, the row of the source atom and
    the bin. *)
Definition cell : Type := (string * string) * nat * Z.

(** The bin of a pair of atoms, when [calc] counts the pair. *)
Definition bin_of (g : GR) (box a b : list float) : option Z :=
  let dist := image_dist2 box a b in
  if (dist <=? rmax2 g)%float
  then Some (int_of_float (PrimFloat.sqrt dist / Dr g))
  else None.

(** The cells [calc] increments for a frame, in the order of its loops
    (Go leaves the order of [range g.Atoms] open; here it is that of
    [map_to_list]). *)
Definition cells (g : GR) (box : list float) (xyz : XYZ) : list cell :=
  flat_map
    (fun e : string * list string =>
       flat_map
         (fun src : nat * list float =>
            flat_map
              (fun at2 =>
                 flat_map
                   (fun xyzAt2 =>
                      match bin_of g box src.2 xyzAt2 with
                      | Some i => [((e.1, at2), src.1, i)]
                      | None => []
                      end)
                   (rows_of xyz at2))
              e.2)
         (imap pair (rows_of xyz e.1)))
    (map_to_list (Atoms g)).

(** [g.hstg[[2]string{at1, at2}][xyz1][index] += 1.]: [None] is the
    run-time panic of an index out of range. *)
Definition incr (c : cell) (h : gmap (string * string) (list (list float)))
  : option (gmap (string * string) (list (list float))) :=
  let '(key, i, j) := c in
  if j <? 0 then None
  else
    tbl ← h !! key;
    row ← tbl !! i;
    x ← row !! Z.to_nat j;
    Some (<[key := <[i := <[Z.to_nat j := (x + 1)%float]> row]> tbl]> h).

Definition box_volume (box : list float) : float :=
  (at3 box 0 * at3 box 1 * at3 box 2)%float.

(** What a worker does to the shared fields under the lock, one lock at a
    time: an increment, or the closing [g.vol += ...]. *)
Inductive action : Type :=
| Incr (c : cell)
| AddVol (v : float).

Definition act (a : action) (g : GR) : option GR :=
  match a with
  | Incr c => set_hstg g <$> incr c (hstg g)
  | AddVol v => Some (set_vol g (vol g + v)%float)
  end.

(** The locked steps of [calc] on a frame, in order. *)
Definition work (g : GR) (job : list float * XYZ) : list action :=
  map Incr (cells g job.1 job.2) ++ [AddVol (box_volume job.1)].

Fixpoint act_all (l : list action) (g : GR) : option GR :=
  match l with
  | [] => Some g
  | a :: l' => g' ← act a g; act_all l' g'
  end.

(** [calc] run by one goroutine alone. *)
Definition calc (g : GR) (box : list float) (xyz : XYZ) : option GR :=
  act_all (work g (box, xyz)) g.

(** The histogram map as [Start] initialises it after the first frame. *)
Definition init_hstg (g : GR) (xyz : XYZ) : gmap (string * string) (list (list float)) :=
  fold_left
    (fun h (e : string * list string) =>
       fold_left
         (fun h at2 =>
            <[(e.1, at2) := replicate (length (rows_of xyz e.1))
                              (replicate (times (bins g)) 0%float)]> h)
         e.2 h)
    (map_to_list (Atoms g)) (hstg g).

Definition init_xyzLen (g : GR) (xyz : XYZ) : gmap string float :=
  ((fun v : list (list float) => float_of_Z (Z.of_nat (length v))) <$> xyz) ∪ xyzLen g.

(** [Start] up to the point where the workers are launched. *)
Definition first (g : GR) : M Reader GR :=
  wrap "ReadCfgNonCvg" (util.ReadCfgNonCvg (CfgStart g)) ;;;
  '(g, (box, xyz)) <~ wrap "readCfgFirst" (readCfgFirst g) ;;
  let g := set_tables g (init_hstg g xyz) (init_xyzLen g xyz) in
  match calc g box xyz with
  | None => panic "index out of range"
  | Some g => ret (set_cfg g (CfgStart g) (err g))
  end.

(** The locked head of the loop of [start]: the frame claimed and read, or
    no frame when the worker leaves the loop; [None] is a panic.  The
    reader is not used again once [err] is set. *)
Definition claim (s : GR * Reader) : option ((GR * Reader) * option (list float * XYZ)) :=
  let g := set_cfg s.1 (add64 (cfg s.1) 1) (err s.1) in
  if (CfgEnd g <=? cfg g) || bool_decide (is_Some (err g)) then Some ((g, s.2), None)
  else
    match readCfg g s.2 with
    | Ok (job, rd) => Some ((g, rd), Some job)
    | Err e => Some ((set_cfg g (cfg g) (Some (WrapStep "readCfg" (cfg g) e)), s.2), None)
    | Panic _ => None
    end.

(** The constant [4. / 3. * math.Pi], which Go evaluates exactly and
    rounds once. *)
Definition four_thirds_pi : float :=
  Eval vm_compute in
    ParseFloat "4.18879020478639098461685784437267051226289253250014109463325945641042".

(** [vol[i]] of [write]: the volume of the shell of bin [i]. *)
Definition shell (g : GR) (i : Z) : float :=
  (four_thirds_pi *
   (Pow (float_of_Z (i + 1) * Dr g) 3 - Pow (float_of_Z i * Dr g) 3))%float.

(** One row of a histogram table through the loops of [write]: per bin,
    the running integral and the normalised count. *)
Definition norm_row (g : GR) (gvol nbCfg len2 : float) (counts : list float)
  : list (float * float) :=
  (fold_left
     (fun (st : list (float * float) * option float * Z) c =>
        let '(out, prev, b) := st in
        let raw := (c / nbCfg)%float in
        let h := (raw / (shell g b * len2 / gvol))%float in
        let i := match prev with Some p => (raw + p)%float | None => raw end in
        (out ++ [(i, h)], Some i, b + 1))
     counts ([], None, 0)).1.1.

Definition nb_cfg (g : GR) : float := float_of_Z (sub64 (CfgEnd g) (CfgStart g)).

(** [intg] and the rewritten [g.hstg] of [write], side by side. *)
Definition norm_tables (g : GR) : gmap (string * string) (list (list (float * float))) :=
  let gvol := (vol g / nb_cfg g)%float in
  map_imap
    (fun (key : string * string) tbl =>
       Some (map (norm_row g gvol (nb_cfg g) (default 0%float (xyzLen g !! key.2))) tbl))
    (hstg g).

(** [orderList] of [write], each pair with the ordinal of its source atom. *)
Definition order_list (g : GR) : list ((string * string) * nat) :=
  (fold_left
     (fun (st : list ((string * string) * nat)) (lit : string * string) =>
        st ++ [(lit, length (filter (fun e => e.1 = lit) st))])
     (flat_map (fun o => map (pair o) (default [] (Atoms g !! o))) (order g)) []).

(** The entry of a table for a column of the output and a bin. *)
Definition entry {X} (t : gmap (string * string) (list (list X)))
    (i : Z) (e : (string * string) * nat) : option X :=
  tbl ← t !! e.1; row ← tbl !! e.2; row !! Z.to_nat i.

(** The line of bin [i]: the bin centre and, per column pair, the integral
    and the histogram.  [None] is a panic. *)
Definition line (g : GR) (t : gmap (string * string) (list (list (float * float))))
    (i : Z) : option (float * list (float * float)) :=
  cols ← mapM (entry t i) (order_list g);
  Some (((float_of_Z (i + 1) - 0.5) * Dr g)%float, cols).

(** The lines [write] prints after the header line. *)
Definition write (g : GR) : option (list (float * list (float * float))) :=
  mapM (line g (norm_tables g)) (seqZ 0 (bins g)).

(** A locked write of [calc] on the state the workers share. *)
Definition locked (a : action) (s : GR * Reader) : option (GR * Reader) :=
  (fun g => (g, s.2)) <$> act a s.1.

(** The shared state without its accumulators: what a claim reads and
    writes. *)
Definition control (s : GR * Reader) : GR * Reader :=
  (set_vol (set_hstg s.1 ∅) 0%float, s.2).

(** The accumulators: the histogram and the sum of the box volumes. *)
Definition store (s : GR * Reader) : gmap (string * string) (list (list float)) * float :=
  (hstg s.1, vol s.1).

Definition tally (a : action)
    (acc : gmap (string * string) (list (list float)) * float)
  : option (gmap (string * string) (list (list float)) * float) :=
  match a with
  | Incr c => (fun h => (h, acc.2)) <$> incr c acc.1
  | AddVol v => Some (acc.1, (acc.2 + v)%float)
  end.

(** The frames that [k] calls of [readCfg] in a row read off the stream,
    up to the first that fails. *)
Fixpoint frames_read (g : GR) (k : nat) (rd : Reader) : list (list float * XYZ) :=
  match k with
  | O => []
  | Datatypes.S k' =>
      match readCfg g rd with
      | Ok (job, rd') => job :: frames_read g k' rd'
      | _ => []
      end
  end.

(** The increments of a list of locked writes, and the volumes added. *)
Definition increments (l : list action) : list cell :=
  omap (fun a => match a with Incr c => Some c | AddVol _ => None end) l.

Definition volumes (l : list action) : list float :=
  omap (fun a => match a with AddVol v => Some v | Incr _ => None end) l.

Fixpoint incr_all (l : list cell) (h : gmap (string * string) (list (list float)))
  : option (gmap (string * string) (list (list float))) :=
  match l with
  | [] => Some h
  | c :: l' => h' ← incr c h; incr_all l' h'
  end.

(** The columns of [write] that hold the bin centre and the running
    integrals. *)
Definition integral (g : GR) : option (list (float * list float)) :=
  (fun rows => map (fun r : float * list (float * float) => (r.1, r.2.*1)) rows)
    <$> write g.

(** The workers of a run may claim: the counter is below [CfgEnd], no
    error is recorded, and [n] more increments do not overflow. *)
Definition ready (n : nat) (s : GR * Reader) : Prop :=
  min_int <= cfg s.1 < CfgEnd s.1 /\ err s.1 = None
  /\ CfgEnd s.1 + Z.of_nat n <= max_int.

End gr.

(** ** Package [volume] *)

Module volume.

Record Volume : Type := {
  CfgStart : Z;
  CfgEnd : Z;
  CfgSpacing : Z;
  Bloc : list float;
  Blocs : list Z;
  Atoms : list string;
  Sigma : gmap string float;
  Dt : float;
  atOther : list string;
  sigma2 : gmap string float;
  atoms : Z;
  cols : list nat;
  colsLen : nat;
  cfg : Z;
  err : option error
}.

(** The zero value of the struct, which [New] decodes the TOML file into. *)
Definition zero : Volume :=
  {| CfgStart := 0; CfgEnd := 0; CfgSpacing := 0; Bloc := []; Blocs := [];
     Atoms := []; Sigma := ∅; Dt := 0%float; atOther := []; sigma2 := ∅;
     atoms := 0; cols := [0; 0; 0; 0]%nat; colsLen := 0; cfg := 0;
     err := None |}.

(** [New] once the TOML file is decoded. *)
Definition New (start stop spacing : Z) (bloc : list float) (blocs : list Z)
    (analytes : list string) (sigma : gmap string float) (dt : float)
  : result Volume :=
  if stop <=? start then Err (ErrConfig "CfgStart is greater or equal than CfgEnd")
  else if negb ((length bloc =? 3)%nat && (length blocs =? 3)%nat)
  then Err (ErrConfig "length of Blocs or Bloc is not equal to 3")
  else
    Ok {| CfgStart := start; CfgEnd := stop; CfgSpacing := spacing;
          Bloc := bloc; Blocs := blocs; Atoms := analytes; Sigma := sigma;
          Dt := dt;
          atOther := filter (fun a => a ∉ analytes) (map_to_list sigma).*1;
          sigma2 := (fun s => Pow s 2) <$> sigma;
          atoms := 0; cols := [0; 0; 0; 0]%nat; colsLen := 0; cfg := 0;
          err := None |}.

Definition set_header (v : Volume) (a : Z) (c : list nat) (len : nat) : Volume :=
  {| CfgStart := CfgStart v; CfgEnd := CfgEnd v; CfgSpacing := CfgSpacing v;
     Bloc := Bloc v; Blocs := Blocs v; Atoms := Atoms v; Sigma := Sigma v;
     Dt := Dt v; atOther := atOther v; sigma2 := sigma2 v; atoms := a;
     cols := c; colsLen := len; cfg := cfg v; err := err v |}.

Definition set_cfg (v : Volume) (c : Z) (e : option error) : Volume :=
  {| CfgStart := CfgStart v; CfgEnd := CfgEnd v; CfgSpacing := CfgSpacing v;
     Bloc := Bloc v; Blocs := Blocs v; Atoms := Atoms v; Sigma := Sigma v;
     Dt := Dt v; atOther := atOther v; sigma2 := sigma2 v; atoms := atoms v;
     cols := cols v; colsLen := colsLen v; cfg := c; err := e |}.

(** One pass of the atom loop of [fetchXYZ]. *)
Definition row (v : Volume) (xyz : XYZ) : M Reader XYZ :=
  b <~ ReadSlice ;;
  let fields := Fields b in
  if negb (length fields =? colsLen v)%nat
  then fail (ErrColsMismatch (length fields) (colsLen v))
  else
    typ <~ index fields (nth 3 (cols v) 0%nat) ;;
    match Sigma v !! typ with
    | None => ret xyz
    | Some _ =>
        xyzt <~ coords3 (cols v) fields ;;
        ret (<[typ := rows_of xyz typ ++ [xyzt]]> xyz)
    end.

Fixpoint rows (v : Volume) (n : nat) (xyz : XYZ) : M Reader XYZ :=
  match n with
  | O => ret xyz
  | Datatypes.S n' => xyz' <~ row v xyz ;; rows v n' xyz'
  end.

Definition fetchXYZ (v : Volume) : M Reader XYZ :=
  if bool_decide (Sigma v = ∅) then panic "integer divide by zero"
  else if Z.quot (atoms v) (Z.of_nat (size (Sigma v))) <? 0
  then panic "makeslice: cap out of range"
  else rows v (times (atoms v)) ((fun _ => []) <$> Sigma v).

Definition readCfgFirst (v : Volume) : M Reader (Volume * (XYZ * list float)) :=
  '(a, box) <~ wrap "Header" (util.Header ReadSlice) ;;
  b <~ ReadSlice ;;
  let fields := Fields b in
  if (length fields <=? 2)%nat then fail (ErrNotEnoughCols (length fields))
  else
    let fields := drop 2 fields in
    let '(c, found) := scan_cols ["x"; "y"; "z"; "type"] fields in
    let v := set_header v a c (length fields) in
    if (found <? 4)%nat then fail ErrColsNotFound
    else
      xyz <~ wrap "fetchXYZ" (fetchXYZ v) ;;
      ret (v, (xyz, box)).

Definition readCfg (v : Volume) : M Reader (XYZ * list float) :=
  box <~ wrap "HeaderWOutAtoms" (util.HeaderWOutAtoms ReadSlice) ;;
  ReadSlice ;;;
  xyz <~ wrap "fetchXYZ" (fetchXYZ v) ;;
  ret (xyz, box).

(** A grid cell: the three integers that key [pts] (as [float64]). *)
Definition gcell : Type := Z * Z * Z.

(** The cells [ptsX] (or [ptsY], [ptsZ]) gains for one analyte atom:
    [for x := bloc - blocs; x <= bloc + blocs; x++], folded once into the
    box. *)
Definition span (boxBlocs bloc blocs : Z) : list Z :=
  let lo := sub64 bloc blocs in
  let hi := add64 bloc blocs in
  map (fun x => if x <? 0 then add64 x boxBlocs
                else if boxBlocs <=? x then sub64 x boxBlocs
                else x)
      (seqZ lo (hi - lo + 1)).

Definition analytes (v : Volume) (xyz : XYZ) : list (string * list float) :=
  flat_map (fun atom => map (pair atom) (rows_of xyz atom)) (Atoms v).


(** [ptsX], [ptsY] or [ptsZ] (axis [k]) after the first loop of [calc]. *)
Definition axis_cells (v : Volume) (box : list float) (xyz : XYZ) (k : nat) : gset Z :=
  let boxBlocs := int_of_float (Round (at3 box k / at3 (Bloc v) k)) in
  list_to_set
    (flat_map
       (fun e : string * list float =>
          span boxBlocs (int_of_float (at3 e.2 k / at3 (Bloc v) k)) (nth k (Blocs v) 0))
       (analytes v xyz)).


Definition centre (v : Volume) (lit : gcell) : list float :=
  [ (at3 (Bloc v) 0 * float_of_Z lit.1.1 + at3 (Bloc v) 0 / 2)%float;
    (at3 (Bloc v) 1 * float_of_Z lit.1.2 + at3 (Bloc v) 1 / 2)%float;
    (at3 (Bloc v) 2 * float_of_Z lit.2 + at3 (Bloc v) 2 / 2)%float ].

(** The measure of an analyte atom from a point: the squared distance over
    [sigma2]. *)
Definition near (v : Volume) (box pos : list float) (e : string * list float) : float :=
  (image_dist2 box e.2 pos / default 0%float (sigma2 v !! e.1))%float.

(** The measure of another atom from a point: the distance over [Sigma]. *)
Definition far (v : Volume) (box pos : list float) (e : string * list float) : float :=
  (PrimFloat.sqrt (image_dist2 box e.2 pos) / default 0%float (Sigma v !! e.1))%float.

(** The loop over the analyte atoms: [distTmp] and [ptsTmp]. *)
Definition scan_atoms (v : Volume) (box pos : list float) (xyz : XYZ) : float * bool :=
  fold_left
    (fun (st : float * bool) e =>
       let dist := near v box pos e in
       if (dist <? st.1)%float then (dist, true) else st)
    (analytes v xyz) (MaxFloat64, false).

(** The inner loop over the atoms of one other type, left at the first
    atom below [distTmp]. *)
Fixpoint scan_type (v : Volume) (box pos : list float) (atom : string)
    (l : list (list float)) (st : float * bool) : float * bool :=
  match l with
  | [] => st
  | xyzt :: l' =>
      let dist := far v box pos (atom, xyzt) in
      if (dist <? st.1)%float then (dist, false)
      else scan_type v box pos atom l' st
  end.

(** The loop over the other types, left once [ptsTmp] is false. *)
Fixpoint scan_others (v : Volume) (box pos : list float) (xyz : XYZ)
    (types : list string) (st : float * bool) : float * bool :=
  match types with
  | [] => st
  | atom :: types' =>
      let st' := scan_type v box pos atom (rows_of xyz atom) st in
      if negb st'.2 then st' else scan_others v box pos xyz types' st'
  end.

(** [ptsTmp] for a candidate cell. *)
Definition marked (v : Volume) (box : list float) (xyz : XYZ) (lit : gcell) : bool :=
  let pos := centre v lit in
  (scan_others v box pos xyz (atOther v) (scan_atoms v box pos xyz)).2.

(** [pts]: the candidate cells that are marked. *)
Definition pts (v : Volume) (box : list float) (xyz : XYZ) : gset gcell :=
  list_to_set
    (filter (fun lit => marked v box xyz lit = true)
       (x ← elements (axis_cells v box xyz 0);
        y ← elements (axis_cells v box xyz 1);
        z ← elements (axis_cells v box xyz 2);
        [(x, y, z)])).

(** A line of the result file: [cfg t vol(atoms) vol(other)]. *)
Definition Row : Type := Z * float * float * float.

(** The result file and the point cloud file. *)
Definition Out : Type := list Row * option (gset gcell).

Definition calc_row (v : Volume) (cfg : Z) (box : list float) (xyz : XYZ) : Row :=
  let volBloc := (at3 (Bloc v) 0 * at3 (Bloc v) 1 * at3 (Bloc v) 2)%float in
  let volAt := (volBloc * float_of_Z (Z.of_nat (size (pts v box xyz))))%float in
  let volOt := (at3 box 0 * at3 box 1 * at3 box 2 - volAt)%float in
  (cfg, (float_of_Z cfg * Dt v)%float, volAt, volOt).

(** The writes of [calc], each atomic for the file it goes to. *)
Inductive action : Type :=
| Print (r : Row)
| Cloud (p : gset gcell).

Definition job : Type := Z * (XYZ * list float).

Definition work (v : Volume) (j : job) : list action :=
  Print (calc_row v j.1 j.2.2 j.2.1)
  :: (if j.1 =? CfgStart v then [Cloud (pts v j.2.2 j.2.1)] else []).

Definition act (a : action) (o : Out) : Out :=
  match a with
  | Print r => (o.1 ++ [r], o.2)
  | Cloud p => (o.1, Some p)
  end.

(** [calc] run by one goroutine alone. *)
Definition calc (v : Volume) (cfg : Z) (box : list float) (xyz : XYZ) (o : Out) : Out :=
  fold_left (fun o a => act a o) (work v (cfg, (xyz, box))) o.

(** [Start] up to the point where the workers are launched. *)
Definition first (v : Volume) : M Reader (Volume * Out) :=
  wrap "ReadCfgNonCvg" (util.ReadCfgNonCvg (CfgStart v)) ;;;
  '(v, (xyz, box)) <~ wrap "readCfgFirst" (readCfgFirst v) ;;
  ret (set_cfg v (CfgStart v) (err v), calc v (CfgStart v) box xyz ([], None)).

(** The locked head of the loop of [start]; [None] is a panic. *)
Definition claim (s : Volume * Reader) : option ((Volume * Reader) * option job) :=
  let v := set_cfg s.1 (add64 (cfg s.1) (add64 (CfgSpacing s.1) 1)) (err s.1) in
  if (CfgEnd v <=? cfg v) || bool_decide (is_Some (err v)) then Some ((v, s.2), None)
  else
    match util.ReadCfgNonCvg (CfgSpacing v) s.2 with
    | Panic _ => None
    | Err e =>
        Some ((set_cfg v (cfg v) (Some (WrapStep "ReadCfgNonCvg" (cfg v) e)), s.2), None)
    | Ok (_, rd) =>
        match readCfg v rd with
        | Panic _ => None
        | Err e =>
            Some ((set_cfg v (cfg v) (Some (WrapStep "readCfg" (cfg v) e)), rd), None)
        | Ok (frame, rd) => Some ((v, rd), Some (cfg v, frame))
        end
    end.

(** The state the workers share: the struct and the reader, which a claim
    works on, and the two output files, which [calc] writes. *)
Definition shared : Type := (Volume * Reader) * Out.

(** The locked head of the loop on the shared state. *)
Definition claim_shared (s : shared) : option (shared * option job) :=
  (fun r : (Volume * Reader) * option job => ((r.1, s.2), r.2)) <$> claim s.1.

(** A write of [calc] on the shared state, and on the files alone. *)
Definition locked (a : action) (s : shared) : option shared := Some (s.1, act a s.2).

Definition written (a : action) (o : Out) : option Out := Some (act a o).

(** The frames that [k] passes of the loop of [start] in a row take off
    the stream from counter [c]: each pass skips [CfgSpacing] frames with
    [ReadCfgNonCvg] and decodes the next, up to the first pass that
    fails. *)
Fixpoint frames_read (v : Volume) (k : nat) (c : Z) (rd : Reader) : list job :=
  match k with
  | O => []
  | Datatypes.S k' =>
      match util.ReadCfgNonCvg (CfgSpacing v) rd with
      | Ok (_, rd1) =>
          match readCfg v rd1 with
          | Ok (frame, rd2) =>
              (c + (CfgSpacing v + 1), frame)
              :: frames_read v k' (c + (CfgSpacing v + 1)) rd2
          | _ => []
          end
      | _ => []
      end
  end.

(** The rows that a list of writes prints. *)
Definition printed (l : list action) : list Row :=
  omap (fun a => match a with Print r => Some r | Cloud _ => None end) l.

(** The workers of a run may claim: the counter is not negative and
    below [CfgEnd], no error is recorded, the spacing is not negative and
    [n] more steps of the counter do not overflow. *)
Definition ready (n : nat) (s : Volume * Reader) : Prop :=
  0 <= CfgSpacing s.1 /\ 0 <= cfg s.1 < CfgEnd s.1 /\ err s.1 = None
  /\ CfgEnd s.1 + Z.of_nat n * (CfgSpacing s.1 + 1) <= max_int.

End volume.

(** ** The worker pool of [gr.Start] and [volume.Start]

    Every worker runs the same loop: under the lock it claims the next
    frame and reads it, or leaves; then it works on the frame, taking the
    lock again for each write to the shared state.  Between two locked
    steps a worker touches nothing shared, so a run of the pool is a
    sequence of locked steps, each by some worker: the schedule. *)

Module pool.
Section pool.
Context {Sh J A : Type}.
(** The locked head of the loop: [None] is a panic, no job means that
    the worker leaves the loop. *)
Variable claim : Sh -> option (Sh * option J).
(** The locked steps that a claimed job leads to, in order. *)
Variable work : J -> list A.
Variable act : A -> Sh -> option Sh.

Inductive worker : Type :=
| Busy (todo : list A)
| Gone.

Inductive event : Type :=
| Claimed (j : J)
| Left
| Applied (a : A).

Definition pool : Type := Sh * list worker.

(** The next locked step of worker [w]; a worker that has left (or that
    does not exist) has none. *)
Definition step (w : nat) (p : pool) : option (pool * list event) :=
  match p.2 !! w with
  | None | Some Gone => Some (p, [])
  | Some (Busy []) =>
      match claim p.1 with
      | None => None
      | Some (sh, Some j) => Some ((sh, <[w := Busy (work j)]> p.2), [Claimed j])
      | Some (sh, None) => Some ((sh, <[w := Gone]> p.2), [Left])
      end
  | Some (Busy (a :: todo)) =>
      match act a p.1 with
      | None => None
      | Some sh => Some ((sh, <[w := Busy todo]> p.2), [Applied a])
      end
  end.

Fixpoint run (sched : list nat) (p : pool) : option (pool * list event) :=
  match sched with
  | [] => Some (p, [])
  | w :: sched' =>
      match step w p with
      | None => None
      | Some (p', ev) =>
          match run sched' p' with
          | None => None
          | Some (p'', evs) => Some (p'', ev ++ evs)
          end
      end
  end.

(** [wg.Wait()] returns: every worker has left. *)
Definition finished (p : pool) : bool :=
  forallb (fun w => match w with Gone => true | Busy _ => false end) p.2.

(** The pool as [Start] launches it: [n] workers at the top of the loop. *)
Definition launch (n : nat) (sh : Sh) : pool := (sh, replicate n (Busy [])).

Definition jobs (tr : list event) : list J :=
  omap (fun e => match e with Claimed j => Some j | _ => None end) tr.

Definition applied (tr : list event) : list A :=
  omap (fun e => match e with Applied a => Some a | _ => None end) tr.

Definition pending (p : pool) : list A :=
  flat_map (fun w => match w with Busy l => l | Gone => [] end) p.2.
End pool.

(** The claims of a pool seen from the one resource they share: the frame
    counter, the error slot and the reader. *)
Section claims.
Context {C J : Type}.
Variable claimC : C -> option (C * option J).

(** The jobs that claims yield from [c] up to the first claim that yields
    none, and the state this claim leaves. *)
Inductive claims : C -> list J -> C -> Prop :=
| claims_stop c c' : claimC c = Some (c', None) -> claims c [] c'
| claims_job c c' j js c'' :
    claimC c = Some (c', Some j) -> claims c' js c'' -> claims c (j :: js) c''.

(** [k] claims in a row from [c] that all yield no job, ending in [c']. *)
Fixpoint idles (k : nat) (c c' : C) : Prop :=
  match k with
  | O => c = c'
  | Datatypes.S k' => exists c1, claimC c = Some (c1, None) /\ idles k' c1 c'
  end.

(** The next [k] claims from [c] yield no job. *)
Definition halted (k : nat) (c : C) : Prop := exists c', idles k c c'.
End claims.

(** Locked writes in a row. *)
Section writes.
Context {A Acc : Type}.
Variable actA : A -> Acc -> option Acc.

Fixpoint writes (l : list A) (s : Acc) : option Acc :=
  match l with
  | [] => Some s
  | a :: l' => s' ← actA a s; writes l' s'
  end.
End writes.

(** The claims of a trace replayed on the shared resource alone. *)
Fixpoint replays {C J A} (claimC : C -> option (C * option J))
    (tr : list (event (J:=J) (A:=A))) (c c' : C) : Prop :=
  match tr with
  | [] => c = c'
  | Claimed j :: tr' =>
      exists c1, claimC c = Some (c1, Some j) /\ replays claimC tr' c1 c'
  | Left :: tr' =>
      exists c1, claimC c = Some (c1, None) /\ replays claimC tr' c1 c'
  | Applied _ :: tr' => replays claimC tr' c c'
  end.

Definition todo {A} (w : worker (A:=A)) : list A :=
  match w with Busy l => l | Gone => [] end.

Definition is_busy {A} (w : worker (A:=A)) : bool :=
  match w with Busy _ => true | Gone => false end.

(** The workers still in the loop. *)
Definition busy {A} (ws : list (worker (A:=A))) : nat :=
  length (List.filter is_busy ws).
End pool.

(** ** Package [cfg] *)

Module cfg.

Record Cfg : Type := {
  Types : list (list string);
  Files : list (list string)
}.

(** The errors of [New], with the numbers they print. *)
Inductive error : Type :=
| ErrLength (files types : nat)
| ErrLengthStep (files types : nat) (step : nat).

(** The loop of [New] over [Files]: the first step whose files and types
    differ in number.  [cfg.Types[k]] is in range once the outer lengths
    agree. *)
Fixpoint check_steps (k : nat) (files types : list (list string)) : option error :=
  match files, types with
  | v :: files', t :: types' =>
      if negb (length v =? length t)%nat
      then Some (ErrLengthStep (length v) (length t) k)
      else check_steps (Datatypes.S k) files' types'
  | _, _ => None
  end.

(** [New] once the TOML file is decoded. *)
Definition New (types files : list (list string)) : error + Cfg :=
  if negb (length files =? length types)%nat
  then inl (ErrLength (length files) (length types))
  else
    match check_steps 0 files types with
    | Some e => inl e
    | None => inr {| Types := types; Files := files |}
    end.

(** The calls of [Launch] that [Start] makes for one step, the goroutines
    first: [for rtn, name := range types[1:]] launches [name] on
    [c.Files[step][rtn]], then the caller runs [types[0]] on
    [c.Files[step][0]].  A file that is [None] is an index out of
    range. *)
Definition step_calls (types files : list string) : list (string * option string) :=
  match types with
  | [] => []
  | t0 :: rest => imap (fun rtn name => (name, files !! rtn)) rest ++ [(t0, files !! 0%nat)]
  end.

(** The calls of [Start], step after step. *)
Definition Start_calls (c : Cfg) : list (list (string * option string)) :=
  imap (fun step types => step_calls types (default [] (Files c !! step))) (Types c).

End cfg.

(** ** Lines consumed *)

(** A computation on the reader that, when it returns normally, has taken
    exactly [n] lines off the stream (fewer only at the end of the
    input). *)
Definition reads {A} (n : nat) (m : M Reader A) : Prop :=
  forall rd a rd', m rd = Ok (a, rd') -> rd' = drop n rd.

(** ** The box as the header lines give it *)

(** The length of the box along axis [k], from line [k] of the three
    lines of bounds: the second number less the first. *)
Definition bound_length (rd : Reader) (k : nat) : float :=
  (ParseFloat (nth 1 (Fields (nth k rd "")) "")
   - ParseFloat (nth 0 (Fields (nth k rd "")) ""))%float.

(** ** Atom rows by type *)

(** The type of an atom row and its three coordinates, as the decoders
    of [gr] and [volume] read them off the columns found in the header. *)
Definition type_of (cols : list nat) (row : string) : string :=
  nth (nth 3 cols 0%nat) (Fields row) "".

Definition coords_of (cols : list nat) (row : string) : list float :=
  map (fun k => ParseFloat (nth (nth k cols 0%nat) (Fields row) "")) [0; 1; 2]%nat.

(** The coordinates of the rows of a type, in the order of the rows. *)
Definition rows_of_type (cols : list nat) (rows : list string) (typ : string)
  : list (list float) :=
  map (coords_of cols) (filter (fun row => type_of cols row = typ) rows).

(** ** Numbers *)

(** A [float64] that is a number: not an infinity and not a NaN. *)
Definition is_number (f : float) : Prop :=
  match Prim2SF f with
  | S754_zero _ | S754_finite _ _ _ => True
  | _ => False
  end.

(** A number other than zero. *)
Definition is_length (f : float) : Prop :=
  match Prim2SF f with
  | S754_finite _ _ _ => True
  | _ => False
  end.

(** The types of the rows that are keys of [Atoms], in the order of the
    rows: one entry per source atom of [gr]. *)
Definition order_of (g : gr.GR) (rows : list string) : list string :=
  filter (fun t => is_Some (gr.Atoms g !! t)) (map (type_of (gr.cols g)) rows).

(** ** Line ends *)

(** A carriage return, and the end of a line of a file written on
    Windows. *)
Definition cr : string := String (ascii_of_nat 13) EmptyString.

Definition crlf : string := String (ascii_of_nat 13) (String (ascii_of_nat 10) EmptyString).

(** ** Lines taken and lines written by [nopbc] *)

(** A computation of [nopbc] that, when it returns normally, has taken
    [k] lines off the stream and has written [j] lines; at the end of the
    input a line taken may be the empty line that [ReadSlice] returns
    there. *)
Definition takes {A} (k j : nat) (m : M nopbc.IO A) : Prop :=
  forall s a s', m s = Ok (a, s') ->
    s'.1 = drop k s.1 /\ length s'.2 = (length s.2 + j)%nat.

(** The same, where the [k] lines were all in the input. *)
Definition takes_real {A} (k j : nat) (m : M nopbc.IO A) : Prop :=
  forall s a s', m s = Ok (a, s') ->
    (k <= length s.1)%nat /\ s'.1 = drop k s.1 /\ length s'.2 = (length s.2 + j)%nat.

(** A computation that never ends in the panic that stands for a frame
    loop out of fuel. *)
Definition in_fuel {S A} (m : M S A) : Prop := forall s, m s <> Panic "unreachable".

(** ** The shape of the histogram *)

(** The histogram holds, for every pair of types of [Atoms], a table of
    [rows at1] rows of [bins] columns. *)
Definition tables (g : gr.GR) (rows : string -> nat)
    (h : gmap (string * string) (list (list float))) : Prop :=
  forall at1 l at2, gr.Atoms g !! at1 = Some l -> at2 ∈ l ->
    exists tbl, h !! (at1, at2) = Some tbl /\ length tbl = rows at1
                /\ Forall (fun row => length row = times (gr.bins g)) tbl.

(** A cell that lies outside such tables: a bin below 0 or not below
    [bins], or a row that the tables do not have. *)
Definition outside (g : gr.GR) (rows : string -> nat) (c : gr.cell) : Prop :=
  ~ (0 <= c.2 < gr.bins g) \/ (rows c.1.1.1 <= c.1.2)%nat.

(** ** Rows and columns *)

(** Row [i] of the rows still to be read does not split into [cl] fields.
    Past the end of the input a row reads as the empty chunk. *)
Definition ragged (cl : nat) (rd : Reader) (i : nat) : Prop :=
  length (Fields (nth i rd "")) <> cl.

(** What a successful [readCfgFirst] leaves in [cols] and [colsLen]: every
    column index is below the number of columns. *)
Definition cols_in_range (cols : list nat) (cl : nat) : Prop :=
  forall k, (nth k cols 0 < cl)%nat.

(** ** The unwrapping rule as the specification words it *)

(** With box length [len], threshold [t], previous unwrapped coordinate
    [p] and new coordinate [x]: one box length more when [p - x > t], one
    less when [p - x < - t], and [x] otherwise. *)
Definition unwrap_rule (len t p x : float) : float :=
  if (t <? p - x)%float then (x + len)%float
  else if (p - x <? - t)%float then (x - len)%float
  else x.

(** Coordinate [k] of an atom row, as [strconv.ParseFloat] reads it. *)
Definition coord (cols : list nat) (row : string) (k : nat) : float :=
  ParseFloat (nth (nth k cols 0%nat) (Fields row) "").

(** The three coordinates the rule gives for an atom row of a later frame:
    [p] is the previous unwrapped position of the atom, [c] its running
    correction, and the threshold is half the box length of the frame. *)
Definition unwrapped (cols : list nat) (box p c : list float) (row : string) : list float :=
  map (fun k => unwrap_rule (at3 box k) (at3 box k / 2)%float (at3 p k)
                  (coord cols row k + at3 c k)%float)
      [0; 1; 2]%nat.

(** The threshold of a molecule as the first frame establishes it: the
    entry of [Size] for the molecule id when there is one, half the box
    length otherwise. *)
Definition first_threshold (n : nopbc.NoPBC) (box : list float) (mol : string)
    (k : nat) : float :=
  match nopbc.Size n !! mol with
  | Some sizeMap => at3 sizeMap k
  | None => (at3 box k / 2)%float
  end.

(** The molecule id of an atom row. *)
Definition mol_of (cols : list nat) (row : string) : string :=
  nth (nth 3 cols 0%nat) (Fields row) "".

(** The box of a frame: the lengths that its lines 5, 6 and 7 give. *)
Definition frame_box (frame : list string) : list float :=
  map (bound_length (drop 5 frame)) [0; 1; 2]%nat.

(** The positions of the atoms of the first frame as the specification
    words them, row after row; [prev] is the molecule id and the position
    of the row before.  A row whose molecule id is not that of the row
    before it starts a molecule and is kept as read.  A row that follows
    in the same molecule is tested against the position of the row before
    it, with the threshold of the molecule. *)
Fixpoint first_positions (n : nopbc.NoPBC) (box : list float)
    (prev : option (string * list float)) (rows : list string) : list (list float) :=
  match rows with
  | [] => []
  | row :: rows' =>
      let m := mol_of (nopbc.cols n) row in
      let pos :=
        match prev with
        | Some (m', p) =>
            if String.eqb m m'
            then map (fun k => unwrap_rule (at3 box k) (first_threshold n box m k)
                                 (at3 p k) (coord (nopbc.cols n) row k))
                     [0; 1; 2]%nat
            else map (coord (nopbc.cols n) row) [0; 1; 2]%nat
        | None => map (coord (nopbc.cols n) row) [0; 1; 2]%nat
        end in
      pos :: first_positions n box (Some (m, pos)) rows'
  end.

(** The running correction of an axis after the test of a later frame:
    one box length more or less when the coordinate is moved. *)
Definition correction_rule (len t p x c : float) : float :=
  if (t <? p - x)%float then (c + len)%float
  else if (p - x <? - t)%float then (c - len)%float
  else c.

Definition corrected (cols : list nat) (box p c : list float) (row : string) : list float :=
  map (fun k => correction_rule (at3 box k) (at3 box k / 2)%float (at3 p k)
                  (coord cols row k + at3 c k)%float (at3 c k))
      [0; 1; 2]%nat.

(** A frame after the first as the specification words it, from the
    positions [st.1] of the frame before and the running corrections
    [st.2]: atom [j], whose row is line [9 + j] of the frame, is tested
    against its own position in the frame before, with half the box length
    of this frame. *)
Definition later_frame (cols : list nat) (st : list (list float) * list (list float))
    (frame : list string) : list (list float) * list (list float) :=
  (imap (fun j p => unwrapped cols (frame_box frame) p (nth j st.2 [])
                      (nth (9 + j) frame "")) st.1,
   imap (fun j c => corrected cols (frame_box frame) (nth j st.1 []) c
                      (nth (9 + j) frame "")) st.2).

(** What is written for a frame: its first eight lines as they are, the
    line of the columns, and the row of each atom with its position. *)
Definition frame_output (n : nopbc.NoPBC) (frame : list string)
    (pos : list (list float)) : list nopbc.chunk :=
  map nopbc.Raw (take 8 frame) ++ [nopbc.Raw (nopbc.colsBuf n)]
  ++ imap (fun j p => nopbc.Atom (nopbc.tokens n (Fields (nth (9 + j) frame "")) p)) pos.

(** The output for the frames after the first, each from the state the
    frame before it leaves. *)
Fixpoint later_frames (n : nopbc.NoPBC) (st : list (list float) * list (list float))
    (frames : list (list string)) : list nopbc.chunk :=
  match frames with
  | [] => []
  | frame :: frames' =>
      let st' := later_frame (nopbc.cols n) st frame in
      frame_output n frame st'.1 ++ later_frames n st' frames'
  end.

(** A frame after the first that [readCfg] can decode: nine header lines
    and one row per atom, two numbers on each line of bounds, and
    [colsLen] fields on each row. *)
Definition later_ok (n : nopbc.NoPBC) (frame : list string) : Prop :=
  length frame = (9 + times (nopbc.atoms n))%nat
  /\ (forall k, (k < 3)%nat -> length (Fields (nth (5 + k) frame "")) = 2%nat)
  /\ (forall j, (j < times (nopbc.atoms n))%nat ->
        length (Fields (nth (9 + j) frame "")) = nopbc.colsLen n).

(** A computation of [nopbc] that, when it returns normally, has taken
    [k] lines off the stream and has copied each of them to the output. *)
Definition copies {A} (k : nat) (m : M nopbc.IO A) : Prop :=
  forall s a s', m s = Ok (a, s') ->
    s' = (drop k s.1, s.2 ++ map (fun i => nopbc.Raw (nth i s.1 "")) (seq 0 k)).

(** ** The nearest atom as the specification words it *)









(** ** Updates in place *)

(** [l[i] = f(l[i])], where reading past the end and [f] may fail. *)
Definition list_upd {X} (i : nat) (f : X -> option X) (l : list X) : option (list X) :=
  x ← l !! i; y ← f x; Some (<[i := y]> l).

(** [m[k] = f(m[k])] on a map, where a missing key and [f] may fail. *)
Definition map_upd {K X} `{Countable K} (k : K) (f : X -> option X) (m : gmap K X)
  : option (gmap K X) :=
  x ← m !! k; y ← f x; Some (<[k := y]> m).

(** Two partial updates give the same result in either order. *)
Definition commute {X} (f g : X -> option X) : Prop :=
  forall x, f x ≫= g = g x ≫= f.

(** ** The running integral as the specification words it *)

(** The counts of a histogram row over the frame count, summed up bin
    after bin. *)
Definition running (nbCfg : float) (counts : list float) : list float :=
  (fold_left
     (fun (st : list float * option float) c =>
        let raw := (c / nbCfg)%float in
        let i := match st.2 with Some p => (raw + p)%float | None => raw end in
        (st.1 ++ [i], Some i))
     counts ([], None)).1.

(** The lines of the bin centres and running integrals, from the raw
    counts of the histogram alone. *)
Definition integrals (g : gr.GR) : option (list (float * list float)) :=
  mapM (fun i =>
          cols ← mapM (gr.entry (map (running (gr.nb_cfg g)) <$> gr.hstg g) i)
                      (gr.order_list g);
          Some (((float_of_Z (i + 1) - 0.5) * gr.Dr g)%float, cols))
       (seqZ 0 (gr.bins g)).

(** ** The radius of gyration as the specification words it *)

Module gyration.

Definition total (l : list float) : float :=
  fold_left (fun s x => (s + x)%float) l 0%float.

(** The mass-weighted centroid: per axis, the sum of [mass * coordinate]
    over the total mass. *)
Definition centroid (xyz : list (list float)) (ms : list float) : list float :=
  map (fun k => (total (zip_with (fun v m => (at3 v k * m)%float) xyz ms) / total ms)%float)
    [0; 1; 2]%nat.

(** The squared deviations of an atom from a point, one per axis. *)
Definition deviations (com v : list float) : list float :=
  map (fun k => ((at3 v k - at3 com k) * (at3 v k - at3 com k))%float) [0; 1; 2]%nat.

(** [sqrt (S / (3 N))], [S] the sum of the squared deviations from the
    centroid over the [N] atoms. *)
Definition radius (xyz : list (list float)) (ms : list float) : float :=
  PrimFloat.sqrt
    (total (flat_map (deviations (centroid xyz ms)) xyz)
     / float_of_Z (3 * Z.of_nat (length xyz)))%float.

End gyration.

(** ** Inputs used in the examples *)

Module sample.

Definition nl : string := String (ascii_of_nat 10) EmptyString.

(** The chunks a reader returns for a file of these lines. *)
Definition file (l : list string) : Reader := map (fun s => (s ++ nl)%string) l.

(** A frame of a LAMMPS trajectory: nine header lines, then the atoms. *)
Definition frame (step count : string) (bounds : list string) (columns : string)
    (rows : list string) : Reader :=
  file (["ITEM: TIMESTEP"; step; "ITEM: NUMBER OF ATOMS"; count;
         "ITEM: BOX BOUNDS pp pp pp"] ++ bounds ++ ["ITEM: ATOMS " ++ columns]%string
        ++ rows).

Definition cube10 : list string := ["0 10"; "0 10"; "0 10"].

(** Two atoms of unit mass at (-1,0,0) and (1,0,0). *)
Definition dumbbell : Reader :=
  frame "0" "2" cube10 "id type xu yu zu" ["1 1 -1 0 0"; "2 1 1 0 0"].

(** The same with the second atom of a type that has no mass. *)
Definition massless : Reader :=
  frame "0" "2" cube10 "id type xu yu zu" ["1 1 -1 0 0"; "2 2 1 0 0"].

Definition rg : radiusgyration.RadiusGyration :=
  {| radiusgyration.CfgStart := 0; radiusgyration.CfgEnd := 1;
     radiusgyration.AtomStart := 0; radiusgyration.AtomEnd := 2;
     radiusgyration.Masses := {[ "1" := 1%float ]};
     radiusgyration.Dt := 1%float; radiusgyration.atoms := 0;
     radiusgyration.cols := [0; 0; 0; 0]%nat; radiusgyration.colsLen := 0 |}.

(** An atom-count line that is no integer, for each column layout. *)
Definition bad_count_xu : Reader :=
  frame "0" "abc" cube10 "id type xu yu zu" ["1 1 -1 0 0"; "2 1 1 0 0"].

Definition bad_count_x : Reader :=
  frame "0" "abc" cube10 "id type x y z" ["1 1 1 0 0"; "2 2 2 0 0"].

Definition bad_count_mol : Reader :=
  frame "0" "abc" cube10 "id mol x y z" ["1 1 1 0 0"; "2 1 2 0 0"].

Definition dta : disttwoatoms.DistTwoAtoms :=
  {| disttwoatoms.CfgStart := 0; disttwoatoms.CfgEnd := 1;
     disttwoatoms.Atom1 := 0; disttwoatoms.Atom2 := 1;
     disttwoatoms.Dt := 1%float; disttwoatoms.atoms := 0;
     disttwoatoms.cols := [0; 0; 0]%nat; disttwoatoms.colsLen := 0 |}.

Definition unwrapper : nopbc.NoPBC :=
  {| nopbc.Size := ∅; nopbc.atoms := 0; nopbc.cols := [0; 0; 0; 0]%nat;
     nopbc.colsBuf := ""; nopbc.colsLen := 0 |}.

(** [gr] for the pair of types 1 and 2, ten bins of width 1. *)
Definition rdf : gr.GR :=
  match gr.New 0 1 {[ "1" := ["2"] ]} 10 1 with
  | Ok g => g
  | _ => gr.zero
  end.

(** [volume] with analyte type 1 and solvent type 2, blocs of side 1. *)
Definition vol : volume.Volume :=
  match volume.New 0 1 0 [1; 1; 1]%float [0; 0; 0] ["1"]
          {[ "1" := 1%float; "2" := 1%float ]} 1 with
  | Ok v => v
  | _ => volume.zero
  end.

(** [radiusgyration] reading only the second of two atoms. *)
Definition rg_second : radiusgyration.RadiusGyration :=
  {| radiusgyration.CfgStart := 0; radiusgyration.CfgEnd := 1;
     radiusgyration.AtomStart := 1; radiusgyration.AtomEnd := 2;
     radiusgyration.Masses := {[ "1" := 1%float ]};
     radiusgyration.Dt := 1%float; radiusgyration.atoms := 2;
     radiusgyration.cols := [2; 3; 4; 1]%nat; radiusgyration.colsLen := 5 |}.

(** Two atom rows, the first of a single field. *)
Definition ragged_rows : Reader := file ["junk"; "2 1 1 0 0"].

(** Two atom rows, the second with a field missing. *)
Definition short_second : Reader := file ["1 1 -1 0 0"; "2 1 1 0"].

(** [gr] after the header of a frame of two atoms in five columns. *)
Definition rdf_two : gr.GR := gr.set_header rdf 2 [2; 3; 4; 1]%nat 5.

(** A trajectory of one atom in a box of length 10: the atom is at
    [y = 9.9], then at [y = 0.2]. *)
Definition crossing : Reader :=
  frame "0" "1" cube10 "id mol x y z" ["1 1 0 9.9 0"]
  ++ frame "1" "1" cube10 "id mol x y z" ["1 1 2 0.2 0"].

(** Three frames of three atoms, two of molecule 1 and one of molecule 2,
    that move along [y]; the box of the second frame is 20 long on that
    axis. *)
Definition drift_first : Reader :=
  frame "0" "3" cube10 "id mol x y z" ["1 1 0 3 0"; "2 1 0 1 0"; "3 2 0 9 0"].

Definition drift_later : list (list string) :=
  [ frame "1" "3" ["0 10"; "0 20"; "0 10"] "id mol x y z"
      ["1 1 0 9 0"; "2 1 0 1 0"; "3 2 0 1 0"];
    frame "2" "3" cube10 "id mol x y z"
      ["1 1 0 2 0"; "2 1 0 1 0"; "3 2 0 1 0"] ].

(** The unwrapper with a threshold of its own for molecule 1. *)
Definition unwrapper_sized : nopbc.NoPBC :=
  {| nopbc.Size := {[ "1" := [1; 1; 1]%float ]}; nopbc.atoms := 0;
     nopbc.cols := [0; 0; 0; 0]%nat; nopbc.colsBuf := ""; nopbc.colsLen := 0 |}.

(** The unwrapper after the header of a first frame of one atom in the
    columns [id mol x y z]. *)
Definition unwrapper_read : nopbc.NoPBC :=
  {| nopbc.Size := ∅; nopbc.atoms := 1; nopbc.cols := [2; 3; 4; 1]%nat;
     nopbc.colsBuf := "ITEM: ATOMS id mol xu yu zu "; nopbc.colsLen := 5 |}.

(** [unwrapper_read] with a threshold of its own for molecule 1. *)
Definition unwrapper_read_sized : nopbc.NoPBC :=
  nopbc.with_size unwrapper_read {[ "1" := [1; 1; 1]%float ]}.

Definition cube100 : list string := ["0 100"; "0 100"; "0 100"].

(** An atom of type 1 and an atom of type 2 at distance 10, the cutoff of
    [rdf]. *)
Definition touching : Reader :=
  frame "0" "2" cube100 "id type x y z" ["1 1 0 0 0"; "2 2 10 0 0"].

(** [gr] with a cutoff of 10.5 for a bin width of 1: still ten bins. *)
Definition rdf_wide : gr.GR :=
  match gr.New 0 1 {[ "1" := ["2"] ]} 10.5 1 with
  | Ok g => g
  | _ => gr.zero
  end.

(** The two atoms at distance 10.2, below the cutoff of [rdf_wide]. *)
Definition near_cutoff : Reader :=
  frame "0" "2" cube100 "id type x y z" ["1 1 0 0 0"; "2 2 10.2 0 0"].

Definition cube12 : list string := ["0 12"; "0 12"; "0 12"].


(** An analyte atom and a solvent atom, both at distance 1 from the centre
    (2,2,2) of the cell of the analyte atom. *)
Definition tie : XYZ := {[ "1" := [[3; 2; 2]%float]; "2" := [[2; 2; 3]%float] ]}.




(** [gr] for the pair of types 1 and 2 over three frames, five bins of
    width 0.1. *)
Definition rdf3 : gr.GR :=
  match gr.New 0 3 {[ "1" := ["2"] ]} 0.5 0.1 with
  | Ok g => g
  | _ => gr.zero
  end.

(** Three frames of three atoms in a box whose first side is 0.2, then
    0.3, then 0.1. *)
Definition breathing : Reader :=
  frame "0" "3" ["0 0.2"; "0 1"; "0 1"] "id type x y z"
    ["1 1 0 0 0"; "2 2 0.1 0 0"; "3 3 0 0 0"]
  ++ frame "1" "3" ["0 0.3"; "0 1"; "0 1"] "id type x y z"
    ["1 1 0 0 0"; "2 2 0.1 0 0"; "3 3 0 0 0"]
  ++ frame "2" "3" ["0 0.1"; "0 1"; "0 1"] "id type x y z"
    ["1 1 0 0 0"; "2 2 0.05 0 0"; "3 3 0 0 0"].

(** [rdf3] on [breathing] at the point where [Start] launches the
    workers. *)
Definition started : gr.GR * Reader :=
  match gr.first rdf3 breathing with
  | Ok s => s
  | _ => (gr.zero, [])
  end.

(** One worker alone: each frame is claimed and worked on in turn. *)
Definition alone : list nat := [0; 0; 0; 0; 0; 0; 0; 0; 0]%nat.

(** Two workers: worker 0 claims frame 1, worker 1 claims frame 2 and
    finishes it before worker 0 writes anything. *)
Definition overtaking : list nat := [0; 1; 1; 1; 0; 0; 1; 0]%nat.

Definition gr_run (n : nat) (sched : list nat)
  : pool.pool (Sh:=gr.GR * Reader) (A:=gr.action)
    * list (pool.event (J:=list float * XYZ) (A:=gr.action)) :=
  match pool.run gr.claim (gr.work started.1) gr.locked sched (pool.launch n started) with
  | Some r => r
  | None => (pool.launch n started, [])
  end.

(** [volume] over five frames of which every second one is processed. *)
Definition vol_spaced : volume.Volume :=
  match volume.New 0 5 1 [1; 1; 1]%float [0; 0; 0] ["1"]
          {[ "1" := 1%float; "2" := 1%float ]} 1 with
  | Ok v => v
  | _ => volume.zero
  end.

(** Five frames of an analyte atom that moves along x and a solvent atom. *)
Definition drifting : Reader :=
  frame "0" "2" cube10 "id type x y z" ["1 1 0.5 2.5 1.5"; "2 2 7.5 7.5 7.5"]
  ++ frame "1" "2" cube10 "id type x y z" ["1 1 1.5 2.5 1.5"; "2 2 7.5 7.5 7.5"]
  ++ frame "2" "2" cube10 "id type x y z" ["1 1 2.5 2.5 1.5"; "2 2 7.5 7.5 7.5"]
  ++ frame "3" "2" cube10 "id type x y z" ["1 1 3.5 2.5 1.5"; "2 2 7.5 7.5 7.5"]
  ++ frame "4" "2" cube10 "id type x y z" ["1 1 4.5 2.5 1.5"; "2 2 7.5 7.5 7.5"].

(** [vol_spaced] on [drifting] at the point where [Start] launches the
    workers. *)
Definition vol_started : volume.shared :=
  match volume.first vol_spaced drifting with
  | Ok ((v, o), rd) => ((v, rd), o)
  | _ => ((volume.zero, []), ([], None))
  end.

(** Two workers: worker 0 claims frame 2, worker 1 claims frame 4 and
    prints its row first. *)
Definition vol_overtaking : list nat := [0; 1; 1; 0; 0; 1]%nat.

Definition vol_run (n : nat) (sched : list nat)
  : pool.pool (Sh:=volume.shared) (A:=volume.action)
    * list (pool.event (J:=volume.job) (A:=volume.action)) :=
  match pool.run volume.claim_shared (volume.work vol_started.1.1) volume.locked sched
          (pool.launch n vol_started) with
  | Some r => r
  | None => (pool.launch n vol_started, [])
  end.

(** [gr] for the pair of type 1 with itself, ten bins of width 1. *)
Definition rdf_self : gr.GR :=
  match gr.New 0 1 {[ "1" := ["1"] ]} 10 1 with
  | Ok g => g
  | _ => gr.zero
  end.

(** A trajectory of a single frame: one atom in a box of length 10. *)
Definition still : Reader := frame "0" "1" cube10 "id mol x y z" ["1 1 0 9.9 0"].

End sample.

(** * Properties *)

(** ** The radius of gyration *)

Section gyration_facts.
Import radiusgyration.

Lemma weigh_sums masses xyz : forall types ms massTot c0 c1 c2,
  Forall2 (fun t m => masses !! t = Some m) types ms ->
  length types = length xyz ->
  weigh masses xyz types massTot [c0; c1; c2] =
  Ok (fold_left (fun s x => (s + x)%float) ms massTot,
      map (fun k => fold_left (fun s x => (s + x)%float)
                      (zip_with (fun v m => (at3 v k * m)%float) xyz ms)
                      (at3 [c0; c1; c2] k))
          [0; 1; 2]%nat).
Proof.
  induction xyz as [|v xyz IH]; intros types ms massTot c0 c1 c2 Hm Hlen.
  - destruct types; [|done]. by inversion Hm.
  - destruct types as [|t types]; [done|].
    inversion Hm as [|? m ? ms' Ht Hms]; subst.
    cbn [weigh]. rewrite Ht. rewrite (IH _ ms'); [done|done|]. by injection Hlen.
Qed.

Lemma spread_total com xyz : forall radius,
  spread com xyz radius =
  fold_left (fun s x => (s + x)%float) (flat_map (gyration.deviations com) xyz) radius.
Proof.
  unfold spread. induction xyz as [|v xyz IH]; intros radius; [done|].
  cbn [fold_left flat_map]. rewrite fold_left_app. by rewrite IH.
Qed.

Lemma wrap64_small z : min_int <= z <= max_int -> wrap64 z = z.
Proof.
  unfold wrap64, min_int, max_int. intros H.
  rewrite Z.mod_small; lia.
Qed.

(** C7: for a frame whose atoms all have a mass, [calc] prints
    [sqrt (S / (3 N))], with [S] the sum over the [N] selected atoms of the
    squared deviations from the mass-weighted centroid (the denominator is
    three times the atom count, no mass in it); two atoms of unit mass at
    (-1,0,0) and (1,0,0) give [sqrt (2/6) = sqrt (1/3)]. *)
Theorem calc_radius_of_gyration :
  (forall r cfg xyz types ms w,
     Forall2 (fun t m => Masses r !! t = Some m) types ms ->
     length types = length xyz ->
     Z.of_nat (length xyz) * 3 <= max_int ->
     calc r cfg xyz types w =
     Ok (tt, w ++ [(add64 cfg (CfgStart r),
                    (float_of_Z (add64 cfg (CfgStart r)) * Dt r)%float,
                    gyration.radius xyz ms)]))
  /\ calc sample.rg 0 [[-1; 0; 0]; [1; 0; 0]]%float ["1"; "1"] [] =
     Ok (tt, [(0, 0%float, PrimFloat.sqrt (2 / 6))])
  /\ PrimFloat.sqrt (2 / 6) = PrimFloat.sqrt (1 / 3).
Proof.
  split; [|split; vm_compute; reflexivity].
  intros r cfg xyz types ms w Hm Hlen Hn.
  unfold calc. rewrite (weigh_sums _ _ _ ms) by done.
  rewrite spread_total. unfold mul64. rewrite wrap64_small by (unfold min_int; lia).
  unfold gyration.radius, gyration.centroid, gyration.total.
  by rewrite (Z.mul_comm 3).
Qed.

(** A frame of two atoms of unit mass, read from text. *)
Lemma calc_radius_of_gyration_witness :
  calc sample.rg 0 [[-1; 0; 0]; [1; 0; 0]]%float ["1"; "1"] [] =
  Ok (tt, [(add64 0 (CfgStart sample.rg),
            (float_of_Z (add64 0 (CfgStart sample.rg)) * Dt sample.rg)%float,
            gyration.radius [[-1; 0; 0]; [1; 0; 0]]%float [1; 1]%float)]).
Proof.
  apply (proj1 calc_radius_of_gyration sample.rg 0 _ ["1"; "1"] [1; 1]%float []).
  - repeat constructor.
  - reflexivity.
  - vm_compute. discriminate.
Defined.

End gyration_facts.

(** ** A type without a mass *)

Section missing_mass.
Import radiusgyration.

Lemma rows_masses r m n : rows (with_masses r m) n = rows r n.
Proof. induction n as [|n IH]; [done|]. cbn [rows]. by rewrite IH. Qed.

Lemma fetchXYZ_masses r m : fetchXYZ (with_masses r m) = fetchXYZ r.
Proof. unfold fetchXYZ. by rewrite rows_masses. Qed.

Lemma readCfg_masses r m : readCfg (with_masses r m) = readCfg r.
Proof. unfold readCfg. by rewrite fetchXYZ_masses. Qed.

Lemma frames_loop_masses r m n : forall i rd w w',
  (frames_loop (with_masses r m) n i rd w).1 = (frames_loop r n i rd w').1.
Proof.
  induction n as [|n IH]; intros i rd w w'; [done|].
  cbn [frames_loop]. rewrite readCfg_masses.
  destruct (readCfg r rd) as [[[xyz types] rd']| |]; [|done..].
  apply IH.
Qed.

Lemma readCfgFirst_masses r m rd :
  readCfgFirst (with_masses r m) rd =
  match readCfgFirst r rd with
  | Ok ((r', res), rd') => Ok ((with_masses r' m, res), rd')
  | Err e => Err e
  | Panic msg => Panic msg
  end.
Proof.
  unfold readCfgFirst, bind.
  destruct (repeatM 3 util.skip_line rd) as [[[] rd1]| |]; [|done..].
  destruct (util.atoi_line rd1) as [[n rd2]| |]; [|done..].
  destruct (repeatM 4 util.skip_line rd2) as [[[] rd3]| |]; [|done..].
  destruct (ReadSlice rd3) as [[b rd4]| |]; [|done..].
  destruct (length (Fields b) <=? 2)%nat; [done|].
  destruct (scan_cols _ _) as [c found].
  destruct (found <? 4)%nat; [done|].
  unfold wrap.
  change (set_cols (set_atoms (with_masses r m) n) c (length (drop 2 (Fields b))))
    with (with_masses (set_cols (set_atoms r n) c (length (drop 2 (Fields b)))) m).
  rewrite fetchXYZ_masses.
  by destruct (fetchXYZ _ rd4) as [[res rd5]| |].
Qed.

(** C6 (the code departs from it): [calc] returns the error that names the
    type without a mass, and [Start] drops it.  On a frame with such an
    atom [Start] returns [nil] with no row written; whatever the trajectory,
    the outcome of [Start] does not depend on [Masses]. *)
Theorem Start_drops_missing_mass :
  (exists r xyz types rd,
     readCfgFirst sample.rg sample.massless = Ok ((r, (xyz, types)), rd)
     /\ calc r 0 xyz types [] = Err (ErrNoMass "2"))
  /\ Start sample.rg sample.massless = (Ok tt, [])
  /\ forall r m rd, (Start (with_masses r m) rd).1 = (Start r rd).1.
Proof.
  split; [|split].
  - do 4 eexists. split; [vm_compute; reflexivity|]. vm_compute. reflexivity.
  - vm_compute. reflexivity.
  - intros r m rd. unfold Start.
    change (CfgStart (with_masses r m)) with (CfgStart r).
    destruct (wrap "ReadCfgNonCvg" _ rd) as [[[] rd1]| |]; [|done..].
    unfold wrap. rewrite readCfgFirst_masses.
    destruct (readCfgFirst r rd1) as [[[r' [xyz types]] rd2]| |]; [|done..].
    apply frames_loop_masses.
Qed.

End missing_mass.

(** ** An atom-count line that is no integer *)

Lemma Header_keeps_going (l0 l1 l2 l3 l4 : string) (rest : Reader) :
  util.Header ReadSlice (l0 :: l1 :: l2 :: l3 :: l4 :: rest) =
  match util.HeaderBox ReadSlice rest with
  | Ok (box, rd) => Ok (((Atoi (TrimSpace l3)).1, box), rd)
  | Err e => Err e
  | Panic msg => Panic msg
  end.
Proof.
  unfold util.Header, bind. cbn.
  by destruct (util.HeaderBox ReadSlice rest) as [[box rd]| |].
Qed.

(** C3 (the code departs from it): [util.Header] drops the error of
    [strconv.Atoi].  With the atom-count line [abc], [radiusgyration] and
    [disttwoatoms] fail with the syntax error, while [gr], [volume] and
    [nopbc] read the first frame as one of zero atoms and return no error;
    for any stream, [Header] fails only where [HeaderBox] does. *)
Theorem Header_drops_atoi_error :
  radiusgyration.readCfgFirst sample.rg sample.bad_count_xu = Err (ErrSyntax "Atoi" "abc")
  /\ disttwoatoms.readCfgFirst sample.dta sample.bad_count_xu = Err (ErrSyntax "Atoi" "abc")
  /\ (exists g rd, gr.readCfgFirst sample.rdf sample.bad_count_x = Ok (g, rd)
                   /\ gr.atoms g.1 = 0)
  /\ (exists v rd, volume.readCfgFirst sample.vol sample.bad_count_x = Ok (v, rd)
                   /\ volume.atoms v.1 = 0)
  /\ (exists n s, nopbc.readCfgFirst sample.unwrapper (sample.bad_count_mol, []) = Ok (n, s)
                  /\ nopbc.atoms n.1 = 0)
  /\ forall l0 l1 l2 l3 l4 rest,
       is_Err (util.Header ReadSlice (l0 :: l1 :: l2 :: l3 :: l4 :: rest)) <->
       is_Err (util.HeaderBox ReadSlice rest).
Proof.
  split; [vm_compute; reflexivity|].
  split; [vm_compute; reflexivity|].
  split; [do 2 eexists; split; [vm_compute; reflexivity|reflexivity]|].
  split; [do 2 eexists; split; [vm_compute; reflexivity|reflexivity]|].
  split; [do 2 eexists; split; [vm_compute; reflexivity|reflexivity]|].
  intros. rewrite Header_keeps_going.
  by destruct (util.HeaderBox ReadSlice rest) as [[box rd]| |].
Qed.

(** ** Which rows have their field count checked *)

Section reading.
Context {S : Type}.

Lemma bind_Err {A B} (m : M S A) (k : A -> M S B) s :
  is_Err (m s) -> is_Err (bind m k s).
Proof. unfold bind. by destruct (m s) as [[a s']| |]. Qed.

Lemma bind_Ok {A B} (m : M S A) (k : A -> M S B) s a s' :
  m s = Ok (a, s') -> bind m k s = k a s'.
Proof. unfold bind. by intros ->. Qed.

Lemma wrap_Err {A} ctx (m : M S A) s : is_Err (m s) -> is_Err (wrap ctx m s).
Proof. unfold wrap. by destruct (m s). Qed.

Lemma wrap_Ok {A} ctx (m : M S A) s a s' :
  m s = Ok (a, s') -> wrap ctx m s = Ok (a, s').
Proof. unfold wrap. by intros ->. Qed.

Lemma index_Ok (fields : list string) i (s : S) :
  (i < length fields)%nat -> exists v, index fields i s = Ok (v, s).
Proof.
  intros Hi. unfold index.
  destruct (lookup_lt_is_Some_2 fields i Hi) as [v ->]. by exists v.
Qed.

Lemma coords3_Ok cols (fields : list string) (s : S) :
  cols_in_range cols (length fields) ->
  exists v, coords3 cols fields s = Ok (v, s).
Proof.
  intros Hc. unfold coords3.
  destruct (index_Ok fields (nth 0 cols 0%nat) s (Hc _)) as [x Hx].
  destruct (index_Ok fields (nth 1 cols 0%nat) s (Hc _)) as [y Hy].
  destruct (index_Ok fields (nth 2 cols 0%nat) s (Hc _)) as [z Hz].
  rewrite (bind_Ok _ _ _ _ _ Hx), (bind_Ok _ _ _ _ _ Hy), (bind_Ok _ _ _ _ _ Hz).
  by eexists.
Qed.
End reading.

Lemma ReadSlice_eq rd : ReadSlice rd = Ok (nth 0 rd "", drop 1 rd).
Proof. by destruct rd. Qed.

Lemma bind_ReadSlice {B} (k : string -> M Reader B) rd :
  bind ReadSlice k rd = k (nth 0 rd "") (drop 1 rd).
Proof. by destruct rd. Qed.

Lemma skip_lines n rd : repeatM n util.skip_line rd = Ok (tt, drop n rd).
Proof.
  revert rd. induction n as [|n IH]; intros rd; [done|].
  cbn [repeatM]. unfold bind at 1, util.skip_line at 1, bind at 1.
  rewrite ReadSlice_eq. cbn [ret]. rewrite IH. by rewrite drop_drop.
Qed.

Lemma nth_drop {A} n i (l : list A) d : nth i (drop n l) d = nth (n + i) l d.
Proof.
  revert l. induction n as [|n IH]; intros l; [done|].
  destruct l as [|x l]; [by destruct i|]. apply IH.
Qed.

Lemma ragged_drop cl rd n i : ragged cl (drop n rd) i <-> ragged cl rd (n + i).
Proof. unfold ragged. by rewrite nth_drop. Qed.

(** Closes a goal on a row from a hypothesis on the same row, written
    otherwise. *)
Ltac same_row H :=
  match goal with
  | |- ragged _ _ ?n =>
      match type of H with
      | ragged _ _ ?m => replace n with m by lia; exact H
      end
  end.

Lemma length_neq_false (n m : nat) : n <> m -> (n =? m)%nat = false.
Proof. apply Nat.eqb_neq. Qed.

Section radiusgyration_rows.
Import radiusgyration.

Lemma rg_row_ragged r rd : ragged (colsLen r) rd 0 -> is_Err (row r rd).
Proof.
  intros Hbad. unfold row. rewrite bind_ReadSlice.
  by rewrite (length_neq_false _ _ Hbad).
Qed.

Lemma rg_row_cases r rd :
  cols_in_range (cols r) (colsLen r) ->
  is_Err (row r rd) \/ exists x, row r rd = Ok (x, drop 1 rd).
Proof.
  intros Hc. unfold row. rewrite bind_ReadSlice.
  destruct (length (Fields (nth 0 rd "")) =? colsLen r)%nat eqn:E; [|by left].
  apply Nat.eqb_eq in E. rewrite <- E in Hc. right. cbn [negb].
  destruct (coords3_Ok _ _ (drop 1 rd) Hc) as [v Hv].
  destruct (index_Ok (Fields (nth 0 rd "")) (nth 3 (cols r) 0%nat) (drop 1 rd) (Hc _))
    as [t Ht].
  rewrite (bind_Ok _ _ _ _ _ Hv), (bind_Ok _ _ _ _ _ Ht). by eexists.
Qed.

Lemma rg_rows_ragged r : forall n rd i,
  cols_in_range (cols r) (colsLen r) ->
  (i < n)%nat -> ragged (colsLen r) rd i -> is_Err (rows r n rd).
Proof.
  induction n as [|n IH]; intros rd i Hc Hi Hbad; [lia|].
  cbn [rows]. destruct i as [|i].
  - by apply bind_Err, rg_row_ragged.
  - destruct (rg_row_cases r rd Hc) as [He|[[v t] Hx]]; [by apply bind_Err|].
    rewrite (bind_Ok _ _ _ _ _ Hx). apply bind_Err.
    apply (IH _ i); [done|lia|]. by apply ragged_drop.
Qed.

Lemma rg_fetchXYZ_ragged r rd i :
  cols_in_range (cols r) (colsLen r) ->
  (times (AtomStart r) <= i < times (AtomStart r) + times (sub64 (AtomEnd r) (AtomStart r)))%nat ->
  ragged (colsLen r) rd i -> is_Err (fetchXYZ r rd).
Proof.
  intros Hc Hi Hbad. unfold fetchXYZ.
  rewrite (bind_Ok _ _ _ _ _ (skip_lines _ _)). apply bind_Err.
  apply (rg_rows_ragged r _ _ (i - times (AtomStart r))); [done|lia|].
  apply ragged_drop. by replace (_ + (i - _))%nat with i by lia.
Qed.
End radiusgyration_rows.

Section disttwoatoms_rows.
Import disttwoatoms.

Lemma dta_readXYZ_ragged d rd : ragged (colsLen d) rd 0 -> is_Err (readXYZ d rd).
Proof.
  intros Hbad. unfold readXYZ. rewrite bind_ReadSlice.
  by rewrite (length_neq_false _ _ Hbad).
Qed.

Lemma dta_readXYZ_cases d rd :
  cols_in_range (cols d) (colsLen d) ->
  is_Err (readXYZ d rd) \/ exists x, readXYZ d rd = Ok (x, drop 1 rd).
Proof.
  intros Hc. unfold readXYZ. rewrite bind_ReadSlice.
  destruct (length (Fields (nth 0 rd "")) =? colsLen d)%nat eqn:E; [|by left].
  apply Nat.eqb_eq in E. rewrite <- E in Hc. right. cbn [negb].
  apply (coords3_Ok _ _ (drop 1 rd) Hc).
Qed.

Lemma dta_fetchXYZ_ragged d rd i :
  cols_in_range (cols d) (colsLen d) ->
  i = times (Atom1 d) \/
  i = (times (Atom1 d) + 1 + times (sub64 (sub64 (Atom2 d) (Atom1 d)) 1))%nat ->
  ragged (colsLen d) rd i -> is_Err (fetchXYZ d rd).
Proof.
  intros Hc Hi Hbad. unfold fetchXYZ.
  rewrite (bind_Ok _ _ _ _ _ (skip_lines _ _)).
  destruct (dta_readXYZ_cases d (drop (times (Atom1 d)) rd) Hc) as [He|[x Hx]].
  { by apply bind_Err, wrap_Err. }
  destruct Hi as [->| ->].
  { apply bind_Err, wrap_Err, dta_readXYZ_ragged, ragged_drop.
    by rewrite Nat.add_0_r. }
  rewrite (bind_Ok _ _ _ _ _ (wrap_Ok "readXYZ" _ _ _ _ Hx)).
  rewrite (bind_Ok _ _ _ _ _ (skip_lines _ _)).
  apply bind_Err, wrap_Err, dta_readXYZ_ragged.
  rewrite !drop_drop. apply ragged_drop. same_row Hbad.
Qed.
End disttwoatoms_rows.

Section gr_rows.
Import gr.

Lemma gr_readXYZ_ragged g xyz rd : ragged (colsLen g) rd 0 -> is_Err (readXYZ g xyz rd).
Proof.
  intros Hbad. unfold readXYZ. rewrite bind_ReadSlice.
  by rewrite (length_neq_false _ _ Hbad).
Qed.

Lemma gr_readXYZ_cases g xyz rd :
  cols_in_range (cols g) (colsLen g) ->
  is_Err (readXYZ g xyz rd) \/ exists x, readXYZ g xyz rd = Ok (x, drop 1 rd).
Proof.
  intros Hc. unfold readXYZ. rewrite bind_ReadSlice.
  destruct (length (Fields (nth 0 rd "")) =? colsLen g)%nat eqn:E; [|by left].
  apply Nat.eqb_eq in E. rewrite <- E in Hc. right. cbn [negb].
  destruct (index_Ok (Fields (nth 0 rd "")) (nth 3 (cols g) 0%nat) (drop 1 rd) (Hc _))
    as [t Ht].
  rewrite (bind_Ok _ _ _ _ _ Ht).
  destruct (xyz !! t); [|by eexists].
  destruct (coords3_Ok _ _ (drop 1 rd) Hc) as [v Hv].
  rewrite (bind_Ok _ _ _ _ _ Hv). by eexists.
Qed.

Lemma gr_rows_ragged g : forall n xyz rd i,
  cols_in_range (cols g) (colsLen g) ->
  (i < n)%nat -> ragged (colsLen g) rd i -> is_Err (rows g n xyz rd).
Proof.
  induction n as [|n IH]; intros xyz rd i Hc Hi Hbad; [lia|].
  cbn [rows]. destruct i as [|i].
  - by apply bind_Err, gr_readXYZ_ragged.
  - destruct (gr_readXYZ_cases g xyz rd Hc) as [He|[[t xyz'] Hx]]; [by apply bind_Err|].
    rewrite (bind_Ok _ _ _ _ _ Hx).
    apply (IH _ _ i); [done|lia|]. by apply ragged_drop.
Qed.

Lemma gr_rowsFirst_ragged g : forall n o xyz rd i,
  cols_in_range (cols g) (colsLen g) ->
  (i < n)%nat -> ragged (colsLen g) rd i -> is_Err (rowsFirst g n o xyz rd).
Proof.
  induction n as [|n IH]; intros o xyz rd i Hc Hi Hbad; [lia|].
  cbn [rowsFirst]. destruct i as [|i].
  - by apply bind_Err, gr_readXYZ_ragged.
  - destruct (gr_readXYZ_cases g xyz rd Hc) as [He|[[t xyz'] Hx]]; [by apply bind_Err|].
    rewrite (bind_Ok _ _ _ _ _ Hx).
    apply (IH _ _ _ i); [done|lia|]. by apply ragged_drop.
Qed.

Lemma gr_fresh_Ok g rd :
  atomsTyp g <> [] -> 0 <= atoms g -> exists xyz, fresh g rd = Ok (xyz, rd).
Proof.
  intros Ht Ha. unfold fresh. destruct (atomsTyp g) as [|t l] eqn:E; [done|].
  destruct (Z.ltb_spec (atoms g ÷ Z.of_nat (length (t :: l))) 0) as [Hq|Hq].
  - pose proof (Z.quot_pos (atoms g) (Z.of_nat (length (t :: l))) Ha).
    cbn [length] in *. lia.
  - by eexists.
Qed.

Lemma gr_fetchXYZ_ragged g rd i :
  cols_in_range (cols g) (colsLen g) -> atomsTyp g <> [] ->
  (i < times (atoms g))%nat ->
  ragged (colsLen g) rd i ->
  is_Err (fetchXYZ g rd) /\ is_Err (fetchXYZFirst g rd).
Proof.
  intros Hc Ht Hi Hbad. unfold fetchXYZ, fetchXYZFirst, times in *.
  destruct (gr_fresh_Ok g rd Ht) as [xyz Hx]; [lia|].
  rewrite !(bind_Ok _ _ _ _ _ Hx). split.
  - by apply (gr_rows_ragged g _ _ _ i).
  - by apply (gr_rowsFirst_ragged g _ _ _ _ i).
Qed.
End gr_rows.

Section volume_rows.
Import volume.

Lemma vol_row_ragged v xyz rd : ragged (colsLen v) rd 0 -> is_Err (row v xyz rd).
Proof.
  intros Hbad. unfold row. rewrite bind_ReadSlice.
  by rewrite (length_neq_false _ _ Hbad).
Qed.

Lemma vol_row_cases v xyz rd :
  cols_in_range (cols v) (colsLen v) ->
  is_Err (row v xyz rd) \/ exists x, row v xyz rd = Ok (x, drop 1 rd).
Proof.
  intros Hc. unfold row. rewrite bind_ReadSlice.
  destruct (length (Fields (nth 0 rd "")) =? colsLen v)%nat eqn:E; [|by left].
  apply Nat.eqb_eq in E. rewrite <- E in Hc. right. cbn [negb].
  destruct (index_Ok (Fields (nth 0 rd "")) (nth 3 (cols v) 0%nat) (drop 1 rd) (Hc _))
    as [t Ht].
  rewrite (bind_Ok _ _ _ _ _ Ht).
  destruct (Sigma v !! t); [|by eexists].
  destruct (coords3_Ok _ _ (drop 1 rd) Hc) as [c Hv].
  rewrite (bind_Ok _ _ _ _ _ Hv). by eexists.
Qed.

Lemma vol_rows_ragged v : forall n xyz rd i,
  cols_in_range (cols v) (colsLen v) ->
  (i < n)%nat -> ragged (colsLen v) rd i -> is_Err (rows v n xyz rd).
Proof.
  induction n as [|n IH]; intros xyz rd i Hc Hi Hbad; [lia|].
  cbn [rows]. destruct i as [|i].
  - by apply bind_Err, vol_row_ragged.
  - destruct (vol_row_cases v xyz rd Hc) as [He|[xyz' Hx]]; [by apply bind_Err|].
    rewrite (bind_Ok _ _ _ _ _ Hx).
    apply (IH _ _ i); [done|lia|]. by apply ragged_drop.
Qed.

Lemma vol_fetchXYZ_ragged v rd i :
  cols_in_range (cols v) (colsLen v) -> Sigma v <> ∅ ->
  (i < times (atoms v))%nat ->
  ragged (colsLen v) rd i -> is_Err (fetchXYZ v rd).
Proof.
  intros Hc Hs Hi Hbad. unfold fetchXYZ, times in *.
  rewrite bool_decide_eq_false_2 by done.
  destruct (Z.ltb_spec (atoms v ÷ Z.of_nat (size (Sigma v))) 0) as [Hq|Hq].
  - assert (size (Sigma v) <> 0%nat) by (by rewrite map_size_empty_iff).
    pose proof (Z.quot_pos (atoms v) (Z.of_nat (size (Sigma v)))). lia.
  - by apply (vol_rows_ragged v _ _ _ i).
Qed.
End volume_rows.

Section nopbc_rows.
Import nopbc.

Lemma bind_readOnly {B} (k : string -> M IO B) (s : IO) :
  bind readOnly k s = k (nth 0 s.1 "") (drop 1 s.1, s.2).
Proof. unfold bind, readOnly. by destruct s as [[|l rd] w]. Qed.

Lemma row_first_ragged n box i st (s : IO) :
  ragged (colsLen n) s.1 0 -> is_Err (row_first n box i st s).
Proof.
  intros Hbad. unfold row_first. rewrite bind_readOnly.
  by rewrite (length_neq_false _ _ Hbad).
Qed.

Lemma row_first_cases n box i st (s : IO) :
  cols_in_range (cols n) (colsLen n) ->
  is_Err (row_first n box i st s) \/
  exists st' w, row_first n box i st s = Ok (st', (drop 1 s.1, w)).
Proof.
  intros Hc. unfold row_first. rewrite bind_readOnly.
  destruct (length (Fields (nth 0 s.1 "")) =? colsLen n)%nat eqn:E; [|by left].
  apply Nat.eqb_eq in E. rewrite <- E in Hc. right. cbn [negb].
  destruct (index_Ok (Fields (nth 0 s.1 "")) (nth 3 (cols n) 0%nat)
              (drop 1 s.1, s.2) (Hc _)) as [m Hm].
  rewrite (bind_Ok _ _ _ _ _ Hm).
  destruct (coords3_Ok _ _ (drop 1 s.1, s.2) Hc) as [raw Hraw].
  rewrite (bind_Ok _ _ _ _ _ Hraw). by do 2 eexists.
Qed.

Lemma rows_first_ragged n box : forall count i st (s : IO) j,
  cols_in_range (cols n) (colsLen n) ->
  (j < count)%nat -> ragged (colsLen n) s.1 j ->
  is_Err (rows_first n box count i st s).
Proof.
  induction count as [|count IH]; intros i st s j Hc Hj Hbad; [lia|].
  cbn [rows_first]. destruct j as [|j].
  - by apply bind_Err, row_first_ragged.
  - destruct (row_first_cases n box i st s Hc) as [He|(st' & w & Hx)];
      [by apply bind_Err|].
    rewrite (bind_Ok _ _ _ _ _ Hx). apply bind_Err.
    apply (IH _ _ _ j); [done|lia|]. by apply ragged_drop.
Qed.

Lemma row_next_ragged n box i st (s : IO) :
  ragged (colsLen n) s.1 0 -> is_Err (row_next n box i st s).
Proof.
  intros Hbad. unfold row_next. destruct st as [last corr].
  rewrite bind_readOnly. by rewrite (length_neq_false _ _ Hbad).
Qed.

Lemma row_next_cases n box i (st : list (list float) * list (list float)) (s : IO) :
  cols_in_range (cols n) (colsLen n) ->
  (i < length st.1)%nat -> (i < length st.2)%nat ->
  is_Err (row_next n box i st s) \/
  exists st' w, row_next n box i st s = Ok (st', (drop 1 s.1, w))
                /\ length st'.1 = length st.1 /\ length st'.2 = length st.2.
Proof.
  intros Hc Hl1 Hl2. unfold row_next. destruct st as [last corr].
  rewrite bind_readOnly.
  destruct (length (Fields (nth 0 s.1 "")) =? colsLen n)%nat eqn:E; [|by left].
  apply Nat.eqb_eq in E. rewrite <- E in Hc. right. cbn [negb].
  destruct (coords3_Ok _ _ (drop 1 s.1, s.2) Hc) as [raw Hraw].
  rewrite (bind_Ok _ _ _ _ _ Hraw).
  destruct (lookup_lt_is_Some_2 last i Hl1) as [p ->].
  destruct (lookup_lt_is_Some_2 corr i Hl2) as [c ->].
  do 2 eexists. split; [reflexivity|]. cbn. by rewrite !length_insert.
Qed.

Lemma rows_next_ragged n box : forall count i st (s : IO) j,
  cols_in_range (cols n) (colsLen n) ->
  (i + count <= length st.1)%nat -> (i + count <= length st.2)%nat ->
  (j < count)%nat -> ragged (colsLen n) s.1 j ->
  is_Err (rows_next n box count i st s).
Proof.
  induction count as [|count IH]; intros i st s j Hc Hl1 Hl2 Hj Hbad; [lia|].
  cbn [rows_next]. destruct j as [|j].
  - by apply bind_Err, row_next_ragged.
  - destruct (row_next_cases n box i st s Hc) as [He|(st' & w & Hx & H1 & H2)];
      [lia|lia|by apply bind_Err|].
    rewrite (bind_Ok _ _ _ _ _ Hx).
    apply (IH _ _ _ j); [done|lia|lia|lia|]. by apply ragged_drop.
Qed.
End nopbc_rows.

(** C9 as stated fails: [radiusgyration.fetchXYZ] skips the rows before
    [AtomStart] unread; with [AtomStart = 1] a first row of one field is
    passed over and the frame decodes. *)
Lemma unselected_row_unchecked :
  ~ (forall r rd i,
       cols_in_range (radiusgyration.cols r) (radiusgyration.colsLen r) ->
       (i < times (radiusgyration.atoms r))%nat ->
       ragged (radiusgyration.colsLen r) rd i ->
       is_Err (radiusgyration.fetchXYZ r rd)).
Proof.
  intros H. apply (H sample.rg_second sample.ragged_rows 0%nat).
  - intros k. do 5 (destruct k as [|k]; [cbn; lia|]). cbn. lia.
  - vm_compute. lia.
  - vm_compute. discriminate.
Qed.

(** C9, amended: a row whose field count differs from [colsLen] makes the
    decoding of its frame fail when the decoder reads that row: every row
    of the frame in [gr], [volume] and [nopbc] (first and later frames),
    the rows from [AtomStart] up to [AtomEnd] in [radiusgyration], the rows
    [Atom1] and [Atom2] in [disttwoatoms].  The other rows of these two are
    skipped without a look at their fields. *)
Theorem field_count_checked :
  (forall r rd i,
     cols_in_range (radiusgyration.cols r) (radiusgyration.colsLen r) ->
     (times (radiusgyration.AtomStart r) <= i
      < times (radiusgyration.AtomStart r)
        + times (sub64 (radiusgyration.AtomEnd r) (radiusgyration.AtomStart r)))%nat ->
     ragged (radiusgyration.colsLen r) rd i ->
     is_Err (radiusgyration.fetchXYZ r rd))
  /\ (forall d rd i,
        cols_in_range (disttwoatoms.cols d) (disttwoatoms.colsLen d) ->
        i = times (disttwoatoms.Atom1 d) \/
        i = (times (disttwoatoms.Atom1 d) + 1
             + times (sub64 (sub64 (disttwoatoms.Atom2 d) (disttwoatoms.Atom1 d)) 1))%nat ->
        ragged (disttwoatoms.colsLen d) rd i ->
        is_Err (disttwoatoms.fetchXYZ d rd))
  /\ (forall g rd i,
        cols_in_range (gr.cols g) (gr.colsLen g) -> gr.atomsTyp g <> [] ->
        (i < times (gr.atoms g))%nat ->
        ragged (gr.colsLen g) rd i ->
        is_Err (gr.fetchXYZ g rd) /\ is_Err (gr.fetchXYZFirst g rd))
  /\ (forall v rd i,
        cols_in_range (volume.cols v) (volume.colsLen v) -> volume.Sigma v <> ∅ ->
        (i < times (volume.atoms v))%nat ->
        ragged (volume.colsLen v) rd i ->
        is_Err (volume.fetchXYZ v rd))
  /\ (forall n box st (s : nopbc.IO) i,
        cols_in_range (nopbc.cols n) (nopbc.colsLen n) ->
        (i < times (nopbc.atoms n))%nat ->
        ragged (nopbc.colsLen n) s.1 i ->
        is_Err (nopbc.rows_first n box (times (nopbc.atoms n)) 0 st s))
  /\ (forall n box (st : list (list float) * list (list float)) (s : nopbc.IO) i,
        cols_in_range (nopbc.cols n) (nopbc.colsLen n) ->
        (times (nopbc.atoms n) <= length st.1)%nat ->
        (times (nopbc.atoms n) <= length st.2)%nat ->
        (i < times (nopbc.atoms n))%nat ->
        ragged (nopbc.colsLen n) s.1 i ->
        is_Err (nopbc.rows_next n box (times (nopbc.atoms n)) 0 st s)).
Proof.
  repeat split.
  - apply rg_fetchXYZ_ragged.
  - apply dta_fetchXYZ_ragged.
  - by eapply gr_fetchXYZ_ragged.
  - by eapply gr_fetchXYZ_ragged.
  - apply vol_fetchXYZ_ragged.
  - intros. by eapply rows_first_ragged.
  - intros. by eapply rows_next_ragged.
Qed.

(** The second of two rows lacks a field: [radiusgyration], which selects
    it, and [gr], which reads every row, both fail. *)
Lemma field_count_checked_witness :
  is_Err (radiusgyration.fetchXYZ sample.rg_second sample.short_second)
  /\ is_Err (gr.fetchXYZ sample.rdf_two sample.short_second).
Proof.
  assert (Hc : cols_in_range [2; 3; 4; 1]%nat 5).
  { intros k. do 5 (destruct k as [|k]; [cbn; lia|]). cbn. lia. }
  assert (Hr : ragged 5 sample.short_second 1).
  { vm_compute. discriminate. }
  split.
  - apply (proj1 field_count_checked sample.rg_second sample.short_second 1%nat).
    + exact Hc.
    + vm_compute. lia.
    + exact Hr.
  - apply (proj1 (proj2 (proj2 field_count_checked)) sample.rdf_two sample.short_second 1%nat).
    + exact Hc.
    + vm_compute. discriminate.
    + vm_compute. lia.
    + exact Hr.
Defined.

(** ** The unwrapper on the frames after the first *)

Section unwrap.
Import nopbc.

Lemma index_eq {S} (fields : list string) i (s : S) :
  (i < length fields)%nat -> index fields i s = Ok (nth i fields "", s).
Proof.
  intros Hi. unfold index.
  destruct (lookup_lt_is_Some_2 fields i Hi) as [v Hv].
  by rewrite (nth_lookup_Some _ _ _ _ Hv), Hv.
Qed.

Lemma coords3_eq {S} cols (row : string) (s : S) :
  cols_in_range cols (length (Fields row)) ->
  coords3 cols (Fields row) s = Ok (map (coord cols row) [0; 1; 2]%nat, s).
Proof.
  intros Hc. unfold coords3.
  rewrite (bind_Ok _ _ _ _ _ (index_eq _ _ s (Hc 0%nat))).
  rewrite (bind_Ok _ _ _ _ _ (index_eq _ _ s (Hc 1%nat))).
  by rewrite (bind_Ok _ _ _ _ _ (index_eq _ _ s (Hc 2%nat))).
Qed.

Lemma axis_next_rule len t p c raw :
  (axis_next len t p c raw).1 = unwrap_rule len t p (raw + c)%float.
Proof.
  unfold axis_next, unwrap_rule.
  destruct (t <? p - (raw + c))%float; [done|].
  by destruct (p - (raw + c) <? - t)%float.
Qed.

Lemma row_next_eq n box i last corr p c (s : IO) :
  cols_in_range (cols n) (colsLen n) ->
  length (Fields (nth 0 s.1 "")) = colsLen n ->
  last !! i = Some p -> corr !! i = Some c ->
  exists c',
    row_next n box i (last, corr) s =
    Ok ((<[i := unwrapped (cols n) box p c (nth 0 s.1 "")]> last, <[i := c']> corr),
        (drop 1 s.1,
         s.2 ++ [Atom (tokens n (Fields (nth 0 s.1 ""))
                         (unwrapped (cols n) box p c (nth 0 s.1 "")))])).
Proof.
  intros Hc Hlen Hp Hcorr. unfold row_next. rewrite bind_readOnly.
  rewrite Hlen, Nat.eqb_refl. cbn [negb]. rewrite <- Hlen in Hc.
  rewrite (bind_Ok _ _ _ _ _ (coords3_eq _ _ _ Hc)).
  rewrite Hp, Hcorr. eexists. unfold bind, write, put, ret. cbn [fst snd].
  do 4 f_equal.
  all: cbn [map fst]; unfold unwrapped; cbn [map]; by rewrite !axis_next_rule.
Qed.

Lemma rows_next_rule n box : forall count i0 last corr (s : IO),
  cols_in_range (cols n) (colsLen n) ->
  (forall j, (j < count)%nat -> length (Fields (nth j s.1 "")) = colsLen n) ->
  (i0 + count <= length last)%nat -> (i0 + count <= length corr)%nat ->
  exists last' corr' w,
    rows_next n box count i0 (last, corr) s = Ok ((last', corr'), (drop count s.1, s.2 ++ w))
    /\ length last' = length last /\ length corr' = length corr
    /\ (forall i, (i < i0)%nat -> last' !! i = last !! i)
    /\ forall j, (j < count)%nat ->
         nth (i0 + j) last' [] =
           unwrapped (cols n) box (nth (i0 + j) last []) (nth (i0 + j) corr [])
             (nth j s.1 "")
         /\ w !! j = Some (Atom (tokens n (Fields (nth j s.1 "")) (nth (i0 + j) last' []))).
Proof.
  induction count as [|count IH]; intros i0 last corr s Hc Hrows Hl1 Hl2.
  { exists last, corr, []. cbn [rows_next ret drop]. rewrite app_nil_r.
    destruct s. repeat split; try done. all: lia. }
  destruct (lookup_lt_is_Some_2 last i0) as [p Hp]; [lia|].
  destruct (lookup_lt_is_Some_2 corr i0) as [c Hcorr]; [lia|].
  destruct (row_next_eq n box i0 last corr p c s Hc (Hrows 0%nat ltac:(lia)) Hp Hcorr)
    as [c' Hrow].
  cbn [rows_next]. rewrite (bind_Ok _ _ _ _ _ Hrow).
  set (p' := unwrapped (cols n) box p c (nth 0 s.1 "")) in *.
  destruct (IH (Datatypes.S i0) (<[i0 := p']> last) (<[i0 := c']> corr)
              (drop 1 s.1, s.2 ++ [Atom (tokens n (Fields (nth 0 s.1 "")) p')]) Hc)
    as (last' & corr' & w & Hrun & Hlen1 & Hlen2 & Hkeep & Hj).
  { intros j Hlt. cbn [fst]. rewrite nth_drop. apply Hrows. lia. }
  { rewrite length_insert. lia. }
  { rewrite length_insert. lia. }
  cbn [fst snd] in *. rewrite drop_drop, <- app_assoc in Hrun.
  exists last', corr', (Atom (tokens n (Fields (nth 0 s.1 "")) p') :: w).
  rewrite length_insert in Hlen1, Hlen2.
  split; [exact Hrun|]. split; [done|]. split; [done|]. split.
  { intros i Hi. rewrite Hkeep by lia. apply list_lookup_insert_ne. lia. }
  assert (H0 : nth i0 last' [] = p').
  { rewrite nth_lookup, Hkeep by lia.
    by rewrite list_lookup_insert_eq by lia. }
  intros j Hlt. destruct j as [|j].
  - rewrite Nat.add_0_r, H0. split; [|done].
    by rewrite (nth_lookup last), (nth_lookup corr), Hp, Hcorr.
  - destruct (Hj j ltac:(lia)) as [Hpos Hout].
    rewrite nth_drop in Hpos, Hout.
    replace (i0 + Datatypes.S j)%nat with (Datatypes.S i0 + j)%nat by lia.
    split; [|exact Hout].
    rewrite Hpos, !(nth_lookup (<[_ := _]> _)).
    by rewrite !list_lookup_insert_ne, <- !nth_lookup by lia.
Qed.
End unwrap.

Lemma at3_unwrapped cols box p c row k :
  (k < 3)%nat ->
  at3 (unwrapped cols box p c row) k =
  unwrap_rule (at3 box k) (at3 box k / 2)%float (at3 p k)
    (coord cols row k + at3 c k)%float.
Proof. intros Hk. by do 3 (destruct k as [|k]; [done|]); lia. Qed.

(** C5: in the atom loop of a frame after the first, for every atom [j]
    and axis [k], with [p] the previous unwrapped coordinate, [x] the raw
    coordinate plus the running correction and [t] half the box length of
    the frame, the coordinate kept and written is [x] plus the box length
    when [p - x > t], [x] minus it when [p - x < - t], and [x] otherwise.
    With box length 10, threshold 5, [p = 9.9] and [x = 0.2] it is 10.2,
    also when the two frames are read from text. *)
Theorem unwrap_later_frame :
  (forall n box last corr (s : nopbc.IO),
     cols_in_range (nopbc.cols n) (nopbc.colsLen n) ->
     (forall j, (j < times (nopbc.atoms n))%nat ->
                length (Fields (nth j s.1 "")) = nopbc.colsLen n) ->
     (times (nopbc.atoms n) <= length last)%nat ->
     (times (nopbc.atoms n) <= length corr)%nat ->
     exists last' corr' w,
       nopbc.rows_next n box (times (nopbc.atoms n)) 0 (last, corr) s =
       Ok ((last', corr'), (drop (times (nopbc.atoms n)) s.1, s.2 ++ w))
       /\ forall j k, (j < times (nopbc.atoms n))%nat -> (k < 3)%nat ->
            w !! j = Some (nopbc.Atom (nopbc.tokens n (Fields (nth j s.1 ""))
                                         (nth j last' [])))
            /\ at3 (nth j last' []) k =
               unwrap_rule (at3 box k) (at3 box k / 2)%float (at3 (nth j last []) k)
                 (coord (nopbc.cols n) (nth j s.1 "") k + at3 (nth j corr []) k)%float)
  /\ unwrap_rule 10 5 9.9 0.2 = 10.2%float
  /\ match nopbc.readCfgFirst sample.unwrapper (sample.crossing, []) with
     | Ok ((n, last), s) =>
         match nopbc.readCfg n last s with
         | Ok (_, (_, w)) =>
             List.last w (nopbc.Raw "") =
             nopbc.Atom [nopbc.Txt "1"; nopbc.Txt "1"; nopbc.Num 2;
                         nopbc.Num 10.2; nopbc.Num 0]
         | _ => False
         end
     | _ => False
     end.
Proof.
  split; [|split; vm_compute; reflexivity].
  intros n box last corr s Hc Hrows Hl1 Hl2.
  destruct (rows_next_rule n box (times (nopbc.atoms n)) 0 last corr s Hc Hrows)
    as (last' & corr' & w & Hrun & _ & _ & _ & Hj); [done..|].
  exists last', corr', w. split; [exact Hrun|].
  intros j k Hlt Hk. destruct (Hj j Hlt) as [Hpos Hout]. cbn [Nat.add] in *.
  split; [exact Hout|]. rewrite Hpos. by apply at3_unwrapped.
Qed.

(** The crossing of the example, as the atom loop of the second frame. *)
Lemma unwrap_later_frame_witness :
  exists last' corr' w,
    nopbc.rows_next sample.unwrapper_read [10; 10; 10]%float
      (times (nopbc.atoms sample.unwrapper_read)) 0
      ([[0; 9.9; 0]%float], [[0; 0; 0]%float])
      (sample.file ["1 1 2 0.2 0"], []) =
    Ok ((last', corr'),
        (drop (times (nopbc.atoms sample.unwrapper_read)) (sample.file ["1 1 2 0.2 0"]),
         [] ++ w))
    /\ forall j k, (j < times (nopbc.atoms sample.unwrapper_read))%nat -> (k < 3)%nat ->
         w !! j = Some (nopbc.Atom (nopbc.tokens sample.unwrapper_read
                                      (Fields (nth j (sample.file ["1 1 2 0.2 0"]) ""))
                                      (nth j last' [])))
         /\ at3 (nth j last' []) k =
            unwrap_rule (at3 [10; 10; 10]%float k) (at3 [10; 10; 10]%float k / 2)%float
              (at3 (nth j [[0; 9.9; 0]%float] []) k)
              (coord (nopbc.cols sample.unwrapper_read)
                 (nth j (sample.file ["1 1 2 0.2 0"]) "") k
               + at3 (nth j [[0; 0; 0]%float] []) k)%float.
Proof.
  apply (proj1 unwrap_later_frame sample.unwrapper_read [10; 10; 10]%float
           [[0; 9.9; 0]%float] [[0; 0; 0]%float] (sample.file ["1 1 2 0.2 0"], [])).
  - intros k. do 5 (destruct k as [|k]; [cbn; lia|]). cbn. lia.
  - intros j Hj. destruct j as [|j]; [vm_compute; reflexivity|].
    vm_compute in Hj. lia.
  - vm_compute. lia.
  - vm_compute. lia.
Defined.

(** ** The threshold of the unwrapper *)

Section thresholds.
Import nopbc.

Lemma rows_next_size n sz box count : forall i st s,
  rows_next (with_size n sz) box count i st s = rows_next n box count i st s.
Proof.
  induction count as [|count IH]; intros i st s; [done|].
  cbn [rows_next]. unfold bind.
  change (row_next (with_size n sz) box i st s) with (row_next n box i st s).
  destruct (row_next n box i st s) as [[st' s']| |]; [|done..]. apply IH.
Qed.

Lemma frame_next_size n sz st s :
  frame_next (with_size n sz) st s = frame_next n st s.
Proof.
  unfold frame_next, bind. cbn [atoms with_size colsBuf].
  destruct (wrap "HeaderWOutAtoms" _ s) as [[box s1]| |]; [|done..].
  destruct (readOnly s1) as [[b s2]| |]; [|done..].
  destruct (put _ s2) as [[[] s3]| |]; [|done..].
  apply rows_next_size.
Qed.

Lemma frames_size n sz fuel : forall st s,
  frames (with_size n sz) fuel st s = frames n fuel st s.
Proof.
  induction fuel as [|fuel IH]; intros st s; [done|].
  cbn [frames]. unfold bind. rewrite frame_next_size.
  destruct (frame_next n st s) as [[st' s']| |]; [|done..].
  destruct s'.1; [done|]. apply IH.
Qed.

Lemma readCfg_size n sz last s :
  readCfg (with_size n sz) last s = readCfg n last s.
Proof.
  unfold readCfg. cbn [atoms with_size].
  destruct (atoms n <? 0); [done|]. apply frames_size.
Qed.

End thresholds.

(** ** The bin of a pair at the cutoff *)

(** C2 (the code departs from it): [calc] keeps a pair when its squared
    distance is at most [rmax2], so a pair at distance [RMax] gets the bin
    [int(RMax / Dr)], which is [bins], one past the last column.  With
    [RMax = 10] and [Dr = 1] (ten bins) two atoms at distance 10 get bin
    10 and the increment panics in the first frame; with [RMax = 10.5] the
    same happens at distance 10.2. *)
Theorem bin_at_cutoff_out_of_range :
  gr.bins sample.rdf = 10
  /\ gr.bin_of sample.rdf [100; 100; 100]%float [0; 0; 0]%float [10; 0; 0]%float
     = Some 10
  /\ gr.incr (("1", "2"), 0%nat, 10)
       {[ ("1", "2") := [replicate (times (gr.bins sample.rdf)) 0%float] ]} = None
  /\ gr.first sample.rdf sample.touching = Panic "index out of range"
  /\ gr.bins sample.rdf_wide = 10
  /\ gr.bin_of sample.rdf_wide [100; 100; 100]%float [0; 0; 0]%float [10.2; 0; 0]%float
     = Some 10
  /\ gr.first sample.rdf_wide sample.near_cutoff = Panic "index out of range".
Proof. repeat split; vm_compute; reflexivity. Qed.

(** ** The cells of the analyte *)


Section cells.
Import volume.













End cells.




(** ** Runs of the worker pool *)

Lemma flat_map_insert {X Y} (f : X -> list Y) (ws : list X) w x y :
  ws !! w = Some x ->
  exists rest, flat_map f ws ≡ₚ f x ++ rest /\ flat_map f (<[w := y]> ws) ≡ₚ f y ++ rest.
Proof.
  intros Hw. exists (flat_map f (take w ws) ++ flat_map f (drop (Datatypes.S w) ws)).
  pose proof (lookup_lt_Some _ _ _ Hw) as Hlt.
  rewrite (insert_take_drop ws w y Hlt).
  pose proof (take_drop_middle ws w x Hw) as E. revert E.
  generalize (take w ws) (drop (Datatypes.S w) ws). intros l1 l2 <-.
  rewrite !flat_map_app. cbn [flat_map].
  split; by rewrite Permutation_app_swap_app.
Qed.

Lemma busy_insert {A} (ws : list (pool.worker (A:=A))) w x y :
  ws !! w = Some x ->
  (pool.busy (<[w := y]> ws) + (if pool.is_busy x then 1 else 0)
   = pool.busy ws + (if pool.is_busy y then 1 else 0))%nat.
Proof.
  intros Hw. unfold pool.busy.
  pose proof (lookup_lt_Some _ _ _ Hw) as Hlt.
  rewrite (insert_take_drop ws w y Hlt).
  pose proof (take_drop_middle ws w x Hw) as E. revert E.
  generalize (take w ws) (drop (Datatypes.S w) ws). intros l1 l2 <-.
  rewrite !List.filter_app, !length_app. cbn [List.filter].
  destruct (pool.is_busy x), (pool.is_busy y); cbn [length]; lia.
Qed.

Lemma busy_all {A} (ws : list (pool.worker (A:=A))) :
  Forall (fun w => pool.is_busy w = true) ws -> pool.busy ws = length ws.
Proof.
  unfold pool.busy. induction 1 as [|w ws Hw _ IH]; [done|].
  cbn [List.filter]. rewrite Hw. cbn [length]. by rewrite IH.
Qed.

Lemma finished_busy {A} (ws : list (pool.worker (A:=A))) :
  forallb (fun w => match w with pool.Gone => true | pool.Busy _ => false end) ws = true ->
  pool.busy ws = 0%nat.
Proof.
  unfold pool.busy. induction ws as [|w ws IH]; [done|].
  cbn [forallb List.filter]. destruct w; [done|]. exact IH.
Qed.

Section pool_facts.
Context {Sh J A C Acc : Type}.
Variable claim : Sh -> option (Sh * option J).
Variable work : J -> list A.
Variable act : A -> Sh -> option Sh.
Variable control : Sh -> C.
Variable claimC : C -> option (C * option J).
Variable store : Sh -> Acc.
Variable actA : A -> Acc -> option Acc.

(** A claim and a write do not meet: the claim acts on the counter, the
    error slot and the reader, the write on the accumulators. *)
Hypothesis claim_control : forall sh,
  claimC (control sh) = (fun r : Sh * option J => (control r.1, r.2)) <$> claim sh.
Hypothesis claim_store : forall sh sh' oj,
  claim sh = Some (sh', oj) -> store sh' = store sh.
Hypothesis act_control : forall a sh sh',
  act a sh = Some sh' -> control sh' = control sh.
Hypothesis act_store : forall a sh, actA a (store sh) = store <$> act a sh.

Lemma step_sound w p p' ev :
  pool.step claim work act w p = Some (p', ev) ->
  pool.replays claimC ev (control p.1) (control p'.1)
  /\ pool.writes actA (pool.applied ev) (store p.1) = Some (store p'.1)
  /\ pool.pending p ++ concat (map work (pool.jobs ev)) ≡ₚ pool.applied ev ++ pool.pending p'
  /\ length p'.2 = length p.2.
Proof.
  unfold pool.step. destruct p as [sh ws]. cbn [fst snd].
  destruct (ws !! w) as [[[|a l]|]|] eqn:Hw.
  - pose proof (claim_control sh) as Hc.
    destruct (claim sh) as [[sh' [j|]]|] eqn:E; [| |done]; cbn in Hc.
    + intros [= <- <-].
      cbn [fst snd pool.replays pool.applied pool.jobs omap pool.writes map concat].
      split; [by eexists|]. split; [by rewrite (claim_store _ _ _ E)|].
      rewrite length_insert. split; [|done]. unfold pool.pending. cbn [snd].
      destruct (flat_map_insert pool.todo ws w _ (pool.Busy (work j)) Hw)
        as (rest & H1 & H2).
      unfold pool.todo in *. rewrite H1, H2. cbn. rewrite ?app_nil_r.
      apply Permutation_app_comm.
    + intros [= <- <-].
      cbn [fst snd pool.replays pool.applied pool.jobs omap pool.writes map concat].
      split; [by eexists|]. split; [by rewrite (claim_store _ _ _ E)|].
      rewrite length_insert. split; [|done]. unfold pool.pending. cbn [snd].
      destruct (flat_map_insert pool.todo ws w _ pool.Gone Hw) as (rest & H1 & H2).
      unfold pool.todo in *. rewrite H1, H2. cbn. by rewrite ?app_nil_r.
  - pose proof (act_store a sh) as Hs.
    destruct (act a sh) as [sh'|] eqn:E; [|done]. cbn in Hs.
    intros [= <- <-].
    cbn [fst snd pool.replays pool.applied pool.jobs omap pool.writes map concat].
    split; [by rewrite (act_control _ _ _ E)|].
    split; [cbn; by rewrite Hs|].
    rewrite length_insert. split; [|done]. unfold pool.pending. cbn [snd].
    destruct (flat_map_insert pool.todo ws w _ (pool.Busy l) Hw) as (rest & H1 & H2).
    unfold pool.todo in *. rewrite H1, H2. cbn. by rewrite ?app_nil_r.
  - intros [= <- <-]. cbn. by rewrite app_nil_r.
  - intros [= <- <-]. cbn. by rewrite app_nil_r.
Qed.

Lemma replays_app tr1 tr2 c c1 c2 :
  pool.replays (A:=A) claimC tr1 c c1 -> pool.replays claimC tr2 c1 c2 ->
  pool.replays claimC (tr1 ++ tr2) c c2.
Proof.
  revert c. induction tr1 as [|e tr1 IH]; intros c H1 H2.
  - cbn in H1. by subst.
  - destruct e as [j| |a]; cbn in *.
    + destruct H1 as (c' & Hc & H1). exists c'. split; [done|]. by apply IH.
    + destruct H1 as (c' & Hc & H1). exists c'. split; [done|]. by apply IH.
    + by apply IH.
Qed.

Lemma writes_app l1 l2 s s1 :
  pool.writes actA l1 s = Some s1 ->
  pool.writes actA (l1 ++ l2) s = pool.writes actA l2 s1.
Proof.
  revert s. induction l1 as [|a l1 IH]; intros s H; cbn in *; [by simplify_eq|].
  destruct (actA a s) as [s'|]; [|done]. cbn in *. by apply IH.
Qed.

Lemma run_sound sched : forall p p' tr,
  pool.run claim work act sched p = Some (p', tr) ->
  pool.replays claimC tr (control p.1) (control p'.1)
  /\ pool.writes actA (pool.applied tr) (store p.1) = Some (store p'.1)
  /\ pool.pending p ++ concat (map work (pool.jobs tr)) ≡ₚ pool.applied tr ++ pool.pending p'
  /\ length p'.2 = length p.2.
Proof.
  induction sched as [|w sched IH]; intros p p' tr Hrun; cbn in Hrun.
  { simplify_eq. cbn. by rewrite !app_nil_r. }
  destruct (pool.step claim work act w p) as [[p1 ev]|] eqn:Hstep; [|done].
  destruct (pool.run claim work act sched p1) as [[p2 evs]|] eqn:Hrest; [|done].
  simplify_eq.
  destruct (step_sound _ _ _ _ Hstep) as (Hc1 & Hs1 & Hp1 & Hl1).
  destruct (IH _ _ _ Hrest) as (Hc2 & Hs2 & Hp2 & Hl2).
  split; [by eapply replays_app|].
  unfold pool.applied, pool.jobs in *. rewrite !omap_app, map_app, concat_app.
  split; [by rewrite (writes_app _ _ _ _ Hs1)|].
  split; [|congruence].
  rewrite app_assoc, Hp1, <- !app_assoc. by rewrite Hp2.
Qed.

Lemma run_preserves (P : Sh -> Prop) sched :
  (forall sh sh' oj, claim sh = Some (sh', oj) -> P sh -> P sh') ->
  (forall a sh sh', act a sh = Some sh' -> P sh -> P sh') ->
  forall p p' tr, pool.run claim work act sched p = Some (p', tr) -> P p.1 -> P p'.1.
Proof.
  intros Hclaim Hact. induction sched as [|w sched IH]; intros p p' tr Hrun HP;
    cbn in Hrun; [by simplify_eq|].
  destruct (pool.step claim work act w p) as [[p1 ev]|] eqn:Hstep; [|done].
  destruct (pool.run claim work act sched p1) as [[p2 evs]|] eqn:Hrest; [|done].
  simplify_eq. apply (IH _ _ _ Hrest).
  unfold pool.step in Hstep. destruct p as [sh ws]. cbn [fst snd] in *.
  destruct (ws !! w) as [[[|a l]|]|]; [| |by simplify_eq..].
  - destruct (claim sh) as [[sh' [j|]]|] eqn:E; simplify_eq; cbn; by eapply Hclaim.
  - destruct (act a sh) as [sh'|] eqn:E; simplify_eq; cbn; by eapply Hact.
Qed.

Lemma claims_functional c js1 c1 :
  pool.claims claimC c js1 c1 -> forall js2 c2,
  pool.claims claimC c js2 c2 -> js1 = js2 /\ c1 = c2.
Proof.
  induction 1 as [c c' H|c c' j js c'' H _ IH]; intros js2 c2 H2.
  - inversion H2; simplify_eq. done.
  - inversion H2 as [|? ? ? ? ? H' Hrest]; simplify_eq.
    by destruct (IH _ _ Hrest) as [-> ->].
Qed.

Lemma idles_app k1 k2 c c1 c2 :
  pool.idles claimC k1 c c1 -> pool.idles claimC k2 c1 c2 ->
  pool.idles claimC (k1 + k2) c c2.
Proof.
  revert c. induction k1 as [|k1 IH]; intros c H1 H2; cbn in *; [by subst|].
  destruct H1 as (c' & Hc & H1). exists c'. split; [done|]. by apply IH.
Qed.

Lemma halted_step w p p' ev :
  pool.halted claimC (pool.busy p.2) (control p.1) ->
  pool.step claim work act w p = Some (p', ev) ->
  pool.jobs ev = []
  /\ pool.halted claimC (pool.busy p'.2) (control p'.1)
  /\ exists k, pool.idles claimC k (control p.1) (control p'.1)
               /\ (k + pool.busy p'.2 = pool.busy p.2)%nat.
Proof.
  intros Hh. unfold pool.step. destruct p as [sh ws]. cbn [fst snd] in *.
  destruct (ws !! w) as [[[|a l]|]|] eqn:Hw.
  - pose proof (claim_control sh) as Hc.
    pose proof (busy_insert ws w _ pool.Gone Hw) as Hb. cbn in Hb.
    destruct (pool.busy ws) as [|k] eqn:Hk; [lia|].
    destruct Hh as (cf & c1 & Hstop & Hidle). rewrite Hstop in Hc.
    destruct (claim sh) as [[sh' [j|]]|] eqn:E; cbn in Hc; simplify_eq.
    intros [= <- <-]. cbn [fst snd]. split; [done|].
    replace (pool.busy (<[w:=pool.Gone]> ws)) with k by lia.
    split; [by exists cf|]. exists 1%nat. split; [by exists (control sh')|lia].
  - destruct (act a sh) as [sh'|] eqn:E; [|done]. intros [= <- <-].
    pose proof (busy_insert ws w _ (pool.Busy l) Hw) as Hb. cbn in Hb.
    cbn [fst snd]. rewrite (act_control _ _ _ E).
    replace (pool.busy (<[w:=pool.Busy l]> ws)) with (pool.busy ws) by lia.
    split; [done|]. split; [done|]. by exists 0%nat.
  - intros [= <- <-]. split; [done|]. split; [done|]. by exists 0%nat.
  - intros [= <- <-]. split; [done|]. split; [done|]. by exists 0%nat.
Qed.

Lemma halted_run sched : forall p p' tr,
  pool.halted claimC (pool.busy p.2) (control p.1) ->
  pool.run claim work act sched p = Some (p', tr) ->
  pool.jobs tr = []
  /\ exists k, pool.idles claimC k (control p.1) (control p'.1)
               /\ (k + pool.busy p'.2 = pool.busy p.2)%nat.
Proof.
  induction sched as [|w sched IH]; intros p p' tr Hh Hrun; cbn in Hrun.
  { simplify_eq. split; [done|]. by exists 0%nat. }
  destruct (pool.step claim work act w p) as [[p1 ev]|] eqn:Hstep; [|done].
  destruct (pool.run claim work act sched p1) as [[p2 evs]|] eqn:Hrest; [|done].
  simplify_eq.
  destruct (halted_step _ _ _ _ Hh Hstep) as (Hj1 & Hh1 & k1 & Hi1 & Hb1).
  destruct (IH _ _ _ Hh1 Hrest) as (Hj2 & k2 & Hi2 & Hb2).
  unfold pool.jobs in *. rewrite omap_app, Hj1, Hj2. split; [done|].
  exists (k1 + k2)%nat. split; [by eapply idles_app|lia].
Qed.

(** The number of workers, and what holds of the shared resource while
    claims still yield jobs: the first claim without a job leaves a state
    from which the claims of the other workers yield none either. *)
Variable n : nat.
Variable Inv : C -> Prop.
Hypothesis Inv_job : forall c c' j, Inv c -> claimC c = Some (c', Some j) -> Inv c'.
Hypothesis Inv_stop : forall c c',
  Inv c -> claimC c = Some (c', None) -> pool.halted claimC (n - 1) c'.

Lemma inv_run sched : forall p p' tr,
  Forall (fun w => pool.is_busy w = true) p.2 -> length p.2 = n ->
  Inv (control p.1) ->
  pool.run claim work act sched p = Some (p', tr) ->
  Forall (fun w => pool.is_busy w = true) p'.2
  \/ exists c1 k, pool.claims claimC (control p.1) (pool.jobs tr) c1
                  /\ pool.idles claimC k c1 (control p'.1)
                  /\ (k + pool.busy p'.2 = n - 1)%nat.
Proof.
  induction sched as [|w sched IH]; intros p p' tr Hall Hlen HI Hrun; cbn in Hrun.
  { simplify_eq. by left. }
  destruct (pool.step claim work act w p) as [[p1 ev]|] eqn:Hstep; [|done].
  destruct (pool.run claim work act sched p1) as [[p2 evs]|] eqn:Hrest; [|done].
  simplify_eq. unfold pool.step in Hstep. destruct p as [sh ws]. cbn [fst snd] in *.
  destruct (ws !! w) as [[[|a l]|]|] eqn:Hw.
  - pose proof (claim_control sh) as Hc.
    destruct (claim sh) as [[sh' [j|]]|] eqn:E; cbn in Hc; simplify_eq.
    + destruct (IH (sh', <[w:=pool.Busy (work j)]> ws) _ _
                  (Forall_insert _ ws w (pool.Busy (work j)) Hall eq_refl)
                  ltac:(cbn; by rewrite length_insert) (Inv_job _ _ _ HI Hc) Hrest)
        as [?|(c1 & k & Hcl & Hi & Hk)]; [by left|right].
      exists c1, k. split; [|done]. cbn. by eapply pool.claims_job.
    + right. pose proof (busy_insert ws w _ pool.Gone Hw) as Hb. cbn in Hb.
      rewrite (busy_all ws Hall) in Hb.
      destruct (halted_run sched (sh', <[w:=pool.Gone]> ws) p' evs)
        as (Hj & k & Hi & Hk); [|done|].
      { cbn [fst snd]. replace (pool.busy _) with (length ws - 1)%nat by lia.
        by eapply Inv_stop. }
      exists (control sh'), k. cbn [fst snd] in *.
      split; [|split; [done|lia]].
      cbn. unfold pool.jobs in Hj. rewrite Hj. by apply pool.claims_stop.
  - destruct (act a sh) as [sh'|] eqn:E; simplify_eq.
    pose proof (act_control _ _ _ E) as Hc.
    destruct (IH (sh', <[w:=pool.Busy l]> ws) _ _
                (Forall_insert _ ws w (pool.Busy l) Hall eq_refl)
                ltac:(cbn; by rewrite length_insert) ltac:(by cbn; rewrite Hc) Hrest)
      as [?|(c1 & k & Hcl & Hi & Hk)]; [by left|right].
    exists c1, k. cbn [fst snd] in *. rewrite Hc in Hcl. by split.
  - simplify_eq. by apply (IH (sh, ws) _ _ Hall eq_refl HI Hrest).
  - simplify_eq. by apply (IH (sh, ws) _ _ Hall eq_refl HI Hrest).
Qed.

(** A run of [n >= 1] workers until all have left: the jobs claimed are
    those of the claims in sequence up to the first one that yields none,
    the writes made are the writes of these jobs in some order, and the
    accumulators are what these writes give in the order they were made. *)
Lemma run_complete sched sh p tr :
  (1 <= n)%nat -> Inv (control sh) ->
  pool.run claim work act sched (pool.launch n sh) = Some (p, tr) ->
  pool.finished p = true ->
  exists c1,
    pool.claims claimC (control sh) (pool.jobs tr) c1
    /\ pool.idles claimC (n - 1) c1 (control p.1)
    /\ pool.writes actA (pool.applied tr) (store sh) = Some (store p.1)
    /\ pool.applied tr ≡ₚ concat (map work (pool.jobs tr)).
Proof.
  intros Hn HI Hrun Hfin.
  destruct (run_sound _ _ _ _ Hrun) as (_ & Hw & Hp & Hl).
  assert (Hall : Forall (fun w => pool.is_busy (A:=A) w = true) (replicate n (pool.Busy []))).
  { by apply Forall_replicate. }
  destruct (inv_run sched (pool.launch n sh) p tr Hall ltac:(apply length_replicate) HI Hrun)
    as [Hbusy|(c1 & k & Hcl & Hi & Hk)].
  { pose proof (busy_all _ Hbusy) as Hb. rewrite (finished_busy _ Hfin) in Hb.
    cbn in Hl. rewrite length_replicate in Hl. lia. }
  rewrite (finished_busy _ Hfin), Nat.add_0_r in Hk. subst k.
  exists c1. split; [done|]. split; [done|]. split; [done|].
  assert (Hnone : forall ws : list (pool.worker (A:=A)),
             forallb (fun w => match w with pool.Gone => true | pool.Busy _ => false end) ws
             = true -> flat_map (fun w => match w with pool.Busy l => l | pool.Gone => [] end) ws = []).
  { induction ws as [|[l|] ws IHws]; cbn; [done|done|exact IHws]. }
  unfold pool.pending, pool.launch in Hp. cbn [snd] in Hp.
  rewrite (Hnone _ Hfin), app_nil_r in Hp.
  assert (Hidle : flat_map (fun w : pool.worker (A:=A) =>
                              match w with pool.Busy l => l | pool.Gone => [] end)
                    (replicate n (pool.Busy [])) = []).
  { clear. induction n as [|m IHm]; [done|exact IHm]. }
  rewrite Hidle in Hp. by rewrite <- Hp.
Qed.
End pool_facts.

(** ** The workers of [gr] *)

Section gr_pool.
Import gr.

Lemma gr_rows_ext g g' n :
  cols g = cols g' -> colsLen g = colsLen g' ->
  forall xyz rd, rows g n xyz rd = rows g' n xyz rd.
Proof.
  intros Hc Hl. induction n as [|n IH]; intros xyz rd; [done|].
  cbn [rows]. unfold bind, readXYZ. rewrite Hc, Hl.
  destruct (bind ReadSlice _ rd) as [[[t xyz'] rd']| |]; [|done..].
  apply IH.
Qed.

Lemma gr_readCfg_ext g g' rd :
  atomsTyp g = atomsTyp g' -> atoms g = atoms g' ->
  cols g = cols g' -> colsLen g = colsLen g' ->
  readCfg g rd = readCfg g' rd.
Proof.
  intros Ht Ha Hc Hl. unfold readCfg, bind.
  destruct (wrap "HeaderWOutAtoms" _ rd) as [[box rd1]| |]; [|done..].
  destruct (ReadSlice rd1) as [[b rd2]| |]; [|done..].
  unfold wrap, fetchXYZ, fresh, bind. rewrite Ht, Ha.
  destruct (atomsTyp g'); [done|].
  destruct (_ <? 0); [done|]. unfold ret.
  by rewrite (gr_rows_ext g g' _ Hc Hl).
Qed.

Lemma gr_claim_control s :
  claim (control s) = (fun r : (GR * Reader) * option (list float * XYZ) =>
                         (control r.1, r.2)) <$> claim s.
Proof.
  unfold claim, control. cbn [fst snd cfg err CfgEnd set_cfg set_vol set_hstg set_tables].
  destruct (_ || _); [done|].
  rewrite (gr_readCfg_ext _ (set_cfg s.1 (add64 (cfg s.1) 1) (err s.1)) s.2)
    by reflexivity.
  by destruct (readCfg _ s.2) as [[job rd]| |].
Qed.

Lemma gr_claim_store s s' oj : claim s = Some (s', oj) -> store s' = store s.
Proof.
  unfold claim, store. destruct (_ || _); [by intros [= <- <-]|].
  destruct (readCfg _ s.2) as [[job rd]| |]; by intros [= <- <-].
Qed.

Lemma gr_locked_control a s s' : locked a s = Some s' -> control s' = control s.
Proof.
  unfold locked, act, control. destruct a as [c|v]; cbn.
  - destruct (incr c (hstg s.1)) as [h|]; cbn; [|done]. by intros [= <-].
  - by intros [= <-].
Qed.

Lemma gr_locked_store a s : tally a (store s) = store <$> locked a s.
Proof.
  unfold locked, act, tally, store. destruct a as [c|v]; cbn; [|done].
  by destruct (incr c (hstg s.1)).
Qed.

Lemma add64_succ z : min_int <= z < max_int -> add64 z 1 = z + 1.
Proof. intros H. apply wrap64_small. lia. Qed.

Lemma gr_halted_err k : forall s, is_Some (err s.1) -> pool.halted claim k s.
Proof.
  induction k as [|k IH]; intros s He; [by exists s|].
  destruct (IH (set_cfg s.1 (add64 (cfg s.1) 1) (err s.1), s.2) He) as [c' Hc'].
  exists c', (set_cfg s.1 (add64 (cfg s.1) 1) (err s.1), s.2). split; [|done].
  unfold claim. cbn [fst snd cfg err CfgEnd set_cfg].
  by rewrite (bool_decide_eq_true_2 _ He), orb_true_r.
Qed.

Lemma gr_halted_end k : forall s,
  min_int <= cfg s.1 -> CfgEnd s.1 <= cfg s.1 -> cfg s.1 + Z.of_nat k <= max_int ->
  pool.halted claim k s.
Proof.
  induction k as [|k IH]; intros s Hmin Hend Hmax; [by exists s|].
  assert (Hs : add64 (cfg s.1) 1 = cfg s.1 + 1) by (apply add64_succ; lia).
  destruct (IH (set_cfg s.1 (add64 (cfg s.1) 1) (err s.1), s.2)) as [c' Hc'];
    cbn [fst snd cfg CfgEnd set_cfg]; rewrite ?Hs; [lia..|].
  exists c', (set_cfg s.1 (add64 (cfg s.1) 1) (err s.1), s.2). split; [|done].
  unfold claim. cbn [fst snd cfg err CfgEnd set_cfg].
  rewrite Hs. destruct (Z.leb_spec (CfgEnd s.1) (cfg s.1 + 1)); [done|lia].
Qed.

Lemma gr_ready_job n s s' j : ready n s -> claim s = Some (s', Some j) -> ready n s'.
Proof.
  unfold ready, claim. intros (Hc & He & Hn).
  assert (Hs : add64 (cfg s.1) 1 = cfg s.1 + 1) by (apply add64_succ; lia).
  cbn [fst snd cfg err CfgEnd set_cfg]. rewrite Hs.
  destruct (Z.leb_spec (CfgEnd s.1) (cfg s.1 + 1)) as [|Hlt]; [done|].
  cbn [orb]. destruct (bool_decide _); [done|].
  destruct (readCfg _ s.2) as [[job rd]| |]; [|done..].
  intros [= <- <-]. cbn [fst snd cfg err CfgEnd set_cfg].
  split; [lia|]. by split; [|lia].
Qed.

Lemma gr_ready_stop n s s' :
  ready n s -> claim s = Some (s', None) -> pool.halted claim (n - 1) s'.
Proof.
  unfold ready, claim. intros (Hc & He & Hn).
  assert (Hs : add64 (cfg s.1) 1 = cfg s.1 + 1) by (apply add64_succ; lia).
  cbn [fst snd cfg err CfgEnd set_cfg]. rewrite Hs.
  destruct (Z.leb_spec (CfgEnd s.1) (cfg s.1 + 1)) as [Hle|Hlt].
  - intros [= <-]. apply gr_halted_end; cbn [fst snd cfg err CfgEnd set_cfg]; lia.
  - cbn [orb]. rewrite He. rewrite bool_decide_eq_false_2 by (by intros [? [=]]).
    destruct (readCfg _ s.2) as [[job rd]|e|]; [done| |done].
    intros [= <-]. by apply gr_halted_err.
Qed.
End gr_pool.

(** ** Increments of the histogram commute *)

Lemma list_upd_again {X} i (f g : X -> option X) (l : list X) x y :
  l !! i = Some x -> f x = Some y ->
  list_upd i f l ≫= list_upd i g = z ← g y; Some (<[i := z]> l).
Proof.
  intros Hx Hy. unfold list_upd. rewrite Hx. cbn. rewrite Hy. cbn.
  rewrite list_lookup_insert_eq by (by eapply lookup_lt_Some). cbn.
  destruct (g y) as [z|]; [|done]. cbn. by rewrite list_insert_insert_eq.
Qed.

Lemma list_upd_same {X} i (f g : X -> option X) :
  commute f g -> commute (list_upd i f) (list_upd i g).
Proof.
  intros Hfg l. destruct (l !! i) as [x|] eqn:Hx.
  - pose proof (Hfg x) as Hc.
    destruct (f x) as [y|] eqn:Hf, (g x) as [y'|] eqn:Hg; cbn in Hc.
    + by rewrite (list_upd_again i f g l x y), (list_upd_again i g f l x y'), Hc.
    + rewrite (list_upd_again i f g l x y) by done. rewrite Hc.
      unfold list_upd. by rewrite Hx; cbn; rewrite Hg.
    + rewrite (list_upd_again i g f l x y') by done. rewrite <- Hc.
      unfold list_upd. by rewrite Hx; cbn; rewrite Hf.
    + unfold list_upd. rewrite Hx. cbn. by rewrite Hf, Hg.
  - unfold list_upd. by rewrite Hx.
Qed.

Lemma list_upd_other {X} i j (f g : X -> option X) :
  i <> j -> commute (list_upd i f) (list_upd j g).
Proof.
  intros Hne l. assert (Hne' : j <> i) by congruence. unfold list_upd.
  destruct (l !! i) as [x|] eqn:Hx, (l !! j) as [y|] eqn:Hy; cbn.
  - destruct (f x) as [x'|] eqn:Hf, (g y) as [y'|] eqn:Hg; cbn;
      rewrite ?list_lookup_insert_ne, ?Hx, ?Hy by done; cbn;
      rewrite ?Hf, ?Hg; cbn; try done.
    by rewrite list_insert_insert_ne.
  - destruct (f x) as [x'|]; cbn; [|done].
    by rewrite list_lookup_insert_ne, Hy by done.
  - destruct (g y) as [y'|]; cbn; [|done].
    by rewrite list_lookup_insert_ne, Hx by done.
  - done.
Qed.

Section map_updates.
Context {K X : Type} `{Countable K}.

Lemma map_upd_again (k : K) (f g : X -> option X) (m : gmap K X) x y :
  m !! k = Some x -> f x = Some y ->
  map_upd k f m ≫= map_upd k g = z ← g y; Some (<[k := z]> m).
Proof.
  intros Hx Hy. unfold map_upd. rewrite Hx. cbn. rewrite Hy. cbn.
  rewrite lookup_insert_eq. cbn.
  destruct (g y) as [z|]; [|done]. cbn. by rewrite insert_insert_eq.
Qed.

Lemma map_upd_same (k : K) (f g : X -> option X) :
  commute f g -> commute (map_upd k f) (map_upd k g).
Proof.
  intros Hfg m. destruct (m !! k) as [x|] eqn:Hx.
  - pose proof (Hfg x) as Hc.
    destruct (f x) as [y|] eqn:Hf, (g x) as [y'|] eqn:Hg; cbn in Hc.
    + by rewrite (map_upd_again k f g m x y), (map_upd_again k g f m x y'), Hc.
    + rewrite (map_upd_again k f g m x y) by done. rewrite Hc.
      unfold map_upd. by rewrite Hx; cbn; rewrite Hg.
    + rewrite (map_upd_again k g f m x y') by done. rewrite <- Hc.
      unfold map_upd. by rewrite Hx; cbn; rewrite Hf.
    + unfold map_upd. rewrite Hx. cbn. by rewrite Hf, Hg.
  - unfold map_upd. by rewrite Hx.
Qed.

Lemma map_upd_other (k k' : K) (f g : X -> option X) :
  k <> k' -> commute (map_upd k f) (map_upd k' g).
Proof.
  intros Hne m. assert (Hne' : k' <> k) by congruence. unfold map_upd.
  destruct (m !! k) as [x|] eqn:Hx, (m !! k') as [y|] eqn:Hy; cbn.
  - destruct (f x) as [x'|] eqn:Hf, (g y) as [y'|] eqn:Hg; cbn;
      rewrite ?lookup_insert_ne, ?Hx, ?Hy by done; cbn;
      rewrite ?Hf, ?Hg; cbn; try done.
    by rewrite insert_insert_ne.
  - destruct (f x) as [x'|]; cbn; [|done].
    by rewrite lookup_insert_ne, Hy by done.
  - destruct (g y) as [y'|]; cbn; [|done].
    by rewrite lookup_insert_ne, Hx by done.
  - done.
Qed.
End map_updates.

Lemma incr_upd c h :
  gr.incr c h =
  if c.2 <? 0 then None
  else map_upd c.1.1
         (list_upd c.1.2 (list_upd (Z.to_nat c.2) (fun x => Some (x + 1)%float))) h.
Proof.
  destruct c as [[key i] j]. unfold gr.incr, map_upd, list_upd. cbn [fst snd].
  destruct (j <? 0); [done|].
  destruct (h !! key) as [tbl|]; [|done]. cbn.
  destruct (tbl !! i) as [row|]; [|done]. cbn.
  by destruct (row !! Z.to_nat j).
Qed.

Lemma incr_commute c1 c2 : commute (gr.incr c1) (gr.incr c2).
Proof.
  intros h. rewrite !incr_upd.
  destruct (c1.2 <? 0) eqn:E1, (c2.2 <? 0) eqn:E2; cbn.
  - done.
  - destruct (map_upd _ _ h) as [h'|]; cbn; [|done].
    by rewrite incr_upd, E1.
  - destruct (map_upd _ _ h) as [h'|]; cbn; [|done].
    by rewrite incr_upd, E2.
  - transitivity (map_upd c1.1.1
                    (list_upd c1.1.2 (list_upd (Z.to_nat c1.2) (fun x => Some (x + 1)%float))) h
                  ≫= map_upd c2.1.1
                    (list_upd c2.1.2 (list_upd (Z.to_nat c2.2) (fun x => Some (x + 1)%float)))).
    { destruct (map_upd c1.1.1 _ h) as [h'|]; cbn; [|done]. by rewrite incr_upd, E2. }
    transitivity (map_upd c2.1.1
                    (list_upd c2.1.2 (list_upd (Z.to_nat c2.2) (fun x => Some (x + 1)%float))) h
                  ≫= map_upd c1.1.1
                    (list_upd c1.1.2 (list_upd (Z.to_nat c1.2) (fun x => Some (x + 1)%float)))).
    2: { destruct (map_upd c2.1.1 _ h) as [h'|]; cbn; [|done]. by rewrite incr_upd, E1. }
    destruct (decide (c1.1.1 = c2.1.1)) as [->|Hk]; [|by apply map_upd_other].
    apply map_upd_same.
    destruct (decide (c1.1.2 = c2.1.2)) as [->|Hi]; [|by apply list_upd_other].
    apply list_upd_same.
    destruct (decide (Z.to_nat c1.2 = Z.to_nat c2.2)) as [->|Hj]; [|by apply list_upd_other].
    apply list_upd_same. by intros x.
Qed.

Lemma incr_all_perm l1 l2 :
  l1 ≡ₚ l2 -> forall h, gr.incr_all l1 h = gr.incr_all l2 h.
Proof.
  induction 1 as [|c l1 l2 _ IH|c1 c2 l|l1 l2 l3 _ IH1 _ IH2]; intros h.
  - done.
  - cbn. destruct (gr.incr c h); cbn; [apply IH|done].
  - cbn. pose proof (incr_commute c2 c1 h) as Hc.
    destruct (gr.incr c2 h) as [h2|], (gr.incr c1 h) as [h1|]; cbn in *.
    + destruct (gr.incr c1 h2) as [h'|], (gr.incr c2 h1) as [h''|]; cbn; by simplify_eq.
    + by destruct (gr.incr c1 h2).
    + by destruct (gr.incr c2 h1).
    + done.
  - by rewrite IH1.
Qed.

(** ** What a run of [gr] leaves in the shared state *)

Section gr_runs.
Import gr.

Lemma tally_split l : forall h v,
  pool.writes tally l (h, v) =
  (fun h' => (h', fold_left (fun s x => (s + x)%float) (volumes l) v))
    <$> incr_all (increments l) h.
Proof.
  induction l as [|[c|x] l IH]; intros h v; [done| |].
  - cbn. destruct (incr c h) as [h'|]; cbn; [apply IH|done].
  - cbn. apply IH.
Qed.

Lemma volumes_work g js :
  volumes (concat (map (work g) js)) = map (fun j => box_volume j.1) js.
Proof.
  induction js as [|j js IH]; [done|].
  cbn [map concat]. unfold volumes in *. rewrite omap_app, IH.
  unfold work. rewrite omap_app. cbn.
  replace (omap _ (map Incr (cells g j.1 j.2))) with (@nil float); [done|].
  induction (cells g j.1 j.2) as [|c l IHl]; [done|exact IHl].
Qed.

Lemma frames_read_ext g g' k :
  atomsTyp g = atomsTyp g' -> atoms g = atoms g' ->
  cols g = cols g' -> colsLen g = colsLen g' ->
  forall rd, frames_read g k rd = frames_read g' k rd.
Proof.
  intros Ht Ha Hc Hl. induction k as [|k IH]; intros rd; [done|].
  cbn [frames_read]. rewrite (gr_readCfg_ext g g' rd Ht Ha Hc Hl).
  destruct (readCfg g' rd) as [[job rd']| |]; [|done..]. by rewrite IH.
Qed.

Lemma gr_claims_frames n s js c :
  pool.claims claim s js c -> ready n s ->
  js = frames_read s.1 (times (CfgEnd s.1 - cfg s.1 - 1)) s.2
  /\ (is_Some (err c.1) \/ cfg c.1 = CfgEnd c.1)
  /\ CfgEnd c.1 = CfgEnd s.1 /\ min_int <= cfg c.1.
Proof.
  induction 1 as [s c Hstop|s s' j js c Hjob _ IH]; intros Hr.
  - destruct Hr as (Hc & He & Hn).
    assert (Hs : add64 (cfg s.1) 1 = cfg s.1 + 1) by (apply add64_succ; lia).
    unfold claim in Hstop. cbn [fst snd cfg err CfgEnd set_cfg] in Hstop.
    rewrite Hs, He in Hstop.
    rewrite bool_decide_eq_false_2, orb_false_r in Hstop by (by intros [? [=]]).
    destruct (Z.leb_spec (CfgEnd s.1) (cfg s.1 + 1)) as [Hle|Hlt].
    + simplify_eq. cbn [fst snd cfg err CfgEnd set_cfg].
      replace (times _) with 0%nat by (unfold times; lia).
      split; [done|]. split; [right; lia|]. split; [done|lia].
    + unfold times. destruct (Z.to_nat _) as [|k] eqn:Hk; [lia|].
      cbn [frames_read].
      rewrite (gr_readCfg_ext s.1 (set_cfg s.1 (cfg s.1 + 1) None) s.2) by reflexivity.
      destruct (readCfg _ s.2) as [[job rd]|e|]; [done| |done].
      simplify_eq. cbn [fst snd cfg err CfgEnd set_cfg].
      split; [done|]. split; [by left|]. split; [done|lia].
  - pose proof (gr_ready_job n s s' j Hr Hjob) as Hr'.
    destruct (IH Hr') as (Hjs & Hset & Hend & Hmin).
    destruct Hr as (Hc & He & Hn).
    assert (Hs : add64 (cfg s.1) 1 = cfg s.1 + 1) by (apply add64_succ; lia).
    unfold claim in Hjob. cbn [fst snd cfg err CfgEnd set_cfg] in Hjob.
    rewrite Hs, He in Hjob.
    rewrite bool_decide_eq_false_2, orb_false_r in Hjob by (by intros [? [=]]).
    destruct (Z.leb_spec (CfgEnd s.1) (cfg s.1 + 1)) as [Hle|Hlt]; [done|].
    pose proof (gr_readCfg_ext s.1 (set_cfg s.1 (cfg s.1 + 1) None) s.2
                  eq_refl eq_refl eq_refl eq_refl) as Hext.
    destruct (readCfg (set_cfg _ _ _) s.2) as [[job rd]|e|] eqn:Hread; [|done..].
    simplify_eq. cbn [fst snd cfg err CfgEnd set_cfg] in *.
    split; [|done].
    replace (times (CfgEnd s.1 - cfg s.1 - 1))
      with (Datatypes.S (times (CfgEnd s.1 - (cfg s.1 + 1) - 1)))
      by (unfold times; lia).
    cbn [frames_read]. rewrite Hext. f_equal.
    by apply frames_read_ext.
Qed.

Lemma gr_idles_err k : forall s s',
  pool.idles claim k s s' ->
  is_Some (err s.1)
  \/ (min_int <= cfg s.1 /\ CfgEnd s.1 <= cfg s.1 /\ cfg s.1 + Z.of_nat k <= max_int) ->
  err s'.1 = err s.1.
Proof.
  induction k as [|k IH]; intros s s' Hidle Hs; cbn in Hidle; [by subst|].
  destruct Hidle as (c1 & Hclaim & Hidle).
  assert (Hc1 : c1 = (set_cfg s.1 (add64 (cfg s.1) 1) (err s.1), s.2)).
  { unfold claim in Hclaim. cbn [fst snd cfg err CfgEnd set_cfg] in Hclaim.
    destruct Hs as [He|(Hmin & Hend & Hmax)].
    - rewrite (bool_decide_eq_true_2 _ He), orb_true_r in Hclaim. by simplify_eq.
    - rewrite add64_succ in Hclaim |- * by lia.
      destruct (Z.leb_spec (CfgEnd s.1) (cfg s.1 + 1)); [|lia].
      cbn [orb] in Hclaim. by simplify_eq. }
  subst c1. rewrite (IH _ _ Hidle); [done|].
  cbn [fst snd cfg err CfgEnd set_cfg].
  destruct Hs as [He|(Hmin & Hend & Hmax)]; [by left|right].
  rewrite add64_succ by lia. lia.
Qed.
End gr_runs.

(** ** The integral columns depend on the counts only *)

Lemma mapM_fmap_map {X Y W} (f : Y -> W) (h : X -> option Y) (l : list X) :
  map f <$> mapM h l = mapM (fun x => f <$> h x) l.
Proof.
  induction l as [|x l IH]; [done|]. cbn.
  destruct (h x) as [y|]; cbn; [|done].
  rewrite <- IH. by destruct (mapM h l).
Qed.

Lemma mapM_pointwise {X Y} (f h : X -> option Y) (l : list X) :
  (forall x, f x = h x) -> mapM f l = mapM h l.
Proof.
  intros E. induction l as [|x l IH]; [done|]. cbn. by rewrite E, IH.
Qed.

Lemma norm_row_fold g gvol nb len2 counts : forall out prev b,
  (fold_left
     (fun (st : list (float * float) * option float * Z) c =>
        let '(out, prev, b) := st in
        let raw := (c / nb)%float in
        let h := (raw / (gr.shell g b * len2 / gvol))%float in
        let i := match prev with Some p => (raw + p)%float | None => raw end in
        (out ++ [(i, h)], Some i, b + 1))
     counts (out, prev, b)).1.1.*1
  = (fold_left
     (fun (st : list float * option float) c =>
        let raw := (c / nb)%float in
        let i := match st.2 with Some p => (raw + p)%float | None => raw end in
        (st.1 ++ [i], Some i))
     counts (out.*1, prev)).1.
Proof.
  induction counts as [|c counts IH]; intros out prev b; [done|].
  cbn [fold_left]. rewrite IH. by rewrite fmap_app.
Qed.

Lemma norm_row_fst g gvol nb len2 counts :
  (gr.norm_row g gvol nb len2 counts).*1 = running nb counts.
Proof. apply norm_row_fold. Qed.

Lemma entry_fmap {X Y} (f : X -> Y) (t : gmap (string * string) (list (list X))) i e :
  f <$> gr.entry t i e = gr.entry (map (map f) <$> t) i e.
Proof.
  unfold gr.entry. rewrite lookup_fmap.
  destruct (t !! e.1) as [tbl|]; cbn; [|done].
  rewrite list_lookup_fmap.
  destruct (tbl !! e.2) as [row|]; cbn; [|done].
  by rewrite list_lookup_fmap.
Qed.

Lemma norm_tables_fst g :
  map (map fst) <$> gr.norm_tables g = map (running (gr.nb_cfg g)) <$> gr.hstg g.
Proof.
  apply map_eq. intros k. unfold gr.norm_tables.
  rewrite !lookup_fmap, map_lookup_imap.
  destruct (gr.hstg g !! k) as [tbl|]; cbn; [|done].
  f_equal. rewrite map_map. apply map_ext. intros row. apply norm_row_fst.
Qed.

Lemma integral_counts g : gr.integral g = integrals g.
Proof.
  unfold gr.integral, integrals, gr.write.
  rewrite mapM_fmap_map. apply mapM_pointwise. intros i.
  unfold gr.line.
  destruct (mapM (gr.entry (gr.norm_tables g) i) (gr.order_list g)) as [cols|] eqn:E.
  - cbn. rewrite <- norm_tables_fst.
    erewrite <- (mapM_pointwise _ _ _ (entry_fmap fst (gr.norm_tables g) i)).
    rewrite <- mapM_fmap_map, E. done.
  - cbn. rewrite <- norm_tables_fst.
    erewrite <- (mapM_pointwise _ _ _ (entry_fmap fst (gr.norm_tables g) i)).
    rewrite <- mapM_fmap_map, E. done.
Qed.

(** ** Complete runs of the pool of [gr] *)

(** The fields that neither a claim nor a locked write changes. *)
Lemma gr_claim_config s s' oj :
  gr.claim s = Some (s', oj) ->
  gr.CfgStart s'.1 = gr.CfgStart s.1 /\ gr.CfgEnd s'.1 = gr.CfgEnd s.1
  /\ gr.Atoms s'.1 = gr.Atoms s.1 /\ gr.order s'.1 = gr.order s.1
  /\ gr.Dr s'.1 = gr.Dr s.1 /\ gr.bins s'.1 = gr.bins s.1.
Proof.
  unfold gr.claim. intros H.
  destruct (_ || _); [by simplify_eq|].
  destruct (gr.readCfg _ _) as [[job rd]|e|]; by simplify_eq.
Qed.

Lemma gr_locked_config a s s' :
  gr.locked a s = Some s' ->
  gr.CfgStart s'.1 = gr.CfgStart s.1 /\ gr.CfgEnd s'.1 = gr.CfgEnd s.1
  /\ gr.Atoms s'.1 = gr.Atoms s.1 /\ gr.order s'.1 = gr.order s.1
  /\ gr.Dr s'.1 = gr.Dr s.1 /\ gr.bins s'.1 = gr.bins s.1.
Proof.
  unfold gr.locked. destruct a as [c|v]; cbn.
  - destruct (gr.incr c _); cbn; intros; by simplify_eq.
  - intros; by simplify_eq.
Qed.

Lemma gr_run_config n sched s0 p tr :
  pool.run gr.claim (gr.work s0.1) gr.locked sched (pool.launch n s0) = Some (p, tr) ->
  gr.CfgStart p.1.1 = gr.CfgStart s0.1 /\ gr.CfgEnd p.1.1 = gr.CfgEnd s0.1
  /\ gr.Atoms p.1.1 = gr.Atoms s0.1 /\ gr.order p.1.1 = gr.order s0.1
  /\ gr.Dr p.1.1 = gr.Dr s0.1 /\ gr.bins p.1.1 = gr.bins s0.1.
Proof.
  intros Hrun.
  apply (run_preserves gr.claim (gr.work s0.1) gr.locked
           (fun s => gr.CfgStart s.1 = gr.CfgStart s0.1 /\ gr.CfgEnd s.1 = gr.CfgEnd s0.1
                     /\ gr.Atoms s.1 = gr.Atoms s0.1 /\ gr.order s.1 = gr.order s0.1
                     /\ gr.Dr s.1 = gr.Dr s0.1 /\ gr.bins s.1 = gr.bins s0.1)
           sched) in Hrun; [done| | |done].
  - intros sh sh' oj Hc H. destruct (gr_claim_config _ _ _ Hc) as (?&?&?&?&?&?).
    destruct H as (?&?&?&?&?&?). repeat split; congruence.
  - intros a sh sh' Ha H. destruct (gr_locked_config _ _ _ Ha) as (?&?&?&?&?&?).
    destruct H as (?&?&?&?&?&?). repeat split; congruence.
Qed.

Lemma increments_work g js :
  gr.increments (concat (map (gr.work g) js))
  = flat_map (fun j => gr.cells g j.1 j.2) js.
Proof.
  induction js as [|j js IH]; [done|].
  cbn [map concat flat_map]. unfold gr.increments in *. rewrite omap_app, IH.
  f_equal. unfold gr.work. rewrite omap_app. cbn. rewrite app_nil_r.
  induction (gr.cells g j.1 j.2) as [|c l IHl]; [done|]. cbn. by rewrite IHl.
Qed.

(** What a complete run leaves, whatever the workers and the schedule. *)
Lemma gr_run_summary n sched s0 p tr :
  (1 <= n)%nat -> gr.ready n s0 ->
  pool.run gr.claim (gr.work s0.1) gr.locked sched (pool.launch n s0) = Some (p, tr) ->
  pool.finished p = true ->
  exists c1,
    pool.claims gr.claim (gr.control s0) (pool.jobs tr) c1
    /\ pool.jobs tr
       = gr.frames_read s0.1 (times (gr.CfgEnd s0.1 - gr.cfg s0.1 - 1)) s0.2
    /\ gr.err p.1.1 = gr.err c1.1
    /\ gr.incr_all (flat_map (fun j => gr.cells s0.1 j.1 j.2) (pool.jobs tr))
         (gr.hstg s0.1) = Some (gr.hstg p.1.1)
    /\ exists vs, vs ≡ₚ map (fun j => gr.box_volume j.1) (pool.jobs tr)
         /\ gr.vol p.1.1 = fold_left (fun s x => (s + x)%float) vs (gr.vol s0.1).
Proof.
  intros Hn Hr Hrun Hfin.
  destruct (run_complete gr.claim (gr.work s0.1) gr.locked gr.control gr.claim
              gr.store gr.tally gr_claim_control gr_claim_store gr_locked_control
              gr_locked_store n (gr.ready n) (gr_ready_job n) (gr_ready_stop n)
              sched s0 p tr Hn Hr Hrun Hfin) as (c1 & Hcl & Hid & Hw & Hperm).
  exists c1. split; [done|].
  destruct (gr_claims_frames n _ _ _ Hcl Hr) as (Hjs & Hset & Hend & Hmin).
  split.
  { rewrite Hjs. cbn [gr.control fst snd gr.CfgEnd gr.cfg gr.set_vol gr.set_hstg gr.set_tables].
    by apply frames_read_ext. }
  split.
  { change (gr.err (gr.control p.1).1 = gr.err c1.1).
    apply (gr_idles_err (n - 1) _ _ Hid).
    destruct Hset as [He|Hc]; [by left|right].
    destruct Hr as (Hc0 & He0 & Hn0). cbn in Hend. lia. }
  unfold gr.store in Hw. rewrite tally_split in Hw.
  destruct (gr.incr_all (gr.increments (pool.applied tr)) (gr.hstg s0.1))
    as [h'|] eqn:Hincr; [|done].
  cbn in Hw. injection Hw as Hh Hv.
  split.
  - rewrite <- increments_work, <- Hh, <- Hincr.
    apply incr_all_perm. unfold gr.increments. by rewrite Hperm.
  - exists (gr.volumes (pool.applied tr)). split; [|done].
    rewrite <- (volumes_work s0.1). unfold gr.volumes. by rewrite Hperm.
Qed.

Lemma integrals_ext g g' :
  gr.hstg g = gr.hstg g' -> gr.CfgStart g = gr.CfgStart g' ->
  gr.CfgEnd g = gr.CfgEnd g' -> gr.Atoms g = gr.Atoms g' ->
  gr.order g = gr.order g' -> gr.Dr g = gr.Dr g' -> gr.bins g = gr.bins g' ->
  integrals g = integrals g'.
Proof.
  intros Hh Hs He Ha Ho Hd Hb.
  unfold integrals, gr.nb_cfg, gr.order_list. by rewrite Hh, Hs, He, Ha, Ho, Hd, Hb.
Qed.

(** X1: in a complete run of the pool of [gr], with any number of workers
    and any schedule, the frames claimed are, in the order of the claims,
    the frames that successive calls of [readCfg] read off the stream up
    to frame [CfgEnd - 1] or the first frame that fails to decode: each
    frame once, in the order of the file. *)
Theorem gr_frames_once_in_order n sched s0 p tr :
  (1 <= n)%nat -> gr.ready n s0 ->
  pool.run gr.claim (gr.work s0.1) gr.locked sched (pool.launch n s0) = Some (p, tr) ->
  pool.finished p = true ->
  pool.jobs tr = gr.frames_read s0.1 (times (gr.CfgEnd s0.1 - gr.cfg s0.1 - 1)) s0.2.
Proof.
  intros Hn Hr Hrun Hfin.
  destruct (gr_run_summary n sched s0 p tr Hn Hr Hrun Hfin) as (c1 & _ & Hjs & _).
  exact Hjs.
Qed.

Lemma gr_frames_once_in_order_witness :
  pool.jobs (sample.gr_run 2 sample.overtaking).2
  = gr.frames_read sample.started.1 2 sample.started.2.
Proof.
  apply (gr_frames_once_in_order 2 sample.overtaking sample.started
           (sample.gr_run 2 sample.overtaking).1 (sample.gr_run 2 sample.overtaking).2).
  - lia.
  - repeat split; vm_compute; congruence.
  - vm_compute. reflexivity.
  - vm_compute. reflexivity.
Defined.

(** X2: two complete runs of the pool of [gr] from the same state, with
    any numbers of workers and any schedules, end with the same counts in
    the histogram, the same recorded error and the same bin centres and
    running integrals in the output; the counts are those of the
    increments of the frames applied one frame after the other. *)
Theorem gr_counts_any_schedule n1 sched1 n2 sched2 s0 p1 tr1 p2 tr2 :
  (1 <= n1)%nat -> (1 <= n2)%nat -> gr.ready n1 s0 -> gr.ready n2 s0 ->
  pool.run gr.claim (gr.work s0.1) gr.locked sched1 (pool.launch n1 s0) = Some (p1, tr1) ->
  pool.finished p1 = true ->
  pool.run gr.claim (gr.work s0.1) gr.locked sched2 (pool.launch n2 s0) = Some (p2, tr2) ->
  pool.finished p2 = true ->
  gr.incr_all
    (flat_map (fun j => gr.cells s0.1 j.1 j.2)
       (gr.frames_read s0.1 (times (gr.CfgEnd s0.1 - gr.cfg s0.1 - 1)) s0.2))
    (gr.hstg s0.1) = Some (gr.hstg p1.1.1)
  /\ gr.hstg p1.1.1 = gr.hstg p2.1.1
  /\ gr.err p1.1.1 = gr.err p2.1.1
  /\ gr.integral p1.1.1 = gr.integral p2.1.1.
Proof.
  intros Hn1 Hn2 Hr1 Hr2 Hrun1 Hfin1 Hrun2 Hfin2.
  destruct (gr_run_summary n1 sched1 s0 p1 tr1 Hn1 Hr1 Hrun1 Hfin1)
    as (c1 & Hcl1 & Hjs1 & He1 & Hh1 & _).
  destruct (gr_run_summary n2 sched2 s0 p2 tr2 Hn2 Hr2 Hrun2 Hfin2)
    as (c2 & Hcl2 & Hjs2 & He2 & Hh2 & _).
  destruct (claims_functional _ _ _ _ Hcl1 _ _ Hcl2) as [_ ->].
  rewrite Hjs1 in Hh1. rewrite Hjs2 in Hh2.
  assert (Hh : gr.hstg p1.1.1 = gr.hstg p2.1.1) by congruence.
  split; [done|]. split; [done|]. split; [congruence|].
  destruct (gr_run_config _ _ _ _ _ Hrun1) as (?&?&?&?&?&?).
  destruct (gr_run_config _ _ _ _ _ Hrun2) as (?&?&?&?&?&?).
  rewrite !integral_counts. apply integrals_ext; congruence.
Qed.

Lemma gr_counts_any_schedule_witness :
  gr.hstg (sample.gr_run 1 sample.alone).1.1.1
  = gr.hstg (sample.gr_run 2 sample.overtaking).1.1.1
  /\ gr.integral (sample.gr_run 1 sample.alone).1.1.1
     = gr.integral (sample.gr_run 2 sample.overtaking).1.1.1.
Proof.
  pose proof (gr_counts_any_schedule 1 sample.alone 2 sample.overtaking sample.started
                (sample.gr_run 1 sample.alone).1 (sample.gr_run 1 sample.alone).2
                (sample.gr_run 2 sample.overtaking).1 (sample.gr_run 2 sample.overtaking).2)
    as H.
  destruct H as (_ & Hh & _ & Hi).
  - lia.
  - lia.
  - repeat split; vm_compute; congruence.
  - repeat split; vm_compute; congruence.
  - vm_compute. reflexivity.
  - vm_compute. reflexivity.
  - vm_compute. reflexivity.
  - vm_compute. reflexivity.
  - split; [exact Hh|exact Hi].
Defined.

(** X3: in a complete run of the pool of [gr] the sum [g.vol] is the
    initial value with the box volumes of the claimed frames added one
    after the other in the order in which the workers finish them: some
    permutation of the order of the file. *)
Theorem gr_volume_sum_in_finishing_order n sched s0 p tr :
  (1 <= n)%nat -> gr.ready n s0 ->
  pool.run gr.claim (gr.work s0.1) gr.locked sched (pool.launch n s0) = Some (p, tr) ->
  pool.finished p = true ->
  gr.volumes (pool.applied tr)
    ≡ₚ map (fun j => gr.box_volume j.1)
         (gr.frames_read s0.1 (times (gr.CfgEnd s0.1 - gr.cfg s0.1 - 1)) s0.2)
  /\ gr.vol p.1.1
     = fold_left (fun s x => (s + x)%float) (gr.volumes (pool.applied tr)) (gr.vol s0.1).
Proof.
  intros Hn Hr Hrun Hfin.
  destruct (gr_run_summary n sched s0 p tr Hn Hr Hrun Hfin) as (c1 & _ & Hjs & _).
  destruct (run_complete gr.claim (gr.work s0.1) gr.locked gr.control gr.claim
              gr.store gr.tally gr_claim_control gr_claim_store gr_locked_control
              gr_locked_store n (gr.ready n) (gr_ready_job n) (gr_ready_stop n)
              sched s0 p tr Hn Hr Hrun Hfin) as (c1' & _ & _ & Hw & Hperm).
  split.
  - rewrite <- Hjs, <- (volumes_work s0.1). unfold gr.volumes. by rewrite Hperm.
  - unfold gr.store in Hw. rewrite tally_split in Hw.
    destruct (gr.incr_all _ _); [|done]. cbn in Hw. by injection Hw as _ <-.
Qed.

Lemma gr_volume_sum_in_finishing_order_witness :
  gr.vol (sample.gr_run 2 sample.overtaking).1.1.1
  = fold_left (fun s x => (s + x)%float)
      (gr.volumes (pool.applied (sample.gr_run 2 sample.overtaking).2))
      (gr.vol sample.started.1).
Proof.
  apply (gr_volume_sum_in_finishing_order 2 sample.overtaking sample.started
           (sample.gr_run 2 sample.overtaking).1 (sample.gr_run 2 sample.overtaking).2).
  - lia.
  - repeat split; vm_compute; congruence.
  - vm_compute. reflexivity.
  - vm_compute. reflexivity.
Defined.

(** X4: the histogram column of the output of [gr] does depend on the
    schedule: on a trajectory of three frames whose box volumes are 0.2,
    0.3 and 0.1, one worker alone and two workers of which the second
    finishes its frame first both run to the end, and [write] prints
    different normalised histograms, since the floating-point sum [g.vol]
    differs. *)
Theorem gr_histogram_depends_on_schedule :
  exists s0 sched1 sched2 p1 tr1 p2 tr2,
    gr.ready 2 s0
    /\ pool.run gr.claim (gr.work s0.1) gr.locked sched1 (pool.launch 1 s0) = Some (p1, tr1)
    /\ pool.finished p1 = true
    /\ pool.run gr.claim (gr.work s0.1) gr.locked sched2 (pool.launch 2 s0) = Some (p2, tr2)
    /\ pool.finished p2 = true
    /\ gr.vol p1.1.1 <> gr.vol p2.1.1
    /\ gr.write p1.1.1 <> gr.write p2.1.1.
Proof.
  exists sample.started, sample.alone, sample.overtaking,
    (sample.gr_run 1 sample.alone).1, (sample.gr_run 1 sample.alone).2,
    (sample.gr_run 2 sample.overtaking).1, (sample.gr_run 2 sample.overtaking).2.
  split; [repeat split; vm_compute; congruence|].
  split; [vm_compute; reflexivity|].
  split; [vm_compute; reflexivity|].
  split; [vm_compute; reflexivity|].
  split; [vm_compute; reflexivity|].
  split; vm_compute; congruence.
Qed.

(** ** Complete runs of the pool of [volume] *)

Section volume_pool.
Import volume.

Lemma volume_rows_ext v v' n :
  Sigma v = Sigma v' -> cols v = cols v' -> colsLen v = colsLen v' ->
  forall xyz rd, rows v n xyz rd = rows v' n xyz rd.
Proof.
  intros Hs Hc Hl. induction n as [|n IH]; intros xyz rd; [done|].
  cbn [rows]. unfold bind, row. rewrite Hs, Hc, Hl.
  destruct (bind ReadSlice _ rd) as [[xyz' rd']| |]; [|done..].
  apply IH.
Qed.

Lemma volume_readCfg_ext v v' rd :
  Sigma v = Sigma v' -> atoms v = atoms v' ->
  cols v = cols v' -> colsLen v = colsLen v' ->
  readCfg v rd = readCfg v' rd.
Proof.
  intros Hs Ha Hc Hl. unfold readCfg, bind.
  destruct (wrap "HeaderWOutAtoms" _ rd) as [[box rd1]| |]; [|done..].
  destruct (ReadSlice rd1) as [[b rd2]| |]; [|done..].
  unfold wrap, fetchXYZ. rewrite Hs, Ha.
  destruct (bool_decide _); [done|].
  destruct (_ <? 0); [done|].
  by rewrite (volume_rows_ext v v' _ Hs Hc Hl).
Qed.

Lemma volume_frames_read_ext v v' k :
  CfgSpacing v = CfgSpacing v' -> Sigma v = Sigma v' -> atoms v = atoms v' ->
  cols v = cols v' -> colsLen v = colsLen v' ->
  forall c rd, frames_read v k c rd = frames_read v' k c rd.
Proof.
  intros Hp Hs Ha Hc Hl. induction k as [|k IH]; intros c rd; [done|].
  cbn [frames_read]. rewrite Hp.
  destruct (util.ReadCfgNonCvg _ rd) as [[[] rd1]| |]; [|done..].
  rewrite (volume_readCfg_ext v v' rd1 Hs Ha Hc Hl).
  destruct (readCfg v' rd1) as [[frame rd2]| |]; [|done..]. by rewrite IH.
Qed.

Lemma volume_claim_control (s : shared) :
  claim s.1 = (fun r : shared * option job => (r.1.1, r.2)) <$> claim_shared s.
Proof. unfold claim_shared. by destruct (claim s.1) as [[c oj]|]. Qed.

Lemma volume_claim_store (s s' : shared) oj :
  claim_shared s = Some (s', oj) -> s'.2 = s.2.
Proof.
  unfold claim_shared. destruct (claim s.1) as [[c oj']|]; cbn; [|done].
  by intros [= <- <-].
Qed.

Lemma volume_locked_control a (s s' : shared) : locked a s = Some s' -> s'.1 = s.1.
Proof. by intros [= <-]. Qed.

Lemma volume_locked_store a (s : shared) : written a s.2 = snd <$> locked a s.
Proof. done. Qed.

Lemma volume_step c d :
  0 <= d -> 0 <= c -> c + (d + 1) <= max_int ->
  add64 c (add64 d 1) = c + (d + 1).
Proof.
  intros Hd Hc Hm. unfold add64.
  rewrite (wrap64_small (d + 1)) by (unfold min_int, max_int in *; lia).
  apply wrap64_small. unfold min_int, max_int in *. lia.
Qed.

Lemma volume_halted_err k : forall s, is_Some (err s.1) -> pool.halted claim k s.
Proof.
  induction k as [|k IH]; intros s He; [by exists s|].
  destruct (IH (set_cfg s.1 (add64 (cfg s.1) (add64 (CfgSpacing s.1) 1)) (err s.1), s.2) He)
    as [c' Hc'].
  exists c', (set_cfg s.1 (add64 (cfg s.1) (add64 (CfgSpacing s.1) 1)) (err s.1), s.2).
  split; [|done].
  unfold claim. cbn [fst snd cfg err CfgEnd CfgSpacing set_cfg].
  by rewrite (bool_decide_eq_true_2 _ He), orb_true_r.
Qed.

Lemma volume_halted_end k : forall s,
  0 <= CfgSpacing s.1 -> 0 <= cfg s.1 -> CfgEnd s.1 <= cfg s.1 ->
  cfg s.1 + Z.of_nat k * (CfgSpacing s.1 + 1) <= max_int ->
  pool.halted claim k s.
Proof.
  induction k as [|k IH]; intros s Hd Hmin Hend Hmax; [by exists s|].
  assert (Hs : add64 (cfg s.1) (add64 (CfgSpacing s.1) 1) = cfg s.1 + (CfgSpacing s.1 + 1))
    by (apply volume_step; nia).
  destruct (IH (set_cfg s.1 (add64 (cfg s.1) (add64 (CfgSpacing s.1) 1)) (err s.1), s.2))
    as [c' Hc']; cbn [fst snd cfg CfgEnd CfgSpacing set_cfg]; rewrite ?Hs; [nia..|].
  exists c', (set_cfg s.1 (add64 (cfg s.1) (add64 (CfgSpacing s.1) 1)) (err s.1), s.2).
  split; [|done].
  unfold claim. cbn [fst snd cfg err CfgEnd CfgSpacing set_cfg].
  rewrite Hs. destruct (Z.leb_spec (CfgEnd s.1) (cfg s.1 + (CfgSpacing s.1 + 1))); [done|lia].
Qed.

Lemma volume_ready_job n s s' j :
  (1 <= n)%nat -> ready n s -> claim s = Some (s', Some j) -> ready n s'.
Proof.
  unfold ready, claim. intros Hn1 (Hd & Hc & He & Hn).
  assert (Hs : add64 (cfg s.1) (add64 (CfgSpacing s.1) 1) = cfg s.1 + (CfgSpacing s.1 + 1)).
  { apply volume_step; [lia..|]. nia. }
  revert Hs. generalize (add64 (cfg s.1) (add64 (CfgSpacing s.1) 1)). intros c' ->.
  cbn [fst snd cfg err CfgEnd CfgSpacing set_cfg].
  destruct (Z.leb_spec (CfgEnd s.1) (cfg s.1 + (CfgSpacing s.1 + 1))) as [|Hlt]; [done|].
  cbn [orb]. destruct (bool_decide _); [done|].
  destruct (util.ReadCfgNonCvg _ s.2) as [[[] rd1]| |]; [|done..].
  destruct (readCfg _ rd1) as [[frame rd2]| |]; [|done..].
  intros [= <- <-]. cbn [fst snd cfg err CfgEnd CfgSpacing set_cfg].
  split; [done|]. split; [lia|]. by split.
Qed.

Lemma volume_ready_stop n s s' :
  ready n s -> claim s = Some (s', None) -> pool.halted claim (n - 1) s'.
Proof.
  unfold ready, claim. intros (Hd & Hc & He & Hn).
  destruct (decide (n = 0)%nat) as [->|Hn0]; [intros _; by exists s'|].
  assert (Hs : add64 (cfg s.1) (add64 (CfgSpacing s.1) 1) = cfg s.1 + (CfgSpacing s.1 + 1)).
  { apply volume_step; [lia..|]. nia. }
  revert Hs. generalize (add64 (cfg s.1) (add64 (CfgSpacing s.1) 1)). intros c' ->.
  cbn [fst snd cfg err CfgEnd CfgSpacing set_cfg].
  destruct (Z.leb_spec (CfgEnd s.1) (cfg s.1 + (CfgSpacing s.1 + 1))) as [Hle|Hlt].
  - intros [= <-]. apply volume_halted_end; cbn [fst snd cfg err CfgEnd CfgSpacing set_cfg];
      [lia..|]. nia.
  - cbn [orb]. rewrite He. rewrite bool_decide_eq_false_2 by (by intros [? [=]]).
    destruct (util.ReadCfgNonCvg _ s.2) as [[[] rd1]|e|]; [| |done].
    + destruct (readCfg _ rd1) as [[frame rd2]|e|]; [done| |done].
      intros [= <-]. by apply volume_halted_err.
    + intros [= <-]. by apply volume_halted_err.
Qed.
End volume_pool.

Section volume_runs.
Import volume.

Lemma volume_claims_frames n s js c :
  (1 <= n)%nat -> pool.claims claim s js c -> ready n s ->
  js = frames_read s.1 (times ((CfgEnd s.1 - cfg s.1 - 1) / (CfgSpacing s.1 + 1)))
         (cfg s.1) s.2
  /\ (err c.1 = None ->
      length js = times ((CfgEnd s.1 - cfg s.1 - 1) / (CfgSpacing s.1 + 1)))
  /\ (is_Some (err c.1)
      \/ (CfgEnd c.1 <= cfg c.1 /\ cfg c.1 < CfgEnd c.1 + (CfgSpacing c.1 + 1)))
  /\ CfgEnd c.1 = CfgEnd s.1 /\ CfgSpacing c.1 = CfgSpacing s.1 /\ 0 <= cfg c.1.
Proof.
  intros Hn1. induction 1 as [s c Hstop|s s' j js c Hjob _ IH]; intros Hr.
  - destruct Hr as (Hd & Hc & He & Hn).
    assert (Hs : add64 (cfg s.1) (add64 (CfgSpacing s.1) 1)
                 = cfg s.1 + (CfgSpacing s.1 + 1)) by (apply volume_step; nia).
    unfold claim in Hstop. rewrite Hs in Hstop.
    cbn [fst snd cfg err CfgEnd CfgSpacing set_cfg] in Hstop. rewrite He in Hstop.
    rewrite bool_decide_eq_false_2, orb_false_r in Hstop by (by intros [? [=]]).
    destruct (Z.leb_spec (CfgEnd s.1) (cfg s.1 + (CfgSpacing s.1 + 1))) as [Hle|Hlt].
    + simplify_eq. cbn [fst snd cfg err CfgEnd CfgSpacing set_cfg].
      rewrite Z.div_small by lia. cbn.
      split; [done|]. split; [done|]. split; [right; lia|]. repeat split; lia.
    + assert (1 <= (CfgEnd s.1 - cfg s.1 - 1) / (CfgSpacing s.1 + 1))
        by (apply Z.div_le_lower_bound; lia).
      unfold times. destruct (Z.to_nat _) as [|k] eqn:Hk; [lia|].
      cbn [frames_read].
      destruct (util.ReadCfgNonCvg (CfgSpacing s.1) s.2) as [[[] rd1]|e|]; [| |done].
      * rewrite (volume_readCfg_ext s.1
                   (set_cfg s.1 (cfg s.1 + (CfgSpacing s.1 + 1)) None) rd1) by reflexivity.
        destruct (readCfg _ rd1) as [[frame rd2]|e|]; [done| |done].
        simplify_eq. cbn [fst snd cfg err CfgEnd CfgSpacing set_cfg].
        split; [done|]. split; [done|]. split; [by left|]. repeat split; lia.
      * simplify_eq. cbn [fst snd cfg err CfgEnd CfgSpacing set_cfg].
        split; [done|]. split; [done|]. split; [by left|]. repeat split; lia.
  - pose proof (volume_ready_job n s s' j Hn1 Hr Hjob) as Hr'.
    destruct (IH Hr') as (Hjs & Hlen & Hset & Hend & Hsp & Hmin).
    destruct Hr as (Hd & Hc & He & Hn).
    assert (Hs : add64 (cfg s.1) (add64 (CfgSpacing s.1) 1)
                 = cfg s.1 + (CfgSpacing s.1 + 1)) by (apply volume_step; nia).
    unfold claim in Hjob. rewrite Hs in Hjob.
    cbn [fst snd cfg err CfgEnd CfgSpacing set_cfg] in Hjob. rewrite He in Hjob.
    rewrite bool_decide_eq_false_2, orb_false_r in Hjob by (by intros [? [=]]).
    destruct (Z.leb_spec (CfgEnd s.1) (cfg s.1 + (CfgSpacing s.1 + 1))) as [Hle|Hlt]; [done|].
    destruct (util.ReadCfgNonCvg (CfgSpacing s.1) s.2) as [[[] rd1]|e|] eqn:Hskip; [|done..].
    pose proof (volume_readCfg_ext s.1
                  (set_cfg s.1 (cfg s.1 + (CfgSpacing s.1 + 1)) None) rd1
                  eq_refl eq_refl eq_refl eq_refl) as Hext.
    destruct (readCfg (set_cfg _ _ _) rd1) as [[frame rd2]|e|] eqn:Hread; [|done..].
    simplify_eq. cbn [fst snd cfg err CfgEnd CfgSpacing set_cfg] in *.
    assert (Hq : (CfgEnd s.1 - cfg s.1 - 1) / (CfgSpacing s.1 + 1)
                 = (CfgEnd s.1 - (cfg s.1 + (CfgSpacing s.1 + 1)) - 1) / (CfgSpacing s.1 + 1) + 1).
    { replace (CfgEnd s.1 - cfg s.1 - 1)
        with (CfgEnd s.1 - (cfg s.1 + (CfgSpacing s.1 + 1)) - 1 + 1 * (CfgSpacing s.1 + 1))
        by lia.
      rewrite Z.div_add by lia. done. }
    assert (0 <= (CfgEnd s.1 - (cfg s.1 + (CfgSpacing s.1 + 1)) - 1) / (CfgSpacing s.1 + 1))
      by (apply Z.div_pos; lia).
    replace (times ((CfgEnd s.1 - cfg s.1 - 1) / (CfgSpacing s.1 + 1)))
      with (Datatypes.S (times ((CfgEnd s.1 - (cfg s.1 + (CfgSpacing s.1 + 1)) - 1)
                                  / (CfgSpacing s.1 + 1))))
      by (unfold times; lia).
    split; [|split; [|done]].
    + cbn [frames_read]. rewrite Hskip, Hext. f_equal.
      by apply volume_frames_read_ext.
    + intros Hnone. cbn [length]. f_equal. by apply Hlen.
Qed.

Lemma volume_idles_err k : forall s s',
  pool.idles claim k s s' ->
  is_Some (err s.1)
  \/ (0 <= CfgSpacing s.1 /\ 0 <= cfg s.1 /\ CfgEnd s.1 <= cfg s.1
      /\ cfg s.1 + Z.of_nat k * (CfgSpacing s.1 + 1) <= max_int) ->
  err s'.1 = err s.1.
Proof.
  induction k as [|k IH]; intros s s' Hidle Hs; cbn in Hidle; [by subst|].
  destruct Hidle as (c1 & Hclaim & Hidle).
  assert (Hc1 : c1 = (set_cfg s.1 (add64 (cfg s.1) (add64 (CfgSpacing s.1) 1)) (err s.1), s.2)).
  { unfold claim in Hclaim. cbn [fst snd cfg err CfgEnd CfgSpacing set_cfg] in Hclaim.
    destruct Hs as [He|(Hd & Hmin & Hend & Hmax)].
    - rewrite (bool_decide_eq_true_2 _ He), orb_true_r in Hclaim. by simplify_eq.
    - rewrite volume_step in Hclaim |- * by nia.
      destruct (Z.leb_spec (CfgEnd s.1) (cfg s.1 + (CfgSpacing s.1 + 1))); [|lia].
      cbn [orb] in Hclaim. by simplify_eq. }
  subst c1. rewrite (IH _ _ Hidle); [done|].
  cbn [fst snd cfg err CfgEnd CfgSpacing set_cfg].
  destruct Hs as [He|(Hd & Hmin & Hend & Hmax)]; [by left|right].
  rewrite volume_step by nia. nia.
Qed.

Lemma written_fold l : forall o,
  pool.writes written l o = Some (fold_left (fun o a => act a o) l o).
Proof. induction l as [|a l IH]; intros o; [done|]. cbn. apply IH. Qed.

Lemma act_fold l : forall o,
  fold_left (fun o a => act a o) l o
  = (o.1 ++ printed l,
     fold_left (fun c a => match a with Cloud p => Some p | Print _ => c end) l o.2).
Proof.
  induction l as [|[r|p] l IH]; intros [rows c]; cbn [fold_left].
  - cbn. by rewrite app_nil_r.
  - rewrite IH. cbn. by rewrite <- app_assoc.
  - rewrite IH. done.
Qed.

Lemma printed_work v js :
  printed (concat (map (work v) js)) = map (fun j => calc_row v j.1 j.2.2 j.2.1) js.
Proof.
  induction js as [|j js IH]; [done|].
  cbn [map concat]. unfold printed in *. rewrite omap_app, IH.
  unfold work. cbn. by destruct (j.1 =? CfgStart v).
Qed.

Lemma frames_read_indices v k : forall c rd,
  (frames_read v k c rd).*1
  = map (fun i => c + Z.of_nat i * (CfgSpacing v + 1))
      (seq 1 (length (frames_read v k c rd))).
Proof.
  induction k as [|k IH]; intros c rd; [done|].
  cbn [frames_read].
  destruct (util.ReadCfgNonCvg _ rd) as [[[] rd1]| |]; [|done..].
  destruct (readCfg v rd1) as [[frame rd2]| |]; [|done..].
  cbn [fmap list_fmap length seq map]. rewrite IH. f_equal; [cbn; lia|].
  rewrite <- (seq_shift _ 1), map_map. apply map_ext. intros i. lia.
Qed.

Lemma frames_read_length v k c rd : (length (frames_read v k c rd) <= k)%nat.
Proof.
  revert c rd. induction k as [|k IH]; intros c rd; [done|].
  cbn [frames_read].
  destruct (util.ReadCfgNonCvg _ rd) as [[[] rd1]| |]; [|cbn; lia..].
  destruct (readCfg v rd1) as [[frame rd2]| |]; [|cbn; lia..].
  cbn. specialize (IH (c + (CfgSpacing v + 1)) rd2). lia.
Qed.

(** What a complete run leaves, whatever the workers and the schedule. *)
Lemma volume_run_summary n sched (s0 : shared) p tr :
  (1 <= n)%nat -> ready n s0.1 ->
  pool.run claim_shared (work s0.1.1) locked sched (pool.launch n s0) = Some (p, tr) ->
  pool.finished p = true ->
  pool.jobs tr
  = frames_read s0.1.1
      (times ((CfgEnd s0.1.1 - cfg s0.1.1 - 1) / (CfgSpacing s0.1.1 + 1)))
      (cfg s0.1.1) s0.1.2
  /\ (err p.1.1.1 = None ->
      length (pool.jobs tr)
      = times ((CfgEnd s0.1.1 - cfg s0.1.1 - 1) / (CfgSpacing s0.1.1 + 1)))
  /\ pool.applied tr ≡ₚ concat (map (work s0.1.1) (pool.jobs tr))
  /\ p.1.2 = fold_left (fun o a => act a o) (pool.applied tr) s0.2.
Proof.
  intros Hn Hr Hrun Hfin.
  destruct (run_complete claim_shared (work s0.1.1) locked fst claim
              snd written volume_claim_control volume_claim_store volume_locked_control
              volume_locked_store n (ready n) (fun c c' j H => volume_ready_job n c c' j Hn H)
              (volume_ready_stop n)
              sched s0 p tr Hn Hr Hrun Hfin) as (c1 & Hcl & Hid & Hw & Hperm).
  destruct (volume_claims_frames n _ _ _ Hn Hcl Hr) as (Hjs & Hlen & Hset & Hend & Hsp & Hmin).
  split; [done|]. split.
  - intros Hnone. apply Hlen. rewrite <- Hnone. symmetry.
    apply (volume_idles_err (n - 1) _ _ Hid).
    destruct Hset as [He|Hc]; [by left|right].
    destruct Hr as (Hd & Hc0 & He0 & Hn0). rewrite Hsp, Hend in *. nia.
  - split; [done|]. rewrite written_fold in Hw. by injection Hw.
Qed.
End volume_runs.

Lemma no_cloud_fold l : forall c : option (gset volume.gcell),
  Forall (fun a => match a with volume.Cloud _ => False | volume.Print _ => True end) l ->
  fold_left (fun c a => match a with volume.Cloud p => Some p | volume.Print _ => c end) l c
  = c.
Proof.
  induction l as [|[r|q] l IH]; intros c Hl; [done| |].
  - cbn. apply IH. by inversion Hl.
  - inversion Hl as [|? ? Hq]. done.
Qed.

(** X5: in a complete run of the pool of [volume], with any number of
    workers and any schedule, the frames claimed are, in the order of the
    claims, those that the passes of the loop take off the stream: each
    pass skips [CfgSpacing] frames with [ReadCfgNonCvg] and decodes the
    next one.  Their indices are [cfg + (CfgSpacing+1)],
    [cfg + 2 (CfgSpacing+1)], ... from the counter [cfg] at the launch,
    all below [CfgEnd], and when no error is recorded at the end they are
    all the indices of this form below [CfgEnd]. *)
Theorem volume_frames_spaced n sched (s0 : volume.shared) p tr :
  (1 <= n)%nat -> volume.ready n s0.1 ->
  pool.run volume.claim_shared (volume.work s0.1.1) volume.locked sched (pool.launch n s0)
  = Some (p, tr) ->
  pool.finished p = true ->
  pool.jobs tr
  = volume.frames_read s0.1.1
      (times ((volume.CfgEnd s0.1.1 - volume.cfg s0.1.1 - 1) / (volume.CfgSpacing s0.1.1 + 1)))
      (volume.cfg s0.1.1) s0.1.2
  /\ (pool.jobs tr).*1
     = map (fun i => volume.cfg s0.1.1 + Z.of_nat i * (volume.CfgSpacing s0.1.1 + 1))
         (seq 1 (length (pool.jobs tr)))
  /\ Forall (fun j : volume.job => j.1 < volume.CfgEnd s0.1.1) (pool.jobs tr)
  /\ (volume.err p.1.1.1 = None ->
      length (pool.jobs tr)
      = times ((volume.CfgEnd s0.1.1 - volume.cfg s0.1.1 - 1)
               / (volume.CfgSpacing s0.1.1 + 1))).
Proof.
  intros Hn Hr Hrun Hfin.
  destruct (volume_run_summary n sched s0 p tr Hn Hr Hrun Hfin) as (Hjs & Hlen & _).
  split; [done|].
  assert (Hidx : (pool.jobs tr).*1
     = map (fun i => volume.cfg s0.1.1 + Z.of_nat i * (volume.CfgSpacing s0.1.1 + 1))
         (seq 1 (length (pool.jobs tr)))).
  { rewrite Hjs. apply frames_read_indices. }
  split; [done|]. split; [|done].
  destruct Hr as (Hd & Hc & He & Hmax).
  pose proof (frames_read_length s0.1.1
    (times ((volume.CfgEnd s0.1.1 - volume.cfg s0.1.1 - 1) / (volume.CfgSpacing s0.1.1 + 1)))
    (volume.cfg s0.1.1) s0.1.2) as Hle.
  rewrite <- Hjs in Hle.
  apply Forall_fmap with (f := fst) (P := fun i => i < volume.CfgEnd s0.1.1).
  rewrite Hidx. apply Forall_forall. intros x Hx.
  apply list_elem_of_In, in_map_iff in Hx as (i & <- & Hi).
  apply in_seq in Hi.
  pose proof (Z.mul_div_le (volume.CfgEnd s0.1.1 - volume.cfg s0.1.1 - 1)
                (volume.CfgSpacing s0.1.1 + 1) ltac:(lia)) as Hm.
  assert (0 <= (volume.CfgEnd s0.1.1 - volume.cfg s0.1.1 - 1) / (volume.CfgSpacing s0.1.1 + 1))
    by (apply Z.div_pos; lia).
  unfold times in Hle. nia.
Qed.

Lemma volume_frames_spaced_witness :
  (pool.jobs (sample.vol_run 2 sample.vol_overtaking).2).*1 = [2; 4].
Proof.
  destruct (volume_frames_spaced 2 sample.vol_overtaking sample.vol_started
              (sample.vol_run 2 sample.vol_overtaking).1
              (sample.vol_run 2 sample.vol_overtaking).2) as (_ & Hidx & _).
  - lia.
  - repeat split; vm_compute; congruence.
  - vm_compute. reflexivity.
  - vm_compute. reflexivity.
  - rewrite Hidx. vm_compute. reflexivity.
Defined.

(** X6: in a complete run of the pool of [volume] the result file holds
    the rows it held at the launch followed by one row per claimed frame,
    the row that [calc] computes for the frame under its index, in the
    order in which the workers print them: a permutation of the order of
    the claims.  A skipped frame gives no row.  When the counter at the
    launch is [CfgStart], as [Start] sets it, no worker writes the point
    cloud. *)
Theorem volume_rows_of_claimed_frames n sched (s0 : volume.shared) p tr :
  (1 <= n)%nat -> volume.ready n s0.1 ->
  pool.run volume.claim_shared (volume.work s0.1.1) volume.locked sched (pool.launch n s0)
  = Some (p, tr) ->
  pool.finished p = true ->
  p.1.2.1 = s0.2.1 ++ volume.printed (pool.applied tr)
  /\ volume.printed (pool.applied tr)
     ≡ₚ map (fun j : volume.job => volume.calc_row s0.1.1 j.1 j.2.2 j.2.1) (pool.jobs tr)
  /\ (volume.cfg s0.1.1 = volume.CfgStart s0.1.1 -> p.1.2.2 = s0.2.2).
Proof.
  intros Hn Hr Hrun Hfin.
  destruct (volume_run_summary n sched s0 p tr Hn Hr Hrun Hfin)
    as (Hjs & _ & Hperm & Hout).
  rewrite act_fold in Hout. rewrite Hout. cbn [fst snd].
  split; [done|]. split.
  - rewrite <- printed_work. unfold volume.printed. by rewrite Hperm.
  - intros Hstart. apply no_cloud_fold. rewrite Hperm.
    apply Forall_concat, Forall_forall. intros l Hl.
    apply list_elem_of_In, in_map_iff in Hl as (j & <- & Hj).
    assert (Hlt : volume.cfg s0.1.1 < j.1).
    { apply list_elem_of_In in Hj. apply (list_elem_of_fmap_2 fst) in Hj.
      rewrite Hjs, frames_read_indices in Hj.
      apply list_elem_of_In, in_map_iff in Hj as (i & <- & Hi).
      apply in_seq in Hi. destruct Hr as (Hd & _). nia. }
    unfold volume.work.
    destruct (Z.eqb_spec j.1 (volume.CfgStart s0.1.1)) as [He|_]; [lia|].
    by repeat constructor.
Qed.

Lemma volume_rows_of_claimed_frames_witness :
  (sample.vol_run 2 sample.vol_overtaking).1.1.2.1
  = sample.vol_started.2.1
    ++ volume.printed (pool.applied (sample.vol_run 2 sample.vol_overtaking).2).
Proof.
  destruct (volume_rows_of_claimed_frames 2 sample.vol_overtaking sample.vol_started
              (sample.vol_run 2 sample.vol_overtaking).1
              (sample.vol_run 2 sample.vol_overtaking).2) as (Hrows & _).
  - lia.
  - repeat split; vm_compute; congruence.
  - vm_compute. reflexivity.
  - vm_compute. reflexivity.
  - exact Hrows.
Defined.

(** ** Skipping frames *)

Lemma atoi_line_eq rd :
  util.atoi_line rd =
  match drop_last (nth 0 rd "") with
  | Ok s => match Atoi s with
            | (n, None) => Ok (n, drop 1 rd)
            | (_, Some e) => Err e
            end
  | Err e => Err e
  | Panic msg => Panic msg
  end.
Proof.
  unfold util.atoi_line. rewrite bind_ReadSlice.
  destruct (drop_last _) as [s| |]; [|done..].
  by destruct (Atoi s) as [n [e|]].
Qed.

(** [ReadCfgNonCvg] with a count other than zero, in one step. *)
Lemma ReadCfgNonCvg_eq x rd :
  x <> 0 ->
  util.ReadCfgNonCvg x rd =
  match drop_last (nth 3 rd "") with
  | Ok s =>
      match Atoi s with
      | (a, None) =>
          Ok (tt, drop (4 + times (add64 5 a)
                        + times (mul64 (sub64 x 1) (add64 (add64 3 6) a))) rd)
      | (_, Some e) => Err e
      end
  | Err e => Err e
  | Panic msg => Panic msg
  end.
Proof.
  intros Hx. unfold util.ReadCfgNonCvg.
  destruct (Z.eqb_spec x 0) as [|_]; [done|].
  rewrite (bind_Ok _ _ _ _ _ (skip_lines 3 rd)).
  unfold bind at 1. rewrite atoi_line_eq, nth_drop. cbn [Nat.add].
  destruct (drop_last (nth 3 rd "")) as [s| |]; [|done..].
  destruct (Atoi s) as [a [e|]]; [done|].
  rewrite (bind_Ok _ _ _ _ _ (skip_lines _ _)), skip_lines.
  rewrite !drop_drop. do 2 f_equal; lia.
Qed.

(** X7: [ReadCfgNonCvg] with a count [x >= 1], on a stream whose fourth
    line holds the atom count [a >= 0], returns no error and leaves the
    stream [x * (9 + a)] lines further: the [x] frames are skipped on the
    atom count of the first of them, no other line is looked at, and a
    stream that ends earlier is not an error. *)
Theorem ReadCfgNonCvg_skips_frames x a b s rd :
  1 <= x -> 0 <= a -> x * (9 + a) <= max_int ->
  rd !! 3%nat = Some b -> drop_last b = Ok s -> Atoi s = (a, None) ->
  util.ReadCfgNonCvg x rd = Ok (tt, drop (Z.to_nat (x * (9 + a))) rd).
Proof.
  intros Hx Ha Hmax Hb Hs Hn.
  rewrite ReadCfgNonCvg_eq by lia.
  rewrite (nth_lookup_Some _ _ _ _ Hb), Hs, Hn.
  assert (H9 : add64 (add64 3 6) a = 9 + a).
  { unfold add64. rewrite (wrap64_small (3 + 6)) by (unfold min_int, max_int; lia).
    apply wrap64_small. unfold min_int, max_int in *. nia. }
  assert (H5 : add64 5 a = 5 + a).
  { apply wrap64_small. unfold min_int, max_int in *. nia. }
  assert (H1 : sub64 x 1 = x - 1).
  { apply wrap64_small. unfold min_int, max_int in *. nia. }
  assert (Hm : mul64 (x - 1) (9 + a) = (x - 1) * (9 + a)).
  { apply wrap64_small. unfold min_int, max_int in *. nia. }
  rewrite H9, H5, H1, Hm. do 3 f_equal. unfold times. nia.
Qed.

Lemma ReadCfgNonCvg_skips_frames_witness :
  util.ReadCfgNonCvg 2 sample.drifting = Ok (tt, drop 22 sample.drifting).
Proof.
  apply (ReadCfgNonCvg_skips_frames 2 2 ("2" ++ sample.nl) "2" sample.drifting).
  - lia.
  - lia.
  - vm_compute. discriminate.
  - reflexivity.
  - reflexivity.
  - reflexivity.
Defined.

(** X8: [ReadCfgNonCvg] with a count other than zero, on a stream that
    has fewer than four lines left, panics in [string(b)[:len(b)-1]]: the
    end of the input is no error but a slice out of range. *)
Theorem ReadCfgNonCvg_panics_at_end x rd :
  x <> 0 -> (length rd <= 3)%nat ->
  util.ReadCfgNonCvg x rd = Panic "slice bounds out of range [:-1]".
Proof.
  intros Hx Hlen. rewrite ReadCfgNonCvg_eq by done.
  by rewrite nth_overflow by lia.
Qed.

Lemma ReadCfgNonCvg_panics_at_end_witness :
  util.ReadCfgNonCvg 1 (sample.file ["ITEM: TIMESTEP"; "0"])
  = Panic "slice bounds out of range [:-1]".
Proof.
  apply ReadCfgNonCvg_panics_at_end.
  - lia.
  - cbn. lia.
Defined.

(** X9: in the loop of [volume.start], a worker that claims a frame when
    the spacing is not zero and the stream has fewer than four lines left
    panics with the lock held: a [CfgEnd] beyond the end of the
    trajectory is not reported as an error. *)
Theorem volume_claim_panics_at_end (s : volume.Volume * Reader) :
  volume.CfgSpacing s.1 <> 0 -> (length s.2 <= 3)%nat -> volume.err s.1 = None ->
  add64 (volume.cfg s.1) (add64 (volume.CfgSpacing s.1) 1) < volume.CfgEnd s.1 ->
  volume.claim s = None.
Proof.
  intros Hsp Hlen He Hlt. unfold volume.claim.
  cbn [fst snd volume.cfg volume.err volume.CfgEnd volume.CfgSpacing volume.set_cfg].
  rewrite He. rewrite bool_decide_eq_false_2, orb_false_r by (by intros [? [=]]).
  destruct (Z.leb_spec (volume.CfgEnd s.1)
              (add64 (volume.cfg s.1) (add64 (volume.CfgSpacing s.1) 1))); [lia|].
  by rewrite ReadCfgNonCvg_eq, nth_overflow by (done || lia).
Qed.

Lemma volume_claim_panics_at_end_witness :
  volume.claim (sample.vol_started.1.1, []) = None.
Proof.
  apply volume_claim_panics_at_end.
  - vm_compute. discriminate.
  - cbn. lia.
  - vm_compute. reflexivity.
  - vm_compute. reflexivity.
Defined.

(** ** The rows of [disttwoatoms.Start] *)

Section disttwoatoms_start.
Import disttwoatoms.

Lemma dta_readCfgFirst_config d rd d' res rd' :
  readCfgFirst d rd = Ok ((d', res), rd') ->
  CfgStart d' = CfgStart d /\ CfgEnd d' = CfgEnd d.
Proof.
  unfold readCfgFirst, bind.
  destruct (repeatM 3 util.skip_line rd) as [[[] rd1]| |]; [|done..].
  destruct (util.atoi_line rd1) as [[n rd2]| |]; [|done..].
  destruct (repeatM 4 util.skip_line rd2) as [[[] rd3]| |]; [|done..].
  destruct (ReadSlice rd3) as [[b rd4]| |]; [|done..].
  destruct (length (Fields b) <=? 2)%nat; [done|].
  destruct (scan_cols _ _) as [c found].
  destruct (found <? 3)%nat; [done|].
  unfold wrap.
  destruct (fetchXYZ _ rd4) as [[r rd5]| |]; [|done..].
  by intros [= <- _ _].
Qed.

Lemma dta_frames_loop_rows d n : forall i rd w res w',
  0 <= CfgStart d -> 0 <= i -> CfgStart d + i + Z.of_nat n <= max_int ->
  steps_of w = seqZ (CfgStart d) i -> Z.of_nat (length w) = i ->
  frames_loop d n i rd w = (res, w') ->
  steps_of w' = seqZ (CfgStart d) (Z.of_nat (length w'))
  /\ Z.of_nat (length w') <= i + Z.of_nat n
  /\ (res = Ok tt -> Z.of_nat (length w') = i + Z.of_nat n)
  /\ (forall e, res = Err e ->
        exists e', e = WrapStep "readCfg" (Z.of_nat (length w')) e').
Proof.
  induction n as [|n IH]; intros i rd w res w' Hs Hi Hmax Hw Hlen Hloop.
  { cbn in Hloop. injection Hloop as <- <-. rewrite Hlen. repeat split; [done|lia|lia|done]. }
  cbn [frames_loop] in Hloop.
  destruct (readCfg d rd) as [[[xyz1 xyz2] rd1]|e|].
  - apply IH in Hloop; [|lia..| |].
    + destruct Hloop as (H1 & H2 & H3 & H4). repeat split; [done|lia| |done].
      intros Hok. rewrite (H3 Hok). lia.
    + unfold result, steps_of in *. rewrite map_app, Hw. cbn [map fst].
      rewrite (seqZ_app _ i 1) by lia. f_equal.
      rewrite seqZ_cons, seqZ_nil by lia. f_equal.
      unfold add64. rewrite wrap64_small by (unfold min_int, max_int in *; lia). lia.
    + unfold result. rewrite length_app. cbn. lia.
  - injection Hloop as <- <-. rewrite Hlen. repeat split; [done|lia|done|].
    intros e' [= <-]. by eexists.
  - injection Hloop as <- <-. rewrite Hlen. repeat split; [done|lia|done|done].
Qed.
End disttwoatoms_start.

(** X10: whatever the trajectory, the rows that [disttwoatoms.Start] has
    written when it returns carry the frame indices [CfgStart],
    [CfgStart + 1], ... without a gap and in this order, at most
    [CfgEnd - CfgStart] of them; when it returns no error all
    [CfgEnd - CfgStart] rows are written, and the step that the error of a
    later frame names is the number of rows written before it (an index
    counted from [CfgStart], not the index of the frame). *)
Theorem dta_Start_rows d rd res w :
  0 <= disttwoatoms.CfgStart d < disttwoatoms.CfgEnd d ->
  disttwoatoms.CfgEnd d <= max_int ->
  disttwoatoms.Start d rd = (res, w) ->
  disttwoatoms.steps_of w = seqZ (disttwoatoms.CfgStart d) (Z.of_nat (length w))
  /\ Z.of_nat (length w) <= disttwoatoms.CfgEnd d - disttwoatoms.CfgStart d
  /\ (res = Ok tt ->
      Z.of_nat (length w) = disttwoatoms.CfgEnd d - disttwoatoms.CfgStart d)
  /\ (forall e, res = Err e ->
        w = [] \/ exists e', e = WrapStep "readCfg" (Z.of_nat (length w)) e').
Proof.
  intros Hs Hmax. unfold disttwoatoms.Start.
  destruct (wrap "ReadCfgNonCvg" _ rd) as [[[] rd1]|e|].
  2,3: intros [= <- <-]; repeat split; [cbn; lia|done|by left].
  destruct (wrap "readCfgFirst" _ rd1) as [[[d' [xyz1 xyz2]] rd2]|e|] eqn:Hfirst.
  2,3: intros [= <- <-]; repeat split; [cbn; lia|done|by left].
  assert (Hcfg : disttwoatoms.CfgStart d' = disttwoatoms.CfgStart d
                 /\ disttwoatoms.CfgEnd d' = disttwoatoms.CfgEnd d).
  { unfold wrap in Hfirst.
    destruct (disttwoatoms.readCfgFirst d rd1) as [[[d1 r1] rd']| |] eqn:E; [|done..].
    injection Hfirst as -> _ _. by eapply dta_readCfgFirst_config. }
  destruct Hcfg as [Hs' He'].
  assert (Hn : Z.of_nat (times (sub64 (sub64 (disttwoatoms.CfgEnd d') (disttwoatoms.CfgStart d')) 1))
               = disttwoatoms.CfgEnd d - disttwoatoms.CfgStart d - 1).
  { rewrite Hs', He'. unfold sub64, times.
    rewrite !wrap64_small by (rewrite ?wrap64_small; unfold min_int, max_int in *; lia).
    lia. }
  intros Hloop.
  apply (dta_frames_loop_rows d') in Hloop.
  - rewrite Hn, Hs' in Hloop. destruct Hloop as (H1 & H2 & H3 & H4).
    repeat split; [done|lia| |].
    + intros Hok. rewrite (H3 Hok). lia.
    + intros e He. right. by apply H4.
  - lia.
  - lia.
  - rewrite Hn, Hs'. lia.
  - unfold disttwoatoms.result, disttwoatoms.steps_of. cbn [app map fst].
    rewrite seqZ_cons, seqZ_nil by lia. f_equal.
    unfold add64. rewrite wrap64_small by (unfold min_int, max_int in *; lia). lia.
  - done.
Qed.

Lemma dta_Start_rows_witness :
  disttwoatoms.steps_of (disttwoatoms.Start sample.dta sample.dumbbell).2 = [0].
Proof.
  destruct (dta_Start_rows sample.dta sample.dumbbell
              (disttwoatoms.Start sample.dta sample.dumbbell).1
              (disttwoatoms.Start sample.dta sample.dumbbell).2) as (H & _).
  - vm_compute. split; [discriminate|reflexivity].
  - vm_compute. discriminate.
  - vm_compute. reflexivity.
  - rewrite H. vm_compute. reflexivity.
Defined.

(** ** Lines consumed by the decoders *)

Lemma reads_ret {A} (a : A) : reads 0 (ret a).
Proof. by intros rd a' rd' [= _ <-]. Qed.

Lemma reads_fail {A} n e : reads n (fail (A:=A) e).
Proof. by intros rd a rd'. Qed.

Lemma reads_panic {A} n msg : reads n (panic (A:=A) msg).
Proof. by intros rd a rd'. Qed.

Lemma reads_ReadSlice : reads 1 ReadSlice.
Proof. intros rd a rd'. rewrite ReadSlice_eq. by intros [= _ <-]. Qed.

Lemma reads_bind {A B} n k (m : M Reader A) (f : A -> M Reader B) :
  reads n m -> (forall a, reads k (f a)) -> reads (n + k) (bind m f).
Proof.
  intros Hm Hf rd b rd'. unfold bind.
  destruct (m rd) as [[a rd1]| |] eqn:E; [|done..].
  intros Hb. apply Hm in E as ->. apply Hf in Hb as ->. by rewrite drop_drop.
Qed.

Lemma reads_wrap {A} n ctx (m : M Reader A) : reads n m -> reads n (wrap ctx m).
Proof.
  intros Hm rd a rd'. unfold wrap.
  destruct (m rd) as [[a1 rd1]| |] eqn:E; [|done..].
  intros [= <- <-]. by apply Hm in E.
Qed.

Lemma reads_index (fields : list string) i : reads 0 (index fields i).
Proof. unfold index. destruct (fields !! i); [apply reads_ret|apply reads_panic]. Qed.

Lemma reads_coords3 cols (fields : list string) : reads 0 (coords3 cols fields).
Proof.
  unfold coords3.
  apply (reads_bind 0 0); [apply reads_index|intros x].
  apply (reads_bind 0 0); [apply reads_index|intros y].
  apply (reads_bind 0 0); [apply reads_index|intros z].
  apply reads_ret.
Qed.

Lemma reads_skip n : reads n (repeatM n util.skip_line).
Proof. intros rd a rd'. rewrite skip_lines. by intros [= _ <-]. Qed.

Lemma reads_eq {A} n k (m : M Reader A) : n = k -> reads n m -> reads k m.
Proof. by intros ->. Qed.

Lemma reads_box_line : reads 1 (util.box_line ReadSlice).
Proof.
  unfold util.box_line. apply (reads_bind 1 0); [apply reads_ReadSlice|intros b].
  destruct (Fields b) as [|lo [|hi [|]]]; first [apply reads_fail|apply reads_ret].
Qed.

Lemma reads_HeaderBox : reads 3 (util.HeaderBox ReadSlice).
Proof.
  unfold util.HeaderBox.
  apply (reads_bind 1 2); [apply reads_box_line|intros bx].
  apply (reads_bind 1 1); [apply reads_box_line|intros by_].
  apply (reads_bind 1 0); [apply reads_box_line|intros bz].
  apply reads_ret.
Qed.

Lemma reads_repeat_line n : reads n (repeatM n (bind ReadSlice (fun _ => ret tt))).
Proof. apply reads_skip. Qed.

Lemma reads_HeaderWOutAtoms : reads 8 (util.HeaderWOutAtoms ReadSlice).
Proof.
  unfold util.HeaderWOutAtoms.
  apply (reads_bind 5 3); [apply reads_repeat_line|intros _]. apply reads_HeaderBox.
Qed.

Lemma reads_Header : reads 8 (util.Header ReadSlice).
Proof.
  unfold util.Header.
  apply (reads_bind 3 5); [apply reads_repeat_line|intros _].
  apply (reads_bind 1 4); [apply reads_ReadSlice|intros b].
  apply (reads_bind 1 3); [apply reads_ReadSlice|intros _].
  apply (reads_bind 3 0); [apply reads_HeaderBox|intros box].
  apply reads_ret.
Qed.

Lemma reads_gr_readXYZ g xyz : reads 1 (gr.readXYZ g xyz).
Proof.
  unfold gr.readXYZ. apply (reads_bind 1 0); [apply reads_ReadSlice|intros b].
  destruct (negb _); [apply reads_fail|].
  apply (reads_bind 0 0); [apply reads_index|intros typ].
  destruct (xyz !! typ); [|apply reads_ret].
  apply (reads_bind 0 0); [apply reads_coords3|intros v]. apply reads_ret.
Qed.

Lemma reads_gr_rows g n : forall xyz, reads n (gr.rows g n xyz).
Proof.
  induction n as [|n IH]; intros xyz; [apply reads_ret|].
  cbn [gr.rows]. apply (reads_bind 1 n); [apply reads_gr_readXYZ|intros [t xyz']].
  apply IH.
Qed.

Lemma reads_gr_rowsFirst g n : forall o xyz, reads n (gr.rowsFirst g n o xyz).
Proof.
  induction n as [|n IH]; intros o xyz; [apply reads_ret|].
  cbn [gr.rowsFirst]. apply (reads_bind 1 n); [apply reads_gr_readXYZ|intros [t xyz']].
  apply IH.
Qed.

Lemma reads_gr_fresh g : reads 0 (gr.fresh g).
Proof.
  unfold gr.fresh. destruct (gr.atomsTyp g); [apply reads_panic|].
  destruct (_ <? 0); [apply reads_panic|apply reads_ret].
Qed.

Lemma reads_gr_fetchXYZ g : reads (times (gr.atoms g)) (gr.fetchXYZ g).
Proof.
  unfold gr.fetchXYZ.
  apply (reads_bind 0 (times (gr.atoms g))); [apply reads_gr_fresh|intros xyz].
  apply reads_gr_rows.
Qed.

Lemma reads_gr_readCfg g : reads (9 + times (gr.atoms g)) (gr.readCfg g).
Proof.
  unfold gr.readCfg.
  apply (reads_bind 8 (1 + times (gr.atoms g)));
    [apply reads_wrap, reads_HeaderWOutAtoms|intros box].
  apply (reads_bind 1 (times (gr.atoms g))); [apply reads_ReadSlice|intros _].
  apply (reads_eq (times (gr.atoms g) + 0)); [lia|].
  apply reads_bind; [apply reads_wrap, reads_gr_fetchXYZ|intros xyz]. apply reads_ret.
Qed.

Lemma reads_volume_row v xyz : reads 1 (volume.row v xyz).
Proof.
  unfold volume.row. apply (reads_bind 1 0); [apply reads_ReadSlice|intros b].
  destruct (negb _); [apply reads_fail|].
  apply (reads_bind 0 0); [apply reads_index|intros typ].
  destruct (volume.Sigma v !! typ); [|apply reads_ret].
  apply (reads_bind 0 0); [apply reads_coords3|intros c]. apply reads_ret.
Qed.

Lemma reads_volume_rows v n : forall xyz, reads n (volume.rows v n xyz).
Proof.
  induction n as [|n IH]; intros xyz; [apply reads_ret|].
  cbn [volume.rows]. apply (reads_bind 1 n); [apply reads_volume_row|intros xyz'].
  apply IH.
Qed.

Lemma reads_volume_fetchXYZ v : reads (times (volume.atoms v)) (volume.fetchXYZ v).
Proof.
  unfold volume.fetchXYZ. destruct (bool_decide _); [apply reads_panic|].
  destruct (_ <? 0); [apply reads_panic|]. apply reads_volume_rows.
Qed.

Lemma reads_volume_readCfg v : reads (9 + times (volume.atoms v)) (volume.readCfg v).
Proof.
  unfold volume.readCfg.
  apply (reads_bind 8 (1 + times (volume.atoms v)));
    [apply reads_wrap, reads_HeaderWOutAtoms|intros box].
  apply (reads_bind 1 (times (volume.atoms v))); [apply reads_ReadSlice|intros _].
  apply (reads_eq (times (volume.atoms v) + 0)); [lia|].
  apply reads_bind; [apply reads_wrap, reads_volume_fetchXYZ|intros xyz]. apply reads_ret.
Qed.

Lemma reads_rg_row r : reads 1 (radiusgyration.row r).
Proof.
  unfold radiusgyration.row. apply (reads_bind 1 0); [apply reads_ReadSlice|intros b].
  destruct (negb _); [apply reads_fail|].
  apply (reads_bind 0 0); [apply reads_coords3|intros v].
  apply (reads_bind 0 0); [apply reads_index|intros typ]. apply reads_ret.
Qed.

Lemma reads_rg_rows r n : reads n (radiusgyration.rows r n).
Proof.
  induction n as [|n IH]; [apply reads_ret|].
  cbn [radiusgyration.rows].
  apply (reads_bind 1 n); [apply reads_rg_row|intros [v t]].
  apply (reads_eq (n + 0)); [lia|].
  apply reads_bind; [apply IH|intros [xyz types]]. apply reads_ret.
Qed.

Lemma reads_rg_fetchXYZ r :
  reads (times (radiusgyration.AtomStart r)
         + (times (sub64 (radiusgyration.AtomEnd r) (radiusgyration.AtomStart r))
            + times (sub64 (radiusgyration.atoms r) (radiusgyration.AtomEnd r))))
    (radiusgyration.fetchXYZ r).
Proof.
  unfold radiusgyration.fetchXYZ.
  apply reads_bind; [apply reads_skip|intros _].
  apply reads_bind; [apply reads_rg_rows|intros res].
  apply (reads_eq (times (sub64 (radiusgyration.atoms r) (radiusgyration.AtomEnd r)) + 0));
    [lia|].
  apply reads_bind; [apply reads_skip|intros _]. apply reads_ret.
Qed.

Lemma rg_rows_length r n : forall rd xyz types rd',
  radiusgyration.rows r n rd = Ok ((xyz, types), rd') ->
  length xyz = n /\ length types = n.
Proof.
  induction n as [|n IH]; intros rd xyz types rd'; cbn [radiusgyration.rows].
  { by intros [= <- <- _]. }
  unfold bind.
  destruct (radiusgyration.row r rd) as [[[v t] rd1]| |]; [|done..].
  destruct (radiusgyration.rows r n rd1) as [[[xyz1 types1] rd2]| |] eqn:E; [|done..].
  intros [= <- <- _]. apply IH in E as [E1 E2]. cbn. by rewrite E1, E2.
Qed.

Lemma rg_fetchXYZ_length r rd xyz types rd' :
  radiusgyration.fetchXYZ r rd = Ok ((xyz, types), rd') ->
  length xyz = times (sub64 (radiusgyration.AtomEnd r) (radiusgyration.AtomStart r))
  /\ length types = length xyz.
Proof.
  unfold radiusgyration.fetchXYZ, bind. rewrite skip_lines.
  destruct (radiusgyration.rows r _ _) as [[[xyz1 types1] rd1]| |] eqn:E; [|done..].
  rewrite skip_lines. intros [= <- <- _].
  apply rg_rows_length in E as [E1 E2]. by rewrite E1, E2.
Qed.

Lemma reads_dta_readXYZ d : reads 1 (disttwoatoms.readXYZ d).
Proof.
  unfold disttwoatoms.readXYZ. apply (reads_bind 1 0); [apply reads_ReadSlice|intros b].
  destruct (negb _); [apply reads_fail|apply reads_coords3].
Qed.

Lemma reads_dta_fetchXYZ d :
  reads (times (disttwoatoms.Atom1 d)
         + (1 + (times (sub64 (sub64 (disttwoatoms.Atom2 d) (disttwoatoms.Atom1 d)) 1)
                 + (1 + times (sub64 (sub64 (disttwoatoms.atoms d) (disttwoatoms.Atom2 d)) 1)))))
    (disttwoatoms.fetchXYZ d).
Proof.
  unfold disttwoatoms.fetchXYZ.
  apply reads_bind; [apply reads_skip|intros _].
  apply reads_bind; [apply reads_wrap, reads_dta_readXYZ|intros xyz1].
  apply reads_bind; [apply reads_skip|intros _].
  apply reads_bind; [apply reads_wrap, reads_dta_readXYZ|intros xyz2].
  apply (reads_eq (times (sub64 (sub64 (disttwoatoms.atoms d) (disttwoatoms.Atom2 d)) 1) + 0));
    [lia|].
  apply reads_bind; [apply reads_skip|intros _]. apply reads_ret.
Qed.

Lemma weigh_in_range masses xyz : forall types massTot com msg,
  length types = length xyz ->
  radiusgyration.weigh masses xyz types massTot com <> Panic msg.
Proof.
  induction xyz as [|v xyz IH]; intros types massTot com msg Hlen; [done|].
  destruct types as [|t types]; [done|]. cbn [radiusgyration.weigh].
  destruct (masses !! t); [|done]. apply IH. by injection Hlen.
Qed.

(** X11: a [readCfg] that returns no error has taken exactly one frame
    off the stream, the nine header lines and the atom rows: in [gr] and
    [volume] whenever the atom count is not negative, in [radiusgyration]
    when [0 <= AtomStart <= AtomEnd <= atoms] and in [disttwoatoms] when
    [0 <= Atom1 < Atom2 < atoms].  The next call starts on the next
    frame. *)
Theorem readCfg_takes_one_frame :
  (forall g rd res rd',
     0 <= gr.atoms g -> gr.readCfg g rd = Ok (res, rd') ->
     rd' = drop (Z.to_nat (9 + gr.atoms g)) rd)
  /\ (forall v rd res rd',
        0 <= volume.atoms v -> volume.readCfg v rd = Ok (res, rd') ->
        rd' = drop (Z.to_nat (9 + volume.atoms v)) rd)
  /\ (forall r rd res rd',
        0 <= radiusgyration.AtomStart r <= radiusgyration.AtomEnd r ->
        radiusgyration.AtomEnd r <= radiusgyration.atoms r <= max_int ->
        radiusgyration.readCfg r rd = Ok (res, rd') ->
        rd' = drop (Z.to_nat (9 + radiusgyration.atoms r)) rd)
  /\ (forall d rd res rd',
        0 <= disttwoatoms.Atom1 d < disttwoatoms.Atom2 d ->
        disttwoatoms.Atom2 d < disttwoatoms.atoms d <= max_int ->
        disttwoatoms.readCfg d rd = Ok (res, rd') ->
        rd' = drop (Z.to_nat (9 + disttwoatoms.atoms d)) rd).
Proof.
  split; [|split; [|split]].
  - intros g rd res rd' Ha H. apply reads_gr_readCfg in H as ->.
    f_equal. unfold times. lia.
  - intros v rd res rd' Ha H. apply reads_volume_readCfg in H as ->.
    f_equal. unfold times. lia.
  - intros r rd res rd' Hs He H. unfold radiusgyration.readCfg in H.
    apply (reads_bind 9 _ _ _ (reads_skip 9)
             (fun _ => reads_wrap _ _ _ (reads_rg_fetchXYZ r))) in H as ->.
    f_equal. unfold sub64, times.
    rewrite !wrap64_small by (unfold min_int, max_int in *; lia). lia.
  - intros d rd res rd' H1 H2 H. unfold disttwoatoms.readCfg in H.
    apply (reads_bind 9 _ _ _ (reads_skip 9)
             (fun _ => reads_wrap _ _ _ (reads_dta_fetchXYZ d))) in H as ->.
    f_equal. unfold sub64, times.
    rewrite !wrap64_small by (rewrite ?wrap64_small; unfold min_int, max_int in *; lia). lia.
Qed.

Lemma readCfg_takes_one_frame_witness :
  exists res,
    gr.readCfg sample.started.1 (drop 12 sample.breathing)
    = Ok (res, drop 12 (drop 12 sample.breathing)).
Proof.
  destruct (gr.readCfg sample.started.1 (drop 12 sample.breathing))
    as [[res rd']| |] eqn:E; [|vm_compute in E; discriminate..].
  exists res. f_equal. f_equal.
  apply (proj1 readCfg_takes_one_frame sample.started.1 (drop 12 sample.breathing) res rd').
  - vm_compute. discriminate.
  - exact E.
Defined.

(** X12: the rows that [readCfg] of [radiusgyration] returns: the
    coordinates and the types are two lists of the same length
    [AtomEnd - AtomStart], so that [calc] never reads [types] out of
    range; and an [AtomEnd] above the atom count is not rejected: the
    decoder then takes [9 + AtomEnd] lines, rows of the next frame
    included. *)
Theorem rg_selected_rows r rd xyz types rd' :
  0 <= radiusgyration.AtomStart r <= radiusgyration.AtomEnd r ->
  radiusgyration.AtomEnd r <= max_int ->
  radiusgyration.readCfg r rd = Ok ((xyz, types), rd') ->
  Z.of_nat (length xyz) = radiusgyration.AtomEnd r - radiusgyration.AtomStart r
  /\ length types = length xyz
  /\ (forall cfg w msg, radiusgyration.calc r cfg xyz types w <> Panic msg)
  /\ (0 <= radiusgyration.atoms r <= radiusgyration.AtomEnd r ->
      rd' = drop (Z.to_nat (9 + radiusgyration.AtomEnd r)) rd).
Proof.
  intros Hs He H.
  assert (Hlen : length xyz
                 = times (sub64 (radiusgyration.AtomEnd r) (radiusgyration.AtomStart r))
                 /\ length types = length xyz).
  { unfold radiusgyration.readCfg, bind in H. rewrite skip_lines in H. unfold wrap in H.
    destruct (radiusgyration.fetchXYZ r _) as [[[xyz1 types1] rd1]| |] eqn:E; [|done..].
    injection H as <- <- _. by apply rg_fetchXYZ_length in E. }
  destruct Hlen as [Hx Ht].
  split; [|split; [done|split]].
  - rewrite Hx. unfold sub64, times.
    rewrite wrap64_small by (unfold min_int, max_int in *; lia). lia.
  - intros cfg w msg. unfold radiusgyration.calc.
    pose proof (weigh_in_range (radiusgyration.Masses r) xyz types 0 [0; 0; 0]%float) as Hw.
    destruct (radiusgyration.weigh _ _ _ _ _) as [[m c]|e|msg']; [done..|].
    by destruct (Hw msg' Ht).
  - intros Ha. unfold radiusgyration.readCfg in H.
    apply (reads_bind 9 _ _ _ (reads_skip 9)
             (fun _ => reads_wrap _ _ _ (reads_rg_fetchXYZ r))) in H as ->.
    f_equal. unfold sub64, times.
    rewrite !wrap64_small by (unfold min_int, max_int in *; lia). lia.
Qed.

Lemma rg_selected_rows_witness :
  exists xyz types rd',
    radiusgyration.readCfg sample.rg_second sample.dumbbell = Ok ((xyz, types), rd')
    /\ length types = length xyz.
Proof.
  destruct (radiusgyration.readCfg sample.rg_second sample.dumbbell)
    as [[[xyz types] rd']| |] eqn:E; [|vm_compute in E; discriminate..].
  exists xyz, types, rd'. split; [done|].
  apply (rg_selected_rows sample.rg_second sample.dumbbell xyz types rd').
  - vm_compute. split; discriminate.
  - vm_compute. discriminate.
  - exact E.
Defined.

(** ** The box bounds *)

Lemma box_line_eq rd :
  util.box_line ReadSlice rd =
  if (length (Fields (nth 0 rd "")) =? 2)%nat
  then Ok (bound_length rd 0, drop 1 rd)
  else Err ErrBoxSize.
Proof.
  unfold util.box_line, bound_length. rewrite bind_ReadSlice.
  by destruct (Fields (nth 0 rd "")) as [|lo [|hi [|]]].
Qed.

(** X13: [HeaderBox] takes three lines.  When each of them splits into
    exactly two fields it returns, per axis, the second field less the
    first, both read with [ParseFloat] whose error is dropped (a bound
    that is no number counts as 0); when one of them has another number
    of fields, as a line of a tilted box or the end of the input, it
    returns the error on the size of the box. *)
Theorem HeaderBox_bounds rd :
  (Forall (fun k => length (Fields (nth k rd "")) = 2%nat) [0; 1; 2]%nat ->
   util.HeaderBox ReadSlice rd
   = Ok ([bound_length rd 0; bound_length rd 1; bound_length rd 2], drop 3 rd))
  /\ (Exists (fun k => length (Fields (nth k rd "")) <> 2%nat) [0; 1; 2]%nat ->
      util.HeaderBox ReadSlice rd = Err ErrBoxSize).
Proof.
  unfold util.HeaderBox, bind. rewrite box_line_eq.
  destruct (Nat.eqb_spec (length (Fields (nth 0 rd ""))) 2) as [H0|H0].
  - rewrite box_line_eq, nth_drop. cbn [Nat.add].
    destruct (Nat.eqb_spec (length (Fields (nth 1 rd ""))) 2) as [H1|H1].
    + rewrite drop_drop, box_line_eq, nth_drop. cbn [Nat.add].
      destruct (Nat.eqb_spec (length (Fields (nth 2 rd ""))) 2) as [H2|H2].
      * split; [intros _|intros He].
        -- unfold ret, bound_length. by rewrite !nth_drop, !drop_drop.
        -- repeat (apply Exists_cons in He as [He|He]; [done|]).
           by apply Exists_nil in He.
      * split; [intros Ha|done].
        by inversion Ha as [|? ? _ Hb]; inversion Hb as [|? ? _ Hc]; inversion Hc.
    + split; [intros Ha|done].
      by inversion Ha as [|? ? _ Hb]; inversion Hb.
  - split; [intros Ha|done]. by inversion Ha.
Qed.

Lemma HeaderBox_bounds_witness :
  util.HeaderBox ReadSlice (sample.file sample.cube10)
  = Ok ([10; 10; 10]%float, [])
  /\ util.HeaderBox ReadSlice (sample.file ["0 10 0"; "0 10"; "0 10"]) = Err ErrBoxSize.
Proof.
  split.
  - rewrite (proj1 (HeaderBox_bounds (sample.file sample.cube10))).
    + vm_compute. reflexivity.
    + repeat constructor.
  - apply (proj2 (HeaderBox_bounds (sample.file ["0 10 0"; "0 10"; "0 10"]))).
    apply Exists_cons_hd. vm_compute. discriminate.
Defined.

(** ** The column search *)

Lemma index_of_Some v names j :
  index_of v names = Some j ->
  names !! j = Some v /\ forall j', (j' < j)%nat -> names !! j' <> Some v.
Proof.
  revert j. induction names as [|n names IH]; intros j; [done|]. cbn [index_of].
  destruct (String.eqb_spec v n) as [->|Hne].
  - intros [= <-]. split; [done|]. lia.
  - destruct (index_of v names) as [i|]; [|done]. cbn. intros [= <-].
    destruct (IH i eq_refl) as [H1 H2]. split; [done|].
    intros [|j'] Hj; cbn; [congruence|]. apply H2. lia.
Qed.

Lemma index_of_None v names : index_of v names = None <-> v ∉ names.
Proof.
  induction names as [|n names IH]; cbn [index_of].
  - split; [intros _; apply not_elem_of_nil|done].
  - destruct (String.eqb_spec v n) as [->|Hne].
    + split; [done|]. intros H. destruct H. by left.
    + destruct (index_of v names) as [i|]; cbn.
      * split; [done|]. intros H. exfalso. apply H. right.
        destruct (decide (v ∈ names)) as [|Hn]; [done|]. by apply IH in Hn.
      * split; [|done]. intros _ [|]%elem_of_cons; [done|]. by apply IH.
Qed.

(** One pass of the loop of [scan_cols]. *)
Lemma scan_cols_snoc names fields v :
  scan_cols names (fields ++ [v]) =
  match index_of v names with
  | Some j => (<[j := length fields]> (scan_cols names fields).1,
               Datatypes.S (scan_cols names fields).2)
  | None => scan_cols names fields
  end.
Proof.
  unfold scan_cols. rewrite imap_app, fold_left_app. cbn [imap fold_left fst snd].
  rewrite Nat.add_0_r. by destruct (index_of v names).
Qed.

Lemma scan_cols_length names fields : length (scan_cols names fields).1 = length names.
Proof.
  induction fields as [|v fields IH] using rev_ind.
  - cbn. by rewrite length_replicate.
  - rewrite scan_cols_snoc. destruct (index_of v names); [|done].
    cbn. by rewrite length_insert.
Qed.

Lemma scan_cols_found names fields :
  (scan_cols names fields).2
  = length (filter (fun v => v ∈ names) fields).
Proof.
  induction fields as [|v fields IH] using rev_ind; [done|].
  rewrite scan_cols_snoc, filter_app, length_app, <- IH.
  destruct (index_of v names) as [j|] eqn:E.
  - apply index_of_Some in E as [E _]. apply list_elem_of_lookup_2 in E.
    rewrite filter_cons_True by done. cbn. lia.
  - apply index_of_None in E. rewrite filter_cons_False by done. cbn. lia.
Qed.

Lemma scan_cols_last names fields j name :
  NoDup names -> names !! j = Some name ->
  (name ∉ fields -> (scan_cols names fields).1 !! j = Some 0%nat)
  /\ (name ∈ fields ->
      exists k, (scan_cols names fields).1 !! j = Some k
                /\ fields !! k = Some name
                /\ forall k', (k < k')%nat -> fields !! k' <> Some name).
Proof.
  intros Hnd Hj. induction fields as [|v fields IH] using rev_ind.
  - split; [|by intros ?%elem_of_nil]. intros _. cbn.
    apply lookup_replicate_2. by apply lookup_lt_Some in Hj.
  - rewrite scan_cols_snoc. destruct IH as [IH0 IH1].
    destruct (index_of v names) as [i|] eqn:E.
    + apply index_of_Some in E as [E _]. cbn [fst].
      destruct (decide (i = j)) as [->|Hij].
      * assert (v = name) as -> by congruence.
        split; [intros H; destruct H; apply elem_of_app; right; by left|].
        intros _. exists (length fields).
        rewrite list_lookup_insert_eq by (rewrite scan_cols_length; by apply lookup_lt_Some in Hj).
        split; [done|]. split; [by rewrite lookup_app_r, Nat.sub_diag|].
        intros k' Hk. rewrite lookup_ge_None_2; [done|]. rewrite length_app. cbn. lia.
      * assert (Hv : v <> name).
        { intros ->. apply Hij. by eapply NoDup_lookup. }
        rewrite list_lookup_insert_ne by done.
        split.
        -- intros Hn. apply IH0. intros H. apply Hn, elem_of_app. by left.
        -- intros [H|H]%elem_of_app; [|apply list_elem_of_singleton in H; congruence].
           destruct (IH1 H) as (k & Hk1 & Hk2 & Hk3). exists k.
           split; [done|]. split; [by apply lookup_app_l_Some|].
           intros k' Hk'. destruct (decide (k' < length fields)%nat).
           ++ rewrite lookup_app_l by done. by apply Hk3.
           ++ destruct (decide (k' = length fields)) as [->|].
              ** rewrite lookup_app_r, Nat.sub_diag by done. cbn. congruence.
              ** rewrite lookup_ge_None_2; [done|]. rewrite length_app. cbn. lia.
    + apply index_of_None in E.
      assert (Hv : v <> name).
      { intros ->. apply E. by eapply list_elem_of_lookup_2. }
      split.
      * intros Hn. apply IH0. intros H. apply Hn, elem_of_app. by left.
      * intros [H|H]%elem_of_app; [|apply list_elem_of_singleton in H; congruence].
        destruct (IH1 H) as (k & Hk1 & Hk2 & Hk3). exists k.
        split; [done|]. split; [by apply lookup_app_l_Some|].
        intros k' Hk'. destruct (decide (k' < length fields)%nat).
        -- rewrite lookup_app_l by done. by apply Hk3.
        -- destruct (decide (k' = length fields)) as [->|].
           ++ rewrite lookup_app_r, Nat.sub_diag by done. cbn. congruence.
           ++ rewrite lookup_ge_None_2; [done|]. rewrite length_app. cbn. lia.
Qed.

(** X14: the column search of every [readCfgFirst].  [found] is the
    number of fields that are one of the names looked for, a name that
    comes twice counted twice, so that the test [found < len(cols)]
    accepts a header that repeats one column and leaves another out; the
    index kept for a name is that of the last field with this name, and 0
    when no field has it. *)
Theorem scan_cols_counts_fields names fields :
  NoDup names ->
  (scan_cols names fields).2 = length (filter (fun v => v ∈ names) fields)
  /\ length (scan_cols names fields).1 = length names
  /\ forall j name, names !! j = Some name ->
       (name ∉ fields -> (scan_cols names fields).1 !! j = Some 0%nat)
       /\ (name ∈ fields ->
           exists k, (scan_cols names fields).1 !! j = Some k
                     /\ fields !! k = Some name
                     /\ forall k', (k < k')%nat -> fields !! k' <> Some name).
Proof.
  intros Hnd. split; [apply scan_cols_found|]. split; [apply scan_cols_length|].
  intros j name Hj. by apply scan_cols_last.
Qed.

Lemma scan_cols_counts_fields_witness :
  (scan_cols ["x"; "y"; "z"; "type"] ["id"; "x"; "x"; "y"; "type"]).2 = 4%nat
  /\ (scan_cols ["x"; "y"; "z"; "type"] ["id"; "x"; "x"; "y"; "type"]).1 !! 2%nat
     = Some 0%nat.
Proof.
  assert (Hnd : NoDup ["x"; "y"; "z"; "type"]).
  { apply (bool_decide_unpack _). vm_compute. exact I. }
  destruct (scan_cols_counts_fields ["x"; "y"; "z"; "type"]
              ["id"; "x"; "x"; "y"; "type"] Hnd) as (Hf & _ & Hc).
  split.
  - rewrite Hf. vm_compute. reflexivity.
  - apply (Hc 2%nat "z"); [reflexivity|].
    apply (bool_decide_unpack _). vm_compute. exact I.
Defined.

(** ** Rows grouped by type *)

Lemma index_inv {S} (fields : list string) i (s : S) v s' :
  index fields i s = Ok (v, s') -> v = nth i fields "" /\ s' = s /\ fields <> [].
Proof.
  unfold index. destruct (fields !! i) as [x|] eqn:E; [|done].
  intros [= <- <-]. split; [by rewrite (nth_lookup_Some _ _ _ _ E)|].
  split; [done|]. by destruct fields.
Qed.

Lemma coords3_inv {S} cols (row : string) (s : S) v s' :
  coords3 cols (Fields row) s = Ok (v, s') -> v = coords_of cols row /\ s' = s.
Proof.
  unfold coords3, bind.
  destruct (index _ _ s) as [[x s1]| |] eqn:Ex; [|done..].
  destruct (index _ _ s1) as [[y s2]| |] eqn:Ey; [|done..].
  destruct (index _ _ s2) as [[z s3]| |] eqn:Ez; [|done..].
  apply index_inv in Ex as (-> & -> & _), Ey as (-> & -> & _), Ez as (-> & -> & _).
  by intros [= <- <-].
Qed.

Lemma Fields_nonempty_row rd : Fields (nth 0 rd "") <> [] -> rd = nth 0 rd "" :: drop 1 rd.
Proof. by destruct rd as [|b rd]. Qed.

Lemma rows_of_type_cons cols b read typ :
  rows_of_type cols (b :: read) typ
  = (if decide (type_of cols b = typ) then [coords_of cols b] else [])
    ++ rows_of_type cols read typ.
Proof.
  unfold rows_of_type. destruct (decide (type_of cols b = typ)) as [H|H].
  - by rewrite filter_cons_True.
  - by rewrite filter_cons_False.
Qed.

Lemma gr_readXYZ_inv g xyz rd typ xyz' rd' :
  gr.readXYZ g xyz rd = Ok ((typ, xyz'), rd') ->
  rd = nth 0 rd "" :: rd' /\ typ = type_of (gr.cols g) (nth 0 rd "")
  /\ xyz' = match xyz !! typ with
            | Some l => <[typ := l ++ [coords_of (gr.cols g) (nth 0 rd "")]]> xyz
            | None => xyz
            end.
Proof.
  unfold gr.readXYZ. rewrite bind_ReadSlice.
  destruct (negb _); [done|]. unfold bind.
  destruct (index _ _ _) as [[t s1]| |] eqn:Et; [|done..].
  apply index_inv in Et as (-> & -> & Hne).
  fold (type_of (gr.cols g) (nth 0 rd "")).
  destruct (xyz !! type_of (gr.cols g) (nth 0 rd "")) as [l|] eqn:El.
  - destruct (coords3 _ _ _) as [[v s2]| |] eqn:Ev; [|done..].
    apply coords3_inv in Ev as [-> ->]. intros [= <- <- <-].
    rewrite El. split; [by apply Fields_nonempty_row|done].
  - intros [= <- <- <-]. rewrite El. split; [by apply Fields_nonempty_row|done].
Qed.

Lemma gr_rows_inv g n : forall xyz rd xyz' rd',
  gr.rows g n xyz rd = Ok (xyz', rd') ->
  exists read, rd = read ++ rd' /\ length read = n
    /\ forall typ, xyz' !! typ
                   = (fun l => l ++ rows_of_type (gr.cols g) read typ) <$> xyz !! typ.
Proof.
  induction n as [|n IH]; intros xyz rd xyz' rd'; cbn [gr.rows].
  { intros [= <- <-]. exists []. split; [done|]. split; [done|].
    intros typ. destruct (xyz !! typ); cbn; [|done]. by rewrite app_nil_r. }
  unfold bind. destruct (gr.readXYZ g xyz rd) as [[[t xyz1] rd1]| |] eqn:E; [|done..].
  intros Hrest. apply gr_readXYZ_inv in E as (Hrd & -> & ->).
  apply IH in Hrest as (read & -> & <- & Hx).
  exists (nth 0 rd "" :: read). split; [done|]. split; [done|].
  intros typ. rewrite Hx, rows_of_type_cons.
  destruct (xyz !! type_of (gr.cols g) (nth 0 rd "")) as [l|] eqn:El.
  - destruct (decide (type_of (gr.cols g) (nth 0 rd "") = typ)) as [<-|Hne].
    + rewrite lookup_insert_eq, El. cbn. by rewrite <- app_assoc.
    + by rewrite lookup_insert_ne.
  - destruct (decide (type_of (gr.cols g) (nth 0 rd "") = typ)) as [<-|Hne]; [|done].
    by rewrite El.
Qed.

Lemma fresh_lookup (l : list string) : forall (m : XYZ) typ,
  fold_left (fun (m : XYZ) v => <[v := []]> m) l m !! typ
  = if bool_decide (typ ∈ l) then Some [] else m !! typ.
Proof.
  induction l as [|v l IH]; intros m typ; [done|]. cbn [fold_left]. rewrite IH.
  destruct (decide (typ ∈ l)) as [Hin|Hn].
  - rewrite !bool_decide_eq_true_2; [done| |done]. by right.
  - rewrite (bool_decide_eq_false_2 _ Hn).
    destruct (decide (typ = v)) as [->|Hne].
    + rewrite lookup_insert_eq, bool_decide_eq_true_2; [done|]. by left.
    + rewrite lookup_insert_ne by done. rewrite bool_decide_eq_false_2; [done|].
      by intros [|]%elem_of_cons.
Qed.

Lemma volume_row_inv v xyz rd xyz' rd' :
  volume.row v xyz rd = Ok (xyz', rd') ->
  rd = nth 0 rd "" :: rd'
  /\ xyz' = match volume.Sigma v !! type_of (volume.cols v) (nth 0 rd "") with
            | Some _ =>
                <[type_of (volume.cols v) (nth 0 rd "")
                  := rows_of xyz (type_of (volume.cols v) (nth 0 rd ""))
                     ++ [coords_of (volume.cols v) (nth 0 rd "")]]> xyz
            | None => xyz
            end.
Proof.
  unfold volume.row. rewrite bind_ReadSlice.
  destruct (negb _); [done|]. unfold bind.
  destruct (index _ _ _) as [[t s1]| |] eqn:Et; [|done..].
  apply index_inv in Et as (-> & -> & Hne).
  fold (type_of (volume.cols v) (nth 0 rd "")).
  destruct (volume.Sigma v !! type_of (volume.cols v) (nth 0 rd "")) as [sg|] eqn:El.
  - destruct (coords3 _ _ _) as [[c s2]| |] eqn:Ev; [|done..].
    apply coords3_inv in Ev as [-> ->]. intros [= <- <-].
    split; [by apply Fields_nonempty_row|done].
  - intros [= <- <-]. split; [by apply Fields_nonempty_row|done].
Qed.

Lemma volume_rows_inv v n : forall xyz rd xyz' rd',
  (forall typ, is_Some (xyz !! typ) <-> is_Some (volume.Sigma v !! typ)) ->
  volume.rows v n xyz rd = Ok (xyz', rd') ->
  exists read, rd = read ++ rd' /\ length read = n
    /\ forall typ, xyz' !! typ
                   = (fun l => l ++ rows_of_type (volume.cols v) read typ) <$> xyz !! typ.
Proof.
  induction n as [|n IH]; intros xyz rd xyz' rd' Hdom; cbn [volume.rows].
  { intros [= <- <-]. exists []. split; [done|]. split; [done|].
    intros typ. destruct (xyz !! typ); cbn; [|done]. by rewrite app_nil_r. }
  unfold bind. destruct (volume.row v xyz rd) as [[xyz1 rd1]| |] eqn:E; [|done..].
  intros Hrest. apply volume_row_inv in E as (Hrd & ->).
  set (t := type_of (volume.cols v) (nth 0 rd "")) in *.
  assert (Hdom1 : forall typ,
    is_Some (match volume.Sigma v !! t with
             | Some _ => <[t := rows_of xyz t ++ [coords_of (volume.cols v) (nth 0 rd "")]]> xyz
             | None => xyz
             end !! typ) <-> is_Some (volume.Sigma v !! typ)).
  { intros typ. destruct (volume.Sigma v !! t) as [sg|] eqn:Es; [|apply Hdom].
    destruct (decide (t = typ)) as [<-|Hne].
    - rewrite lookup_insert_eq, Es. by split.
    - rewrite lookup_insert_ne by done. apply Hdom. }
  apply (IH _ _ _ _ Hdom1) in Hrest as (read & -> & <- & Hx).
  exists (nth 0 rd "" :: read). split; [done|]. split; [done|].
  intros typ. rewrite Hx, rows_of_type_cons. fold t.
  destruct (volume.Sigma v !! t) as [sg|] eqn:Es.
  - destruct (decide (t = typ)) as [<-|Hne].
    + rewrite lookup_insert_eq. unfold rows_of.
      destruct (proj2 (Hdom t) (mk_is_Some _ _ Es)) as [l ->]. cbn. by rewrite <- app_assoc.
    + by rewrite lookup_insert_ne.
  - destruct (decide (t = typ)) as [<-|Hne]; [|done].
    destruct (xyz !! t) eqn:Ex; [|done].
    destruct (proj1 (Hdom t) (mk_is_Some _ _ Ex)) as [? ?]. congruence.
Qed.

(** X15: what [fetchXYZ] of [gr] and of [volume] returns when it returns
    no error.  It has taken [atoms] rows off the stream, all present in
    the input, and the map holds exactly the types of interest
    ([atomsTyp], the keys of [Sigma]), each with the coordinates of the
    rows of this type in the order of the file, read from the columns
    found in the header; rows of other types are dropped. *)
Theorem fetchXYZ_groups_rows_by_type :
  (forall g rd xyz rd',
     gr.fetchXYZ g rd = Ok (xyz, rd') ->
     exists read, rd = read ++ rd' /\ length read = times (gr.atoms g)
       /\ forall typ, xyz !! typ
                      = if bool_decide (typ ∈ gr.atomsTyp g)
                        then Some (rows_of_type (gr.cols g) read typ) else None)
  /\ (forall v rd xyz rd',
        volume.fetchXYZ v rd = Ok (xyz, rd') ->
        exists read, rd = read ++ rd' /\ length read = times (volume.atoms v)
          /\ forall typ, xyz !! typ
                         = if bool_decide (is_Some (volume.Sigma v !! typ))
                           then Some (rows_of_type (volume.cols v) read typ) else None).
Proof.
  split.
  - intros g rd xyz rd'. unfold gr.fetchXYZ, gr.fresh, bind.
    destruct (gr.atomsTyp g) as [|t l] eqn:Et; [done|].
    destruct (_ <? 0); [done|]. unfold ret.
    intros H. apply gr_rows_inv in H as (read & -> & Hlen & Hx).
    exists read. split; [done|]. split; [done|].
    intros typ. rewrite Hx, fresh_lookup.
    destruct (bool_decide (typ ∈ t :: l)); [done|]. by rewrite lookup_empty.
  - intros v rd xyz rd'. unfold volume.fetchXYZ.
    destruct (bool_decide (volume.Sigma v = ∅)); [done|].
    destruct (_ <? 0); [done|].
    intros H. apply volume_rows_inv in H as (read & -> & Hlen & Hx).
    + exists read. split; [done|]. split; [done|].
      intros typ. rewrite Hx, lookup_fmap.
      case_bool_decide as Hd.
      * by destruct Hd as [sg ->].
      * destruct (volume.Sigma v !! typ) as [sg|]; [|done]. by destruct Hd.
    + intros typ. rewrite lookup_fmap. by rewrite fmap_is_Some.
Qed.

Lemma fetchXYZ_groups_rows_by_type_witness :
  exists xyz rd',
    gr.fetchXYZ sample.rdf_two (sample.file ["1 1 0 0 0"; "2 2 10 0 0"]) = Ok (xyz, rd')
    /\ xyz !! "2" = Some [[10; 0; 0]%float].
Proof.
  destruct (gr.fetchXYZ sample.rdf_two (sample.file ["1 1 0 0 0"; "2 2 10 0 0"]))
    as [[xyz rd']| |] eqn:E; [|vm_compute in E; discriminate..].
  exists xyz, rd'. split; [done|].
  destruct (proj1 fetchXYZ_groups_rows_by_type _ _ _ _ E) as (read & Hrd & Hlen & Hx).
  rewrite Hx.
  assert (Hrd' : rd' = []) by (vm_compute in E; congruence).
  subst rd'. rewrite app_nil_r in Hrd. subst read.
  vm_compute. reflexivity.
Defined.

(** ** The types of interest of [gr] *)

Lemma types_of_inner (l : list string) : forall typ x,
  x ∈ fold_left (fun typ at2 => if bool_decide (at2 ∈ typ) then typ else typ ++ [at2]) l typ
  <-> x ∈ typ \/ x ∈ l.
Proof.
  induction l as [|a l IH]; intros typ x; cbn [fold_left].
  - split; [by left|]. by intros [|?%elem_of_nil].
  - rewrite IH. case_bool_decide as Ha.
    + split; [intros [|]; [by left|right; by right]|].
      intros [? | [-> | ?]%elem_of_cons]; [by left|by left|by right].
    + rewrite elem_of_app, list_elem_of_singleton.
      split; [intros [[? | ->] | ?]; [by left|right; by left|right; by right]|].
      intros [? | [-> | ?]%elem_of_cons]; [left; by left|left; by right|by right].
Qed.

Lemma types_of_outer (l : list (string * list string)) : forall typ x,
  x ∈ fold_left
        (fun typ (e : string * list string) =>
           fold_left (fun typ at2 => if bool_decide (at2 ∈ typ) then typ else typ ++ [at2])
             e.2 (typ ++ [e.1]))
        l typ
  <-> x ∈ typ \/ exists e, e ∈ l /\ (x = e.1 \/ x ∈ e.2).
Proof.
  induction l as [|e l IH]; intros typ x; cbn [fold_left].
  - split; [by left|]. intros [|(e & ?%elem_of_nil & _)]; done.
  - rewrite IH, types_of_inner, elem_of_app, list_elem_of_singleton. split.
    + intros [[[? | ->] | ?]|(e' & He' & H)].
      * by left.
      * right. exists e. split; [by left|by left].
      * right. exists e. split; [by left|by right].
      * right. exists e'. split; [by right|done].
    + intros [? | (e' & [-> | He']%elem_of_cons & H)].
      * left. left. by left.
      * destruct H as [->|H]; [left; left; by right|left; by right].
      * right. by exists e'.
Qed.

(** X16: the list [atomsTyp] that [gr.New] builds holds exactly the types
    that [Atoms] names, the keys and the types paired with a key: the
    frames are decoded for these types and for no other. *)
Theorem gr_New_types start stop pairs rmax dr g :
  gr.New start stop pairs rmax dr = Ok g ->
  forall x, x ∈ gr.atomsTyp g
            <-> is_Some (pairs !! x) \/ exists at1 l, pairs !! at1 = Some l /\ x ∈ l.
Proof.
  unfold gr.New. destruct (stop <=? start); [done|].
  destruct (_ <=? 1); [done|]. intros [= <-] x. cbn [gr.atomsTyp].
  unfold gr.types_of. rewrite types_of_outer. split.
  - intros [?%elem_of_nil|([k l] & He & H)]; [done|].
    apply elem_of_map_to_list in He. cbn in H. destruct H as [->|H].
    + left. by exists l.
    + right. by exists k, l.
  - intros [[l Hl]|(k & l & Hk & Hx)]; right.
    + exists (x, l). split; [by apply elem_of_map_to_list|by left].
    + exists (k, l). split; [by apply elem_of_map_to_list|by right].
Qed.

Lemma gr_New_types_witness : "2" ∈ gr.atomsTyp sample.rdf.
Proof.
  apply (gr_New_types 0 1 {[ "1" := ["2"] ]} 10 1 sample.rdf).
  - vm_compute. reflexivity.
  - right. exists "1", ["2"]. split; [reflexivity|]. by left.
Defined.

(** ** The cells around an atom *)

(** X17: the cells that [volume.calc] marks along an axis around an atom
    in cell [bloc], [blocs] cells to each side, are [2 blocs + 1] cells;
    when the atom is inside the box ([0 <= bloc < boxBlocs]) and the
    neighbourhood is not wider than the box ([blocs <= boxBlocs]) they
    all lie in the box, cells beyond a face being folded to the opposite
    face. *)
Theorem span_in_box boxBlocs bloc blocs :
  0 <= bloc < boxBlocs -> 0 <= blocs <= boxBlocs -> boxBlocs <= 2 ^ 61 ->
  length (volume.span boxBlocs bloc blocs) = Z.to_nat (2 * blocs + 1)
  /\ Forall (fun x => 0 <= x < boxBlocs) (volume.span boxBlocs bloc blocs).
Proof.
  intros Hb Hk Hmax. unfold volume.span, sub64, add64.
  rewrite !(wrap64_small (bloc - blocs)), !(wrap64_small (bloc + blocs))
    by (unfold min_int, max_int; lia).
  split.
  - rewrite length_map, length_seqZ. f_equal. lia.
  - apply Forall_map, Forall_seqZ. intros x Hx. cbn.
    destruct (Z.ltb_spec x 0).
    + rewrite wrap64_small by (unfold min_int, max_int; lia). lia.
    + destruct (Z.leb_spec boxBlocs x); [|lia].
      rewrite wrap64_small by (unfold min_int, max_int; lia). lia.
Qed.

Lemma span_in_box_witness : Forall (fun x => 0 <= x < 10) (volume.span 10 0 2).
Proof. apply (span_in_box 10 0 2); lia. Defined.

(** ** [util.Pow] *)

Lemma Pow_go_snoc x n : forall res, Pow_go x res (Datatypes.S n) = (Pow_go x res n * x)%float.
Proof. induction n as [|n IH]; intros res; [done|]. cbn [Pow_go] in *. by rewrite IH. Qed.

(** X18: [util.Pow] multiplies [n - 1] times: [Pow x (n + 1)] is
    [Pow x n * x] for an [int] [n >= 1] below the largest, and for every
    [n <= 1] above the smallest [int], zero and the negative exponents
    included, [Pow x n] is [x] itself, not 1 or an inverse.  At the
    smallest [int] the subtraction [n - 1] wraps to the largest, and the
    loop multiplies once more than for the largest exponent. *)
Theorem Pow_steps x n :
  (min_int < n <= 1 -> Pow x n = x)
  /\ (1 <= n < max_int -> Pow x (add64 n 1) = (Pow x n * x)%float)
  /\ Pow x min_int = (Pow x max_int * x)%float.
Proof.
  unfold Pow, times. split; [|split].
  - intros Hn. unfold sub64.
    rewrite wrap64_small by (unfold min_int, max_int in *; lia).
    by replace (Z.to_nat (n - 1)) with 0%nat by lia.
  - intros Hn. unfold add64, sub64.
    rewrite !wrap64_small by (rewrite ?wrap64_small; unfold min_int, max_int in *; lia).
    replace (Z.to_nat (n + 1 - 1)) with (Datatypes.S (Z.to_nat (n - 1))) by lia.
    apply Pow_go_snoc.
  - replace (sub64 min_int 1) with max_int by reflexivity.
    replace (sub64 max_int 1) with (max_int - 1) by reflexivity.
    replace (Z.to_nat max_int) with (Datatypes.S (Z.to_nat (max_int - 1)))
      by (unfold max_int; lia).
    apply Pow_go_snoc.
Qed.

Lemma Pow_steps_witness :
  Pow 2 0 = 2%float /\ Pow 2 (add64 2 1) = (Pow 2 2 * 2)%float.
Proof.
  split.
  - apply (proj1 (Pow_steps 2 0)). unfold min_int. lia.
  - apply (proj1 (proj2 (Pow_steps 2 2))). unfold max_int. lia.
Defined.

(** ** The dispatch of [cfg.Start] *)

Lemma check_steps_None files : forall k types,
  cfg.check_steps k files types = None -> length files = length types ->
  Forall2 (fun v t : list string => length v = length t) files types.
Proof.
  induction files as [|v files IH]; intros k [|t types] H Hlen; try done.
  cbn [cfg.check_steps] in H.
  destruct (Nat.eqb_spec (length v) (length t)) as [E|E]; [|done].
  constructor; [done|]. apply (IH (Datatypes.S k)); [done|]. by injection Hlen.
Qed.

Lemma New_shapes types files c :
  cfg.New types files = inr c ->
  cfg.Types c = types /\ cfg.Files c = files
  /\ Forall2 (fun v t : list string => length v = length t) files types.
Proof.
  unfold cfg.New. destruct (Nat.eqb_spec (length files) (length types)) as [E|E]; [|done].
  cbn [negb]. destruct (cfg.check_steps 0 files types) eqn:Hc; [done|].
  intros [= <-]. split; [done|]. split; [done|]. by eapply check_steps_None.
Qed.

(** X19: the calculations that [cfg.Start] launches for a step of a
    configuration that [New] accepted.  No file index is out of range;
    but the goroutine of the calculation at position [k + 1] of the step
    is given the file at position [k], since [rtn] counts from
    [types[1:]]: the first file serves the first two calculations, and
    the file at the last position of a step of two or more calculations
    is given to none. *)
Theorem cfg_Start_files types files c :
  cfg.New types files = inr c ->
  forall step ts, cfg.Types c !! step = Some ts ->
    exists fs, cfg.Files c !! step = Some fs /\ length fs = length ts
      /\ cfg.Start_calls c !! step = Some (cfg.step_calls ts fs)
      /\ (forall k name, ts !! Datatypes.S k = Some name ->
            exists f, fs !! k = Some f /\ (name, Some f) ∈ cfg.step_calls ts fs)
      /\ (forall call, call ∈ cfg.step_calls ts fs ->
            exists k f, call.2 = Some f /\ fs !! k = Some f
                        /\ (Datatypes.S k < length ts \/ k = 0)%nat).
Proof.
  intros Hnew step ts Hts.
  destruct (New_shapes _ _ _ Hnew) as (HT & HF & Hshape). rewrite HT in Hts.
  destruct (Forall2_lookup_r _ _ _ _ _ Hshape Hts) as (fs & Hfs & Hlen).
  exists fs. rewrite HF. split; [done|]. split; [done|]. split.
  { unfold cfg.Start_calls. rewrite list_lookup_imap, HT, Hts, HF, Hfs. done. }
  destruct ts as [|t0 rest]; [split; [done|by intros call ?%elem_of_nil]|].
  cbn [cfg.step_calls]. split.
  - intros k name Hk'. assert (Hk : rest !! k = Some name) by exact Hk'.
    destruct (lookup_lt_is_Some_2 fs k) as [f Hf].
    { apply lookup_lt_Some in Hk. cbn in Hlen. lia. }
    exists f. split; [done|]. apply elem_of_app. left.
    apply list_elem_of_lookup. exists k. by rewrite list_lookup_imap, Hk, Hf.
  - intros call [Hc|Hc]%elem_of_app.
    + apply list_elem_of_lookup in Hc as [k Hk]. rewrite list_lookup_imap in Hk.
      destruct (rest !! k) as [name|] eqn:Hr; [|done]. cbn in Hk. injection Hk as <-.
      destruct (lookup_lt_is_Some_2 fs k) as [f Hf].
      { apply lookup_lt_Some in Hr. cbn in Hlen. lia. }
      exists k, f. cbn. rewrite Hf. split; [done|]. split; [done|].
      left. apply lookup_lt_Some in Hr. cbn. lia.
    + apply list_elem_of_singleton in Hc as ->.
      destruct (lookup_lt_is_Some_2 fs 0) as [f Hf]; [cbn in Hlen; lia|].
      exists 0%nat, f. cbn. rewrite Hf. split; [done|]. split; [done|by right].
Qed.

Lemma cfg_Start_files_witness :
  cfg.Start_calls {| cfg.Types := [["gr"; "volume"]]; cfg.Files := [["a.toml"; "b.toml"]] |}
  !! 0%nat
  = Some [("volume", Some "a.toml"); ("gr", Some "a.toml")].
Proof.
  destruct (cfg_Start_files [["gr"; "volume"]] [["a.toml"; "b.toml"]]
              {| cfg.Types := [["gr"; "volume"]]; cfg.Files := [["a.toml"; "b.toml"]] |}
              eq_refl 0%nat ["gr"; "volume"] eq_refl) as (fs & Hfs & _ & Hcalls & _).
  rewrite Hcalls. injection Hfs as <-. reflexivity.
Defined.

(** ** An empty trajectory *)

(** X20: on an empty trajectory file the five calculations do not end
    alike.  [radius_gyration] and [dist_two_atoms] panic, whatever their
    parameters, in [string(b)[:len(b)-1]] on the missing line of the atom
    count; [no_pbc] returns the error on the size of the box, and so do
    [gr] and [volume] when [CfgStart] is 0, while with another
    [CfgStart] they panic in [ReadCfgNonCvg]. *)
Theorem empty_trajectory :
  (forall r, radiusgyration.Start r [] = (Panic "slice bounds out of range [:-1]", []))
  /\ (forall d, disttwoatoms.Start d [] = (Panic "slice bounds out of range [:-1]", []))
  /\ (forall n, nopbc.Start n [] = Err (Wrap "readCfgFirst" (Wrap "Header" ErrBoxSize)))
  /\ (forall g, gr.first g []
                = if gr.CfgStart g =? 0
                  then Err (Wrap "readCfgFirst" (Wrap "Header" ErrBoxSize))
                  else Panic "slice bounds out of range [:-1]")
  /\ (forall v, volume.first v []
                = if volume.CfgStart v =? 0
                  then Err (Wrap "readCfgFirst" (Wrap "Header" ErrBoxSize))
                  else Panic "slice bounds out of range [:-1]").
Proof.
  split; [|split; [|split; [|split]]].
  - intros r. unfold radiusgyration.Start, wrap.
    destruct (Z.eqb_spec (radiusgyration.CfgStart r) 0) as [E|E].
    + rewrite E. done.
    + by rewrite ReadCfgNonCvg_eq.
  - intros d. unfold disttwoatoms.Start, wrap.
    destruct (Z.eqb_spec (disttwoatoms.CfgStart d) 0) as [E|E].
    + rewrite E. done.
    + by rewrite ReadCfgNonCvg_eq.
  - intros n. done.
  - intros g. unfold gr.first, bind at 1, wrap at 1.
    destruct (Z.eqb_spec (gr.CfgStart g) 0) as [E|E].
    + rewrite E. done.
    + by rewrite ReadCfgNonCvg_eq.
  - intros v. unfold volume.first, bind at 1, wrap at 1.
    destruct (Z.eqb_spec (volume.CfgStart v) 0) as [E|E].
    + rewrite E. done.
    + by rewrite ReadCfgNonCvg_eq.
Qed.

(** ** An atom and itself *)

Lemma sub_self x : is_number x -> (x - x)%float = 0%float.
Proof.
  unfold is_number. intros H. apply Prim2SF_inj. rewrite sub_spec.
  destruct (Prim2SF x) as [s| | |s m e]; [by destruct s|done|done|].
  unfold SF64sub, SFsub. by rewrite Z.sub_diag.
Qed.

Lemma zero_div b :
  is_length b -> (0 / b)%float = 0%float \/ (0 / b)%float = (- 0)%float.
Proof.
  unfold is_length. intros H.
  destruct (Prim2SF b) as [| | |s m e] eqn:E; [done..|].
  destruct s; [right|left]; apply Prim2SF_inj; by rewrite div_spec, E.
Qed.

Lemma image_of_zero b : is_length b -> (0 - b * Round (0 / b))%float = 0%float.
Proof.
  unfold is_length. intros H.
  destruct (Prim2SF b) as [| | |s m e] eqn:E; [done..|].
  assert (Hq : (0 / b)%float = if s then (- 0)%float else 0%float).
  { apply Prim2SF_inj. rewrite div_spec, E. by destruct s. }
  rewrite Hq.
  assert (Hm : (b * Round (if s then (- 0)%float else 0%float))%float = 0%float).
  { apply Prim2SF_inj. destruct s.
    - change (Round (- 0)) with (- 0)%float. by rewrite mul_spec, E.
    - change (Round 0) with 0%float. by rewrite mul_spec, E. }
  by rewrite Hm.
Qed.

Lemma image_dist2_self box a :
  (forall k, (k < 3)%nat -> is_number (at3 a k)) ->
  (forall k, (k < 3)%nat -> is_length (at3 box k)) ->
  image_dist2 box a a = 0%float.
Proof.
  intros Ha Hb. unfold image_dist2. cbn [fold_left].
  rewrite !sub_self by (apply Ha; lia).
  rewrite !image_of_zero by (apply Hb; lia). done.
Qed.

Lemma bin_of_self g box a :
  (forall k, (k < 3)%nat -> is_number (at3 a k)) ->
  (forall k, (k < 3)%nat -> is_length (at3 box k)) ->
  (0 <=? gr.rmax2 g)%float = true -> is_length (gr.Dr g) ->
  gr.bin_of g box a a = Some 0.
Proof.
  intros Ha Hb Hr Hd. unfold gr.bin_of. rewrite (image_dist2_self box a Ha Hb), Hr.
  change (PrimFloat.sqrt 0) with 0%float.
  by destruct (zero_div _ Hd) as [-> | ->].
Qed.

(** X21: [gr.calc] does not leave out the pair of an atom with itself.
    For a type that [Atoms] pairs with itself, every atom of this type
    whose coordinates are numbers is counted once in bin 0 of its own
    row, at distance 0, in every frame whose box sides are numbers other
    than zero, when the cutoff is not negative and the bin width is a
    number other than zero. *)
Theorem gr_counts_atom_with_itself g box (xyz : XYZ) at1 l i a :
  gr.Atoms g !! at1 = Some l -> at1 ∈ l -> rows_of xyz at1 !! i = Some a ->
  (forall k, (k < 3)%nat -> is_number (at3 a k)) ->
  (forall k, (k < 3)%nat -> is_length (at3 box k)) ->
  (0 <=? gr.rmax2 g)%float = true -> is_length (gr.Dr g) ->
  ((at1, at1), i, 0) ∈ gr.cells g box xyz.
Proof.
  intros Hl Hin Hi Ha Hb Hr Hd. unfold gr.cells.
  apply list_elem_of_In, in_flat_map. exists (at1, l).
  split; [by apply list_elem_of_In, elem_of_map_to_list|].
  apply in_flat_map. exists (i, a). split.
  { apply list_elem_of_In, list_elem_of_lookup. exists i. cbn [fst snd].
    by rewrite list_lookup_imap, Hi. }
  apply in_flat_map. exists at1. split; [by apply list_elem_of_In|].
  apply in_flat_map. exists a. split.
  { apply list_elem_of_In. cbn [fst snd]. by eapply list_elem_of_lookup_2. }
  cbn [fst snd]. rewrite (bin_of_self g box a Ha Hb Hr Hd). by left.
Qed.

Lemma gr_counts_atom_with_itself_witness :
  (("1", "1"), 0%nat, 0)
  ∈ gr.cells sample.rdf_self [10; 10; 10]%float {[ "1" := [[2.5; 0; 7]%float] ]}.
Proof.
  apply (gr_counts_atom_with_itself sample.rdf_self [10; 10; 10]%float
           {[ "1" := [[2.5; 0; 7]%float] ]} "1" ["1"] 0%nat [2.5; 0; 7]%float).
  - reflexivity.
  - by left.
  - reflexivity.
  - intros k Hk. do 3 (destruct k as [|k]; [exact I|]). lia.
  - intros k Hk. do 3 (destruct k as [|k]; [exact I|]). lia.
  - reflexivity.
  - exact I.
Defined.

(** ** The first frame of [gr] *)

Lemma order_of_cons g b rows :
  order_of g (b :: rows)
  = (if decide (is_Some (gr.Atoms g !! type_of (gr.cols g) b))
     then [type_of (gr.cols g) b] else [])
    ++ order_of g rows.
Proof.
  unfold order_of. cbn [map].
  destruct (decide (is_Some (gr.Atoms g !! type_of (gr.cols g) b))) as [H|H].
  - by rewrite filter_cons_True.
  - by rewrite filter_cons_False.
Qed.

Lemma rowsFirst_rows g n : forall o xyz rd,
  gr.rowsFirst g n o xyz rd =
  match gr.rows g n xyz rd with
  | Ok (xyz', rd') => Ok ((o ++ order_of g (take n rd), xyz'), rd')
  | Err e => Err e
  | Panic msg => Panic msg
  end.
Proof.
  induction n as [|n IH]; intros o xyz rd; cbn [gr.rowsFirst gr.rows].
  { cbn. by rewrite app_nil_r. }
  unfold bind. destruct (gr.readXYZ g xyz rd) as [[[t xyz1] rd1]| |] eqn:E; [|done..].
  apply gr_readXYZ_inv in E as (Hrd & -> & _).
  rewrite IH. destruct (gr.rows g n xyz1 rd1) as [[xyz' rd']| |]; [|done..].
  destruct rd as [|b rd2]; [done|]. cbn [nth] in *. injection Hrd as ->.
  cbn [take]. rewrite order_of_cons.
  destruct (gr.Atoms g !! type_of (gr.cols g) b) as [l|] eqn:El.
  - rewrite decide_True by done. by rewrite <- app_assoc.
  - rewrite decide_False by (by intros [? ?]). done.
Qed.

(** X22: the first frame of [gr] is decoded as every other frame.
    [fetchXYZFirst] fails where [fetchXYZ] fails on the same stream, and
    otherwise returns the same map and leaves the same stream; the order
    it returns besides lists, row after row, the type of each row whose
    type is a key of [Atoms]. *)
Theorem fetchXYZFirst_as_fetchXYZ g rd :
  gr.fetchXYZFirst g rd =
  match gr.fetchXYZ g rd with
  | Ok (xyz, rd') => Ok ((order_of g (take (times (gr.atoms g)) rd), xyz), rd')
  | Err e => Err e
  | Panic msg => Panic msg
  end.
Proof.
  unfold gr.fetchXYZFirst, gr.fetchXYZ, bind.
  destruct (gr.fresh g rd) as [[xyz rd0]| |] eqn:E; [|done..].
  assert (rd0 = rd) as ->.
  { apply reads_gr_fresh in E. by rewrite drop_0 in E. }
  by rewrite rowsFirst_rows.
Qed.

(** ** Lines that end in a carriage return *)

Lemma string_app_cons c (s t : string) : (String c s ++ t)%string = String c (s ++ t)%string.
Proof. reflexivity. Qed.

Lemma string_app_assoc (s t u : string) : ((s ++ t) ++ u)%string = (s ++ (t ++ u))%string.
Proof. induction s as [|c s IH]; [done|]. rewrite !string_app_cons. by f_equal. Qed.

Lemma rev_app_append s : forall acc, String.rev_app s acc = (String.rev s ++ acc)%string.
Proof.
  unfold String.rev. induction s as [|c s IH]; intros acc; [done|].
  cbn [String.rev_app]. rewrite IH, (IH (String c "")).
  by rewrite string_app_assoc.
Qed.

Lemma rev_app_app s t : forall acc,
  String.rev_app (s ++ t)%string acc = String.rev_app t (String.rev_app s acc).
Proof.
  induction s as [|a s IH]; intros acc; [done|]. rewrite string_app_cons. apply IH.
Qed.

Lemma rev_snoc s c : String.rev (s ++ String c "")%string = String c (String.rev s).
Proof. unfold String.rev. by rewrite rev_app_app. Qed.

Lemma rev_rev s : String.rev (String.rev s) = s.
Proof.
  induction s as [|c s IH]; [done|].
  unfold String.rev at 2. cbn [String.rev_app]. rewrite rev_app_append, rev_snoc.
  by rewrite IH.
Qed.

Lemma drop_last_snoc s c : drop_last (s ++ String c "")%string = Ok s.
Proof.
  unfold drop_last. rewrite rev_snoc, rev_rev. by destruct s.
Qed.

Lemma digits_go_cr s : forall acc, digits_go acc (s ++ cr)%string = None.
Proof.
  induction s as [|c s IH]; intros acc; [done|]. rewrite string_app_cons.
  cbn [digits_go]. destruct (digit_of c); [apply IH|done].
Qed.

Lemma digits_cr s : digits (s ++ cr)%string = None.
Proof. unfold digits. destruct s as [|c s]; [done|]. apply (digits_go_cr (String c s)). Qed.

Lemma Atoi_cr s : Atoi (s ++ cr)%string = (0, Some (ErrSyntax "Atoi" (s ++ cr)%string)).
Proof.
  destruct s as [|c s]; [done|].
  assert (Hs : digits (s ++ cr)%string = None) by apply digits_cr.
  assert (Hc : digits (String c s ++ cr)%string = None) by apply digits_cr.
  unfold Atoi. rewrite string_app_cons in *.
  destruct c as [[] [] [] [] [] [] [] []]; first [by rewrite Hc | by rewrite Hs].
Qed.

(** X23: a trajectory whose lines end in a carriage return and a line
    feed.  Where the atom count is read with
    [strconv.Atoi(string(b)[:len(b)-1])], only the line feed is cut off
    and the count is refused with a syntax error: in [ReadCfgNonCvg] with
    a count other than zero, so for every calculation that skips frames,
    and in [readCfgFirst] of [radiusgyration] and of [disttwoatoms]. *)
Theorem count_line_with_carriage_return rd s :
  rd !! 3%nat = Some (s ++ crlf)%string ->
  (forall x, x <> 0 ->
     util.ReadCfgNonCvg x rd = Err (ErrSyntax "Atoi" (s ++ cr)%string))
  /\ (forall r, radiusgyration.readCfgFirst r rd = Err (ErrSyntax "Atoi" (s ++ cr)%string))
  /\ (forall d, disttwoatoms.readCfgFirst d rd = Err (ErrSyntax "Atoi" (s ++ cr)%string)).
Proof.
  intros Hb.
  assert (Hline : nth 3 rd "" = ((s ++ cr) ++ String (ascii_of_nat 10) "")%string).
  { rewrite (nth_lookup_Some _ _ _ _ Hb). by rewrite string_app_assoc. }
  assert (Hatoi : util.atoi_line (drop 3 rd) = Err (ErrSyntax "Atoi" (s ++ cr)%string)).
  { rewrite atoi_line_eq, nth_drop. cbn [Nat.add].
    by rewrite Hline, drop_last_snoc, Atoi_cr. }
  split; [|split].
  - intros x Hx. rewrite ReadCfgNonCvg_eq by done.
    by rewrite Hline, drop_last_snoc, Atoi_cr.
  - intros r. unfold radiusgyration.readCfgFirst.
    rewrite (bind_Ok _ _ _ _ _ (skip_lines 3 rd)). unfold bind. by rewrite Hatoi.
  - intros d. unfold disttwoatoms.readCfgFirst.
    rewrite (bind_Ok _ _ _ _ _ (skip_lines 3 rd)). unfold bind. by rewrite Hatoi.
Qed.

Lemma count_line_with_carriage_return_witness :
  util.ReadCfgNonCvg 1
    ["ITEM: TIMESTEP" ++ crlf; "0" ++ crlf; "ITEM: NUMBER OF ATOMS" ++ crlf; "2" ++ crlf]%string
  = Err (ErrSyntax "Atoi" ("2" ++ cr)%string).
Proof.
  apply (count_line_with_carriage_return
           ["ITEM: TIMESTEP" ++ crlf; "0" ++ crlf; "ITEM: NUMBER OF ATOMS" ++ crlf;
            "2" ++ crlf]%string "2").
  - reflexivity.
  - lia.
Defined.

(** ** Lines in, lines out *)

Section nopbc_lines.
Import nopbc.

Lemma takes_ret {A} (a : A) : takes 0 0 (ret a).
Proof. intros s a' s' [= _ <-]. split; [done|lia]. Qed.

Lemma takes_fail {A} k j e : takes k j (fail (A:=A) e).
Proof. by intros s a s'. Qed.

Lemma takes_panic {A} k j msg : takes k j (panic (A:=A) msg).
Proof. by intros s a s'. Qed.

Lemma takes_bind {A B} k1 j1 k2 j2 (m : M IO A) (f : A -> M IO B) :
  takes k1 j1 m -> (forall a, takes k2 j2 (f a)) -> takes (k1 + k2) (j1 + j2) (bind m f).
Proof.
  intros Hm Hf s b s'. unfold bind.
  destruct (m s) as [[a s1]| |] eqn:E; [|done..].
  intros Hb. apply Hm in E as [E1 E2]. apply Hf in Hb as [H1 H2].
  rewrite H1, E1, drop_drop. split; [done|lia].
Qed.

Lemma takes_eq {A} k j k' j' (m : M IO A) : k = k' -> j = j' -> takes k j m -> takes k' j' m.
Proof. by intros -> ->. Qed.

Lemma real_eq {A} k j k' j' (m : M IO A) :
  k = k' -> j = j' -> takes_real k j m -> takes_real k' j' m.
Proof. by intros -> ->. Qed.

Lemma takes_wrap {A} k j ctx (m : M IO A) : takes k j m -> takes k j (wrap ctx m).
Proof.
  intros Hm s a s'. unfold wrap.
  destruct (m s) as [[a1 s1]| |] eqn:E; [|done..]. intros [= <- <-]. by apply Hm in E.
Qed.

Lemma real_wrap {A} k j ctx (m : M IO A) : takes_real k j m -> takes_real k j (wrap ctx m).
Proof.
  intros Hm s a s'. unfold wrap.
  destruct (m s) as [[a1 s1]| |] eqn:E; [|done..]. intros [= <- <-]. by apply Hm in E.
Qed.

Lemma real_of_takes {A} j (m : M IO A) : takes 0 j m -> takes_real 0 j m.
Proof. intros Hm s a s' H. apply Hm in H as [H1 H2]. split; [lia|done]. Qed.

(** Lines that were all there, after lines that may not have been: the
    later ones show that the earlier ones were there too. *)
Lemma real_after {A B} k1 j1 k2 j2 (m : M IO A) (f : A -> M IO B) :
  takes k1 j1 m -> (forall a, takes_real k2 j2 (f a)) -> (1 <= k2)%nat ->
  takes_real (k1 + k2) (j1 + j2) (bind m f).
Proof.
  intros Hm Hf Hk s b s'. unfold bind.
  destruct (m s) as [[a s1]| |] eqn:E; [|done..].
  intros Hb. apply Hm in E as [E1 E2]. apply Hf in Hb as (H0 & H1 & H2).
  rewrite E1, length_drop in H0. rewrite H1, E1, drop_drop.
  split; [lia|]. split; [done|lia].
Qed.

Lemma real_bind {A B} k1 j1 k2 j2 (m : M IO A) (f : A -> M IO B) :
  takes_real k1 j1 m -> (forall a, takes_real k2 j2 (f a)) ->
  takes_real (k1 + k2) (j1 + j2) (bind m f).
Proof.
  intros Hm Hf s b s'. unfold bind.
  destruct (m s) as [[a s1]| |] eqn:E; [|done..].
  intros Hb. apply Hm in E as (E0 & E1 & E2). apply Hf in Hb as (H0 & H1 & H2).
  rewrite E1, length_drop in H0. rewrite H1, E1, drop_drop.
  split; [lia|]. split; [done|lia].
Qed.

(** A line whose fields are looked at was there: past the end of the
    input the line is empty and the continuation does not return. *)
Lemma real_read {B} k j (f : string -> M IO B) :
  (forall b, takes_real k j (f b)) -> (forall s, ~ is_Ok (f "" s)) ->
  takes_real (1 + k) j (bind readOnly f).
Proof.
  intros Hf Hno s b s'. rewrite bind_readOnly.
  destruct s as [[|l rd] w]; cbn [fst snd nth drop].
  - intros H. destruct (Hno ([], w)). by rewrite H.
  - intros H. apply Hf in H as (H0 & H1 & H2). cbn in *. rewrite drop_0 in *.
    split; [lia|]. by split.
Qed.

Lemma takes_readOnly : takes 1 0 readOnly.
Proof.
  intros s a s'. unfold readOnly. rewrite ReadSlice_eq. intros [= _ <-].
  split; [done|cbn; lia].
Qed.

Lemma takes_put c : takes 0 1 (put c).
Proof. intros s a s' [= _ <-]. cbn. split; [done|]. by rewrite length_app. Qed.

Lemma takes_readSlice : takes 1 1 readSlice.
Proof.
  unfold readSlice. apply (takes_bind 1 0 0 1); [apply takes_readOnly|intros b].
  apply (takes_bind 0 1 0 0); [apply takes_put|intros _]. apply takes_ret.
Qed.

Lemma takes_index (fields : list string) i : takes 0 0 (index fields i).
Proof. unfold index. destruct (fields !! i); [apply takes_ret|apply takes_panic]. Qed.

Lemma takes_coords3 cols (fields : list string) : takes 0 0 (coords3 cols fields).
Proof.
  unfold coords3.
  apply (takes_bind 0 0 0 0); [apply takes_index|intros x].
  apply (takes_bind 0 0 0 0); [apply takes_index|intros y].
  apply (takes_bind 0 0 0 0); [apply takes_index|intros z].
  apply takes_ret.
Qed.

Lemma takes_lines k : takes k k (repeatM k (bind readSlice (fun _ => ret tt))).
Proof.
  induction k as [|k IH]; [apply takes_ret|]. cbn [repeatM].
  apply (takes_bind 1 1 k k); [|by intros _].
  apply (takes_bind 1 1 0 0); [apply takes_readSlice|intros _]. apply takes_ret.
Qed.

Lemma real_box_line : takes_real 1 1 (util.box_line readSlice).
Proof.
  intros s a s'. unfold util.box_line, readSlice, bind, readOnly, put, ret.
  rewrite ReadSlice_eq. cbn [fst snd].
  destruct s as [[|l rd] w]; cbn [fst snd nth drop]; [done|].
  destruct (Fields l) as [|lo [|hi [|]]]; try done.
  intros [= _ <-]. cbn. split; [lia|]. split; [done|]. by rewrite length_app.
Qed.

Lemma real_HeaderBox : takes_real 3 3 (util.HeaderBox readSlice).
Proof.
  unfold util.HeaderBox.
  apply (real_bind 1 1 2 2); [apply real_box_line|intros bx].
  apply (real_bind 1 1 1 1); [apply real_box_line|intros by_].
  apply (real_bind 1 1 0 0); [apply real_box_line|intros bz].
  apply real_of_takes, takes_ret.
Qed.

Lemma real_Header : takes_real 8 8 (util.Header readSlice).
Proof.
  unfold util.Header.
  apply (real_after 3 3 5 5); [apply takes_lines| |lia]. intros _.
  apply (real_after 1 1 4 4); [apply takes_readSlice| |lia]. intros b.
  apply (real_after 1 1 3 3); [apply takes_readSlice| |lia]. intros _.
  apply (real_bind 3 3 0 0); [apply real_HeaderBox|intros box].
  apply real_of_takes, takes_ret.
Qed.

Lemma real_HeaderWOutAtoms : takes_real 8 8 (util.HeaderWOutAtoms readSlice).
Proof.
  unfold util.HeaderWOutAtoms.
  apply (real_after 5 5 3 3); [apply takes_lines| |lia]. intros _. apply real_HeaderBox.
Qed.
End nopbc_lines.

Section nopbc_frames.
Import nopbc.

Lemma real_row_first n box i st : takes_real 1 1 (row_first n box i st).
Proof.
  unfold row_first. apply (real_read 0 1).
  - intros b. destruct (negb _); [by intros s a s'|].
    apply (real_bind 0 0 0 1); [apply real_of_takes, takes_index|intros m].
    apply (real_bind 0 0 0 1); [apply real_of_takes, takes_coords3|intros raw].
    apply (real_bind 0 1 0 0); [apply real_of_takes, takes_put|intros _].
    apply real_of_takes, takes_ret.
  - intros s. change (Fields "") with (@nil string).
    destruct (negb _); [by intros ?|]. unfold bind, index. by intros ?.
Qed.

Lemma real_rows_first n box count : forall i st,
  takes_real count count (rows_first n box count i st).
Proof.
  induction count as [|count IH]; intros i st; [apply real_of_takes, takes_ret|].
  cbn [rows_first].
  apply (real_bind 1 1 count count); [apply real_row_first|intros st'].
  apply (real_eq (count + 0) (count + 0)); [lia..|].
  apply real_bind; [apply IH|intros xyz]. apply real_of_takes, takes_ret.
Qed.

Lemma last_byte_fold (l : list string) : forall c,
  is_Some c \/ (exists b, b ∈ l /\ b <> EmptyString) ->
  is_Some (fold_left
             (fun c b => match String.rev b with
                         | String a _ => Some a
                         | EmptyString => c
                         end) l c).
Proof.
  induction l as [|b l IH]; intros c H; cbn [fold_left].
  { destruct H as [H|(b & ?%elem_of_nil & _)]; done. }
  apply IH. destruct (String.rev b) as [|a r] eqn:Er.
  - assert (b = EmptyString) as -> by (by rewrite <- (rev_rev b), Er).
    destruct H as [H|(b & [->|Hb]%elem_of_cons & Hne)]; [by left|done|].
    right. by exists b.
  - left. by eexists.
Qed.

Lemma last_byte_Some (l : list string) i b :
  l !! i = Some b -> b <> EmptyString -> is_Some (last_byte l).
Proof.
  intros Hl Hb. apply last_byte_fold. right. exists b.
  split; [by eapply list_elem_of_lookup_2|done].
Qed.

(** The first frame takes its [9 + atoms] lines, which were all in the
    input, and writes as many; what it leaves is the rest of the input,
    or, when the input ends with the frame, the byte put back. *)
Lemma real_readCfgFirst n (s s' : IO) n' last :
  readCfgFirst n s = Ok ((n', last), s') ->
  (9 + times (atoms n') <= length s.1)%nat
  /\ length s'.2 = (length s.2 + (9 + times (atoms n')))%nat
  /\ ((9 + times (atoms n') < length s.1)%nat ->
      s'.1 = drop (9 + times (atoms n')) s.1)
  /\ (length s.1 = (9 + times (atoms n'))%nat ->
      exists c, last_byte s.1 = Some c /\ s'.1 = [String c EmptyString]).
Proof.
  unfold readCfgFirst. unfold bind at 1.
  destruct (wrap "Header" _ s) as [[[a box] s1]| |] eqn:Eh; [|done..].
  apply (real_wrap _ _ _ _ real_Header) in Eh as (Eh0 & Eh1 & Eh2).
  rewrite bind_readOnly.
  destruct (length (Fields (nth 0 s1.1 "")) <=? 2)%nat eqn:Ef; [done|].
  destruct (scan_header _) as [[c found] buf]. unfold bind at 1.
  cbn [put fst snd]. destruct (found <? 4)%nat; [done|]. unfold bind at 1.
  destruct (rows_first _ _ _ _ _ _) as [[xyz s2]| |] eqn:Er; [|done..].
  apply real_rows_first in Er as (Er0 & Er1 & Er2). cbn [fst snd] in Er0, Er1, Er2.
  destruct s1.1 as [|l rd1] eqn:Hs1; [done|].
  assert (Hl : s.1 !! 8%nat = Some l).
  { pose proof (lookup_drop s.1 8 0) as Hd. by rewrite <- Eh1 in Hd. }
  assert (Hne : l <> EmptyString) by (by intros ->).
  destruct (last_byte_Some _ _ _ Hl Hne) as [x Hx].
  assert (Hlen : length s.1 = (9 + length rd1)%nat).
  { assert (H9 : length (drop 8 s.1) = Datatypes.S (length rd1)) by (by rewrite <- Eh1).
    rewrite length_drop in H9. lia. }
  assert (Hrd : drop 9 s.1 = rd1).
  { replace 9%nat with (8 + 1)%nat by done. by rewrite <- drop_drop, <- Eh1. }
  cbn [drop] in Er0, Er1. rewrite drop_0 in Er0, Er1.
  rewrite length_app in Er2. cbn [length] in Er2.
  unfold bind, peek. rewrite Hx.
  destruct s2.1 as [|l2 rd2] eqn:Hs2.
  - intros [= <- _ <-]. cbn [atoms set_header fst snd].
    assert (Hz : length (drop (times a) rd1) = 0%nat) by (by rewrite <- Er1).
    rewrite length_drop in Hz.
    split; [lia|]. split; [lia|]. split; [lia|]. intros _. by exists x.
  - intros [= <- _ <-]. cbn [atoms set_header fst snd].
    assert (Hz : length (drop (times a) rd1) = Datatypes.S (length rd2)) by (by rewrite <- Er1).
    rewrite length_drop in Hz.
    split; [lia|]. split; [lia|]. split; [|lia]. intros _.
    by rewrite Hs2, Er1, <- Hrd, drop_drop.
Qed.

Lemma real_row_next n box i st : takes_real 1 1 (row_next n box i st).
Proof.
  unfold row_next. destruct st as [last corr]. apply (real_read 0 1).
  - intros b. destruct (negb _); [by intros s a s'|].
    apply (real_bind 0 0 0 1); [apply real_of_takes, takes_coords3|intros raw].
    destruct (last !! i), (corr !! i); try (by intros ? ? ?).
    apply (real_bind 0 1 0 0); [apply real_of_takes, takes_put|intros _].
    apply real_of_takes, takes_ret.
  - intros s. change (Fields "") with (@nil string).
    destruct (negb _); [by intros ?|]. unfold bind, coords3, bind, index. by intros ?.
Qed.

Lemma real_rows_next n box count : forall i st,
  takes_real count count (rows_next n box count i st).
Proof.
  induction count as [|count IH]; intros i st; [apply real_of_takes, takes_ret|].
  cbn [rows_next].
  apply (real_bind 1 1 count count); [apply real_row_next|intros st']. apply IH.
Qed.

Lemma real_frame_next n st :
  1 <= atoms n ->
  takes_real (9 + times (atoms n)) (9 + times (atoms n)) (frame_next n st).
Proof.
  intros Ha. unfold frame_next.
  apply (real_bind 8 8 (1 + times (atoms n)) (1 + times (atoms n)));
    [apply real_wrap, real_HeaderWOutAtoms|intros box].
  apply (real_after 1 0 (times (atoms n)) (1 + times (atoms n)));
    [apply takes_readOnly| |unfold times; lia]. intros _.
  apply (real_bind 0 1 (times (atoms n)) (times (atoms n)));
    [apply real_of_takes, takes_put|intros _]. apply real_rows_next.
Qed.

Lemma frames_take_all n fuel : forall st (s s' : IO),
  1 <= atoms n ->
  frames n fuel st s = Ok (tt, s') ->
  s'.1 = [] /\ length s'.2 = (length s.2 + length s.1)%nat.
Proof.
  induction fuel as [|fuel IH]; intros st s s' Ha; [done|]. cbn [frames].
  unfold bind. destruct (frame_next n st s) as [[st1 s1]| |] eqn:E; [|done..].
  apply (real_frame_next n st Ha) in E as (E0 & E1 & E2).
  destruct s1.1 as [|l rd1] eqn:Hs1.
  - intros [= <-]. split; [done|]. rewrite E2.
    assert (length (drop (9 + times (atoms n)) s.1) = 0%nat) by (by rewrite <- E1).
    rewrite length_drop in *. lia.
  - intros H. apply IH in H as [H1 H2]; [|done]. split; [done|].
    rewrite H2, E2, Hs1.
    assert (length (drop (9 + times (atoms n)) s.1) = length (l :: rd1)) by (by rewrite <- E1).
    rewrite length_drop in *. cbn [length] in *. lia.
Qed.
End nopbc_frames.

(** X24: [no_pbc] writes a line for every line it reads.  When
    [readCfgFirst] returns no error it has taken the [9 + atoms] lines of
    the first frame, which were all in the input, and has written as
    many.  It leaves the rest of the input; when the input ends with the
    first frame, what it leaves is not the empty stream but one chunk,
    the last byte of the input, which [UnreadByte] has put back.  When
    the frames hold at least one atom and [readCfg] then returns no error,
    the whole input has been read and the output has as many lines as
    the input. *)
Theorem nopbc_keeps_every_line n rd n' last s1 :
  nopbc.readCfgFirst n (rd, []) = Ok ((n', last), s1) ->
  length s1.2 = (9 + times (nopbc.atoms n'))%nat
  /\ (9 + times (nopbc.atoms n') <= length rd)%nat
  /\ ((9 + times (nopbc.atoms n') < length rd)%nat ->
      s1.1 = drop (9 + times (nopbc.atoms n')) rd)
  /\ (length rd = (9 + times (nopbc.atoms n'))%nat ->
      exists c, nopbc.last_byte rd = Some c /\ s1.1 = [String c EmptyString])
  /\ (1 <= nopbc.atoms n' ->
      forall s2, nopbc.readCfg n' last s1 = Ok (tt, s2) ->
                 s2.1 = [] /\ length s2.2 = length rd).
Proof.
  intros H. apply real_readCfgFirst in H as (H0 & H1 & H2 & H3).
  cbn [fst snd length] in *.
  split; [done|]. split; [done|]. split; [done|]. split; [done|].
  intros Ha s2. unfold nopbc.readCfg.
  destruct (Z.ltb_spec (nopbc.atoms n') 0); [lia|].
  destruct (decide (length rd = 9 + times (nopbc.atoms n'))%nat) as [He|Hne].
  - destruct (H3 He) as (c & _ & Hc). rewrite Hc. cbn [length nopbc.frames].
    unfold bind at 1.
    destruct (nopbc.frame_next _ _ s1) as [[st1 s3]| |] eqn:E; [|done..].
    apply (real_frame_next n' _ Ha) in E as (E0 & _). rewrite Hc in E0.
    cbn [length] in E0. lia.
  - intros Hf. apply frames_take_all in Hf as [Hf1 Hf2]; [|done]. split; [done|].
    rewrite Hf2, H1, H2, length_drop by lia. lia.
Qed.

Lemma nopbc_keeps_every_line_witness :
  (exists n' last s1 s2,
     nopbc.readCfgFirst sample.unwrapper (sample.crossing, []) = Ok ((n', last), s1)
     /\ nopbc.readCfg n' last s1 = Ok (tt, s2)
     /\ length s2.2 = 20%nat)
  /\ (exists n' last s1,
        nopbc.readCfgFirst sample.unwrapper (sample.still, []) = Ok ((n', last), s1)
        /\ s1.1 = [sample.nl] /\ length s1.2 = 10%nat).
Proof.
  split.
  - destruct (nopbc.readCfgFirst sample.unwrapper (sample.crossing, []))
      as [[[n' last] s1]| |] eqn:E1; [|vm_compute in E1; discriminate..].
    destruct (nopbc.readCfg n' last s1) as [[[] s2]| |] eqn:E2.
    + exists n', last, s1, s2. split; [done|]. split; [done|].
      destruct (nopbc_keeps_every_line _ _ _ _ _ E1) as (_ & _ & _ & _ & H).
      destruct (H ltac:(vm_compute in E1; injection E1 as <- _ _; vm_compute; discriminate) s2 E2)
        as [_ ->].
      reflexivity.
    + vm_compute in E1. injection E1 as <- <- <-. vm_compute in E2. discriminate.
    + vm_compute in E1. injection E1 as <- <- <-. vm_compute in E2. discriminate.
  - destruct (nopbc.readCfgFirst sample.unwrapper (sample.still, []))
      as [[[n' last] s1]| |] eqn:E1; [|vm_compute in E1; discriminate..].
    exists n', last, s1. split; [done|].
    destruct (nopbc_keeps_every_line _ _ _ _ _ E1) as (Hw & _ & _ & H & _).
    assert (Ha : nopbc.atoms n' = 1).
    { vm_compute in E1. by injection E1 as <- _ _. }
    rewrite Ha in H, Hw. destruct H as (c & Hc & ->); [reflexivity|].
    vm_compute in Hc. injection Hc as <-. split; [reflexivity|exact Hw].
Defined.

(** X25: on a trajectory of a single frame [no_pbc] returns an error
    after it has written the whole frame: when the first frame takes all
    the lines of the input, [Start] still enters the loop of [readCfg],
    whose first pass, on the byte that [UnreadByte] has put back, finds
    no box. *)
Theorem nopbc_single_frame_fails n rd n' last s1 :
  nopbc.readCfgFirst n (rd, []) = Ok ((n', last), s1) ->
  (length rd <= 9 + times (nopbc.atoms n'))%nat ->
  0 <= nopbc.atoms n' ->
  nopbc.Start n rd = Err (Wrap "readCfg" (Wrap "HeaderWOutAtoms" ErrBoxSize)).
Proof.
  intros H Hs Ha. unfold nopbc.Start, wrap at 1. rewrite H.
  apply real_readCfgFirst in H as (H0 & _ & _ & H3). cbn [fst snd] in H0, H3.
  destruct H3 as (c & _ & Hc); [lia|].
  unfold wrap, nopbc.readCfg.
  destruct (Z.ltb_spec (nopbc.atoms n') 0); [lia|].
  destruct s1 as [r w]. cbn [fst snd] in *. subst r. done.
Qed.

Lemma nopbc_single_frame_fails_witness :
  nopbc.Start sample.unwrapper sample.still
  = Err (Wrap "readCfg" (Wrap "HeaderWOutAtoms" ErrBoxSize)).
Proof.
  destruct (nopbc.readCfgFirst sample.unwrapper (sample.still, []))
    as [[[n' last] s1]| |] eqn:E1; [|vm_compute in E1; discriminate..].
  apply (nopbc_single_frame_fails sample.unwrapper sample.still n' last s1 E1).
  - vm_compute in E1. injection E1 as <- _ _. vm_compute. lia.
  - vm_compute in E1. injection E1 as <- _ _. vm_compute. discriminate.
Defined.

(** ** The state at the launch of the workers *)

Lemma gr_act_all_config l : forall g g',
  gr.act_all l g = Some g' ->
  gr.CfgStart g' = gr.CfgStart g /\ gr.CfgEnd g' = gr.CfgEnd g /\ gr.err g' = gr.err g.
Proof.
  induction l as [|a l IH]; intros g g'; cbn [gr.act_all].
  { by intros [= <-]. }
  destruct (gr.act a g) as [g1|] eqn:E; [|done]. cbn. intros H.
  apply IH in H as (-> & -> & ->).
  destruct a as [c|v]; cbn in E.
  - destruct (gr.incr c (gr.hstg g)); [|done]. by injection E as <-.
  - by injection E as <-.
Qed.

Lemma gr_readCfgFirst_config g rd g' res rd' :
  gr.readCfgFirst g rd = Ok ((g', res), rd') ->
  gr.CfgStart g' = gr.CfgStart g /\ gr.CfgEnd g' = gr.CfgEnd g /\ gr.err g' = gr.err g.
Proof.
  unfold gr.readCfgFirst, bind.
  destruct (wrap "Header" _ rd) as [[[a box] rd1]| |]; [|done..].
  destruct (ReadSlice rd1) as [[b rd2]| |]; [|done..].
  destruct (length (Fields b) <=? 2)%nat; [done|].
  destruct (scan_cols _ _) as [c found].
  destruct (found <? 4)%nat; [done|].
  destruct (wrap "fetchXYZ" _ rd2) as [[[o xyz] rd3]| |]; [|done..].
  by intros [= <- _ _].
Qed.

Lemma gr_first_config g rd g' rd' :
  gr.first g rd = Ok (g', rd') ->
  gr.CfgStart g' = gr.CfgStart g /\ gr.CfgEnd g' = gr.CfgEnd g
  /\ gr.err g' = gr.err g /\ gr.cfg g' = gr.CfgStart g.
Proof.
  unfold gr.first, bind.
  destruct (wrap "ReadCfgNonCvg" _ rd) as [[[] rd1]| |]; [|done..].
  unfold wrap.
  destruct (gr.readCfgFirst g rd1) as [[[g1 [box xyz]] rd2]| |] eqn:E; [|done..].
  apply gr_readCfgFirst_config in E as (E1 & E2 & E3).
  unfold gr.calc.
  destruct (gr.act_all _ _) as [g2|] eqn:Ea; [|done].
  apply gr_act_all_config in Ea as (A1 & A2 & A3). cbn in A1, A2, A3.
  intros [= <- _]. cbn. repeat split; congruence.
Qed.

Lemma volume_readCfgFirst_config v rd v' res rd' :
  volume.readCfgFirst v rd = Ok ((v', res), rd') ->
  volume.CfgStart v' = volume.CfgStart v /\ volume.CfgEnd v' = volume.CfgEnd v
  /\ volume.CfgSpacing v' = volume.CfgSpacing v /\ volume.err v' = volume.err v.
Proof.
  unfold volume.readCfgFirst, bind.
  destruct (wrap "Header" _ rd) as [[[a box] rd1]| |]; [|done..].
  destruct (ReadSlice rd1) as [[b rd2]| |]; [|done..].
  destruct (length (Fields b) <=? 2)%nat; [done|].
  destruct (scan_cols _ _) as [c found].
  destruct (found <? 4)%nat; [done|].
  destruct (wrap "fetchXYZ" _ rd2) as [[xyz rd3]| |]; [|done..].
  by intros [= <- _ _].
Qed.

(** X26: the state in which [Start] of [gr] and of [volume] launches the
    workers, for a configuration that [New] accepted with a first frame
    index that is not negative: the frame counter is [CfgStart], below
    [CfgEnd], and no error is recorded, so that the workers may claim;
    [volume] has printed one row, that of frame [CfgStart], and has
    written the point cloud. *)
Theorem Start_launch_state n :
  (forall start stop pairs rmax dr g rd g' rd',
     gr.New start stop pairs rmax dr = Ok g -> 0 <= start ->
     stop + Z.of_nat n <= max_int ->
     gr.first g rd = Ok (g', rd') ->
     gr.ready n (g', rd') /\ gr.cfg g' = start)
  /\ (forall start stop spacing bloc blocs analytes sigma dt v rd v' o rd',
        volume.New start stop spacing bloc blocs analytes sigma dt = Ok v ->
        0 <= start -> 0 <= spacing ->
        stop + Z.of_nat n * (spacing + 1) <= max_int ->
        volume.first v rd = Ok ((v', o), rd') ->
        volume.ready n (v', rd') /\ volume.cfg v' = start
        /\ o.1.*1.*1.*1 = [start] /\ is_Some o.2).
Proof.
  split.
  - intros start stop pairs rmax dr g rd g' rd' Hnew Hs Hmax Hfirst.
    apply gr_first_config in Hfirst as (F1 & F2 & F3 & F4).
    unfold gr.New in Hnew. destruct (Z.leb_spec stop start); [done|].
    destruct (_ <=? 1); [done|]. injection Hnew as <-. cbn in *.
    split; [|done]. unfold gr.ready. cbn [fst snd]. rewrite F4, F2, F3.
    unfold min_int. repeat split; lia.
  - intros start stop spacing bloc blocs analytes sigma dt v rd v' o rd' Hnew Hs Hsp Hmax.
    unfold volume.first, bind.
    destruct (wrap "ReadCfgNonCvg" _ rd) as [[[] rd1]| |]; [|done..].
    unfold wrap.
    destruct (volume.readCfgFirst v rd1) as [[[v1 [xyz box]] rd2]| |] eqn:E; [|done..].
    apply volume_readCfgFirst_config in E as (E1 & E2 & E3 & E4).
    unfold volume.New in Hnew. destruct (Z.leb_spec stop start); [done|].
    destruct (negb _); [done|]. injection Hnew as <-. cbn in *.
    intros [= <- <- _]. unfold volume.ready, volume.calc, volume.work.
    cbn [fst snd volume.cfg volume.err volume.CfgEnd volume.CfgSpacing volume.set_cfg].
    rewrite E1, E2, E3, E4, Z.eqb_refl. cbn.
    repeat split; try lia; by eexists.
Qed.

Lemma Start_launch_state_witness :
  gr.ready 2 sample.started /\ gr.cfg sample.started.1 = 0.
Proof.
  destruct (gr.first sample.rdf3 sample.breathing) as [[g' rd']| |] eqn:E;
    [|vm_compute in E; discriminate..].
  assert (Hs : sample.started = (g', rd')).
  { unfold sample.started. by rewrite E. }
  rewrite Hs.
  apply (proj1 (Start_launch_state 2) 0 3 {[ "1" := ["2"] ]} 0.5%float 0.1%float
           sample.rdf3 sample.breathing g' rd').
  - vm_compute. reflexivity.
  - lia.
  - vm_compute. discriminate.
  - exact E.
Defined.

(** X27: a negative count is not refused by [ReadCfgNonCvg]: it takes one
    frame off the stream, as the count 1 does, since only the count 0
    returns at once and the loop over the further frames does not run. *)
Theorem ReadCfgNonCvg_negative_count x a b s rd :
  - 2 ^ 31 <= x < 0 -> 0 <= a <= 2 ^ 31 ->
  rd !! 3%nat = Some b -> drop_last b = Ok s -> Atoi s = (a, None) ->
  util.ReadCfgNonCvg x rd = Ok (tt, drop (Z.to_nat (9 + a)) rd)
  /\ util.ReadCfgNonCvg x rd = util.ReadCfgNonCvg 1 rd.
Proof.
  intros Hx Ha Hb Hs Hn.
  rewrite !ReadCfgNonCvg_eq by lia.
  rewrite (nth_lookup_Some _ _ _ _ Hb), Hs, Hn.
  assert (H9 : add64 (add64 3 6) a = 9 + a).
  { unfold add64. rewrite (wrap64_small (3 + 6)) by (unfold min_int, max_int; lia).
    apply wrap64_small. unfold min_int, max_int in *. lia. }
  assert (H5 : add64 5 a = 5 + a).
  { apply wrap64_small. unfold min_int, max_int in *. lia. }
  assert (Hm : times (mul64 (sub64 x 1) (9 + a)) = 0%nat).
  { unfold times, mul64, sub64.
    rewrite (wrap64_small (x - 1)) by (unfold min_int, max_int; lia).
    rewrite wrap64_small by (unfold min_int, max_int; nia). nia. }
  rewrite H9, H5, Hm.
  assert (H1 : times (mul64 (sub64 1 1) (9 + a)) = 0%nat) by done.
  rewrite H1. split; [|done]. do 3 f_equal. unfold times. lia.
Qed.

Lemma ReadCfgNonCvg_negative_count_witness :
  util.ReadCfgNonCvg (- 1) sample.drifting = Ok (tt, drop 11 sample.drifting).
Proof.
  apply (ReadCfgNonCvg_negative_count (- 1) 2 ("2" ++ sample.nl) "2" sample.drifting).
  - lia.
  - lia.
  - reflexivity.
  - reflexivity.
  - reflexivity.
Defined.

(** ** The frame loop of [nopbc.readCfg] ends *)

Section nopbc_fuel.
Import nopbc.

Lemma takes_of_real {A} k j (m : M IO A) : takes_real k j m -> takes k j m.
Proof. intros Hm s a s' H. by apply Hm in H as (_ & H1 & H2). Qed.

(** A pass of the loop that returns has taken the eight lines of the
    header, and more. *)
Lemma frame_next_shrinks n st (s : IO) st1 s1 :
  frame_next n st s = Ok (st1, s1) -> (length s1.1 < length s.1)%nat.
Proof.
  unfold frame_next. unfold bind at 1.
  destruct (wrap "HeaderWOutAtoms" _ s) as [[box s0]| |] eqn:E; [|done..].
  apply (real_wrap _ _ _ _ real_HeaderWOutAtoms) in E as (E0 & E1 & _).
  intros H.
  assert (Hrest : takes (1 + times (atoms n)) (1 + times (atoms n))
                    (readOnly ;;; put (Raw (colsBuf n)) ;;;
                     rows_next n box (times (atoms n)) 0 st)).
  { apply (takes_bind 1 0 (times (atoms n)) (1 + times (atoms n)));
      [apply takes_readOnly|intros _].
    apply (takes_bind 0 1 (times (atoms n)) (times (atoms n)));
      [apply takes_put|intros _].
    apply takes_of_real, real_rows_next. }
  apply Hrest in H as [H1 _]. rewrite H1, E1, !length_drop. lia.
Qed.

(** The result of the loop does not depend on the fuel once there is
    more fuel than lines left. *)
Lemma frames_fuel n : forall fuel1 fuel2 st (s : IO),
  (length s.1 < fuel1)%nat -> (length s.1 < fuel2)%nat ->
  frames n fuel1 st s = frames n fuel2 st s.
Proof.
  induction fuel1 as [|fuel1 IH]; intros fuel2 st s H1 H2; [lia|].
  destruct fuel2 as [|fuel2]; [lia|]. cbn [frames]. unfold bind.
  destruct (frame_next n st s) as [[st1 s1]| |] eqn:E; [|done..].
  apply frame_next_shrinks in E.
  destruct s1.1 as [|l rd1] eqn:Hs1; [done|].
  apply IH; rewrite Hs1; cbn [length] in *; lia.
Qed.
End nopbc_fuel.

Section nopbc_in_fuel.
Import nopbc.

Lemma in_fuel_ret {S A} (a : A) : in_fuel (S:=S) (ret a).
Proof. by intros s. Qed.

Lemma in_fuel_fail {S A} e : in_fuel (S:=S) (fail (A:=A) e).
Proof. by intros s. Qed.

Lemma in_fuel_bind {S A B} (m : M S A) (f : A -> M S B) :
  in_fuel m -> (forall a, in_fuel (f a)) -> in_fuel (bind m f).
Proof.
  intros Hm Hf s. unfold bind. specialize (Hm s).
  destruct (m s) as [[a s1]| |]; [apply Hf|done|].
  intros [= ->]. by apply Hm.
Qed.

Lemma in_fuel_wrap {S A} ctx (m : M S A) : in_fuel m -> in_fuel (wrap ctx m).
Proof.
  intros Hm s. unfold wrap. specialize (Hm s).
  destruct (m s) as [[a s1]| |]; [done|done|exact Hm].
Qed.

Lemma in_fuel_readOnly : in_fuel readOnly.
Proof. intros s. unfold readOnly. by rewrite ReadSlice_eq. Qed.

Lemma in_fuel_put c : in_fuel (put c).
Proof. by intros s. Qed.

Lemma in_fuel_readSlice : in_fuel readSlice.
Proof.
  unfold readSlice. apply in_fuel_bind; [apply in_fuel_readOnly|intros b].
  apply in_fuel_bind; [apply in_fuel_put|intros _]. apply in_fuel_ret.
Qed.

Lemma in_fuel_index {S} (fields : list string) i : in_fuel (S:=S) (index fields i).
Proof. intros s. unfold index. by destruct (fields !! i). Qed.

Lemma in_fuel_coords3 {S} cols (fields : list string) : in_fuel (S:=S) (coords3 cols fields).
Proof.
  unfold coords3. repeat (apply in_fuel_bind; [apply in_fuel_index|intros ?]).
  apply in_fuel_ret.
Qed.

Lemma in_fuel_lines k : in_fuel (repeatM k (bind readSlice (fun _ => ret tt))).
Proof.
  induction k as [|k IH]; [apply in_fuel_ret|]. cbn [repeatM].
  apply in_fuel_bind; [|by intros _].
  apply in_fuel_bind; [apply in_fuel_readSlice|intros _]. apply in_fuel_ret.
Qed.

Lemma in_fuel_box_line : in_fuel (util.box_line readSlice).
Proof.
  unfold util.box_line. apply in_fuel_bind; [apply in_fuel_readSlice|intros b].
  destruct (Fields b) as [|lo [|hi [|]]]; first [apply in_fuel_fail|apply in_fuel_ret].
Qed.

Lemma in_fuel_HeaderWOutAtoms : in_fuel (util.HeaderWOutAtoms readSlice).
Proof.
  unfold util.HeaderWOutAtoms, util.HeaderBox.
  apply in_fuel_bind; [apply in_fuel_lines|intros _].
  repeat (apply in_fuel_bind; [apply in_fuel_box_line|intros ?]). apply in_fuel_ret.
Qed.

Lemma in_fuel_row_next n box i st : in_fuel (row_next n box i st).
Proof.
  unfold row_next. destruct st as [last corr].
  apply in_fuel_bind; [apply in_fuel_readOnly|intros l].
  destruct (negb _); [apply in_fuel_fail|].
  apply in_fuel_bind; [apply in_fuel_coords3|intros raw].
  destruct (last !! i), (corr !! i); by intros s.
Qed.

Lemma in_fuel_rows_next n box count : forall i st, in_fuel (rows_next n box count i st).
Proof.
  induction count as [|count IH]; intros i st; [apply in_fuel_ret|]. cbn [rows_next].
  apply in_fuel_bind; [apply in_fuel_row_next|intros st']. apply IH.
Qed.

Lemma in_fuel_frame_next n st : in_fuel (frame_next n st).
Proof.
  unfold frame_next.
  apply in_fuel_bind; [apply in_fuel_wrap, in_fuel_HeaderWOutAtoms|intros box].
  apply in_fuel_bind; [apply in_fuel_readOnly|intros _].
  apply in_fuel_bind; [apply in_fuel_put|intros _]. apply in_fuel_rows_next.
Qed.

(** With more fuel than lines left, the loop does not run out of fuel. *)
Lemma frames_in_fuel n : forall fuel st (s : IO),
  (length s.1 < fuel)%nat -> frames n fuel st s <> Panic "unreachable".
Proof.
  induction fuel as [|fuel IH]; intros st s Hlen; [lia|]. cbn [frames]. unfold bind.
  pose proof (in_fuel_frame_next n st s) as Hq.
  destruct (frame_next n st s) as [[st1 s1]| |] eqn:E; [|done|].
  2:{ intros [= ->]. by apply Hq. }
  apply frame_next_shrinks in E.
  destruct s1.1 as [|l rd1] eqn:Hs1; [done|].
  apply IH. rewrite Hs1. cbn [length] in *. lia.
Qed.

Lemma readCfg_in_fuel n last : in_fuel (readCfg n last).
Proof.
  intros s. unfold readCfg. destruct (atoms n <? 0); [done|].
  apply frames_in_fuel. lia.
Qed.
End nopbc_in_fuel.

Lemma frame_next_takes_header n st (s : nopbc.IO) st1 s1 :
  nopbc.frame_next n st s = Ok (st1, s1) -> (length s1.1 + 8 <= length s.1)%nat.
Proof.
  unfold nopbc.frame_next. unfold bind at 1.
  destruct (wrap "HeaderWOutAtoms" _ s) as [[box s0]| |] eqn:E; [|done..].
  apply (real_wrap _ _ _ _ real_HeaderWOutAtoms) in E as (E0 & E1 & _).
  intros H.
  assert (Hrest : takes (1 + times (nopbc.atoms n)) (1 + times (nopbc.atoms n))
                    (nopbc.readOnly ;;; nopbc.put (nopbc.Raw (nopbc.colsBuf n)) ;;;
                     nopbc.rows_next n box (times (nopbc.atoms n)) 0 st)).
  { apply (takes_bind 1 0 (times (nopbc.atoms n)) (1 + times (nopbc.atoms n)));
      [apply takes_readOnly|intros _].
    apply (takes_bind 0 1 (times (nopbc.atoms n)) (times (nopbc.atoms n)));
      [apply takes_put|intros _].
    apply takes_of_real, real_rows_next. }
  apply Hrest in H as [H1 _]. rewrite H1, E1, !length_drop. lia.
Qed.

(** X28: the frame loop of [readCfg] of [no_pbc] ends on every input:
    a pass that does not fail has taken at least the eight header lines
    off the stream.  In the model, where the loop runs on fuel, the fuel
    that [readCfg] gives it, one more than the lines left, is never used
    up, and more fuel gives the same result. *)
Theorem nopbc_readCfg_ends n :
  (forall st (s : nopbc.IO) st1 s1,
     nopbc.frame_next n st s = Ok (st1, s1) -> (length s1.1 + 8 <= length s.1)%nat)
  /\ (forall last s, nopbc.readCfg n last s <> Panic "unreachable")
  /\ (forall fuel st (s : nopbc.IO),
        (length s.1 < fuel)%nat ->
        nopbc.frames n fuel st s = nopbc.frames n (Datatypes.S (length s.1)) st s).
Proof.
  split; [|split].
  - intros st s st1 s1. apply frame_next_takes_header.
  - intros last s. apply readCfg_in_fuel.
  - intros fuel st s Hlen. apply frames_fuel; lia.
Qed.

Lemma nopbc_readCfg_ends_witness :
  nopbc.frames sample.unwrapper_read 100 ([[0; 9.9; 0]%float], [[0; 0; 0]%float])
    (drop 10 sample.crossing, [])
  = nopbc.frames sample.unwrapper_read 11 ([[0; 9.9; 0]%float], [[0; 0; 0]%float])
      (drop 10 sample.crossing, []).
Proof.
  apply (proj2 (proj2 (nopbc_readCfg_ends sample.unwrapper_read)) 100%nat
           ([[0; 9.9; 0]%float], [[0; 0; 0]%float]) (drop 10 sample.crossing, [])).
  vm_compute. lia.
Defined.

(** ** When [gr.calc] panics *)

Lemma init_inner (a : string) (v : list (list float)) (l : list string) :
  forall (h : gmap (string * string) (list (list float))) a' b,
  fold_left (fun h at2 => <[(a, at2) := v]> h) l h !! (a', b)
  = if decide (a' = a /\ b ∈ l) then Some v else h !! (a', b).
Proof.
  induction l as [|x l IH]; intros h a' b; cbn [fold_left].
  { rewrite decide_False; [done|]. by intros [_ ?%elem_of_nil]. }
  rewrite IH. destruct (decide (a' = a /\ b ∈ l)) as [[-> Hin]|Hn].
  - rewrite decide_True; [done|]. split; [done|by right].
  - destruct (decide (a' = a /\ b = x)) as [[-> ->]|Hne].
    + rewrite lookup_insert_eq, decide_True; [done|]. split; [done|by left].
    + rewrite lookup_insert_ne by (intros [= <- <-]; by apply Hne).
      rewrite decide_False; [done|].
      intros [-> [->|Hin]%elem_of_cons]; [by apply Hne|by apply Hn].
Qed.

Lemma init_outer (v : string -> list (list float)) (L : list (string * list string)) :
  forall (h : gmap (string * string) (list (list float))) a b,
  (exists l, (a, l) ∈ L /\ b ∈ l) \/ h !! (a, b) = Some (v a) ->
  fold_left (fun h (e : string * list string) =>
               fold_left (fun h at2 => <[(e.1, at2) := v e.1]> h) e.2 h) L h !! (a, b)
  = Some (v a).
Proof.
  induction L as [|e L IH]; intros h a b H; cbn [fold_left].
  { destruct H as [(l & ?%elem_of_nil & _)|H]; done. }
  apply IH. rewrite init_inner.
  destruct (decide (a = e.1 /\ b ∈ e.2)) as [[-> Hin]|Hn]; [by right|].
  destruct H as [(l & [Heq|Hl]%elem_of_cons & Hb)|H].
  - destruct Hn. by subst e.
  - left. by exists l.
  - by right.
Qed.

Lemma init_hstg_tables g (xyz : XYZ) :
  tables g (fun a => length (rows_of xyz a)) (gr.init_hstg g xyz).
Proof.
  intros at1 l at2 Hl Hin. unfold gr.init_hstg.
  exists (replicate (length (rows_of xyz at1)) (replicate (times (gr.bins g)) 0%float)).
  split; [|split].
  - apply (init_outer (fun a => replicate (length (rows_of xyz a))
                                  (replicate (times (gr.bins g)) 0%float))).
    left. exists l. split; [by apply elem_of_map_to_list|done].
  - by rewrite length_replicate.
  - apply Forall_replicate. by rewrite length_replicate.
Qed.

Lemma incr_tables g rows c h :
  tables g rows h ->
  (exists l, gr.Atoms g !! c.1.1.1 = Some l /\ c.1.1.2 ∈ l) ->
  (outside g rows c -> gr.incr c h = None)
  /\ (~ outside g rows c -> exists h', gr.incr c h = Some h' /\ tables g rows h').
Proof.
  intros Ht (l & Hl & Hin). destruct c as [[[a b] i] j]. cbn [fst snd] in *.
  destruct (Ht a l b Hl Hin) as (tbl & Htbl & Hlen & Hcols).
  unfold outside, gr.incr. cbn [fst snd]. rewrite Htbl. cbn.
  destruct (Z.ltb_spec j 0) as [Hj|Hj].
  { split; [done|]. intros H. destruct H. left. lia. }
  destruct (tbl !! i) as [row|] eqn:Hrow; cbn.
  2:{ split; [done|]. intros H. destruct H. right.
      apply lookup_ge_None in Hrow. lia. }
  assert (Hrl : length row = times (gr.bins g)).
  { by apply (Forall_lookup_1 _ _ _ _ Hcols Hrow). }
  destruct (row !! Z.to_nat j) as [x|] eqn:Hx; cbn.
  - split.
    + intros [H|H].
      * apply lookup_lt_Some in Hx. unfold times in *. lia.
      * apply lookup_lt_Some in Hrow. lia.
    + intros _. eexists. split; [done|].
      intros at1 l' at2 Hl' Hin'.
      destruct (decide ((a, b) = (at1, at2))) as [[= <- <-]|Hne].
      * rewrite lookup_insert_eq. eexists. split; [done|].
        split; [by rewrite length_insert|].
        apply Forall_insert; [done|]. by rewrite length_insert.
      * rewrite lookup_insert_ne by done. by apply Ht with l'.
  - split; [done|]. intros H. destruct H. left.
    apply lookup_ge_None in Hx. unfold times in *. lia.
Qed.

Lemma cells_pairs g box (xyz : XYZ) :
  Forall (fun c : gr.cell => exists l, gr.Atoms g !! c.1.1.1 = Some l /\ c.1.1.2 ∈ l)
    (gr.cells g box xyz).
Proof.
  apply Forall_forall. intros c Hc. unfold gr.cells in Hc.
  apply list_elem_of_In, in_flat_map in Hc as ([a l] & He & Hc).
  apply list_elem_of_In, elem_of_map_to_list in He.
  apply in_flat_map in Hc as ([i src] & _ & Hc).
  apply in_flat_map in Hc as (at2 & Hat2 & Hc).
  apply in_flat_map in Hc as (x & _ & Hc). cbn [fst snd] in *.
  destruct (gr.bin_of g box src x) as [j|]; [|done].
  destruct Hc as [<-|[]]. cbn. exists l. split; [done|]. by apply list_elem_of_In.
Qed.

Lemma incr_all_tables g rows l : forall h,
  tables g rows h ->
  Forall (fun c : gr.cell => exists l, gr.Atoms g !! c.1.1.1 = Some l /\ c.1.1.2 ∈ l) l ->
  (Exists (outside g rows) l -> gr.incr_all l h = None)
  /\ (~ Exists (outside g rows) l ->
      exists h', gr.incr_all l h = Some h' /\ tables g rows h').
Proof.
  induction l as [|c l IH]; intros h Ht Hp.
  { split; [by intros ?%Exists_nil|]. intros _. by exists h. }
  inversion Hp as [|? ? Hc Hl]; subst.
  destruct (incr_tables g rows c h Ht Hc) as [Hout Hin]. cbn [gr.incr_all].
  split.
  - intros He. destruct (gr.incr c h) as [h1|] eqn:E; [|done]. cbn.
    apply Exists_cons in He as [He|He]; [by specialize (Hout He)|].
    destruct Hin as (h' & Heq & Ht').
    { intros Ho. by specialize (Hout Ho). }
    injection Heq as <-. by apply (IH h1 Ht' Hl).
  - intros Hn. destruct Hin as (h1 & -> & Ht1).
    { intros Ho. apply Hn. by left. }
    cbn. apply (IH h1 Ht1 Hl). intros He. apply Hn. by right.
Qed.

Lemma act_all_incr_all v l : forall g,
  gr.act_all (map gr.Incr l ++ [gr.AddVol v]) g
  = (fun h => gr.set_vol (gr.set_hstg g h) (gr.vol g + v)%float)
      <$> gr.incr_all l (gr.hstg g).
Proof.
  induction l as [|c l IH]; intros g; [done|].
  cbn [map app gr.act_all gr.incr_all gr.act].
  destruct (gr.incr c (gr.hstg g)) as [h1|]; [|done]. cbn.
  by rewrite IH.
Qed.

(** X29: [gr.calc] panics on a frame exactly when one of the pairs it
    counts falls outside the tables of the histogram: its bin is below 0
    or not below [bins], or the row of its source atom is one the tables
    do not have.  The tables [Start] makes after the first frame have,
    for every pair of [Atoms], as many rows as the first frame has atoms
    of the first type and [bins] columns, and a frame that [calc] counts
    leaves that shape as it was. *)
Theorem gr_calc_panics_outside g :
  (forall xyz, tables g (fun a => length (rows_of xyz a)) (gr.init_hstg g xyz))
  /\ (forall rows box xyz, tables g rows (gr.hstg g) ->
        (gr.calc g box xyz = None
         <-> Exists (outside g rows) (gr.cells g box xyz))
        /\ (forall g', gr.calc g box xyz = Some g' -> tables g' rows (gr.hstg g'))).
Proof.
  split; [apply init_hstg_tables|].
  intros rows box xyz Ht. unfold gr.calc, gr.work. cbn [fst snd].
  rewrite act_all_incr_all.
  destruct (incr_all_tables g rows _ _ Ht (cells_pairs g box xyz)) as [Hout Hin].
  split; [split|].
  - intros Hn.
    assert (Hd : forall c, Decision (outside g rows c)).
    { intros c. unfold outside. apply _. }
    destruct (decide (Exists (outside g rows) (gr.cells g box xyz))) as [He|He]; [done|].
    destruct (Hin He) as (h' & Eh & _). by rewrite Eh in Hn.
  - intros He. by rewrite (Hout He).
  - intros g' Hg.
    destruct (gr.incr_all _ _) as [h'|] eqn:Eh; [|done]. injection Hg as <-.
    destruct Hin as (h2 & [= <-] & Ht2); [|exact Ht2].
    intros He. by specialize (Hout He).
Qed.

Lemma gr_calc_panics_outside_witness :
  let g := gr.set_tables sample.rdf (gr.init_hstg sample.rdf sample.tie)
             (gr.init_xyzLen sample.rdf sample.tie) in
  gr.calc g [10; 10; 10]%float sample.tie = None
  <-> Exists (outside g (fun a => length (rows_of sample.tie a)))
        (gr.cells g [10; 10; 10]%float sample.tie).
Proof.
  intros g.
  apply (proj2 (gr_calc_panics_outside g) _ [10; 10; 10]%float sample.tie).
  exact (proj1 (gr_calc_panics_outside sample.rdf) sample.tie).
Defined.

(** ** The positions the unwrapper writes *)

Section unwrapper_frames.
Import nopbc.

Lemma Fields_go_filled s : forall cur x, x ∈ Fields_go cur s -> x <> EmptyString.
Proof.
  induction s as [|c s IH]; intros cur x; cbn [Fields_go].
  - destruct cur as [|a cur]; [by intros ?%elem_of_nil|].
    intros ->%list_elem_of_singleton Hr.
    pose proof (rev_rev (String a cur)) as H. rewrite Hr in H. by vm_compute in H.
  - destruct (is_space c).
    + destruct cur as [|a cur]; [apply IH|].
      intros [->|Hx]%elem_of_cons; [|by eapply IH].
      intros Hr. pose proof (rev_rev (String a cur)) as H. rewrite Hr in H.
      by vm_compute in H.
    + apply IH.
Qed.

Lemma index_filled {S} row i (s : S) v s' :
  index (Fields row) i s = Ok (v, s') -> v <> EmptyString.
Proof.
  unfold index. destruct (Fields row !! i) as [x|] eqn:E; [|done].
  intros [= <- _]. eapply Fields_go_filled, list_elem_of_lookup_2, E.
Qed.

Lemma at3_map3 (f : nat -> float) k : (k < 3)%nat -> at3 (map f [0; 1; 2]%nat) k = f k.
Proof. intros Hk. by do 3 (destruct k as [|k]; [done|]); lia. Qed.

(** One pass of the atom loop of the first frame, when it returns. *)
Lemma row_first_inv n box i st (s : IO) st' s' prev :
  match prev with
  | None => mol st = EmptyString
  | Some (m, p) =>
      mol st = m /\ lastXYZ st = p
      /\ forall k, (k < 3)%nat -> at3 (size st) k = first_threshold n box m k
  end ->
  row_first n box i st s = Ok (st', s') ->
  s.1 = nth 0 s.1 "" :: drop 1 s.1
  /\ first_positions n box prev [nth 0 s.1 ""] = [lastXYZ st']
  /\ mol st' = mol_of (cols n) (nth 0 s.1 "")
  /\ (forall k, (k < 3)%nat -> at3 (size st') k = first_threshold n box (mol st') k)
  /\ s' = (drop 1 s.1,
           s.2 ++ [Atom (tokens n (Fields (nth 0 s.1 "")) (lastXYZ st'))]).
Proof.
  intros Hprev. unfold row_first. rewrite bind_readOnly.
  destruct (negb _); [done|]. unfold bind at 1.
  destruct (index _ _ _) as [[m s1]| |] eqn:Em; [|done..].
  pose proof (index_filled _ _ _ _ _ Em) as Hm.
  apply index_inv in Em as (-> & -> & Hne). unfold bind at 1.
  destruct (coords3 _ _ _) as [[raw s2]| |] eqn:Er; [|done..].
  apply coords3_inv in Er as (-> & ->).
  fold (mol_of (cols n) (nth 0 s.1 "")) in *.
  unfold bind, write, put, ret. cbn [fst snd]. intros [= <- <-].
  split; [by apply Fields_nonempty_row|]. cbn [first_positions].
  destruct (String.eqb_spec (mol_of (cols n) (nth 0 s.1 "")) (mol st)) as [He|He];
    cbn [negb lastXYZ mol size].
  - destruct prev as [[m' p]|]; [|by rewrite He, Hprev in Hm].
    destruct Hprev as (Hm' & Hp & Hsz). subst m' p.
    rewrite He, String.eqb_refl.
    split; [|split; [done|split; [exact Hsz|done]]].
    f_equal. unfold first_threshold in *. cbn [map].
    by rewrite <- !Hsz by lia.
  - split; [|split; [done|split; [|done]]].
    + destruct prev as [[m' p]|]; [|done].
      destruct Hprev as (Hm' & _). subst m'.
      by destruct (String.eqb_spec (mol_of (cols n) (nth 0 s.1 "")) (mol st)).
    + intros k Hk. unfold first_threshold, half.
      destruct (Size n !! _); by do 3 (destruct k as [|k]; [done|]); lia.
Qed.

Lemma imap_shift {A B} (f : nat -> A -> B) (x : A) (l : list A) :
  imap f (x :: l) = f 0%nat x :: imap (fun j => f (Datatypes.S j)) l.
Proof. done. Qed.

Lemma first_positions_cons n box prev row rows :
  first_positions n box prev (row :: rows)
  = hd [] (first_positions n box prev [row])
    :: first_positions n box
         (Some (mol_of (cols n) row, hd [] (first_positions n box prev [row]))) rows.
Proof. done. Qed.

(** The atom loop of the first frame, when it returns. *)
Lemma rows_first_inv n box count : forall i st (s : IO) xyz s' prev,
  match prev with
  | None => mol st = EmptyString
  | Some (m, p) =>
      mol st = m /\ lastXYZ st = p
      /\ forall k, (k < 3)%nat -> at3 (size st) k = first_threshold n box m k
  end ->
  rows_first n box count i st s = Ok (xyz, s') ->
  xyz = first_positions n box prev (take count s.1)
  /\ length xyz = count
  /\ s'.1 = drop count s.1
  /\ s'.2 = s.2 ++ imap (fun j p => Atom (tokens n (Fields (nth j s.1 "")) p)) xyz.
Proof.
  induction count as [|count IH]; intros i st s xyz s' prev Hprev.
  { intros [= <- <-]. cbn. by rewrite app_nil_r. }
  cbn [rows_first]. unfold bind at 1.
  destruct (row_first n box i st s) as [[st1 s1]| |] eqn:E1; [|done..].
  apply (row_first_inv _ _ _ _ _ _ _ prev Hprev) in E1 as (Hs & Hpos & Hmol & Hsz & ->).
  unfold bind.
  destruct (rows_first n box count _ st1 _) as [[xyz1 s2]| |] eqn:E2; [|done..].
  apply (IH _ _ _ _ _ (Some (mol st1, lastXYZ st1))) in E2 as (Hx & Hlen & Hr & Hw);
    [|done].
  cbn [fst snd] in Hx, Hr, Hw. intros [= <- <-].
  rewrite Hs at 1. cbn [take].
  rewrite first_positions_cons, Hpos. cbn [hd]. rewrite <- Hmol, <- Hx.
  split; [done|]. split; [cbn; lia|]. split; [by rewrite Hr, drop_drop|].
  rewrite Hw, <- app_assoc. cbn [app]. rewrite imap_shift. do 2 f_equal.
  apply imap_ext. intros j p _. by rewrite nth_drop.
Qed.

Lemma copies_ret {A} (a : A) : copies 0 (ret a).
Proof. intros s a' s' [= _ <-]. cbn. rewrite app_nil_r. by destruct s. Qed.

Lemma seq_add_map k1 k2 : seq k1 k2 = map (Nat.add k1) (seq 0 k2).
Proof.
  induction k1 as [|k1 IH]; [by rewrite map_id|].
  by rewrite <- seq_shift, IH, map_map.
Qed.

Lemma copies_bind {A B} k1 k2 (m : M IO A) (f : A -> M IO B) :
  copies k1 m -> (forall a, copies k2 (f a)) -> copies (k1 + k2) (bind m f).
Proof.
  intros Hm Hf s b s'. unfold bind.
  destruct (m s) as [[a s1]| |] eqn:E; [|done..].
  intros Hb. apply Hm in E as ->. apply Hf in Hb as ->. cbn [fst snd].
  rewrite drop_drop, <- app_assoc, seq_app, map_app. do 3 f_equal.
  cbn [Nat.add]. rewrite (seq_add_map k1 k2), map_map.
  apply map_ext. intros i. by rewrite nth_drop.
Qed.

Lemma copies_readSlice : copies 1 readSlice.
Proof.
  intros s a s'. unfold readSlice. rewrite bind_readOnly. by intros [= _ <-].
Qed.

Lemma copies_lines k : copies k (repeatM k (bind readSlice (fun _ => ret tt))).
Proof.
  induction k as [|k IH]; [apply copies_ret|]. cbn [repeatM].
  apply (copies_bind 1 k); [|by intros _].
  apply (copies_bind 1 0); [apply copies_readSlice|intros _; apply copies_ret].
Qed.

Lemma io_box_line_eq (s : IO) :
  util.box_line readSlice s =
  if (length (Fields (nth 0 s.1 "")) =? 2)%nat
  then Ok (bound_length s.1 0, (drop 1 s.1, s.2 ++ [Raw (nth 0 s.1 "")]))
  else Err ErrBoxSize.
Proof.
  unfold util.box_line, bound_length, readSlice. unfold bind at 1.
  rewrite bind_readOnly. unfold bind, put, ret. cbn [fst snd].
  by destruct (Fields (nth 0 s.1 "")) as [|lo [|hi [|]]].
Qed.

Lemma copies_box_line : copies 1 (util.box_line readSlice).
Proof.
  intros s a s'. rewrite io_box_line_eq. destruct (_ =? 2)%nat; [|done].
  by intros [= _ <-].
Qed.

Lemma copies_HeaderBox : copies 3 (util.HeaderBox readSlice).
Proof.
  unfold util.HeaderBox.
  apply (copies_bind 1 2); [apply copies_box_line|intros bx].
  apply (copies_bind 1 1); [apply copies_box_line|intros by_].
  apply (copies_bind 1 0); [apply copies_box_line|intros bz]. apply copies_ret.
Qed.

Lemma copies_Header : copies 8 (util.Header readSlice).
Proof.
  unfold util.Header.
  apply (copies_bind 3 5); [apply copies_lines|intros _].
  apply (copies_bind 1 4); [apply copies_readSlice|intros b].
  apply (copies_bind 1 3); [apply copies_readSlice|intros _].
  apply (copies_bind 3 0); [apply copies_HeaderBox|intros box]. apply copies_ret.
Qed.

Lemma copies_HeaderWOutAtoms : copies 8 (util.HeaderWOutAtoms readSlice).
Proof.
  unfold util.HeaderWOutAtoms.
  apply (copies_bind 5 3); [apply copies_lines|intros _]. apply copies_HeaderBox.
Qed.

(** The three lines of bounds, seen from the result of [HeaderBox]. *)
Lemma io_HeaderBox_cases (s : IO) :
  ((forall k, (k < 3)%nat -> length (Fields (nth k s.1 "")) = 2%nat)
   /\ exists s', util.HeaderBox readSlice s = Ok (map (bound_length s.1) [0; 1; 2]%nat, s'))
  \/ ((exists k, (k < 3)%nat /\ length (Fields (nth k s.1 "")) <> 2%nat)
      /\ util.HeaderBox readSlice s = Err ErrBoxSize).
Proof.
  unfold util.HeaderBox, bind. rewrite io_box_line_eq.
  destruct (Nat.eqb_spec (length (Fields (nth 0 s.1 ""))) 2) as [H0|H0];
    [|right; split; [exists 0%nat; split; [lia|done]|done]].
  rewrite io_box_line_eq. cbn [fst snd]. rewrite nth_drop. cbn [Nat.add].
  destruct (Nat.eqb_spec (length (Fields (nth 1 s.1 ""))) 2) as [H1|H1];
    [|right; split; [exists 1%nat; split; [lia|done]|done]].
  rewrite io_box_line_eq. cbn [fst snd]. rewrite drop_drop, nth_drop. cbn [Nat.add].
  destruct (Nat.eqb_spec (length (Fields (nth 2 s.1 ""))) 2) as [H2|H2];
    [|right; split; [exists 2%nat; split; [lia|done]|done]].
  left. split.
  - intros k Hk. by do 3 (destruct k as [|k]; [done|]); lia.
  - eexists. unfold ret, bound_length. cbn [map]. by rewrite !nth_drop, !drop_drop.
Qed.

Lemma frame_box_eq (rd : list string) :
  frame_box rd = map (bound_length (drop 5 rd)) [0; 1; 2]%nat.
Proof. done. Qed.

(** The header of a first frame, when it is read: the box is that of
    the lines of bounds. *)
Lemma io_Header_inv (s : IO) a box s' :
  util.Header readSlice s = Ok ((a, box), s') -> box = frame_box s.1.
Proof.
  unfold util.Header. unfold bind at 1.
  destruct (repeatM 3 _ s) as [[[] s1]| |] eqn:E1; [|done..].
  apply copies_lines in E1 as ->. unfold bind at 1.
  destruct (readSlice _) as [[b s2]| |] eqn:E2; [|done..].
  apply copies_readSlice in E2 as ->. unfold bind at 1.
  destruct (readSlice _) as [[b' s3]| |] eqn:E3; [|done..].
  apply copies_readSlice in E3 as ->. cbn [fst snd]. unfold bind.
  match goal with |- context [util.HeaderBox readSlice ?s4] =>
    destruct (io_HeaderBox_cases s4) as [[_ [s5 ->]]|[_ ->]]; [|done] end.
  cbn [fst]. rewrite !drop_drop. by intros [= _ <- _].
Qed.

Lemma take_seq_nth {A} (d : A) k : forall l : list A,
  (k <= length l)%nat -> map (fun i => nth i l d) (seq 0 k) = take k l.
Proof.
  induction k as [|k IH]; intros l Hk; [done|].
  destruct l as [|x l]; [cbn in Hk; lia|].
  cbn [seq map take nth]. f_equal. rewrite <- seq_shift, map_map.
  apply IH. cbn in Hk. lia.
Qed.

Lemma peek_output read (s : IO) u s' : peek read s = Ok (u, s') -> s'.2 = s.2.
Proof.
  unfold peek. destruct s.1; [destruct (last_byte read)|]; by intros [= _ <-].
Qed.

(** The first frame, when [readCfgFirst] returns: the positions it
    returns and the rows it writes. *)
Lemma readCfgFirst_inv n (s : IO) n' xyz s' :
  readCfgFirst n s = Ok ((n', xyz), s') ->
  xyz = first_positions n' (frame_box s.1) None
          (take (times (atoms n')) (drop 9 s.1))
  /\ Size n' = Size n
  /\ s'.2 = s.2 ++ frame_output n' s.1 xyz.
Proof.
  unfold readCfgFirst. unfold bind at 1.
  destruct (wrap "Header" _ s) as [[[a box] s1]| |] eqn:Eh; [|done..].
  unfold wrap in Eh.
  destruct (util.Header readSlice s) as [[[a1 box1] s1']| |] eqn:E; [|done..].
  injection Eh as -> -> ->.
  pose proof (real_Header _ _ _ E) as (H8 & _ & _).
  pose proof (io_Header_inv _ _ _ _ E) as ->.
  apply copies_Header in E as ->.
  rewrite bind_readOnly. cbn [fst snd].
  destruct (_ <=? 2)%nat; [done|].
  destruct (scan_header _) as [[c found] buf]. unfold bind at 1.
  cbn [put fst snd]. destruct (found <? 4)%nat; [done|]. unfold bind at 1.
  destruct (rows_first _ _ _ _ _ _) as [[xyz1 s2]| |] eqn:Er; [|done..].
  apply (rows_first_inv _ _ _ _ _ _ _ _ None) in Er as (Hx & _ & _ & Hw); [|done].
  cbn [fst snd] in Hx, Hw. rewrite drop_drop in Hx.
  unfold bind. destruct (peek s.1 s2) as [[[] s3]| |] eqn:Ep; [|done..].
  apply peek_output in Ep. intros [= <- <- <-]. cbn [atoms Size set_header].
  split; [exact Hx|]. split; [done|].
  rewrite Ep, Hw. unfold frame_output. cbn [colsBuf set_header].
  rewrite <- (take_seq_nth "" 8 s.1 H8), map_map, <- !app_assoc. do 3 f_equal.
  apply imap_ext. intros j p _. by rewrite !nth_drop.
Qed.
End unwrapper_frames.

Section unwrapper_later.
Import nopbc.

Lemma axis_next_corr len t p c raw :
  (axis_next len t p c raw).2 = correction_rule len t p (raw + c)%float c.
Proof.
  unfold axis_next, correction_rule.
  destruct (t <? p - (raw + c))%float; [done|].
  by destruct (p - (raw + c) <? - t)%float.
Qed.

Lemma row_next_full n box i last corr p c (s : IO) :
  cols_in_range (cols n) (colsLen n) ->
  length (Fields (nth 0 s.1 "")) = colsLen n ->
  last !! i = Some p -> corr !! i = Some c ->
  row_next n box i (last, corr) s =
  Ok ((<[i := unwrapped (cols n) box p c (nth 0 s.1 "")]> last,
       <[i := corrected (cols n) box p c (nth 0 s.1 "")]> corr),
      (drop 1 s.1,
       s.2 ++ [Atom (tokens n (Fields (nth 0 s.1 ""))
                       (unwrapped (cols n) box p c (nth 0 s.1 "")))])).
Proof.
  intros Hc Hlen Hp Hcorr. unfold row_next. rewrite bind_readOnly.
  rewrite Hlen, Nat.eqb_refl. cbn [negb]. rewrite <- Hlen in Hc.
  rewrite (bind_Ok _ _ _ _ _ (coords3_eq _ _ _ Hc)).
  rewrite Hp, Hcorr. unfold bind, write, put, ret. cbn [fst snd].
  assert (Hu : map fst (map (fun k => axis_next (at3 box k) (at3 (half box) k) (at3 p k)
                                        (at3 c k)
                                        (at3 (map (coord (cols n) (nth 0 s.1 "")) [0; 1; 2]%nat) k))
                          [0; 1; 2]%nat)
               = unwrapped (cols n) box p c (nth 0 s.1 "")).
  { cbn [map]. unfold unwrapped. cbn [map]. by rewrite !axis_next_rule. }
  assert (Hv : map snd (map (fun k => axis_next (at3 box k) (at3 (half box) k) (at3 p k)
                                        (at3 c k)
                                        (at3 (map (coord (cols n) (nth 0 s.1 "")) [0; 1; 2]%nat) k))
                          [0; 1; 2]%nat)
               = corrected (cols n) box p c (nth 0 s.1 "")).
  { cbn [map]. unfold corrected. cbn [map]. by rewrite !axis_next_corr. }
  by rewrite Hu, Hv.
Qed.

Lemma rows_next_full n box : forall count i0 last corr (s : IO),
  cols_in_range (cols n) (colsLen n) ->
  (forall j, (j < count)%nat -> length (Fields (nth j s.1 "")) = colsLen n) ->
  (i0 + count <= length last)%nat -> (i0 + count <= length corr)%nat ->
  exists last' corr' w,
    rows_next n box count i0 (last, corr) s = Ok ((last', corr'), (drop count s.1, s.2 ++ w))
    /\ length last' = length last /\ length corr' = length corr /\ length w = count
    /\ (forall i, (i < i0)%nat -> last' !! i = last !! i /\ corr' !! i = corr !! i)
    /\ forall j, (j < count)%nat ->
         nth (i0 + j) last' [] =
           unwrapped (cols n) box (nth (i0 + j) last []) (nth (i0 + j) corr [])
             (nth j s.1 "")
         /\ nth (i0 + j) corr' [] =
           corrected (cols n) box (nth (i0 + j) last []) (nth (i0 + j) corr [])
             (nth j s.1 "")
         /\ w !! j = Some (Atom (tokens n (Fields (nth j s.1 "")) (nth (i0 + j) last' []))).
Proof.
  induction count as [|count IH]; intros i0 last corr s Hc Hrows Hl1 Hl2.
  { exists last, corr, []. cbn [rows_next ret drop]. rewrite app_nil_r.
    destruct s. repeat split; try done. all: lia. }
  destruct (lookup_lt_is_Some_2 last i0) as [p Hp]; [lia|].
  destruct (lookup_lt_is_Some_2 corr i0) as [c Hcorr]; [lia|].
  pose proof (row_next_full n box i0 last corr p c s Hc (Hrows 0%nat ltac:(lia)) Hp Hcorr)
    as Hrow.
  cbn [rows_next]. rewrite (bind_Ok _ _ _ _ _ Hrow).
  set (p' := unwrapped (cols n) box p c (nth 0 s.1 "")) in *.
  set (c' := corrected (cols n) box p c (nth 0 s.1 "")) in *.
  destruct (IH (Datatypes.S i0) (<[i0 := p']> last) (<[i0 := c']> corr)
              (drop 1 s.1, s.2 ++ [Atom (tokens n (Fields (nth 0 s.1 "")) p')]) Hc)
    as (last' & corr' & w & Hrun & Hlen1 & Hlen2 & Hlen3 & Hkeep & Hj).
  { intros j Hlt. cbn [fst]. rewrite nth_drop. apply Hrows. lia. }
  { rewrite length_insert. lia. }
  { rewrite length_insert. lia. }
  cbn [fst snd] in *. rewrite drop_drop, <- app_assoc in Hrun.
  exists last', corr', (Atom (tokens n (Fields (nth 0 s.1 "")) p') :: w).
  rewrite length_insert in Hlen1, Hlen2.
  split; [exact Hrun|]. split; [done|]. split; [done|]. split; [cbn; lia|]. split.
  { intros i Hi. destruct (Hkeep i ltac:(lia)) as [-> ->].
    by rewrite !list_lookup_insert_ne by lia. }
  assert (H0 : nth i0 last' [] = p' /\ nth i0 corr' [] = c').
  { rewrite !nth_lookup. destruct (Hkeep i0 ltac:(lia)) as [-> ->].
    by rewrite !list_lookup_insert_eq by lia. }
  destruct H0 as [H0 H0'].
  intros j Hlt. destruct j as [|j].
  - rewrite Nat.add_0_r, H0, H0'.
    rewrite (nth_lookup last), (nth_lookup corr), Hp, Hcorr. done.
  - destruct (Hj j ltac:(lia)) as (Hpos & Hcor & Hout).
    rewrite nth_drop in Hpos, Hcor, Hout.
    replace (i0 + Datatypes.S j)%nat with (Datatypes.S i0 + j)%nat by lia.
    split; [|split; [|exact Hout]].
    + rewrite Hpos, !(nth_lookup (<[_ := _]> _)).
      by rewrite !list_lookup_insert_ne, <- !nth_lookup by lia.
    + rewrite Hcor, !(nth_lookup (<[_ := _]> _)).
      by rewrite !list_lookup_insert_ne, <- !nth_lookup by lia.
Qed.

Lemma lines_Ok k : forall s : IO,
  exists s', repeatM k (bind readSlice (fun _ => ret tt)) s = Ok (tt, s').
Proof.
  induction k as [|k IH]; intros s; [by eexists|]. cbn [repeatM].
  unfold bind at 1 2. unfold readSlice at 1. rewrite bind_readOnly.
  unfold bind at 1 2, put, ret. cbn [fst snd]. apply IH.
Qed.

Lemma io_HeaderWOutAtoms_eq (s : IO) :
  (forall k, (k < 3)%nat -> length (Fields (nth (5 + k) s.1 "")) = 2%nat) ->
  util.HeaderWOutAtoms readSlice s =
  Ok (frame_box s.1, (drop 8 s.1, s.2 ++ map (fun i => Raw (nth i s.1 "")) (seq 0 8))).
Proof.
  intros Hb.
  destruct (util.HeaderWOutAtoms readSlice s) as [[box s']| |] eqn:E.
  - pose proof (copies_HeaderWOutAtoms _ _ _ E) as ->. do 2 f_equal.
    revert E. unfold util.HeaderWOutAtoms. unfold bind at 1.
    destruct (lines_Ok 5 s) as [s1 E1]. rewrite E1.
    apply copies_lines in E1 as ->.
    match goal with |- context [util.HeaderBox readSlice ?s4] =>
      destruct (io_HeaderBox_cases s4) as [[_ [s5 ->]]|[_ ->]]; [|done] end.
    by intros [= <- _].
  - revert E. unfold util.HeaderWOutAtoms. unfold bind at 1.
    destruct (lines_Ok 5 s) as [s1 E1]. rewrite E1.
    apply copies_lines in E1 as ->.
    match goal with |- context [util.HeaderBox readSlice ?s4] =>
      destruct (io_HeaderBox_cases s4) as [[_ [s5 ->]]|[[k [Hk Hne]] _]]; [done|] end.
    cbn [fst] in Hne. rewrite nth_drop in Hne. by destruct (Hne (Hb k Hk)).
  - revert E. unfold util.HeaderWOutAtoms. unfold bind at 1.
    destruct (lines_Ok 5 s) as [s1 E1]. rewrite E1.
    apply copies_lines in E1 as ->.
    match goal with |- context [util.HeaderBox readSlice ?s4] =>
      destruct (io_HeaderBox_cases s4) as [[_ [s5 ->]]|[_ ->]]; done end.
Qed.

Lemma nth_app_l {A} (d : A) i (l l' : list A) :
  (i < length l)%nat -> nth i (l ++ l') d = nth i l d.
Proof. intros Hi. by rewrite app_nth1. Qed.

Lemma frame_box_app frame rest :
  (8 <= length frame)%nat -> frame_box (frame ++ rest) = frame_box frame.
Proof.
  intros H8. unfold frame_box, bound_length. cbn [map].
  by rewrite !nth_drop, !nth_app_l by lia.
Qed.

(** One pass of the frame loop on a frame that can be decoded. *)
Lemma frame_next_full n last corr frame rest w :
  cols_in_range (cols n) (colsLen n) -> later_ok n frame ->
  length last = times (atoms n) -> length corr = times (atoms n) ->
  frame_next n (last, corr) (frame ++ rest, w) =
  Ok (later_frame (cols n) (last, corr) frame,
      (rest, w ++ frame_output n frame (later_frame (cols n) (last, corr) frame).1)).
Proof.
  intros Hc (Hlen & Hbox & Hrows) Hl1 Hl2. unfold frame_next.
  unfold bind at 1. unfold wrap. rewrite io_HeaderWOutAtoms_eq.
  2:{ intros k Hk. cbn [fst]. rewrite nth_app_l by lia. by apply Hbox. }
  cbn [fst snd]. rewrite bind_readOnly. unfold bind at 1. cbn [put fst snd].
  rewrite drop_drop. cbn [Nat.add].
  rewrite frame_box_app by lia.
  destruct (rows_next_full n (frame_box frame) (times (atoms n)) 0 last corr
              (drop 9 (frame ++ rest),
               (w ++ map (fun i => Raw (nth i (frame ++ rest) "")) (seq 0 8))
               ++ [Raw (colsBuf n)]) Hc)
    as (last' & corr' & out & Hrun & Hlen1 & Hlen2 & Hlen3 & _ & Hj).
  { intros j Hlt. cbn [fst]. rewrite nth_drop, nth_app_l by lia. by apply Hrows. }
  { cbn. lia. }
  { cbn. lia. }
  refine (eq_trans Hrun _). cbn [fst snd]. rewrite drop_drop.
  replace (9 + times (atoms n))%nat with (length frame + 0)%nat by lia.
  rewrite drop_app_add, drop_0.
  assert (Hlast : last' = (later_frame (cols n) (last, corr) frame).1).
  { cbn [later_frame fst snd]. apply list_eq. intros i.
    rewrite list_lookup_imap.
    destruct (last !! i) as [p|] eqn:Hp.
    - pose proof (lookup_lt_Some _ _ _ Hp) as Hi.
      destruct (Hj i ltac:(lia)) as (Hpos & _ & _). cbn [Nat.add fst] in Hpos.
      rewrite nth_drop, nth_app_l in Hpos by lia.
      rewrite (nth_lookup_Some _ _ _ _ Hp) in Hpos. cbn [fmap option_fmap option_map].
      rewrite <- Hpos. destruct (nth_lookup_or_length last' i []) as [H|H]; [exact H|lia].
    - cbn. apply lookup_ge_None. apply lookup_ge_None in Hp. lia. }
  assert (Hcorr : corr' = (later_frame (cols n) (last, corr) frame).2).
  { cbn [later_frame fst snd]. apply list_eq. intros i.
    rewrite list_lookup_imap.
    destruct (corr !! i) as [c|] eqn:Hp.
    - pose proof (lookup_lt_Some _ _ _ Hp) as Hi.
      destruct (Hj i ltac:(lia)) as (_ & Hcor & _). cbn [Nat.add fst] in Hcor.
      rewrite nth_drop, nth_app_l in Hcor by lia.
      rewrite (nth_lookup_Some _ _ _ _ Hp) in Hcor. cbn [fmap option_fmap option_map].
      rewrite <- Hcor. destruct (nth_lookup_or_length corr' i []) as [H|H]; [exact H|lia].
    - cbn. apply lookup_ge_None. apply lookup_ge_None in Hp. lia. }
  assert (Hout : out = imap (fun j p => Atom (tokens n (Fields (nth (9 + j) frame "")) p)) last').
  { apply list_eq. intros i. rewrite list_lookup_imap.
    destruct (last' !! i) as [p|] eqn:Hp.
    - pose proof (lookup_lt_Some _ _ _ Hp) as Hi.
      destruct (Hj i ltac:(lia)) as (_ & _ & Ho). cbn [Nat.add fst] in Ho.
      rewrite nth_drop, nth_app_l in Ho by lia.
      by rewrite Ho, (nth_lookup_Some _ _ _ _ Hp).
    - cbn. apply lookup_ge_None. apply lookup_ge_None in Hp. lia. }
  unfold frame_output, later_frame in *. cbn [fst snd] in *. rewrite <- Hlast, <- Hcorr, Hout.
  rewrite <- (take_seq_nth "" 8 frame), map_map by lia.
  rewrite <- !app_assoc. do 4 f_equal. f_equal.
  apply map_ext_in. intros i Hi%in_seq. by rewrite nth_app_l by lia.
Qed.
End unwrapper_later.

Section unwrapper_loop.
Import nopbc.

Lemma later_frame_length cols st frame :
  length (later_frame cols st frame).1 = length st.1
  /\ length (later_frame cols st frame).2 = length st.2.
Proof. unfold later_frame. cbn [fst snd]. by rewrite !length_imap. Qed.

(** The frame loop on frames that can be decoded: each pass starts from
    the state that the pass before it leaves. *)
Lemma frames_full n : forall fs fuel st w,
  cols_in_range (cols n) (colsLen n) -> Forall (later_ok n) fs -> fs <> [] ->
  (length fs <= fuel)%nat ->
  length st.1 = times (atoms n) -> length st.2 = times (atoms n) ->
  frames n fuel st (concat fs, w) = Ok (tt, ([], w ++ later_frames n st fs)).
Proof.
  induction fs as [|f fs IH]; intros fuel st w Hc Hok Hne Hfuel Hl1 Hl2; [done|].
  destruct fuel as [|fuel]; [cbn in Hfuel; lia|].
  inversion Hok as [|? ? Hf Hfs]; subst.
  cbn [frames concat later_frames]. unfold bind. destruct st as [last corr].
  rewrite (frame_next_full n last corr f (concat fs) w Hc Hf Hl1 Hl2).
  cbn [fst snd] in *.
  destruct (later_frame_length (cols n) (last, corr) f) as [Hn1 Hn2].
  destruct fs as [|f2 fs].
  - cbn [concat later_frames]. by rewrite app_nil_r.
  - assert (Hcat : exists l rd, concat (f2 :: fs) = l :: rd).
    { inversion Hfs as [|? ? (Hlen & _) _]; subst.
      destruct f2 as [|l f2]; [cbn in Hlen; lia|]. by eexists _, _. }
    destruct Hcat as (l & rd & Hcat). rewrite Hcat, <- Hcat.
    rewrite IH; [by rewrite <- app_assoc|done|done|done|cbn in *; lia|..].
    + by rewrite Hn1.
    + by rewrite Hn2.
Qed.

Lemma concat_frames_length n fs :
  Forall (later_ok n) fs -> (length fs <= length (concat fs))%nat.
Proof.
  induction 1 as [|f fs (Hlen & _) _ IH]; [done|].
  cbn [concat length]. rewrite length_app. lia.
Qed.
End unwrapper_loop.

(** C4 as stated fails: molecule 1 has the threshold 1 in [Size], and in
    the second frame of [crossing] its atom moves from [x = 0] to [x = 2]
    in a box of length 10.  Were the threshold of the first encounter the
    one used in the second frame, the test would take off a box length
    and write -8; [readCfg] tests against half the box length and writes
    2. *)
Lemma override_not_used_later :
  ~ (forall n rd f2 n' xyz s1 s2,
       length rd = (9 + length xyz)%nat -> length f2 = (9 + length xyz)%nat ->
       nopbc.readCfgFirst n (rd ++ f2, []) = Ok ((n', xyz), s1) ->
       nopbc.readCfg n' xyz s1 = Ok (tt, s2) ->
       s2.2 = s1.2 ++ frame_output n' f2
                (imap (fun j p =>
                         map (fun k =>
                                unwrap_rule (at3 (frame_box f2) k)
                                  (first_threshold n' (frame_box rd)
                                     (mol_of (nopbc.cols n') (nth (9 + j) rd "")) k)
                                  (at3 p k)
                                  (coord (nopbc.cols n') (nth (9 + j) f2 "") k + 0)%float)
                             [0; 1; 2]%nat)
                      xyz)).
Proof.
  intros H.
  specialize (H sample.unwrapper_sized (take 10 sample.crossing) (drop 10 sample.crossing)).
  rewrite take_drop in H.
  destruct (nopbc.readCfgFirst sample.unwrapper_sized (sample.crossing, []))
    as [[[n' xyz] s1]| |] eqn:E1; [|vm_compute in E1; discriminate..].
  destruct (nopbc.readCfg n' xyz s1) as [[[] s2]| |] eqn:E2.
  - specialize (H n' xyz s1 s2). vm_compute in E1. injection E1 as <- <- <-.
    vm_compute in E2. injection E2 as <-.
    specialize (H eq_refl eq_refl eq_refl eq_refl). vm_compute in H. discriminate H.
  - vm_compute in E1. injection E1 as <- <- <-. vm_compute in E2. discriminate.
  - vm_compute in E1. injection E1 as <- <- <-. vm_compute in E2. discriminate.
Qed.

(** C4, amended.  In the first frame a row whose molecule id is not that
    of the row before it starts a molecule: its position is kept as read,
    and the threshold of the molecule (its entry in [Size], or else half
    the box length of the frame) is the threshold of the wrap tests of the
    rows that follow in that molecule, each tested against the position
    of the row before it; these are the positions [readCfgFirst] returns
    and writes.  In the frames after the first, [Size] plays no part:
    [readCfg] tests every atom against its own position in the frame
    before, with half the box length of the frame it is reading, and
    writes the positions so obtained. *)
Theorem threshold_used :
  (forall n (s s' : nopbc.IO) n' xyz,
     nopbc.readCfgFirst n s = Ok ((n', xyz), s') ->
     xyz = first_positions n' (frame_box s.1) None
             (take (times (nopbc.atoms n')) (drop 9 s.1))
     /\ nopbc.Size n' = nopbc.Size n
     /\ s'.2 = s.2 ++ frame_output n' s.1 xyz)
  /\ (forall n last fs w,
        cols_in_range (nopbc.cols n) (nopbc.colsLen n) ->
        0 <= nopbc.atoms n -> length last = times (nopbc.atoms n) ->
        fs <> [] -> Forall (later_ok n) fs ->
        nopbc.readCfg n last (concat fs, w) =
        Ok (tt, ([], w ++ later_frames n
                            (last, replicate (times (nopbc.atoms n)) [0; 0; 0]%float) fs)))
  /\ (forall n sz last s,
        nopbc.readCfg (nopbc.with_size n sz) last s = nopbc.readCfg n last s).
Proof.
  split; [|split; [|exact readCfg_size]].
  - intros n s s' n' xyz. apply readCfgFirst_inv.
  - intros n last fs w Hc Ha Hl Hne Hok. unfold nopbc.readCfg.
    destruct (Z.ltb_spec (nopbc.atoms n) 0); [lia|]. cbn [fst].
    apply frames_full; try done.
    + pose proof (concat_frames_length n fs Hok). lia.
    + cbn [snd]. by rewrite length_replicate.
Qed.

(** The three frames of [drift] with the threshold 1 for molecule 1.  In
    the first frame the second row of molecule 1, at [y = 1] after
    [y = 3], is moved to 11 (half the box length, 5, would leave it) and
    the row of molecule 2 is kept.  In the second frame, whose box is 20
    long, the first atom goes from 3 to 9 and is left there (the threshold
    1, or half the box of the first frame, would move it); in the third it
    goes from 9 to 2 and is moved to 12 (against its position in the first
    frame, 3, it would be left). *)
Lemma threshold_used_witness :
  exists n' s1,
    nopbc.readCfgFirst sample.unwrapper_sized
      (sample.drift_first ++ concat sample.drift_later, [])
    = Ok ((n', [[0; 3; 0]; [0; 11; 0]; [0; 9; 0]]%float), s1)
    /\ nopbc.readCfg n' [[0; 3; 0]; [0; 11; 0]; [0; 9; 0]]%float
         (concat sample.drift_later, s1.2)
       = Ok (tt, ([], s1.2 ++ later_frames n'
                                ([[0; 3; 0]; [0; 11; 0]; [0; 9; 0]]%float,
                                 replicate (times (nopbc.atoms n')) [0; 0; 0]%float)
                                sample.drift_later))
    /\ (later_frame (nopbc.cols n')
          ([[0; 3; 0]; [0; 11; 0]; [0; 9; 0]]%float, replicate 3 [0; 0; 0]%float)
          (nth 0 sample.drift_later [])).1
       = [[0; 9; 0]; [0; 1; 0]; [0; 1; 0]]%float
    /\ (later_frame (nopbc.cols n')
          (later_frame (nopbc.cols n')
             ([[0; 3; 0]; [0; 11; 0]; [0; 9; 0]]%float, replicate 3 [0; 0; 0]%float)
             (nth 0 sample.drift_later []))
          (nth 1 sample.drift_later [])).1
       = [[0; 12; 0]; [0; 1; 0]; [0; 1; 0]]%float.
Proof.
  destruct (nopbc.readCfgFirst sample.unwrapper_sized
              (sample.drift_first ++ concat sample.drift_later, []))
    as [[[n' xyz] s1]| |] eqn:E1; [|vm_compute in E1; discriminate..].
  destruct (proj1 threshold_used _ _ _ _ _ E1) as (Hx & _ & _).
  assert (Hn : n' = nopbc.set_header sample.unwrapper_sized 3 [2; 3; 4; 1]%nat
                      ("ITEM: ATOMS id mol xu yu zu " ++ sample.nl) 5).
  { vm_compute in E1. injection E1 as <- _ _. vm_compute. reflexivity. }
  subst n'.
  assert (Hxyz : xyz = [[0; 3; 0]; [0; 11; 0]; [0; 9; 0]]%float).
  { rewrite Hx. vm_compute. reflexivity. }
  clear Hx. subst xyz.
  eexists _, s1. split; [reflexivity|]. split; [|split].
  - apply (proj1 (proj2 threshold_used)).
    + intros k. do 5 (destruct k as [|k]; [cbn; lia|]). cbn. lia.
    + cbn. lia.
    + reflexivity.
    + discriminate.
    + repeat constructor.
      all: intros k Hk; do 3 (destruct k as [|k]; [vm_compute; reflexivity|]);
        vm_compute in Hk; lia.
  - vm_compute. reflexivity.
  - vm_compute. reflexivity.
Defined.
